(** * wjdr-cdk-go: the asynchronous redemption engine

    A shallow embedding of the Go sources of the gift-code redemption
    back end, and the properties of its specification proved (or refuted)
    against that embedding.

    - [GameClient]: response classification of [Login], [GetCaptcha] and
      [RedeemCode] (internal/client/game_client.go);
    - [Automation]: [tryOnceNoCooldown] and the scheduling loop of
      [RedeemBatch] (the automation service of package client);
    - [Gate]: the one-slot channel [accountRedeemGate] and the flows that
      use it, under an interleaving semantics;
    - [JobQueue]: [RetryJob] and [IncrementJobRetries];
    - [OCR]: [Reload] and [pick] of the OCR key manager;
    - [LogRepo]: [ReplaceRedeemLog].

    Conventions.  A Go [int] is a 64-bit two's-complement integer: it is a
    [Z] and every arithmetic operation of the source that can leave the
    range is followed by [wrap64].  A [time.Time] is a [Z] counting
    nanoseconds on the process clock, a [time.Duration] is a [Z] of
    nanoseconds.  Log statements have no effect on the results and are
    left out. *)

From Stdlib Require Import ZArith Lia String Ascii List QArith Qround Permutation.
From stdpp Require Import base list strings pretty.

Local Open Scope Z_scope.

(** ** Go integers and durations *)

Definition wrap64 (z : Z) : Z := (z + 2 ^ 63) mod 2 ^ 64 - 2 ^ 63.

(** [x++] on an [int]. *)
Definition incr (x : Z) : Z := wrap64 (x + 1).

(** The conversion [int(v)] of a [float64] whose integral part is [z].
    When [z] is outside the range of [int] the language leaves the result
    to the implementation; the conversion instruction of amd64 gives the
    smallest [int]. *)
Definition toInt64 (z : Z) : Z :=
  if (- 2 ^ 63 <=? z) && (z <? 2 ^ 63) then z else - 2 ^ 63.

Definition Millisecond : Z := 1000000.
Definition Second : Z := 1000 * Millisecond.

(** [strconv.Atoi]: an optional sign followed by at least one decimal
    digit, and a value that fits a 64-bit [int]. *)

Definition digitVal (c : ascii) : option Z :=
  let n := Z.of_N (N_of_ascii c) in
  if (48 <=? n) && (n <=? 57) then Some (n - 48) else None.

Fixpoint parseDigits (s : string) (acc : Z) : option Z :=
  match s with
  | EmptyString => Some acc
  | String c rest =>
      match digitVal c with
      | Some d => parseDigits rest (acc * 10 + d)
      | None => None
      end
  end.

Definition parseUnsigned (s : string) : option Z :=
  match s with
  | EmptyString => None
  | _ => parseDigits s 0
  end.

Definition Atoi (s : string) : option Z :=
  let signed :=
    match s with
    | String "-"%char rest => Z.opp <$> parseUnsigned rest
    | String "+"%char rest => parseUnsigned rest
    | _ => parseUnsigned s
    end in
  match signed with
  | Some n => if (- 2 ^ 63 <=? n) && (n <? 2 ^ 63) then Some n else None
  | None => None
  end.

(** ** The game API client *)

Module GameClient.

(** A JSON value as [encoding/json] hands it to an [interface{}] field:
    [nil], a string, or a number.  A number is a [float64] in Go:
    [JNumber n] is the [float64] the decoder has made of the JSON text,
    for a text that gives an integral value [n] (the game API sends
    integral codes).  The decoder rounds: the [float64] of a literal of
    magnitude above [2 ^ 53] need not be the literal.  [int(v)] of that
    [float64] is [toInt64 n].  Any other value (boolean, array, object) is
    [JOther] with its [%v] rendering. *)
Inductive JsonAny :=
| JNull
| JString (s : string)
| JNumber (n : Z)
| JOther (shown : string).

(** The [data] member of a response, restricted to its string-valued
    members (the only ones the callers read). *)
Definition JsonObject := list (string * string).

Fixpoint member (k : string) (o : JsonObject) : string :=
  match o with
  | [] => ""
  | (k', v) :: rest => if String.eqb k k' then v else member k rest
  end.

Record GameResponse := mkGameResponse {
  Code : Z;
  RespErrCode : JsonAny;
  Msg : JsonAny;
  RespData : JsonObject
}.

Record GameResult := mkGameResult {
  Success : bool;
  Data : JsonObject;
  Error : string;
  ErrCode : Z;
  IsFatal : bool
}.

(** What one HTTP exchange can come to, in the order the client tests it. *)
Inductive HttpOutcome :=
| NewRequestError (e : string)
| TransportError (e : string)
| ReadError (status : Z)
| Response (status : Z) (decoded : option GameResponse).

Definition StatusOK : Z := 200.

Definition parseErrCode (errCodeAny : JsonAny) : Z :=
  match errCodeAny with
  | JNull => 0
  | JNumber n => toInt64 n
  | JString v =>
      if String.eqb v "" then 0
      else match Atoi v with Some n => n | None => 0 end
  | JOther s => match Atoi s with Some n => n | None => 0 end
  end.

Definition errorMap : list (Z * string) :=
  [ (20000, "兑换成功"); (40005, "超出领取次数"); (40006, "不满足活动领取条件");
    (40007, "兑换码已过期"); (40008, "已经兑换过此礼品码");
    (40011, "已兑换过同类型兑换码"); (40009, "登录状态失效");
    (40014, "兑换码不存在"); (40102, "验证码过期"); (40100, "验证码获取过多");
    (40101, "服务器繁忙"); (40103, "验证码错误"); (40001, "参数错误");
    (40002, "签名错误") ]%string.

Fixpoint lookupCode (c : Z) (m : list (Z * string)) : option string :=
  match m with
  | [] => None
  | (k, v) :: rest => if k =? c then Some v else lookupCode c rest
  end.

Definition getErrorMessage (errCode : Z) : string :=
  match lookupCode errCode errorMap with
  | Some msg => msg
  | None => "未知错误 (" +:+ pretty errCode +:+ ")"
  end.

Definition messageToString (msg : JsonAny) : string :=
  match msg with
  | JNull => ""
  | JString v => v
  | JNumber n => pretty n
  | JOther s => s
  end.

Definition isFatalError (errCode : Z) : bool :=
  (errCode =? 40007) || (errCode =? 40014).

Definition isSuccess (errCode : Z) : bool := errCode =? 20000.

Definition orElse (s fallback : string) : string :=
  if String.eqb s "" then fallback else s.

Definition busy : GameResult :=
  mkGameResult false [] "服务器繁忙" 40101 false.

(** A call returns either a result or a Go [error]. *)
Definition Call := (GameResult + string)%type.

(** The part of [Login], [GetCaptcha] and [RedeemCode] that is the same in
    the three: from the request to the decoded body.  [k] is the rest of
    the function. *)
Definition exchange (h : HttpOutcome) (k : GameResponse -> GameResult) : Call :=
  match h with
  | NewRequestError e => inr e
  | TransportError e => inl (mkGameResult false [] e 0 false)
  | ReadError _ => inl busy
  | Response status decoded =>
      if negb (status =? StatusOK) then inl busy
      else match decoded with
           | None => inl busy
           | Some gameResp => inl (k gameResp)
           end
  end.

Definition Login (h : HttpOutcome) (currentTime : string) : Call :=
  exchange h (fun gameResp =>
    if Code gameResp =? 0 then
      let d := RespData gameResp in
      mkGameResult true
        [ ("fid", member "fid" d); ("nickname", member "nickname" d);
          ("avatar_image", member "avatar_image" d);
          ("stove_lv_content", member "stove_lv_content" d);
          ("kid", member "kid" d); ("timestamp", currentTime) ]%string
        "" 0 false
    else
      let errCodeInt := parseErrCode (RespErrCode gameResp) in
      let errorText :=
        orElse (orElse (getErrorMessage errCodeInt) (messageToString (Msg gameResp)))
               "登录失败" in
      mkGameResult false [] errorText errCodeInt false).

Definition GetCaptcha (h : HttpOutcome) : Call :=
  exchange h (fun gameResp =>
    if Code gameResp =? 0 then
      mkGameResult true [ ("img", member "img" (RespData gameResp)) ]%string "" 0 false
    else
      let errCodeInt := parseErrCode (RespErrCode gameResp) in
      let errorText :=
        orElse (orElse (getErrorMessage errCodeInt) (messageToString (Msg gameResp)))
               "获取验证码失败" in
      mkGameResult false [] errorText errCodeInt false).

Definition RedeemCode (h : HttpOutcome) : Call :=
  exchange h (fun gameResp =>
    let errCodeInt := parseErrCode (RespErrCode gameResp) in
    if isSuccess errCodeInt then
      let d := RespData gameResp in
      mkGameResult true
        [ ("reward", member "reward" d); ("message", member "message" d) ]%string
        "" errCodeInt false
    else
      let errorText := getErrorMessage errCodeInt in
      let msgStr := messageToString (Msg gameResp) in
      let errorText :=
        if String.prefix "未知错误" errorText && negb (String.eqb msgStr "")
        then errorText +:+ " | msg: " +:+ msgStr else errorText in
      let errorText := orElse (orElse errorText msgStr) "兑换失败" in
      mkGameResult false [] errorText errCodeInt (isFatalError errCodeInt)).

(** *** Vocabulary for the properties of the client *)

(** A response that cannot be read, has a status other than 200, or has a
    body that does not decode. *)
Definition parseFailure (h : HttpOutcome) : Prop :=
  match h with
  | ReadError _ => True
  | Response status decoded => status <> StatusOK \/ decoded = None
  | _ => False
  end.

End GameClient.

(** ** The automation service: one attempt and the batch scheduler *)

Module RedeemResult.
Record t := mk {
  Success : bool;
  FID : string;
  GiftCode : string;
  CaptchaRecognized : string;
  Message : string;
  Error : string;
  ProcessingTime : Z;
  Stage : string;
  ErrCode : Z;
  IsFatal : bool;
  Attempts : Z;
  Reward : string
}.
End RedeemResult.

Module BatchRedeemResult.
Record t := mk {
  AccountID : Z;
  FID : string;
  Result : string;
  Error : string;
  CaptchaRecognized : string;
  ProcessingTime : Z;
  ErrCode : Z;
  Success : bool;
  Skipped : bool
}.
End BatchRedeemResult.

Module Account.
Record t := mk { ID : Z; FID : string }.
End Account.

Module Automation.

(** Everything the outside world contributes to one call of
    [tryOnceNoCooldown]: the HTTP exchanges of the three API calls, the
    answer of the OCR client ([inl] text, [inr] error) and the wall-clock
    time the whole call takes, jitter sleep included. *)
Record AttemptWorld := mkWorld {
  loginHttp : GameClient.HttpOutcome;
  loginTime : string;
  captchaHttp : GameClient.HttpOutcome;
  ocr : string + string;
  redeemHttp : GameClient.HttpOutcome;
  elapsed : Z
}.

(** A failed attempt: the struct literal with [Success: false]. *)
Definition failure (fid giftCode captcha err stage : string) (code : Z)
    (fatal : bool) (attempts : Z) : RedeemResult.t :=
  RedeemResult.mk false fid giftCode captcha "" err 0 stage code fatal attempts "".

Definition isAlnum (n : Z) : bool :=
  ((48 <=? n) && (n <=? 57)) || ((97 <=? n) && (n <=? 122)) || ((65 <=? n) && (n <=? 90)).

Definition upper (n : Z) : Z :=
  if (97 <=? n) && (n <=? 122) then n - 97 + 65 else n.

(** The normalisation loop over the recognised text: the first four
    letters or digits, in upper case.  A byte of a multi-byte rune is
    neither, so going byte by byte skips the same runes. *)
Fixpoint normalize (s : string) (norm : list ascii) : list ascii :=
  match s with
  | EmptyString => norm
  | String r rest =>
      if (4 <=? Z.of_nat (length norm)) then norm
      else
        let n := Z.of_N (N_of_ascii r) in
        if isAlnum n
        then normalize rest (norm ++ [ascii_of_N (Z.to_N (upper n))])
        else normalize rest norm
  end.

Definition tryOnceNoCooldown (w : AttemptWorld) (fid giftCode : string) : RedeemResult.t :=
  match GameClient.Login (loginHttp w) (loginTime w) with
  | inr _ => failure fid giftCode "" "登录请求异常" "login_exception" 0 false 1
  | inl loginResult =>
    if negb (GameClient.Success loginResult) then
      if GameClient.ErrCode loginResult =? 40101
      then failure fid giftCode "" (GameClient.Error loginResult) "login" 40101 false 0
      else failure fid giftCode "" (GameClient.Error loginResult) "login"
             (GameClient.ErrCode loginResult)
             (GameClient.isFatalError (GameClient.ErrCode loginResult)) 0
    else
    match GameClient.GetCaptcha (captchaHttp w) with
    | inr _ => failure fid giftCode "" "获取验证码异常" "captcha_exception" 40101 false 0
    | inl captchaResult =>
      if negb (GameClient.Success captchaResult) then
        if GameClient.ErrCode captchaResult =? 40101
        then failure fid giftCode "" (GameClient.Error captchaResult) "captcha" 40101 false 0
        else if GameClient.ErrCode captchaResult =? 40100
        then failure fid giftCode "" (GameClient.Error captchaResult) "captcha" 40100 false 0
        else failure fid giftCode "" (GameClient.Error captchaResult) "captcha"
               (GameClient.ErrCode captchaResult) false 0
      else
      match ocr w with
      | inr _ => failure fid giftCode "" "验证码识别失败" "ocr" 40103 false 0
      | inl captchaValue =>
        if String.eqb captchaValue ""
        then failure fid giftCode "" "验证码识别失败" "ocr" 40103 false 0
        else
        let norm := normalize captchaValue [] in
        if negb (Z.of_nat (length norm) =? 4)
        then failure fid giftCode "" "验证码长度异常" "ocr" 40103 false 0
        else
        let captchaValue := string_of_list_ascii norm in
        match GameClient.RedeemCode (redeemHttp w) with
        | inr _ => failure fid giftCode "" "兑换请求异常" "redeem_exception" 40101 false 0
        | inl redeemResult =>
          if GameClient.Success redeemResult then
            RedeemResult.mk true fid giftCode captchaValue "兑换成功" ""
              (Z.quot (elapsed w) Second) "completed"
              (GameClient.ErrCode redeemResult) false 1 ""
          else if GameClient.ErrCode redeemResult =? 40101
          then failure fid giftCode captchaValue (GameClient.Error redeemResult) "redeem" 40101 false 0
          else if (GameClient.ErrCode redeemResult =? 40102)
                  || (GameClient.ErrCode redeemResult =? 40103)
          then failure fid giftCode captchaValue (GameClient.Error redeemResult) "redeem"
                 (GameClient.ErrCode redeemResult) false 0
          else if GameClient.IsFatal redeemResult
          then failure fid giftCode captchaValue (GameClient.Error redeemResult) "redeem"
                 (GameClient.ErrCode redeemResult) true 0
          else failure fid giftCode captchaValue (GameClient.Error redeemResult) "redeem"
                 (GameClient.ErrCode redeemResult) false 0
        end
      end
    end
  end.

(** *** [RedeemBatch] *)

Record accountState := mkState {
  acc : Account.t;
  cooldowns : Z;
  attemptsInCycle : Z;
  nextReadyAt : Z;
  finalized : bool
}.

Definition minSwitchDelay : Z := 3 * Second.

(** The closure [pickNext], as the loop over [states] from position [i]
    with the current [earliestIdx] and [earliestTime].  [time.Until] reads
    the clock again; no time passes between the two readings. *)
Fixpoint pickNextFrom (now : Z) (i : Z) (sts : list accountState)
    (earliestIdx earliestTime : Z) : Z * Z * bool :=
  match sts with
  | [] =>
      if earliestIdx =? -1 then (-1, 0, false)
      else (earliestIdx, earliestTime - now, true)
  | st :: rest =>
      if finalized st then pickNextFrom now (i + 1) rest earliestIdx earliestTime
      else if negb (now <? nextReadyAt st) then (i, 0, true)
      else if (earliestIdx =? -1) || (nextReadyAt st <? earliestTime)
      then pickNextFrom now (i + 1) rest i (nextReadyAt st)
      else pickNextFrom now (i + 1) rest earliestIdx earliestTime
  end.

Definition pickNext (now : Z) (states : list accountState) : Z * Z * bool :=
  pickNextFrom now 0 states (-1) 0.

(** The variables of the loop, the process clock, and the calls of
    [tryOnceNoCooldown] made so far (position in [states] and result of
    each, oldest first). *)
Record loopState := mkLoop {
  states : list accountState;
  results : list BatchRedeemResult.t;
  pending : Z;
  lastSwitchAt : option Z;
  clock : Z;
  trace : list (nat * RedeemResult.t)
}.

(** The three variables an outcome can change. *)
Definition Locals := (accountState * list BatchRedeemResult.t * Z)%type.

Definition finalizeWith (tmp : BatchRedeemResult.t) (st : accountState)
    (results : list BatchRedeemResult.t) (pending : Z) : Locals :=
  (mkState (acc st) (cooldowns st) (attemptsInCycle st) (nextReadyAt st) true,
   results ++ [tmp], pending - 1).

Definition cooldown (now : Z) (tmp : BatchRedeemResult.t) (st : accountState)
    (results : list BatchRedeemResult.t) (pending : Z) : Locals :=
  let st := mkState (acc st) (incr (cooldowns st)) 0 (nextReadyAt st) (finalized st) in
  if 3 <=? cooldowns st then finalizeWith tmp st results pending
  else (mkState (acc st) (cooldowns st) (attemptsInCycle st) (now + 60 * Second) (finalized st),
        results, pending).

Definition shortRetry (now : Z) (st : accountState) : accountState :=
  mkState (acc st) (cooldowns st) (attemptsInCycle st) (now + 3 * Second) (finalized st).

Definition bumpAttempts (st : accountState) : accountState :=
  mkState (acc st) (cooldowns st) (incr (attemptsInCycle st)) (nextReadyAt st) (finalized st).

(** The provisional result [tmp] built after each attempt. *)
Definition provisional (st : accountState) (stepRes : RedeemResult.t) (procSec : Z)
    : BatchRedeemResult.t :=
  BatchRedeemResult.mk (Account.ID (acc st)) (Account.FID (acc st)) "failed"
    (RedeemResult.Error stepRes) (RedeemResult.CaptchaRecognized stepRes)
    procSec (RedeemResult.ErrCode stepRes) (RedeemResult.Success stepRes) false.

(** [tmp.Result = "success"; tmp.Error = ""]. *)
Definition succeeded (tmp : BatchRedeemResult.t) : BatchRedeemResult.t :=
  BatchRedeemResult.mk (BatchRedeemResult.AccountID tmp) (BatchRedeemResult.FID tmp)
    "success" "" (BatchRedeemResult.CaptchaRecognized tmp)
    (BatchRedeemResult.ProcessingTime tmp) (BatchRedeemResult.ErrCode tmp)
    (BatchRedeemResult.Success tmp) (BatchRedeemResult.Skipped tmp).

(** The outcome handling of the loop body, from [if stepRes.Success] to the
    end of the [switch]; [now] is the clock after the attempt. *)
Definition settle (now : Z) (stepRes : RedeemResult.t) (tmp : BatchRedeemResult.t)
    (st : accountState) (results : list BatchRedeemResult.t) (pending : Z) : Locals :=
  if RedeemResult.Success stepRes then finalizeWith (succeeded tmp) st results pending
  else if RedeemResult.IsFatal stepRes then finalizeWith tmp st results pending
  else if RedeemResult.ErrCode stepRes =? 40101 then cooldown now tmp st results pending
  else if (RedeemResult.ErrCode stepRes =? 40102) || (RedeemResult.ErrCode stepRes =? 40103) then
    let st := bumpAttempts st in
    if 3 <=? attemptsInCycle st then cooldown now tmp st results pending
    else (shortRetry now st, results, pending)
  else if RedeemResult.ErrCode stepRes =? 40100 then
    (shortRetry now (bumpAttempts st), results, pending)
  else finalizeWith tmp st results pending.

Inductive Iter :=
| Break
| Panic
| Continue (s : loopState).

Section Batch.

(** The world: what the [n]-th call of [tryOnceNoCooldown] of this run
    meets, [n] counted from 0. *)
Variable world : nat -> AttemptWorld.
Variable giftCode : string.

Definition throttle (s : loopState) : Z :=
  match lastSwitchAt s with
  | None => clock s
  | Some t =>
      let since := clock s - t in
      if since <? minSwitchDelay then clock s + (minSwitchDelay - since) else clock s
  end.

(** One pass through the body of [for pending > 0].  Time passes in
    [time.Sleep], by the duration slept, and in [tryOnceNoCooldown], by
    [elapsed]; the other statements take none, so the readings of
    [time.Now] between two of those agree.  [lastSwitchAt] is [None] for
    the zero [time.Time], which [time.Now] never returns.  [procSec] is
    the whole seconds of [elapsed]. *)
Definition iteration (s : loopState) : Iter :=
  let now := clock s in
  let '(idx, wait, ok) := pickNext now (states s) in
  if negb ok then Break
  else if 0 <? wait then
    Continue (mkLoop (states s) (results s) (pending s) (lastSwitchAt s) (clock s + wait) (trace s))
  else
    let stepStart := throttle s in
    match states s !! Z.to_nat idx with
    | None => Panic
    | Some st =>
        let w := world (length (trace s)) in
        let stepRes := tryOnceNoCooldown w (Account.FID (acc st)) giftCode in
        let now' := stepStart + elapsed w in
        let procSec := Z.quot (elapsed w) Second in
        let tmp := provisional st stepRes procSec in
        let '(st', results', pending') := settle now' stepRes tmp st (results s) (pending s) in
        Continue (mkLoop (<[Z.to_nat idx := st']> (states s)) results' pending'
                    (Some now') now' (trace s ++ [(Z.to_nat idx, stepRes)]))
    end.

(** What a run of the loop comes to within [fuel] passes: [None] when the
    loop is still running after them. *)
Inductive Outcome :=
| Returned (results : list BatchRedeemResult.t)
| Panicked.

Fixpoint loop (fuel : nat) (s : loopState) : option (Outcome * loopState) :=
  if pending s <=? 0 then Some (Returned (results s), s)
  else match fuel with
       | O => None
       | S fuel' =>
           match iteration s with
           | Break => Some (Returned (results s), s)
           | Panic => Some (Panicked, s)
           | Continue s' => loop fuel' s'
           end
       end.

(** The variables after [n] passes, when the loop makes that many. *)
Fixpoint passes (n : nat) (s : loopState) : option loopState :=
  match n with
  | O => Some s
  | S n' =>
      if pending s <=? 0 then None
      else match iteration s with
           | Continue s' => passes n' s'
           | _ => None
           end
  end.

Definition initial (accounts : list Account.t) (now : Z) : loopState :=
  mkLoop (map (fun a => mkState a 0 0 now false) accounts) []
         (Z.of_nat (length accounts)) None now [].

Definition RedeemBatch (fuel : nat) (accounts : list Account.t) (now : Z) : option Outcome :=
  fst <$> loop fuel (initial accounts now).

End Batch.

End Automation.

(** ** The redemption gate

    [accountRedeemGate] is a channel of capacity one.  A flow is the
    sequence of gate operations and API calls one goroutine performs;
    goroutines interleave at the granularity of these operations. *)

Module Gate.

Inductive ApiCall := CallLogin | CallCaptcha | CallRedeem.

Inductive Op :=
| Acquire
| Release
| Api (c : ApiCall).

(** [RedeemSingle]: [acquireAccountGate()], the deferred
    [releaseAccountGate()], and in between the API calls of the flow. *)
Definition RedeemSingle (calls : list ApiCall) : list Op :=
  Acquire :: map Api calls ++ [Release].

(** [RedeemBatch]: the API calls of its attempts; the function contains
    no operation on the gate. *)
Definition RedeemBatch (calls : list ApiCall) : list Op :=
  map Api calls.

Record Thread := mkThread { past : list Op; todo : list Op }.

Record System := mkSystem { gate : nat; threads : list Thread }.

Definition start (flows : list (list Op)) : System :=
  mkSystem 0 (map (mkThread []) flows).

(** The goroutine at position [i] performs its next operation.  [None]
    when it cannot: it has finished, or it is blocked sending to the full
    channel. *)
Definition step (sys : System) (i : nat) : option System :=
  match threads sys !! i with
  | Some (mkThread p (op :: rest)) =>
      let advance g := Some (mkSystem g (<[i := mkThread (p ++ [op]) rest]> (threads sys))) in
      match op with
      | Acquire => if (gate sys <? 1)%nat then advance (S (gate sys)) else None
      | Release => advance (Nat.pred (gate sys))
      | Api _ => advance (gate sys)
      end
  | _ => None
  end.

Fixpoint run (schedule : list nat) (sys : System) : option System :=
  match schedule with
  | [] => Some sys
  | i :: rest =>
      match step sys i with
      | Some sys' => run rest sys'
      | None => None
      end
  end.

Definition isApi (op : Op) : bool :=
  match op with Api _ => true | _ => false end.

(** A flow is in flight from its first API call until its last. *)
Definition inFlight (t : Thread) : bool :=
  existsb isApi (past t) && existsb isApi (todo t).

Definition flying (sys : System) : nat :=
  length (filter (fun t => inFlight t = true) (threads sys)).

(** *** Vocabulary for the properties of the gate *)

(** A goroutine that has started and has not finished. *)
Definition mid (t : Thread) : bool :=
  match past t, todo t with
  | _ :: _, _ :: _ => true
  | _, _ => false
  end.

(** Where a goroutine running [RedeemSingle] can be: before the gate,
    inside it, or past the deferred release. *)
Definition singlePhase (t : Thread) : Prop :=
  (past t = [] /\ exists calls, todo t = RedeemSingle calls)
  \/ (exists c1 c2, past t = Acquire :: map Api c1 /\ todo t = map Api c2 ++ [Release])
  \/ (todo t = [] /\ past t <> []).

(** The gate holds one token for each goroutine inside it. *)
Definition gateInv (sys : System) : Prop :=
  Forall singlePhase (threads sys) /\
  gate sys = length (filter (fun t => mid t = true) (threads sys)) /\
  (gate sys <= 1)%nat.

Definition sampleCalls : list ApiCall := [CallLogin; CallCaptcha; CallRedeem].

End Gate.

(** ** The job queue *)

Module JobQueue.

Record Job := mkJob {
  ID : Z;
  Type_ : string;
  Payload : string;
  Retries : Z;
  MaxRetries : Z
}.

(** A row of the table [jobs]. *)
Record Row := mkRow {
  id : Z;
  type : string;
  payload : string;
  status : string;
  retries : Z;
  max_retries : Z;
  next_run_at : Z;
  error_message : option string;
  created_at : Z;
  updated_at : Z
}.

(** What the database contributes to one statement: the value of [NOW()],
    whether [Exec] fails, and the value a [TIMESTAMP] column keeps of a
    time bound to the statement.  The columns of [jobs] are declared
    without fractional seconds, so what is kept is a whole second near the
    time given ([wholeSeconds] below). *)
Record Db := mkDb { dbNow : Z; execError : option string; asTimestamp : Z -> Z }.

(** [UPDATE jobs SET status = ?, error_message = ?, updated_at = NOW()
    WHERE id = ?]. *)
Definition UpdateJobStatus (db : Db) (jobs : list Row) (jobID : Z) (newStatus : string)
    (errorMessage : option string) : list Row * option string :=
  match execError db with
  | Some e => (jobs, Some e)
  | None =>
      (map (fun r => if id r =? jobID
                     then mkRow (id r) (type r) (payload r) newStatus (retries r)
                            (max_retries r) (next_run_at r) errorMessage
                            (created_at r) (dbNow db)
                     else r) jobs,
       None)
  end.

Definition MarkJobFailed (db : Db) (jobs : list Row) (jobID : Z) (errorMessage : string) :=
  UpdateJobStatus db jobs jobID "failed" (Some errorMessage).

(** [UPDATE jobs SET retries = retries + 1, next_run_at = ?,
    error_message = ?, status = 'pending', updated_at = NOW() WHERE id = ?]. *)
Definition IncrementJobRetries (db : Db) (jobs : list Row) (jobID : Z) (nextRunAt : Z)
    (errorMessage : string) : list Row * option string :=
  match execError db with
  | Some e => (jobs, Some e)
  | None =>
      (map (fun r => if id r =? jobID
                     then mkRow (id r) (type r) (payload r) "pending" (retries r + 1)
                            (max_retries r) (asTimestamp db nextRunAt) (Some errorMessage)
                            (created_at r) (dbNow db)
                     else r) jobs,
       None)
  end.

(** [x << n] on 64-bit integers: a negative count panics ([None]), a count
    of 64 or more gives 0. *)
Definition shl64 (x n : Z) : option Z :=
  if n <? 0 then None
  else if 64 <=? n then Some 0
  else Some (wrap64 (x * 2 ^ n)).

(** [delay] as [RetryJob] computes it from [job.Retries]. *)
Definition backoff (retries : Z) : option Z :=
  match shl64 1 retries with
  | None => None
  | Some shifted =>
      let delay := wrap64 (shifted * Second) in
      Some (if 60 * Second <? delay then 60 * Second else delay)
  end.

(** [None] is a run-time panic. *)
Definition RetryJob (db : Db) (now : Z) (jobs : list Row) (job : Job) (errorMessage : string)
    : option (list Row * option string) :=
  if MaxRetries job <=? Retries job then
    Some (MarkJobFailed db jobs (ID job) ("达到最大重试次数: " +:+ errorMessage))
  else
    match backoff (Retries job) with
    | None => None
    | Some delay =>
        let nextRunAt := now + delay in
        Some (IncrementJobRetries db jobs (ID job) nextRunAt errorMessage)
    end.

(** *** Vocabulary for the properties of the job queue *)

(** A [TIMESTAMP] column keeps a time to the second: less than a second
    away from the time given, whether the server rounds or truncates.
    The program and the server are taken to tell the same time. *)
Definition wholeSeconds (db : Db) : Prop :=
  forall t, t - Second < asTimestamp db t < t + Second.

(** Rounding to the nearest second, half a second upwards. *)
Definition roundToSecond (t : Z) : Z := (t + Second / 2) / Second * Second.

End JobQueue.

(** ** The OCR key manager *)

Module OCR.

Record OCRKey := mkKey {
  ID : Z;
  Provider : string;
  Name : string;
  APIKey : string;
  SecretKey : string;
  IsActive : bool;
  HasQuota : bool;
  MonthlyQuota : Z;
  RemainingQuota : Z;
  Weight : Z
}.

(** [recognizer] is the name of the provider whose factory built it. *)
Record weightedKey := mkWeighted {
  key : OCRKey;
  recognizer : string;
  current : Z
}.

Record OCRKeyManager := mkManager {
  keys : list weightedKey;
  total : Z
}.

(** [strings.TrimSpace] removes the leading and the trailing white space
    of [unicode.IsSpace] from a string of UTF-8 bytes: the six ASCII
    characters tab, line feed, vertical tab, form feed, carriage return
    and space, and outside ASCII the code points U+0085, U+00A0, U+1680,
    U+2000 to U+200A, U+2028, U+2029, U+202F, U+205F and U+3000, each in
    its UTF-8 encoding of two or three bytes. *)
Definition isSpace (c : ascii) : bool :=
  let n := N_of_ascii c in
  ((9 <=? n) && (n <=? 13))%N || (n =? 32)%N.

(** U+0085 is [C2 85] and U+00A0 is [C2 A0]. *)
Definition isSpace2 (c1 c2 : ascii) : bool :=
  let a := N_of_ascii c1 in
  let b := N_of_ascii c2 in
  ((a =? 194) && ((b =? 133) || (b =? 160)))%N.

(** U+1680 is [E1 9A 80]; U+2000 to U+200A are [E2 80 80] to [E2 80 8A],
    U+2028 and U+2029 are [E2 80 A8] and [E2 80 A9], U+202F is [E2 80 AF],
    U+205F is [E2 81 9F]; U+3000 is [E3 80 80]. *)
Definition isSpace3 (c1 c2 c3 : ascii) : bool :=
  let a := N_of_ascii c1 in
  let b := N_of_ascii c2 in
  let c := N_of_ascii c3 in
  ((a =? 225) && (b =? 154) && (c =? 128)
   || (a =? 226) && (b =? 128)
      && (((128 <=? c) && (c <=? 138)) || (c =? 168) || (c =? 169) || (c =? 175))
   || (a =? 226) && (b =? 129) && (c =? 159)
   || (a =? 227) && (b =? 128) && (c =? 128))%N.

(** The leading white space goes: a rune is decoded at the front, one
    after the other, until one is not white space. *)
Fixpoint trimLeft (s : list ascii) : list ascii :=
  match s with
  | c1 :: rest1 =>
      if isSpace c1 then trimLeft rest1
      else
        match rest1 with
        | c2 :: rest2 =>
            if isSpace2 c1 c2 then trimLeft rest2
            else
              match rest2 with
              | c3 :: rest3 => if isSpace3 c1 c2 c3 then trimLeft rest3 else s
              | [] => s
              end
        | [] => s
        end
  | [] => s
  end.

(** The trailing white space goes: the last rune is decoded, one after
    the other, until one is not white space.  [s] is the string read from
    its end, so the bytes of a rune come last byte first. *)
Fixpoint trimLeftReversed (s : list ascii) : list ascii :=
  match s with
  | c1 :: rest1 =>
      if isSpace c1 then trimLeftReversed rest1
      else
        match rest1 with
        | c2 :: rest2 =>
            if isSpace2 c2 c1 then trimLeftReversed rest2
            else
              match rest2 with
              | c3 :: rest3 => if isSpace3 c3 c2 c1 then trimLeftReversed rest3 else s
              | [] => s
              end
        | [] => s
        end
  | [] => s
  end.

Definition trimRight (s : list ascii) : list ascii := rev (trimLeftReversed (rev s)).

Definition TrimSpace (s : string) : string :=
  string_of_list_ascii (trimRight (trimLeft (list_ascii_of_string s))).

(** [strings.ToLower] has two paths.  A string of ASCII bytes alone is
    lowered byte by byte.  Any other string goes through
    [strings.Map(unicode.ToLower, s)], whose table of the lower-case forms
    of Unicode is not in the repository: that path is the parameter
    [lowerUnicode]. *)
Definition lower (c : ascii) : ascii :=
  let n := N_of_ascii c in
  if ((65 <=? n) && (n <=? 90))%N then ascii_of_N (n + 32) else c.

Definition isASCII (s : string) : bool :=
  forallb (fun c => (N_of_ascii c <? 128)%N) (list_ascii_of_string s).

Fixpoint lowerASCII (s : string) : string :=
  match s with
  | EmptyString => EmptyString
  | String c rest => String (lower c) (lowerASCII rest)
  end.

Definition ToLower (lowerUnicode : string -> string) (s : string) : string :=
  if isASCII s then lowerASCII s else lowerUnicode s.

(** A stand-in for the Unicode path in runs on ASCII text, which never
    take it. *)
Definition unusedPath (s : string) : string := s.

(** The registry [providerFactories], as the list of the registered
    names; [init] registers [baidu] alone. *)
Definition Registry := list string.

Definition builtin : Registry := ["baidu"%string].

Section Providers.

Variable lowerUnicode : string -> string.

Definition getOCRProvider (registry : Registry) (name : string) : bool :=
  let k := ToLower lowerUnicode (TrimSpace name) in
  existsb (String.eqb k) registry.

Definition providerOf (k : OCRKey) : string :=
  let provider := ToLower lowerUnicode (TrimSpace (Provider k)) in
  if String.eqb provider "" then "baidu"%string else provider.

End Providers.

(** [float64] arithmetic.  A finite [float64] is the rational it denotes,
    and each operation of the source is the exact operation followed by
    [rnd], the rounding to the nearest [float64]; [rnd] is a parameter.
    [toInt] is the conversion [int(x)]: it truncates toward zero, and
    outside the range of [int] it gives what [toInt64] says. *)

Definition exact (q : Q) : Q := q.

Definition truncate (x : Q) : Z :=
  if Qlt_le_dec x 0 then Qceiling x else Qfloor x.

Definition toInt (x : Q) : Z := toInt64 (truncate x).

Section Float64.

Variable rnd : Q -> Q.
Variable lowerUnicode : string -> string.

Definition ofInt (z : Z) : Q := rnd (inject_Z z).
Definition fadd (x y : Q) : Q := rnd (x + y).
Definition fdiv (x y : Q) : Q := rnd (x / y).
Definition fmul (x y : Q) : Q := rnd (x * y).

Definition effectiveWeight (k : OCRKey) : Z :=
  let effWeight := Weight k in
  if (0 <? MonthlyQuota k) && (0 <=? RemainingQuota k) then
    let eff := fadd 1 (fdiv (ofInt (RemainingQuota k)) (ofInt (MonthlyQuota k))) in
    let eff := if Qlt_le_dec 2 eff then 2%Q else eff in
    let effWeight := toInt (fmul (ofInt effWeight) eff) in
    if effWeight <? 1 then 1 else effWeight
  else effWeight.

Definition skipped (k : OCRKey) : bool :=
  negb (IsActive k) || negb (HasQuota k) || (Weight k <=? 0).

(** The loop of [Reload] over the fetched keys. *)
Fixpoint reload (registry : Registry) (fetched : list OCRKey) (m : OCRKeyManager)
    : OCRKeyManager :=
  match fetched with
  | [] => m
  | k :: rest =>
      if skipped k then reload registry rest m
      else
        let provider := providerOf lowerUnicode k in
        if getOCRProvider lowerUnicode registry provider then
          let wk := mkWeighted k provider 0 in
          reload registry rest
            (mkManager (keys m ++ [wk]) (wrap64 (total m + effectiveWeight k)))
        else reload registry rest m
  end.

Definition Reload (registry : Registry) (fetched : list OCRKey) : OCRKeyManager :=
  reload registry fetched (mkManager [] 0).

End Float64.

(** The loop of [pick]: every key adds its weight to its accumulator, and
    [best] is the position and accumulator of the key chosen so far. *)
Fixpoint accumulate (ks : list weightedKey) (i : nat) (best : option (nat * Z))
    : list weightedKey * option (nat * Z) :=
  match ks with
  | [] => ([], best)
  | wk :: rest =>
      let cur := wrap64 (current wk + Weight (key wk)) in
      let best' :=
        match best with
        | None => Some (i, cur)
        | Some (_, bestCur) => if bestCur <? cur then Some (i, cur) else best
        end in
      let '(rest', final) := accumulate rest (S i) best' in
      (mkWeighted (key wk) (recognizer wk) cur :: rest', final)
  end.

(** [pick]: the chosen key, if any, and the manager after the call. *)
Definition pick (m : OCRKeyManager) : option weightedKey * OCRKeyManager :=
  match keys m with
  | [] => (None, m)
  | _ =>
      let '(ks, best) := accumulate (keys m) 0 None in
      match best with
      | Some (b, _) =>
          match ks !! b with
          | Some wk =>
              let chosen := mkWeighted (key wk) (recognizer wk) (wrap64 (current wk - total m)) in
              (Some chosen, mkManager (<[b := chosen]> ks) (total m))
          | None => (None, mkManager ks (total m))
          end
      | None => (None, mkManager ks (total m))
      end
  end.

(** *** Vocabulary for the properties of the key manager *)

(** What the properties need of the rounding: it is monotone, and it
    leaves the integers up to [2 ^ 53] as they are. *)
Definition roundsToNearest (rnd : Q -> Q) : Prop :=
  (forall x y, (x <= y)%Q -> (rnd x <= rnd y)%Q) /\
  (forall z, - 2 ^ 53 <= z <= 2 ^ 53 -> (rnd (inject_Z z) == inject_Z z)%Q).






Definition bump (wk : weightedKey) : weightedKey :=
  mkWeighted (key wk) (recognizer wk) (wrap64 (current wk + Weight (key wk))).

(** [chosenIn ks b cur]: position [b] holds the first key of [ks] with the
    highest accumulator, [cur]. *)
Definition chosenIn (ks : list weightedKey) (b : nat) (cur : Z) : Prop :=
  (exists wk, ks !! b = Some wk /\ current wk = cur) /\
  (forall j wk, ks !! j = Some wk -> current wk <= cur) /\
  (forall j wk, (j < b)%nat -> ks !! j = Some wk -> current wk < cur).

End OCR.

(** ** The log repository *)

Module LogRepo.

(** A row of [redeem_logs]. *)
Record RedeemLog := mkLog {
  id : Z;
  redeem_code_id : Z;
  game_account_id : Z;
  fid : string;
  code : string;
  result : string;
  error_message : option string;
  success_message : option string;
  captcha_recognized : option string;
  processing_time : option Z;
  err_code : option Z;
  redeemed_at : Z
}.

(** The table and its [AUTO_INCREMENT] counter. *)
Record Table := mkTable { rows : list RedeemLog; nextID : Z }.

(** The values bound to the [INSERT]. *)
Record Outcome := mkOutcome {
  o_fid : string;
  o_code : string;
  o_result : string;
  o_error_message : option string;
  o_success_message : option string;
  o_captcha_recognized : option string;
  o_processing_time : option Z;
  o_err_code : option Z
}.

(** Where the transaction can fail, and the time of the insert. *)
Record Db := mkDb {
  beginError : option string;
  deleteError : option string;
  insertError : option string;
  commitError : option string;
  lastInsertIdError : option string;
  dbNow : Z
}.

Definition samePair (redeemCodeID gameAccountID : Z) (r : RedeemLog) : bool :=
  (redeem_code_id r =? redeemCodeID) && (game_account_id r =? gameAccountID).

(** [DELETE FROM redeem_logs WHERE redeem_code_id = ? AND game_account_id = ?]. *)
Definition deleteOld (redeemCodeID gameAccountID : Z) (t : Table) : Table :=
  mkTable (filter (fun r => samePair redeemCodeID gameAccountID r = false) (rows t)) (nextID t).

(** The row the [INSERT] adds under the id [newID]. *)
Definition logOf (db : Db) (newID redeemCodeID gameAccountID : Z) (o : Outcome) : RedeemLog :=
  mkLog newID redeemCodeID gameAccountID (o_fid o) (o_code o) (o_result o)
    (o_error_message o) (o_success_message o) (o_captcha_recognized o)
    (o_processing_time o) (o_err_code o) (dbNow db).

Definition insertNew (db : Db) (redeemCodeID gameAccountID : Z) (o : Outcome) (t : Table)
    : Table :=
  mkTable (rows t ++ [logOf db (nextID t) redeemCodeID gameAccountID o]) (nextID t + 1).

(** [ReplaceRedeemLog]: the table after the call and what the call
    returns, the new id or the error.  Leaving before [Commit] runs the
    deferred [Rollback], and the table is as before. *)
Definition ReplaceRedeemLog (db : Db) (t : Table) (redeemCodeID gameAccountID : Z)
    (o : Outcome) : Table * (Z + string) :=
  match beginError db with
  | Some e => (t, inr e)
  | None =>
    match deleteError db with
    | Some e => (t, inr e)
    | None =>
      let tx := deleteOld redeemCodeID gameAccountID t in
      match insertError db with
      | Some e => (t, inr e)
      | None =>
        let newID := nextID tx in
        let tx := insertNew db redeemCodeID gameAccountID o tx in
        match commitError db with
        | Some e => (t, inr e)
        | None =>
          match lastInsertIdError db with
          | Some e => (tx, inr e)
          | None => (tx, inl newID)
          end
        end
      end
    end
  end.

End LogRepo.

(** ** Vocabulary for the properties of the scheduler *)

Module Scheduler.

Import Automation.

Section Passes.

Variable world : nat -> AttemptWorld.
Variable giftCode : string.

(** A pass that only waits: nothing changes but the clock, which moves to
    the time the earliest account becomes ready. *)
Definition waits (s s' : loopState) : Prop :=
  exists wait, 0 < wait /\
    s' = mkLoop (states s) (results s) (pending s) (lastSwitchAt s) (clock s + wait) (trace s) /\
    (exists i st, states s !! i = Some st /\ finalized st = false /\
                  nextReadyAt st = clock s + wait) /\
    Forall (fun st => finalized st = false -> clock s < nextReadyAt st) (states s).

(** A pass that attempts the account at position [i], with result [r]. *)
Definition attempts (s s' : loopState) (i : nat) (st st' : accountState)
    (r : RedeemResult.t) : Prop :=
  let w := world (length (trace s)) in
  states s !! i = Some st /\ finalized st = false /\ nextReadyAt st <= clock s /\
  r = tryOnceNoCooldown w (Account.FID (acc st)) giftCode /\
  clock s' = throttle s + elapsed w /\
  settle (clock s') r (provisional st r (Z.quot (elapsed w) Second)) st (results s) (pending s)
    = (st', results s', pending s') /\
  states s' = <[i := st']> (states s) /\
  trace s' = trace s ++ [(i, r)] /\
  lastSwitchAt s' = Some (clock s').


End Passes.

(** The results of the attempts made on the account at position [i],
    oldest first. *)
Definition outcomesOf (i : nat) (tr : list (nat * RedeemResult.t)) : list RedeemResult.t :=
  map snd (filter (fun e => fst e = i) tr).

(** What an outcome does to the two counters of a pending account:
    [None] when it finalizes the account, the new counters otherwise. *)
Definition verdict (c a : Z) (r : RedeemResult.t) : option (Z * Z) :=
  if RedeemResult.Success r then None
  else if RedeemResult.IsFatal r then None
  else if RedeemResult.ErrCode r =? 40101 then
    if 3 <=? incr c then None else Some (incr c, 0)
  else if (RedeemResult.ErrCode r =? 40102) || (RedeemResult.ErrCode r =? 40103) then
    if 3 <=? incr a
    then (if 3 <=? incr c then None else Some (incr c, 0))
    else Some (c, incr a)
  else if RedeemResult.ErrCode r =? 40100 then Some (c, incr a)
  else None.

(** A server-busy outcome. *)
Definition isBusy (r : RedeemResult.t) : Prop :=
  RedeemResult.Success r = false /\ RedeemResult.IsFatal r = false /\
  RedeemResult.ErrCode r = 40101.

(** [pendingAfter h c a]: after the outcomes [h] the account is still
    pending, with [c] cooldowns and [a] attempts in the cycle. *)
Inductive pendingAfter : list RedeemResult.t -> Z -> Z -> Prop :=
| pendingAfter_nil : pendingAfter [] 0 0
| pendingAfter_snoc h c a r c' a' :
    pendingAfter h c a -> verdict c a r = Some (c', a') ->
    pendingAfter (h ++ [r]) c' a'.

Definition keyOfResult (r : BatchRedeemResult.t) : Z * string :=
  (BatchRedeemResult.AccountID r, BatchRedeemResult.FID r).

Definition keyOfAccount (a : Account.t) : Z * string :=
  (Account.ID a, Account.FID a).

(** The entry of [results] for an account finalized by the outcome [r]. *)
Definition recorded (st : accountState) (r : RedeemResult.t)
    (results : list BatchRedeemResult.t) : Prop :=
  exists res, In res results /\
    keyOfResult res = keyOfAccount (acc st) /\
    BatchRedeemResult.Result res = (if RedeemResult.Success r then "success" else "failed")%string /\
    BatchRedeemResult.ErrCode res = RedeemResult.ErrCode r.

(** The history of one account agrees with its state. *)
Definition history (h : list RedeemResult.t) (st : accountState)
    (results : list BatchRedeemResult.t) : Prop :=
  if finalized st
  then exists h0 r c a, h = h0 ++ [r] /\ pendingAfter h0 c a /\ verdict c a r = None /\
         recorded st r results
  else pendingAfter h (cooldowns st) (attemptsInCycle st).

(** The attempts an account can still make when no attempt is answered
    with 40100: nine at the start, none once it is finalized. *)
Definition budget (st : accountState) : nat :=
  if finalized st then O
  else Z.to_nat (9 - 3 * cooldowns st - attemptsInCycle st).

Definition remaining (sts : list accountState) : nat :=
  list_sum (map budget sts).

(** A pending account has fewer than three cooldowns and fewer than three
    attempts in its cycle. *)
Definition healthy (st : accountState) : Prop :=
  finalized st = true \/
  (0 <= cooldowns st < 3 /\ 0 <= attemptsInCycle st < 3).

(** The invariant of the loop, for the batch over [accounts]. *)
Record Inv (world : nat -> AttemptWorld) (giftCode : string)
    (accounts : list Account.t) (s : loopState) : Prop := mkInv {
  inv_accounts : map acc (states s) = accounts;
  inv_pending :
    pending s = Z.of_nat (length (filter (fun st => finalized st = false) (states s)));
  inv_results :
    Permutation (map keyOfResult (results s))
      (map (fun st => keyOfAccount (acc st))
           (filter (fun st => finalized st = true) (states s)));
  inv_history :
    forall i st, states s !! i = Some st -> history (outcomesOf i (trace s)) st (results s);
  inv_trace :
    forall k i r, trace s !! k = Some (i, r) ->
      exists st, states s !! i = Some st /\
        r = tryOnceNoCooldown (world k) (Account.FID (acc st)) giftCode
}.

End Scheduler.

(** ** Sample inputs

    Responses of the game API and small batches, used where a property is
    shown on a concrete run. *)

Module Sample.

Import GameClient Automation.

Definition okLogin : HttpOutcome :=
  Response 200 (Some (mkGameResponse 0 JNull JNull [("nickname", "player")]%string)).

Definition okCaptcha : HttpOutcome :=
  Response 200 (Some (mkGameResponse 0 JNull JNull [("img", "aGVsbG8=")]%string)).

(** A response with the business code [c] ([20000] is success). *)
Definition coded (c : Z) : HttpOutcome :=
  Response 200 (Some (mkGameResponse 1 (JNumber c) (JString "") [])).

(** An attempt whose claim is answered with the code [c], after one second. *)
Definition claimAnswered (c : Z) : AttemptWorld :=
  mkWorld okLogin "1700000000000" okCaptcha (inl "ab1d"%string) (coded c) Second.

(** An attempt whose captcha request is answered with the code [c]. *)
Definition captchaAnswered (c : Z) : AttemptWorld :=
  mkWorld okLogin "1700000000000" (coded c) (inl "ab1d"%string) (coded 20000) Second.

Definition alice : Account.t := Account.mk 1 "fid-1".
Definition bob : Account.t := Account.mk 2 "fid-2".

(** The first attempt meets a wrong captcha, the third a busy server, the
    others succeed. *)
Definition mixed (n : nat) : AttemptWorld :=
  match n with
  | 0%nat => claimAnswered 40103
  | 2%nat => claimAnswered 40101
  | _ => claimAnswered 20000
  end.

(** Every captcha request is turned down with 40100. *)
Definition tooOften (n : nat) : AttemptWorld := captchaAnswered 40100.

(** The claim is answered with 40101 every time. *)
Definition alwaysBusy (n : nat) : AttemptWorld := claimAnswered 40101.

(** The first claim of the batch is answered with 40007. *)
Definition expired (n : nat) : AttemptWorld := claimAnswered 40007.

(** The claim is answered with 40103 every time. *)
Definition alwaysWrong (n : nat) : AttemptWorld := claimAnswered 40103.

End Sample.

From Stdlib Require Import Sorted.

(** * Further parts of the code

    The functions around the ones above: the rest of the game client and of
    the key manager, the single-account flow, the log and job repositories,
    the in-memory queue and the worker that runs the jobs. *)

(** ** JSON numbers *)

Module Decode.

(** What [json.Unmarshal] hands over for the integer literal [n] in a
    field of type [interface{}]: the [float64] nearest to [n]. *)
Definition numberLiteral (rnd : Q -> Q) (n : Z) : GameClient.JsonAny :=
  GameClient.JNumber (OCR.truncate (rnd (inject_Z n))).

End Decode.

(** ** Captcha text *)

Module Captcha.

(** [normalizeTo4] of the Paddle client: the loop is the one
    [tryOnceNoCooldown] and [RedeemSingle] run in line. *)
Definition normalizeTo4 (s : string) : string :=
  string_of_list_ascii (Automation.normalize s []).

(** *** Vocabulary *)

Definition code (c : ascii) : Z := Z.of_N (N_of_ascii c).

(** A letter or digit, and its upper-case form. *)
Definition alnum (c : ascii) : bool := Automation.isAlnum (code c).

Definition toUpper (c : ascii) : ascii := ascii_of_N (Z.to_N (Automation.upper (code c))).

(** A character of a normalised captcha: a digit or an upper-case letter. *)
Definition captchaChar (c : ascii) : bool :=
  ((48 <=? code c) && (code c <=? 57)) || ((65 <=? code c) && (code c <=? 90)).

Definition wellFormed (s : string) : Prop :=
  length (list_ascii_of_string s) = 4%nat /\
  Forall (fun c => captchaChar c = true) (list_ascii_of_string s).

End Captcha.

(** ** Vocabulary for the pacing and the results of the scheduler *)

Module Pacing.

Import Automation.

(** The account at position [i] is not attempted before [ready]: it is
    held until then, or that time has come. *)
Definition heldUntil (i : nat) (ready : Z) (s : loopState) : Prop :=
  forall st, states s !! i = Some st -> nextReadyAt st = ready \/ ready <= clock s.

(** A result whose fields agree: a success has the result text [success],
    no error text and the code 20000; a failure has the result text
    [failed]. *)
Definition consistent (res : BatchRedeemResult.t) : Prop :=
  (BatchRedeemResult.Success res = true /\
   BatchRedeemResult.Result res = "success"%string /\
   BatchRedeemResult.Error res = ""%string /\
   BatchRedeemResult.ErrCode res = 20000)
  \/ (BatchRedeemResult.Success res = false /\
      BatchRedeemResult.Result res = "failed"%string).

End Pacing.

(** ** The key manager: recognition over the keys *)

Module Dispatch.

Import OCR.

(** The error a recognizer returns: an [*OCRError], or any other error
    with its text. *)
Inductive RecognizeError :=
| OCRError (Code Msg Category : string)
| OtherError (text : string).

(** [err.Error()]; for an [*OCRError] the method of ocr_error.go. *)
Definition ErrorText (e : RecognizeError) : string :=
  match e with
  | OCRError code msg category =>
      if negb (String.eqb category "")
      then "[" +:+ category +:+ ":" +:+ code +:+ "] " +:+ msg
      else "[" +:+ code +:+ "] " +:+ msg
  | OtherError text => text
  end.

(** What [RecognizeCaptcha] of a recognizer returns. *)
Record Answer := mkAnswer { text : string; err : option RecognizeError }.

(** What a call of the manager's [RecognizeCaptcha] does besides
    returning: the calls of the recognizers and of the two callbacks. *)
Inductive Event :=
| Asked (keyID : Z) (a : Answer)
| Usage (keyID : Z) (success : bool) (errMsg : option string)
| Exhausted (keyID : Z) (code : Z) (msg : string).

(** The callbacks, when they are set.  A callback is code of the caller:
    it runs inside the loop of [RecognizeCaptcha], with no lock held, and
    the manager may be another when it returns (the callback that [main]
    installs for exhausted keys marks the key in the database and calls
    [Reload]).  Here a callback is what it does to the manager. *)
Record Callbacks := mkCallbacks {
  onUsage : option (Z -> bool -> option string -> OCRKeyManager -> OCRKeyManager);
  onKeyExhausted : option (Z -> Z -> string -> OCRKeyManager -> OCRKeyManager)
}.

(** The codes of the [switch]: quota, permission and token errors. *)
Definition reported (codeInt : Z) : bool :=
  existsb (Z.eqb codeInt) [4; 17; 18; 19; 216604; 6; 14; 110; 111].

(** The code for which the [switch] calls [onKeyExhausted], if the error
    has one. *)
Definition reportedCode (e : option RecognizeError) : option (Z * string) :=
  match e with
  | Some (OCRError code msg _) =>
      match Atoi code with
      | Some codeInt => if reported codeInt then Some (codeInt, msg) else None
      | None => None
      end
  | _ => None
  end.

Section Recognize.

(** The world: the answer of the recognizer of a key to the [n]-th call
    of this run. *)
Variable recognize : nat -> weightedKey -> Answer.
Variable cb : Callbacks.

(** [if m.onUsage != nil { m.onUsage(...) }]: the manager after it, and
    the event. *)
Definition usage (wk : weightedKey) (success : bool) (errMsg : option string)
    (m : OCRKeyManager) : OCRKeyManager * list Event :=
  match onUsage cb with
  | Some f => (f (ID (key wk)) success errMsg m, [Usage (ID (key wk)) success errMsg])
  | None => (m, [])
  end.

Definition exhausted (wk : weightedKey) (e : option RecognizeError) (m : OCRKeyManager)
    : OCRKeyManager * list Event :=
  match reportedCode e, onKeyExhausted cb with
  | Some (codeInt, msg), Some f =>
      (f (ID (key wk)) codeInt msg m, [Exhausted (ID (key wk)) codeInt msg])
  | _, _ => (m, [])
  end.

Definition orAllFailed (lastErr : option RecognizeError) : RecognizeError :=
  match lastErr with
  | Some e => e
  | None => OtherError "all ocr keys failed"
  end.

(** The loop [for i := 0; i < tries; i++], with [left = tries - i]. *)
Fixpoint attempt (left n : nat) (m : OCRKeyManager) (lastErr : option RecognizeError)
    (log : list Event) : (string + RecognizeError) * OCRKeyManager * list Event :=
  match left with
  | O => (inr (orAllFailed lastErr), m, log)
  | S left' =>
      match pick m with
      | (None, m') => (inr (orAllFailed lastErr), m', log)
      | (Some wk, m') =>
          let a := recognize n wk in
          let log := log ++ [Asked (ID (key wk)) a] in
          match err a with
          | None =>
              if negb (String.eqb (text a) "")
              then
                let '(m1, used) := usage wk true None m' in
                (inl (text a), m1, log ++ used)
              else
                let '(m1, used) := usage wk false None m' in
                attempt left' (S n) m1 None (log ++ used)
          | Some e =>
              let '(m1, used) := usage wk false (Some (ErrorText e)) m' in
              let '(m2, told) := exhausted wk (Some e) m1 in
              attempt left' (S n) m2 (Some e) (log ++ used ++ told)
          end
      end
  end.

Definition RecognizeCaptcha (m : OCRKeyManager)
    : (string + RecognizeError) * OCRKeyManager * list Event :=
  let tries := length (keys m) in
  if Nat.eqb tries 0 then (inr (OtherError "no usable OCR keys"), m, [])
  else attempt tries 0 m None [].

End Recognize.

(** *** Vocabulary *)

(** The answers of the recognizers, in the order of the calls. *)
Fixpoint asked (log : list Event) : list (Z * Answer) :=
  match log with
  | [] => []
  | Asked id a :: rest => (id, a) :: asked rest
  | _ :: rest => asked rest
  end.

(** The usage reports, in the order of the calls. *)
Fixpoint usages (log : list Event) : list (Z * bool) :=
  match log with
  | [] => []
  | Usage id ok _ :: rest => (id, ok) :: usages rest
  | _ :: rest => usages rest
  end.

(** An answer the manager takes: no error and a text. *)
Definition usableAnswer (a : Answer) : bool :=
  match err a with
  | None => negb (String.eqb (text a) "")
  | Some _ => false
  end.

(** Callbacks that leave the manager as it is. *)
Definition quietUsage (cb : Callbacks) : Prop :=
  forall f, onUsage cb = Some f -> forall id ok msg m, f id ok msg m = m.

Definition quietExhausted (cb : Callbacks) : Prop :=
  forall f, onKeyExhausted cb = Some f -> forall id code msg m, f id code msg m = m.

(** Whether the loop calls [onKeyExhausted] for this error. *)
Definition fires (cb : Callbacks) (e : RecognizeError) : bool :=
  match reportedCode (Some e), onKeyExhausted cb with
  | Some _, Some _ => true
  | _, _ => false
  end.

(** Callbacks that only keep a record, as the usage callback of [main]
    does. *)
Definition recording : Callbacks :=
  mkCallbacks (Some (fun _ _ _ m => m)) (Some (fun _ _ _ m => m)).

End Dispatch.

(** ** The key manager: the rotation of [pick] *)

Module Rotation.

Import OCR.

(** [n] calls of [pick] in a row: the ids of the keys chosen, oldest
    first, and the manager after the calls. *)
Fixpoint picks (n : nat) (m : OCRKeyManager) : list Z * OCRKeyManager :=
  match n with
  | O => ([], m)
  | S n' =>
      match pick m with
      | (Some wk, m') =>
          let '(chosen, m'') := picks n' m' in (ID (key wk) :: chosen, m'')
      | (None, m') => picks n' m'
      end
  end.

(** *** Vocabulary *)

Definition sumZ (l : list Z) : Z := fold_right Z.add 0 l.

Definition weights (ks : list weightedKey) : list Z := map (fun wk => Weight (key wk)) ks.

Definition currents (ks : list weightedKey) : list Z := map current ks.

Definition ids (ks : list weightedKey) : list Z := map (fun wk => ID (key wk)) ks.

Definition timesChosen (id : Z) (chosen : list Z) : Z :=
  Z.of_nat (count_occ Z.eq_dec chosen id).

(** A manager as [Reload] leaves it when no key has a monthly quota: the
    accumulators are zero, the weights are positive and [total] is their
    sum. *)
Definition balanced (m : OCRKeyManager) : Prop :=
  Forall (fun wk => current wk = 0 /\ 0 < Weight (key wk)) (keys m) /\
  total m = sumZ (weights (keys m)).

(** The manager [m] after [t] calls of [pick] from the balanced keys
    [ks0], when [cnt id] of them chose the key [id]. *)
Definition inCycle (ks0 : list weightedKey) (W t : Z) (cnt : Z -> Z)
    (m : OCRKeyManager) : Prop :=
  total m = W /\
  map key (keys m) = map key ks0 /\
  map recognizer (keys m) = map recognizer ks0 /\
  sumZ (currents (keys m)) = 0 /\
  forall j wk, keys m !! j = Some wk ->
    current wk = t * Weight (key wk) - W * cnt (ID (key wk)) /\ - W < current wk.

End Rotation.

(** ** Sample keys *)

Module SampleKeys.

Import OCR Dispatch.

(** An active Baidu key with quota left and no monthly quota. *)
Definition keyOf (id weight : Z) : OCRKey :=
  mkKey id "baidu" "key" "api-key" "secret-key" true true 0 0 weight.

(** Weights three and one. *)
Definition unevenKeys : OCRKeyManager :=
  Reload exact unusedPath builtin [keyOf 1 3; keyOf 2 1].

(** Two keys of weight one. *)
Definition evenKeys : OCRKeyManager :=
  Reload exact unusedPath builtin [keyOf 1 1; keyOf 2 1].

(** The key 1 is out of quota, every other key reads the captcha. *)
Definition firstKeyExhausted (n : nat) (wk : weightedKey) : Answer :=
  if ID (key wk) =? 1
  then mkAnswer "" (Some (OCRError "17" "Open api daily request limit reached" "quota"))
  else mkAnswer "AB12" None.


(** The callback for exhausted keys that [main] installs, when its two
    statements succeed: the key is marked out of quota and the keys are
    loaded again, here from the two keys of [evenKeys]. *)
Definition reloading : Callbacks :=
  mkCallbacks (Some (fun _ _ _ m => m))
    (Some (fun keyID _ _ _ =>
             Reload exact unusedPath builtin
               (List.filter (fun k => negb (ID k =? keyID)) [keyOf 1 1; keyOf 2 1]))).

End SampleKeys.

(** ** The log repository: the other statements *)

Module LogQueries.

Import LogRepo.

(** What the database contributes to a statement outside a transaction:
    whether [Exec] or [Query] fails, whether reading its result
    ([LastInsertId], [RowsAffected], [Scan]) fails, and, for a query whose
    rows are read in a loop [for rows.Next()], after how many rows the
    iteration stops on an error of its own.  None of these loops looks at
    [rows.Err()]: the rows read until then are returned, without an
    error. *)
Record Stmt := mkStmt {
  execError : option string;
  resultError : option string;
  rowsErr : option nat
}.

(** The rows the loop gets to read. *)
Definition readRows {A : Type} (st : Stmt) (found : list A) : list A :=
  match rowsErr st with
  | Some n => take n found
  | None => found
  end.

Definition ofCode (redeemCodeID : Z) (r : RedeemLog) : bool :=
  redeem_code_id r =? redeemCodeID.

(** [CreateRedeemLog]: the [INSERT] alone. *)
Definition CreateRedeemLog (st : Stmt) (now : Z) (t : Table) (redeemCodeID gameAccountID : Z)
    (o : Outcome) : Table * (Z + string) :=
  match execError st with
  | Some e => (t, inr e)
  | None =>
      let db := mkDb None None None None None now in
      let t' := insertNew db redeemCodeID gameAccountID o t in
      match resultError st with
      | Some e => (t', inr e)
      | None => (t', inl (nextID t))
      end
  end.

(** [DELETE FROM redeem_logs WHERE redeem_code_id = ?], and the number of
    rows it deleted. *)
Definition DeleteLogsByRedeemCodeID (st : Stmt) (t : Table) (redeemCodeID : Z)
    : Table * (Z + string) :=
  match execError st with
  | Some e => (t, inr e)
  | None =>
      let t' := mkTable (List.filter (fun r => negb (ofCode redeemCodeID r)) (rows t))
                        (nextID t) in
      match resultError st with
      | Some e => (t', inr e)
      | None =>
          (t', inl (Z.of_nat (length (List.filter (ofCode redeemCodeID) (rows t)))))
      end
  end.

(** [SELECT DISTINCT game_account_id FROM redeem_logs WHERE redeem_code_id
    = ?].  SQL leaves the order of the rows open; here each id stands
    where its last row stands in the table.  A [Scan] can only fail on a
    row, and an iteration that stops early gives the ids read so far. *)
Definition GetParticipatedAccountIDs (st : Stmt) (t : Table) (redeemCodeID : Z)
    : list Z + string :=
  match execError st with
  | Some e => inr e
  | None =>
      let ids := readRows st (remove_dups (map game_account_id
                                             (List.filter (ofCode redeemCodeID) (rows t)))) in
      match resultError st, ids with
      | Some e, _ :: _ => inr e
      | _, _ => inl ids
      end
  end.

Definition count (p : RedeemLog -> bool) (l : list RedeemLog) : Z :=
  Z.of_nat (length (List.filter p l)).

(** [GetLogStats]: [COUNT( * )] and the two conditional sums over the rows
    of the code.  The comparison of [result] is that of the column; on
    the two texts this code writes, [success] and [failed], it is
    equality. *)
Definition GetLogStats (st : Stmt) (t : Table) (redeemCodeID : Z)
    : (Z * Z * Z) + string :=
  match execError st with
  | Some e => inr e
  | None =>
      match resultError st with
      | Some e => inr e
      | None =>
          let mine := List.filter (ofCode redeemCodeID) (rows t) in
          inl (Z.of_nat (length mine),
               count (fun r => String.eqb (result r) "success") mine,
               count (fun r => String.eqb (result r) "failed") mine)
      end
  end.

(** *** Vocabulary *)

(** A statement on which nothing fails. *)
Definition ok : Stmt := mkStmt None None None.

(** A table as this code writes it: every result is one of the two texts. *)
Definition wellFormed (t : Table) : Prop :=
  Forall (fun r => result r = "success"%string \/ result r = "failed"%string) (rows t).

Definition pairOf (r : RedeemLog) : Z * Z := (redeem_code_id r, game_account_id r).

(** At most one log for each pair of redeem code and account. *)
Definition onePerPair (t : Table) : Prop := NoDup (map pairOf (rows t)).

End LogQueries.

(** ** The job table and the in-memory queue *)

Module Queue.

Import JobQueue.

(** The table [jobs] and its [AUTO_INCREMENT] counter. *)
Record JobTable := mkJobTable { rows : list Row; nextID : Z }.

(** [CreateJob]: [INSERT INTO jobs (type, payload, status, retries,
    max_retries, next_run_at) VALUES (?, ?, 'pending', 0, ?, NOW())];
    [payloadJSON] is the payload as [json.Marshal] writes it, and
    [created_at] and [updated_at] take their default, the current time. *)
Definition CreateJob (db : Db) (lastInsertIdError : option string) (t : JobTable)
    (jobType payloadJSON : string) (maxRetries : Z) : JobTable * (Z + string) :=
  match execError db with
  | Some e => (t, inr e)
  | None =>
      let row := mkRow (nextID t) jobType payloadJSON "pending" 0 maxRetries
                       (dbNow db) None (dbNow db) (dbNow db) in
      let t' := mkJobTable (rows t ++ [row]) (nextID t + 1) in
      match lastInsertIdError with
      | Some e => (t', inr e)
      | None => (t', inl (nextID t))
      end
  end.

(** [WHERE status = 'pending' AND next_run_at <= NOW()]. *)
Definition due (now : Z) (r : Row) : bool :=
  String.eqb (status r) "pending" && (next_run_at r <=? now).

(** [ORDER BY created_at ASC]; rows created at the same time keep the
    order of the table, one of the orders SQL allows. *)
Fixpoint insertByCreated (r : Row) (l : list Row) : list Row :=
  match l with
  | [] => [r]
  | x :: rest =>
      if created_at r <=? created_at x then r :: l else x :: insertByCreated r rest
  end.

Definition orderByCreated (l : list Row) : list Row := fold_right insertByCreated [] l.

(** [GetPendingJobs]; [queryError] stands for a failure of [Query] or of a
    [Scan], and a negative [LIMIT] is refused by the server. *)
Definition GetPendingJobs (queryError : option string) (now : Z) (t : JobTable) (limit : Z)
    : list Row + string :=
  match queryError with
  | Some e => inr e
  | None =>
      if limit <? 0 then inr "You have an error in your SQL syntax"%string
      else inl (take (Z.to_nat limit) (orderByCreated (List.filter (due now) (rows t))))
  end.

Definition MarkJobProcessing (db : Db) (jobs : list Row) (jobID : Z) :=
  UpdateJobStatus db jobs jobID "processing" None.

Definition MarkJobCompleted (db : Db) (jobs : list Row) (jobID : Z) :=
  UpdateJobStatus db jobs jobID "completed" None.

(** The buffered channel [queue], oldest job first, and its capacity. *)
Record JobQueue := mkQueue { queue : list Job; maxCapacity : Z }.

(** The non-blocking send [select { case jq.queue <- job: ... default:
    ... }]: whether the job went in. *)
Definition trySend (q : JobQueue) (job : Job) : JobQueue * bool :=
  if Z.of_nat (length (queue q)) <? maxCapacity q
  then (mkQueue (queue q ++ [job]) (maxCapacity q), true)
  else (q, false).

(** [Enqueue]: the job is stored first, then offered to the queue; the
    id is returned whether or not the queue took it. *)
Definition Enqueue (db : Db) (lastInsertIdError : option string) (t : JobTable)
    (q : JobQueue) (jobType payloadJSON : string) (maxRetries : Z)
    : JobTable * JobQueue * (Z + string) :=
  match CreateJob db lastInsertIdError t jobType payloadJSON maxRetries with
  | (t', inr e) => (t', q, inr e)
  | (t', inl jobID) =>
      let job := mkJob jobID jobType payloadJSON 0 maxRetries in
      (t', fst (trySend q job), inl jobID)
  end.

(** The job [loadBatch] builds from a row. *)
Definition toJob (r : Row) : Job :=
  mkJob (id r) (type r) (payload r) (retries r) (max_retries r).

(** The loop of [loadBatch] over the rows; [parses] tells whether
    [ParseJobPayload] accepts a payload.  The [break] in the [default]
    branch leaves the [select], not the loop. *)
Fixpoint loadRows (parses : string -> bool) (jobs : list Row) (q : JobQueue) : JobQueue :=
  match jobs with
  | [] => q
  | dbJob :: rest =>
      if parses (payload dbJob)
      then loadRows parses rest (fst (trySend q (toJob dbJob)))
      else loadRows parses rest q
  end.

Definition loadBatch (queryError : option string) (parses : string -> bool) (now : Z)
    (t : JobTable) (q : JobQueue) : JobQueue :=
  let currentLength := Z.of_nat (length (queue q)) in
  let availableSpace := maxCapacity q - currentLength in
  if availableSpace <=? 0 then q
  else
    match GetPendingJobs queryError now t availableSpace with
    | inr _ => q
    | inl jobs => loadRows parses jobs q
    end.

(** *** The worker *)

Definition JobTypeRedeem : string := "redeem".
Definition JobTypeRetryRedeem : string := "retry_redeem".
Definition JobTypeSupplementRedeem : string := "supplement_redeem".

(** What the outside contributes to one call of [processJob]: the
    database at each of its statements, whether the rate limiter gives up
    (its context is cancelled), the error of the handler of the job
    ([None] when it succeeds), and the time at which [RetryJob] reads the
    clock. *)
Record JobWorld := mkJobWorld {
  markDb : Db;
  limiterError : bool;
  handlerError : option string;
  retryDb : Db;
  retryNow : Z;
  doneDb : Db
}.

Definition knownType (jobType : string) : bool :=
  String.eqb jobType JobTypeRedeem || String.eqb jobType JobTypeRetryRedeem
  || String.eqb jobType JobTypeSupplementRedeem.

(** [processJob], as its effect on the table [jobs]; [None] is a run-time
    panic (of [RetryJob]). *)
Definition processJob (w : JobWorld) (jobs : list Row) (job : Job) : option (list Row) :=
  match MarkJobProcessing (markDb w) jobs (ID job) with
  | (_, Some _) => Some jobs
  | (jobs1, None) =>
      if limiterError w then Some jobs1
      else
        let err :=
          if knownType (Type_ job) then handlerError w
          else Some ("未知任务类型: " +:+ Type_ job) in
        match err with
        | Some e =>
            match RetryJob (retryDb w) (retryNow w) jobs1 job e with
            | None => None
            | Some (jobs2, _) => Some jobs2
            end
        | None => Some (fst (MarkJobCompleted (doneDb w) jobs1 (ID job)))
        end
  end.

(** *** Vocabulary *)

Definition healthyDb (now : Z) : Db := mkDb now None roundToSecond.

Fixpoint findRow (jobID : Z) (jobs : list Row) : option Row :=
  match jobs with
  | [] => None
  | r :: rest => if id r =? jobID then Some r else findRow jobID rest
  end.

(** The loop of a worker: it takes the jobs off the channel one after
    the other and runs each as it stands in the channel; [processJob]
    reads neither the status nor the retries of the row.  [w k] is the
    world of the [k]-th run, counted from [n].  The runs of several
    workers overlap in time; here they follow one another. *)
Fixpoint runCopies (w : nat -> JobWorld) (n : nat) (copies : list Job) (jobs : list Row)
    : option (list Row) :=
  match copies with
  | [] => Some jobs
  | job :: rest =>
      match processJob (w n) jobs job with
      | Some jobs' => runCopies w (S n) rest jobs'
      | None => None
      end
  end.

(** A run in which every statement succeeds and the handler fails. *)
Definition failing (w : JobWorld) : Prop :=
  execError (markDb w) = None /\ execError (retryDb w) = None /\
  limiterError w = false /\ exists e, handlerError w = Some e.

Definition occurrences (jobID : Z) (q : JobQueue) : nat :=
  length (List.filter (fun j => ID j =? jobID) (queue q)).

(** The jobs of this program: retries are counted from 0 and
    [max_retries] is at most 3. *)
Definition smallRow (r : Row) : Prop := 0 <= retries r /\ max_retries r <= 3.

Definition smallJob (j : Job) : Prop := 0 <= Retries j /\ MaxRetries j <= 3.

Definition small (t : JobTable) (q : JobQueue) : Prop :=
  Forall smallRow (rows t) /\ Forall smallJob (queue q).

End Queue.

(** ** The worker manager: submitting jobs *)

Module Manager.

Import JobQueue Queue.

(** The three callers of [Enqueue]; [payloadJSON] is the payload as
    [json.Marshal] writes it. *)
Definition SubmitRedeemTask (db : Db) (lastInsertIdError : option string) (t : JobTable)
    (q : JobQueue) (payloadJSON : string) :=
  Enqueue db lastInsertIdError t q JobTypeRedeem payloadJSON 3.

Definition SubmitRetryTask (db : Db) (lastInsertIdError : option string) (t : JobTable)
    (q : JobQueue) (payloadJSON : string) :=
  Enqueue db lastInsertIdError t q JobTypeRetryRedeem payloadJSON 3.

Definition SubmitSupplementTask (db : Db) (lastInsertIdError : option string) (t : JobTable)
    (q : JobQueue) (payloadJSON : string) :=
  Enqueue db lastInsertIdError t q JobTypeSupplementRedeem payloadJSON 2.

End Manager.

(** ** Sample jobs *)

Module SampleJobs.

Import JobQueue Queue.

(** Three jobs: the second is done, the third was created before the
    first. *)
Definition threeJobs : JobTable :=
  mkJobTable
    [mkRow 1 "redeem" "{}" "pending" 0 3 100 None 100 100;
     mkRow 2 "redeem" "{}" "completed" 0 3 90 None 90 95;
     mkRow 3 "supplement_redeem" "{}" "pending" 1 2 80 (Some "boom"%string) 50 70] 4.

Definition emptyQueue : JobQueue := mkQueue [] 100.

Definition anyPayload (payload : string) : bool := true.

(** A world in which every statement succeeds and the handler fails. *)
Definition alwaysFailing (k : nat) : JobWorld :=
  mkJobWorld (healthyDb 0) false (Some "boom"%string) (healthyDb 0) 0 (healthyDb 0).

End SampleJobs.

(** ** The single-account flow *)

Module Single.

Import GameClient.

(** What one call of [RedeemSingle] does besides returning: the operations
    on the gate and the API calls (as operations of [Gate]), the calls of
    the recognizer, and the sleeps with their duration. *)
Inductive Event :=
| Did (op : Gate.Op)
| Recognised
| Slept (d : Z).

(** What the [n]-th call of the run, to the game API or to the recognizer,
    meets: the HTTP exchange and the time stamp (for an API call), the
    answer of the recognizer ([inl] text, [inr] error), and the time the
    call takes. *)
Record Reply := mkReply {
  http : HttpOutcome;
  stamp : string;
  recognised : string + string;
  took : Z
}.

(** The calls and the random draws made so far, the clock, and the events
    so far, oldest first. *)
Record Run := mkRun {
  step : nat;
  draws : nat;
  clock : Z;
  events : list Event
}.

(** How an iteration of the retry loop ends. *)
Inductive Flow :=
| Return (r : RedeemResult.t)
| Fail (err : string)
| Continue
| Break.

Definition maxRetries : Z := 3.

(** [int(d.Seconds())]. *)
Definition seconds (d : Z) : Z := Z.quot d Second.

Section Flow.

Variable world : nat -> Reply.

(** The [n]-th value of [rand.Intn(600)] is [jitter n mod 600]. *)
Variable jitter : nat -> Z.

Variable fid giftCode : string.

Definition sleep (d : Z) (s : Run) : Run :=
  mkRun (step s) (draws s) (clock s + d) (events s ++ [Slept d]).

(** [time.Sleep(time.Duration(200+rand.Intn(600)) * time.Millisecond)]. *)
Definition jitterSleep (s : Run) : Run :=
  let d := wrap64 (wrap64 (200 + jitter (draws s) mod 600) * Millisecond) in
  mkRun (step s) (S (draws s)) (clock s + d) (events s ++ [Slept d]).

Definition called (e : Event) (s : Run) : Run :=
  mkRun (S (step s)) (draws s) (clock s + took (world (step s))) (events s ++ [e]).

Definition login (s : Run) : Call * Run :=
  (Login (http (world (step s))) (stamp (world (step s))),
   called (Did (Gate.Api Gate.CallLogin)) s).

Definition getCaptcha (s : Run) : Call * Run :=
  (GetCaptcha (http (world (step s))), called (Did (Gate.Api Gate.CallCaptcha)) s).

Definition redeemCode (s : Run) : Call * Run :=
  (RedeemCode (http (world (step s))), called (Did (Gate.Api Gate.CallRedeem)) s).

Definition recognize (s : Run) : (string + string) * Run :=
  (recognised (world (step s)), called Recognised s).

Section Attempt.

(** [startTime]. *)
Variable start : Z.

(** A struct literal with [Success: false]; [ProcessingTime] is read off
    the clock when the literal is built. *)
Definition failed (captcha err stage : string) (code : Z) (fatal : bool) (attempts : Z)
    (s : Run) : RedeemResult.t :=
  RedeemResult.mk false fid giftCode captcha "" err (seconds (clock s - start))
    stage code fatal attempts "".

(** The branch for a recognition that failed or gave a text that is not
    four characters. *)
Definition badCaptcha (attempt : Z) (lastCaptchaValue : string) (s : Run)
    : Flow * string * string * Run :=
  let lastError := "验证码识别失败或长度异常"%string in
  if attempt =? maxRetries then
    let s := sleep (60 * Second) s in
    let '(reLogin, s) := login s in
    match reLogin with
    | inr loginErr =>
        (Return (failed "" ("冷却后重新登录请求异常: " +:+ loginErr) "relogin_exception"
                   0 false 0 s),
         lastCaptchaValue, lastError, s)
    | inl reLoginResult =>
        if negb (Success reLoginResult) then
          (Return (failed "" ("冷却后重新登录失败: " +:+ Error reLoginResult) "relogin"
                     (ErrCode reLoginResult) false 0 s),
           lastCaptchaValue, lastError, s)
        else (Continue, lastCaptchaValue, lastError, s)
    end
  else (Continue, lastCaptchaValue, lastError, sleep (3 * Second) s).

(** The body of [for attempt := 1; attempt <= maxRetries; attempt++]: how
    it ends, and [lastCaptchaValue] and [lastError] after it. *)
Definition body (attempt : Z) (lastCaptchaValue lastError : string) (s : Run)
    : Flow * string * string * Run :=
  let s := jitterSleep s in
  let '(captchaCall, s) := getCaptcha s in
  match captchaCall with
  | inr err =>
      let lastError := ("获取验证码异常: " +:+ err)%string in
      if attempt =? maxRetries then
        (Return (failed "" lastError "captcha_exception" 0 false attempt s),
         lastCaptchaValue, lastError, s)
      else
        let s := sleep (60 * Second) s in
        let '(reLogin, s) := login s in
        match reLogin with
        | inr loginErr => (Fail loginErr, lastCaptchaValue, lastError, s)
        | inl reLoginResult =>
            if negb (Success reLoginResult) then
              let lastError := ("冷却后重新登录失败: " +:+ Error reLoginResult)%string in
              if attempt =? maxRetries then
                (Return (failed "" lastError "relogin" (ErrCode reLoginResult) false attempt s),
                 lastCaptchaValue, lastError, s)
              else (Continue, lastCaptchaValue, lastError, s)
            else (Continue, lastCaptchaValue, lastError, s)
        end
  | inl captchaResult =>
      if negb (Success captchaResult) then
        let lastError := ("获取验证码失败: " +:+ Error captchaResult)%string in
        if ErrCode captchaResult =? 40100 then
          let '(reLogin, s) := login s in
          match reLogin with
          | inr err =>
              (Return (failed "" ("重新登录请求异常: " +:+ err) "relogin_exception" 0 false 0 s),
               lastCaptchaValue, lastError, s)
          | inl reLoginResult =>
              if negb (Success reLoginResult) then
                let lastError := ("重新登录失败: " +:+ Error reLoginResult)%string in
                if attempt =? maxRetries then
                  let s := sleep (60 * Second) s in
                  let '(reLogin2, s) := login s in
                  match reLogin2 with
                  | inl reLoginResult2 =>
                      if negb (Success reLoginResult2) then
                        (Return (failed "" "重新登录失败(兜底)" "relogin" 0 false 0 s),
                         lastCaptchaValue, lastError, s)
                      else (Continue, lastCaptchaValue, lastError, s)
                  | inr _ =>
                      (Return (failed "" "重新登录失败(兜底)" "relogin" 0 false 0 s),
                       lastCaptchaValue, lastError, s)
                  end
                else (Continue, lastCaptchaValue, lastError, sleep (3 * Second) s)
              else (Continue, lastCaptchaValue, lastError, sleep (3 * Second) s)
          end
        else if ErrCode captchaResult =? 40101 then
          let s := sleep (60 * Second) s in
          let '(reLogin, s) := login s in
          match reLogin with
          | inr err =>
              (Return (failed "" ("冷却后重新登录请求异常: " +:+ err) "relogin_exception"
                         0 false 0 s),
               lastCaptchaValue, lastError, s)
          | inl reLoginResult =>
              if negb (Success reLoginResult) then
                let lastError := ("冷却后重新登录失败: " +:+ Error reLoginResult)%string in
                if attempt =? maxRetries then
                  (Return (failed "" lastError "relogin" (ErrCode reLoginResult) false
                             attempt s),
                   lastCaptchaValue, lastError, s)
                else (Continue, lastCaptchaValue, lastError, s)
              else (Continue, lastCaptchaValue, lastError, s)
          end
        else if attempt =? maxRetries then
          (Return (failed "" lastError "captcha" (ErrCode captchaResult) false attempt s),
           lastCaptchaValue, lastError, s)
        else (Continue, lastCaptchaValue, lastError, sleep (3 * Second) s)
      else
        let '(answer, s) := recognize s in
        match answer with
        | inr _ => badCaptcha attempt lastCaptchaValue s
        | inl captchaValue =>
            if String.eqb captchaValue "" then badCaptcha attempt lastCaptchaValue s
            else
              let norm := Automation.normalize captchaValue [] in
              if negb (Z.of_nat (length norm) =? 4)
              then badCaptcha attempt lastCaptchaValue s
              else
                let captchaValue := string_of_list_ascii norm in
                let lastCaptchaValue := captchaValue in
                let '(redeemCall, s) := redeemCode s in
                match redeemCall with
                | inr err =>
                    let lastError := ("兑换请求异常: " +:+ err)%string in
                    if attempt =? maxRetries then
                      (Return (failed captchaValue lastError "redeem_exception" 0 false
                                 attempt s),
                       lastCaptchaValue, lastError, s)
                    else
                      let s := sleep (60 * Second) s in
                      let '(reLogin, s) := login s in
                      match reLogin with
                      | inr loginErr =>
                          (Return (failed captchaValue
                                     ("冷却后重新登录请求异常: " +:+ loginErr)
                                     "relogin_exception" 0 false 0 s),
                           lastCaptchaValue, lastError, s)
                      | inl reLoginResult =>
                          if negb (Success reLoginResult) then
                            let lastError :=
                              ("冷却后重新登录失败: " +:+ Error reLoginResult)%string in
                            if attempt =? maxRetries then
                              (Return (failed captchaValue lastError "relogin"
                                         (ErrCode reLoginResult) false attempt s),
                               lastCaptchaValue, lastError, s)
                            else (Continue, lastCaptchaValue, lastError, s)
                          else (Continue, lastCaptchaValue, lastError, s)
                      end
                | inl redeemResult =>
                    if Success redeemResult then
                      (Return (RedeemResult.mk true fid giftCode captchaValue "兑换成功" ""
                                 (seconds (clock s - start)) "completed"
                                 (ErrCode redeemResult) false attempt
                                 (member "reward" (Data redeemResult))),
                       lastCaptchaValue, lastError, s)
                    else
                      let lastError := Error redeemResult in
                      if IsFatal redeemResult then
                        (Return (failed captchaValue (Error redeemResult) "redeem"
                                   (ErrCode redeemResult) true attempt s),
                         lastCaptchaValue, lastError, s)
                      else if (ErrCode redeemResult =? 40103)
                              || (ErrCode redeemResult =? 40102) then
                        if attempt =? maxRetries then
                          let s := sleep (60 * Second) s in
                          let '(reLogin, s) := login s in
                          match reLogin with
                          | inl reLoginResult =>
                              if negb (Success reLoginResult)
                              then (Break, lastCaptchaValue, lastError, s)
                              else (Continue, lastCaptchaValue, lastError, s)
                          | inr _ => (Break, lastCaptchaValue, lastError, s)
                          end
                        else (Continue, lastCaptchaValue, lastError, sleep (3 * Second) s)
                      else if ErrCode redeemResult =? 40101 then
                        if attempt =? maxRetries
                        then (Continue, lastCaptchaValue, lastError, s)
                        else
                          let s := sleep (60 * Second) s in
                          let '(reLogin, s) := login s in
                          match reLogin with
                          | inr err =>
                              (Return (failed captchaValue
                                         ("冷却后重新登录请求异常: " +:+ err)
                                         "relogin_exception" 0 false 0 s),
                               lastCaptchaValue, lastError, s)
                          | inl reLoginResult =>
                              if negb (Success reLoginResult) then
                                let lastError :=
                                  ("冷却后重新登录失败: " +:+ Error reLoginResult)%string in
                                if attempt =? maxRetries then
                                  (Return (failed captchaValue lastError "relogin"
                                             (ErrCode reLoginResult) false attempt s),
                                   lastCaptchaValue, lastError, s)
                                else (Continue, lastCaptchaValue, lastError, s)
                              else (Continue, lastCaptchaValue, lastError, s)
                          end
                      else
                        (Return (failed captchaValue (Error redeemResult) "redeem"
                                   (ErrCode redeemResult) (IsFatal redeemResult) attempt s),
                         lastCaptchaValue, lastError, s)
                end
        end
  end.

(** The result after the loop: every retry failed. *)
Definition exhausted (lastCaptchaValue lastError : string) (s : Run) : RedeemResult.t :=
  failed lastCaptchaValue lastError "retry_exhausted" 0 false maxRetries s.

(** The retry loop, within [fuel] iterations ([None]: still running after
    them). *)
Fixpoint loop (fuel : nat) (attempt : Z) (lastCaptchaValue lastError : string) (s : Run)
    : option ((RedeemResult.t + string) * Run) :=
  if negb (attempt <=? maxRetries) then Some (inl (exhausted lastCaptchaValue lastError s), s)
  else
    match fuel with
    | O => None
    | S fuel' =>
        match body attempt lastCaptchaValue lastError s with
        | (Return r, _, _, s') => Some (inl r, s')
        | (Fail err, _, _, s') => Some (inr err, s')
        | (Continue, lastCaptchaValue', lastError', s') =>
            loop fuel' (incr attempt) lastCaptchaValue' lastError' s'
        | (Break, lastCaptchaValue', lastError', s') =>
            Some (inl (exhausted lastCaptchaValue' lastError' s'), s')
        end
    end.

End Attempt.

(** [RedeemSingle], from [acquireAccountGate()] to the deferred
    [releaseAccountGate()].  [now] is the time at which the gate is
    passed. *)
Definition RedeemSingle (fuel : nat) (now : Z)
    : option ((RedeemResult.t + string) * Run) :=
  let s := mkRun 0 0 now [Did Gate.Acquire] in
  let start := clock s in
  let release (out : (RedeemResult.t + string) * Run) :=
    (fst out,
     mkRun (step (snd out)) (draws (snd out)) (clock (snd out))
           (events (snd out) ++ [Did Gate.Release])) in
  let '(loginCall, s) := login s in
  match loginCall with
  | inr err =>
      Some (release (inl (failed start "" ("登录请求异常: " +:+ err) "login_exception"
                            0 false 0 s), s))
  | inl loginResult =>
      if negb (Success loginResult) then
        Some (release (inl (failed start "" ("登录失败: " +:+ Error loginResult) "login"
                              (ErrCode loginResult) false 0 s), s))
      else release <$> loop start fuel 1 "" "" s
  end.

End Flow.

(** *** Vocabulary *)

(** The gate operations and API calls among the events. *)
Fixpoint ops (l : list Event) : list Gate.Op :=
  match l with
  | [] => []
  | Did op :: rest => op :: ops rest
  | _ :: rest => ops rest
  end.

(** The time slept. *)
Fixpoint slept (l : list Event) : Z :=
  match l with
  | [] => 0
  | Slept d :: rest => d + slept rest
  | _ :: rest => slept rest
  end.

Definition isCall (c : Gate.ApiCall) (e : Event) : bool :=
  match e, c with
  | Did (Gate.Api Gate.CallLogin), Gate.CallLogin => true
  | Did (Gate.Api Gate.CallCaptcha), Gate.CallCaptcha => true
  | Did (Gate.Api Gate.CallRedeem), Gate.CallRedeem => true
  | _, _ => false
  end.

(** The number of calls of one kind. *)
Definition calls (c : Gate.ApiCall) (l : list Event) : Z :=
  Z.of_nat (length (List.filter (isCall c) l)).

Definition isGateOp (e : Event) : bool :=
  match e with
  | Did Gate.Acquire | Did Gate.Release => true
  | _ => false
  end.

(** What a round of the loop adds to the events: no gate operation, one
    captcha request, at most one claim, at most [logins] logins, and less
    than 60.8 seconds of sleep. *)
Definition roundOf (logins : Z) (new : list Event) : Prop :=
  List.filter isGateOp new = [] /\
  calls Gate.CallCaptcha new = 1 /\
  calls Gate.CallRedeem new <= 1 /\
  calls Gate.CallLogin new <= logins /\
  0 <= slept new <= 60 * Second + 799 * Millisecond.

(** What the flow guarantees of the result it returns: a success comes
    from a claim answered 20000, in one of the three rounds, with a
    well-formed captcha; a result flagged fatal comes from a claim answered
    40007 or 40014. *)
Definition sound (fid giftCode : string) (r : RedeemResult.t) : Prop :=
  RedeemResult.FID r = fid /\ RedeemResult.GiftCode r = giftCode /\
  (RedeemResult.Success r = true ->
     RedeemResult.Stage r = "completed"%string /\ RedeemResult.ErrCode r = 20000 /\
     1 <= RedeemResult.Attempts r <= 3 /\ RedeemResult.IsFatal r = false /\
     Captcha.wellFormed (RedeemResult.CaptchaRecognized r)) /\
  (RedeemResult.IsFatal r = true ->
     RedeemResult.Success r = false /\ RedeemResult.Stage r = "redeem"%string /\
     GameClient.isFatalError (RedeemResult.ErrCode r) = true /\
     1 <= RedeemResult.Attempts r <= 3).

End Single.

(** ** The worker: redeem jobs *)

(** The rows the worker reads and writes, with the columns it uses. *)
Module Model.

Module Account.
Record t := mk {
  ID : Z;
  FID : string;
  IsActive : bool;
  IsVerified : bool;
  CreatedAt : Z
}.
End Account.

Module RedeemCode.
Record t := mk {
  ID : Z;
  Code : string;
  Status : string;
  IsLong : bool;
  TotalAccounts : Z;
  SuccessCount : Z;
  FailedCount : Z;
  CreatedAt : Z
}.
End RedeemCode.

Module JobPayload.
Record t := mk {
  RedeemCodeID : Z;
  AccountIDs : list Z;
  IsRetry : bool
}.
End JobPayload.

End Model.

Module Worker.

Import LogRepo LogQueries.

(** [ORDER BY created_at DESC]; rows created at the same time keep the
    order of the table, one of the orders SQL allows. *)
Fixpoint insertByCreatedDesc (a : Model.Account.t) (l : list Model.Account.t)
    : list Model.Account.t :=
  match l with
  | [] => [a]
  | x :: rest =>
      if Model.Account.CreatedAt x <=? Model.Account.CreatedAt a then a :: l
      else x :: insertByCreatedDesc a rest
  end.

(** [GetActive]: [WHERE is_active = true ORDER BY created_at DESC].  A
    [Scan] can only fail on a row, and an iteration that stops early gives
    the accounts read so far. *)
Definition GetActive (st : Stmt) (table : list Model.Account.t)
    : list Model.Account.t + string :=
  match execError st with
  | Some e => inr e
  | None =>
      let found := readRows st (fold_right insertByCreatedDesc []
                                  (List.filter Model.Account.IsActive table)) in
      match resultError st, found with
      | Some e, _ :: _ => inr e
      | _, _ => inl found
      end
  end.

(** [FindRedeemCodeByID]: [QueryRow] and [Scan]; no row is [(nil, nil)]. *)
Definition FindRedeemCodeByID (st : Stmt) (codes : list Model.RedeemCode.t) (id : Z)
    : option Model.RedeemCode.t + string :=
  match execError st with
  | Some e => inr e
  | None =>
      match find (fun c => Model.RedeemCode.ID c =? id) codes with
      | None => inl None
      | Some c =>
          match resultError st with
          | Some e => inr e
          | None => inl (Some c)
          end
      end
  end.

(** [UPDATE redeem_codes SET status = ?, total_accounts = ? WHERE id = ?]. *)
Definition UpdateRedeemCodeStatus (execErr : option string) (codes : list Model.RedeemCode.t)
    (id : Z) (status : string) (totalAccounts : Z)
    : list Model.RedeemCode.t * option string :=
  match execErr with
  | Some e => (codes, Some e)
  | None =>
      (map (fun c =>
              if Model.RedeemCode.ID c =? id
              then Model.RedeemCode.mk (Model.RedeemCode.ID c) (Model.RedeemCode.Code c)
                     status (Model.RedeemCode.IsLong c) totalAccounts
                     (Model.RedeemCode.SuccessCount c) (Model.RedeemCode.FailedCount c)
                     (Model.RedeemCode.CreatedAt c)
              else c) codes,
       None)
  end.

(** [UPDATE redeem_codes SET success_count = ?, failed_count = ?,
    total_accounts = ? WHERE id = ?]. *)
Definition UpdateRedeemCodeStats (execErr : option string) (codes : list Model.RedeemCode.t)
    (id successCount failedCount totalAccounts : Z)
    : list Model.RedeemCode.t * option string :=
  match execErr with
  | Some e => (codes, Some e)
  | None =>
      (map (fun c =>
              if Model.RedeemCode.ID c =? id
              then Model.RedeemCode.mk (Model.RedeemCode.ID c) (Model.RedeemCode.Code c)
                     (Model.RedeemCode.Status c) (Model.RedeemCode.IsLong c) totalAccounts
                     successCount failedCount (Model.RedeemCode.CreatedAt c)
              else c) codes,
       None)
  end.

(** The three tables a redeem job works on.  A job is followed alone:
    nothing else writes the tables while it runs. *)
Record Store := mkStore {
  accounts : list Model.Account.t;
  codes : list Model.RedeemCode.t;
  logs : Table
}.

(** What the outside world contributes to one job: the failures of its
    statements (the [k]-th call of [GetActive], the [k]-th call of
    [ReplaceRedeemLog]), the world of the batch and the time it starts. *)
Record World := mkWorld {
  findCode : Stmt;
  participated : Stmt;
  getActive : nat -> Stmt;
  markProcessing : option string;
  attempts : nat -> Automation.AttemptWorld;
  batchStart : Z;
  logDb : nat -> LogRepo.Db;
  logStats : Stmt;
  updateStats : option string;
  markCompleted : option string
}.

Definition len {A : Type} (l : list A) : Z := Z.of_nat (length l).

(** The handlers differ in the text of the success message. *)
Definition redeemMessage (fid : string) : string :=
  "兑换成功，账号 " +:+ fid +:+ " 已成功兑换奖励".

Definition supplementMessage (fid : string) : string :=
  "补充兑换成功，新账号 " +:+ fid +:+ " 已获得兑换奖励".

Section Handlers.

Variable w : World.

(** The accounts named by [payload.AccountIDs]: for each id, a fresh
    [GetActive] and the first account with this id. *)
Fixpoint named (table : list Model.Account.t) (ids : list Z) (k : nat)
    (accounts : list Model.Account.t) : list Model.Account.t + string :=
  match ids with
  | [] => inl accounts
  | accountID :: rest =>
      match GetActive (getActive w k) table with
      | inr e => inr ("获取账号失败: " +:+ e)
      | inl allAccounts =>
          named table rest (S k)
            (match find (fun acc => Model.Account.ID acc =? accountID) allAccounts with
             | Some acc => accounts ++ [acc]
             | None => accounts
             end)
      end
  end.

(** The accounts of a redeem job. *)
Definition selectAccounts (table : list Model.Account.t) (ids : list Z)
    : list Model.Account.t + string :=
  if 0 <? len ids then named table ids 0 []
  else
    match GetActive (getActive w 0) table with
    | inr e => inr ("获取活跃账号失败: " +:+ e)
    | inl allAccounts => inl (List.filter Model.Account.IsVerified allAccounts)
    end.

Definition toClient (acc : Model.Account.t) : Account.t :=
  Account.mk (Model.Account.ID acc) (Model.Account.FID acc).

(** The values the handler binds to the log of one result. *)
Definition outcomeOf (message : string -> string) (redeemCode : Model.RedeemCode.t)
    (result : BatchRedeemResult.t) : Outcome :=
  mkOutcome (BatchRedeemResult.FID result) (Model.RedeemCode.Code redeemCode)
    (if BatchRedeemResult.Success result then "success" else "failed")
    (if String.eqb (BatchRedeemResult.Error result) "" then None
     else Some (BatchRedeemResult.Error result))
    (if BatchRedeemResult.Success result then Some (message (BatchRedeemResult.FID result))
     else None)
    (if String.eqb (BatchRedeemResult.CaptchaRecognized result) "" then None
     else Some (BatchRedeemResult.CaptchaRecognized result))
    (if 0 <? BatchRedeemResult.ProcessingTime result
     then Some (BatchRedeemResult.ProcessingTime result) else None)
    (if 0 <? BatchRedeemResult.ErrCode result
     then Some (BatchRedeemResult.ErrCode result) else None).

(** The loop over the results: one [ReplaceRedeemLog] for each, whose
    error is logged and dropped, and the two counters. *)
Fixpoint writeLogs (message : string -> string) (redeemCode : Model.RedeemCode.t)
    (results : list BatchRedeemResult.t) (k : nat) (t : Table)
    (successCount failedCount : Z) : Table * Z * Z :=
  match results with
  | [] => (t, successCount, failedCount)
  | result :: rest =>
      let t' := fst (ReplaceRedeemLog (logDb w k) t (Model.RedeemCode.ID redeemCode)
                       (BatchRedeemResult.AccountID result)
                       (outcomeOf message redeemCode result)) in
      if BatchRedeemResult.Success result
      then writeLogs message redeemCode rest (S k) t' (incr successCount) failedCount
      else writeLogs message redeemCode rest (S k) t' successCount (incr failedCount)
  end.

(** [processRedeemJob]: the error it returns ([None] for [nil]) and the
    tables after it.  The result is [None] when the call does not return:
    the batch is still running after [fuel] passes, or it panicked. *)
Definition processRedeemJob (fuel : nat) (s : Store) (payload : Model.JobPayload.t)
    : option (option string * Store) :=
  match FindRedeemCodeByID (findCode w) (codes s) (Model.JobPayload.RedeemCodeID payload) with
  | inr e => Some (Some ("获取兑换码失败: " +:+ e), s)
  | inl None =>
      Some (Some ("兑换码不存在: " +:+ pretty (Model.JobPayload.RedeemCodeID payload)), s)
  | inl (Some redeemCode) =>
      match selectAccounts (accounts s) (Model.JobPayload.AccountIDs payload) with
      | inr e => Some (Some e, s)
      | inl selected =>
          if len selected =? 0 then Some (Some "没有可用的账号"%string, s)
          else
            match UpdateRedeemCodeStatus (markProcessing w) (codes s)
                    (Model.RedeemCode.ID redeemCode) "processing" (len selected) with
            | (_, Some e) => Some (Some ("更新兑换码状态失败: " +:+ e), s)
            | (codes1, None) =>
                match Automation.RedeemBatch (attempts w) (Model.RedeemCode.Code redeemCode)
                        fuel (map toClient selected) (batchStart w) with
                | Some (Automation.Returned results) =>
                    let '(logs', successCount, failedCount) :=
                      writeLogs redeemMessage redeemCode results 0 (logs s) 0 0 in
                    let codes2 :=
                      fst (UpdateRedeemCodeStats (updateStats w) codes1
                             (Model.RedeemCode.ID redeemCode) successCount failedCount
                             (len selected)) in
                    match UpdateRedeemCodeStatus (markCompleted w) codes2
                            (Model.RedeemCode.ID redeemCode) "completed" (len selected) with
                    | (codes3, Some e) =>
                        Some (Some ("更新兑换码完成状态失败: " +:+ e),
                              mkStore (accounts s) codes3 logs')
                    | (codes3, None) => Some (None, mkStore (accounts s) codes3 logs')
                    end
                | _ => None
                end
            end
      end
  end.

(** [processRetryRedeemJob]. *)
Definition processRetryRedeemJob := processRedeemJob.

(** The accounts of a supplement job: active, verified and without a log
    for the code. *)
Definition newcomers (participatedAccountIDs : list Z) (allAccounts : list Model.Account.t)
    : list Model.Account.t :=
  List.filter (fun acc => Model.Account.IsVerified acc &&
                          negb (existsb (Z.eqb (Model.Account.ID acc)) participatedAccountIDs))
              allAccounts.

(** [processSupplementRedeemJob]. *)
Definition processSupplementRedeemJob (fuel : nat) (s : Store) (payload : Model.JobPayload.t)
    : option (option string * Store) :=
  match FindRedeemCodeByID (findCode w) (codes s) (Model.JobPayload.RedeemCodeID payload) with
  | inr e => Some (Some ("获取兑换码失败: " +:+ e), s)
  | inl None =>
      Some (Some ("兑换码不存在: " +:+ pretty (Model.JobPayload.RedeemCodeID payload)), s)
  | inl (Some redeemCode) =>
      match GetParticipatedAccountIDs (participated w) (logs s)
              (Model.JobPayload.RedeemCodeID payload) with
      | inr e => Some (Some ("获取已参与账号列表失败: " +:+ e), s)
      | inl participatedAccountIDs =>
          match GetActive (getActive w 0) (accounts s) with
          | inr e => Some (Some ("获取活跃账号失败: " +:+ e), s)
          | inl allAccounts =>
              let newAccounts := newcomers participatedAccountIDs allAccounts in
              if len newAccounts =? 0 then Some (None, s)
              else
                match Automation.RedeemBatch (attempts w) (Model.RedeemCode.Code redeemCode)
                        fuel (map toClient newAccounts) (batchStart w) with
                | Some (Automation.Returned results) =>
                    let '(logs', _, _) :=
                      writeLogs supplementMessage redeemCode results 0 (logs s) 0 0 in
                    let codes' :=
                      match GetLogStats (logStats w) logs' (Model.RedeemCode.ID redeemCode) with
                      | inr _ => codes s
                      | inl (total, success, failed) =>
                          fst (UpdateRedeemCodeStats (updateStats w) (codes s)
                                 (Model.RedeemCode.ID redeemCode) success failed total)
                      end in
                    Some (None, mkStore (accounts s) codes' logs')
                | _ => None
                end
          end
      end
  end.

End Handlers.

(** *** Vocabulary *)

(** The row of the code [id]. *)
Definition codeRow (codes : list Model.RedeemCode.t) (id : Z) : option Model.RedeemCode.t :=
  find (fun c => Model.RedeemCode.ID c =? id) codes.

(** The logs of the pair of a code and an account. *)
Definition logsOf (t : Table) (redeemCodeID gameAccountID : Z) : list RedeemLog :=
  List.filter (samePair redeemCodeID gameAccountID) (rows t).

(** No statement of the transaction fails before the commit is through. *)
Definition healthy (db : Db) : Prop :=
  beginError db = None /\ deleteError db = None /\
  insertError db = None /\ commitError db = None.

(** Every log is written. *)
Definition healthyLogs (w : World) : Prop := forall k, healthy (logDb w k).

(** Every call of [GetActive] reads all its rows. *)
Definition wholeAccounts (w : World) : Prop := forall k, rowsErr (getActive w k) = None.

End Worker.

(** ** Sample redeem jobs *)

Module SampleWorker.

Import LogQueries Worker.

(** Three accounts: the second is not verified, the third is not active. *)
Definition table : list Model.Account.t :=
  [Model.Account.mk 1 "fid-1" true true 10;
   Model.Account.mk 2 "fid-2" true false 20;
   Model.Account.mk 3 "fid-3" false true 30].

Definition store : Store :=
  mkStore table [Model.RedeemCode.mk 7 "ABC123" "pending" false 0 0 0 5]
          (LogRepo.mkTable [] 1).

Definition okDb : LogRepo.Db := LogRepo.mkDb None None None None None 100.

(** No statement fails, and every claim is accepted. *)
Definition smooth : World :=
  mkWorld ok ok (fun _ => ok) None (fun _ => Sample.claimAnswered 20000) 0
          (fun _ => okDb) ok None None.

Definition toAll : Model.JobPayload.t := Model.JobPayload.mk 7 [] false.

Definition toSecond : Model.JobPayload.t := Model.JobPayload.mk 7 [2] true.

End SampleWorker.

(** ** Sample runs of the single-account flow *)

Module SampleRuns.

Import GameClient Single.

Definition answer (h : HttpOutcome) : Reply :=
  mkReply h "1700000000000" (inl "ab1d"%string) (200 * Millisecond).

(** Login, captcha and recognition go through, and the claim is accepted. *)
Definition smooth (n : nat) : Reply :=
  match n with
  | 0%nat => answer Sample.okLogin
  | 1%nat => answer Sample.okCaptcha
  | 2%nat => answer Sample.okCaptcha
  | _ => answer (Sample.coded 20000)
  end.

(** Every captcha request is turned down with 40100, every login goes
    through. *)
Definition turnedDown (n : nat) : Reply :=
  if Nat.even n then answer Sample.okLogin else answer (Sample.coded 40100).

Definition noJitter (n : nat) : Z := 0.

End SampleRuns.

(** * Properties *)

(** ** Go integers *)

Lemma wrap64_small (z : Z) : - 2 ^ 63 <= z < 2 ^ 63 -> wrap64 z = z.
Proof.
  intros Hz. unfold wrap64.
  rewrite Z.mod_small; lia.
Qed.

Lemma incr_small (z : Z) : - 2 ^ 63 <= z < 2 ^ 63 - 1 -> incr z = z + 1.
Proof. intros Hz. unfold incr. apply wrap64_small. lia. Qed.

(** ** Classification by the client *)

Import GameClient.

Lemma isFatalError_iff (c : Z) : isFatalError c = true <-> c = 40007 \/ c = 40014.
Proof. unfold isFatalError. rewrite orb_true_iff, !Z.eqb_eq. tauto. Qed.

Lemma exchange_inl (h : HttpOutcome) (k : GameResponse -> GameResult) (r : GameResult) :
  exchange h k = inl r ->
  (exists e, h = TransportError e /\ r = mkGameResult false [] e 0 false)
  \/ r = busy
  \/ (exists resp, h = Response StatusOK (Some resp) /\ r = k resp).
Proof.
  destruct h as [e|e|st|st [resp|]]; simpl; intros H; try discriminate.
  - left. exists e. split; congruence.
  - right. left. congruence.
  - destruct (st =? StatusOK) eqn:E; simpl in H.
    + apply Z.eqb_eq in E. subst st. right. right. exists resp. split; congruence.
    + right. left. congruence.
  - destruct (st =? StatusOK); simpl in H; right; left; congruence.
Qed.

Lemma RedeemCode_success (h : HttpOutcome) (r : GameResult) :
  RedeemCode h = inl r -> Success r = true -> ErrCode r = 20000 /\ IsFatal r = false.
Proof.
  unfold RedeemCode. intros H Hs.
  apply exchange_inl in H as [(e & _ & ->) | [-> | (resp & _ & ->)]]; try discriminate.
  destruct (isSuccess _) eqn:E; simpl in *; try discriminate.
  split; [|reflexivity].
  unfold isSuccess in E. now apply Z.eqb_eq in E.
Qed.

Lemma RedeemCode_fatal (h : HttpOutcome) (r : GameResult) :
  RedeemCode h = inl r -> IsFatal r = isFatalError (ErrCode r) \/ (IsFatal r = false /\ ErrCode r = 0) .
Proof.
  unfold RedeemCode. intros H.
  apply exchange_inl in H as [(e & _ & ->) | [-> | (resp & _ & ->)]]; simpl; auto.
  destruct (isSuccess _) eqn:E; simpl; auto.
  unfold isSuccess in E. apply Z.eqb_eq in E. rewrite E. auto.
Qed.

Import Automation Scheduler.

(** An attempt reports success only with the code 20000, and is flagged
    fatal only with one of the two fatal codes. *)
Lemma tryOnce_success (w : AttemptWorld) (fid giftCode : string) :
  let r := tryOnceNoCooldown w fid giftCode in
  RedeemResult.Success r = true -> RedeemResult.ErrCode r = 20000.
Proof.
  unfold tryOnceNoCooldown.
  repeat match goal with
         | |- context [match ?x with _ => _ end] => destruct x eqn:?
         end; simpl; try discriminate.
  intros _.
  match goal with H : RedeemCode _ = inl _ |- _ => eapply RedeemCode_success in H as [? _] end; eauto.
Qed.

Lemma tryOnce_fatal (w : AttemptWorld) (fid giftCode : string) :
  let r := tryOnceNoCooldown w fid giftCode in
  RedeemResult.IsFatal r = true ->
  RedeemResult.Success r = false /\ isFatalError (RedeemResult.ErrCode r) = true.
Proof.
  unfold tryOnceNoCooldown.
  repeat match goal with
         | |- context [match ?x with _ => _ end] => destruct x eqn:?
         end; simpl; try discriminate; intros Hf; split; try reflexivity; try assumption.
  match goal with H : RedeemCode _ = inl _ |- _ => apply RedeemCode_fatal in H as [H|[H H']] end;
    congruence.
Qed.

(** ** The scheduler: selection *)

(** What [pickNext] returns. Either nothing, and every account is
    finalized; or the position of an account that is not finalized, which
    is ready ([wait = 0]) or is the next to become ready, [wait] from now. *)
Lemma pickNextFrom_spec (now : Z) (sts pre : list accountState) (eIdx eT : Z) :
  (eIdx = -1 \/
   (0 <= eIdx /\ exists st, (pre ++ sts) !! Z.to_nat eIdx = Some st /\
       finalized st = false /\ nextReadyAt st = eT /\ now < eT)) ->
  forall idx wait ok,
  pickNextFrom now (Z.of_nat (length pre)) sts eIdx eT = (idx, wait, ok) ->
  (ok = false /\ eIdx = -1 /\ Forall (fun st => finalized st = true) sts)
  \/ (ok = true /\ 0 <= idx /\ exists st, (pre ++ sts) !! Z.to_nat idx = Some st /\
        finalized st = false /\
        ((wait = 0 /\ nextReadyAt st <= now) \/
         (wait = nextReadyAt st - now /\ now < nextReadyAt st /\
          Forall (fun st' => finalized st' = false -> now < nextReadyAt st') sts))).
Proof.
  revert pre eIdx eT. induction sts as [|st rest IH]; intros pre eIdx eT Hacc idx wait ok; simpl.
  - destruct (eIdx =? -1) eqn:E; intros [= <- <- <-].
    + left. apply Z.eqb_eq in E. auto.
    + apply Z.eqb_neq in E. destruct Hacc as [?|(H0 & st & Hl & Hf & Ht & Hn)]; [lia|].
      right. split; [reflexivity|]. split; [assumption|].
      exists st. subst eT. repeat split; auto.
  - assert (Hpre : Z.of_nat (length pre) + 1 = Z.of_nat (length (pre ++ [st])))
      by (rewrite length_app; simpl; lia).
    assert (Hall : (pre ++ [st]) ++ rest = pre ++ st :: rest)
      by (rewrite <- app_assoc; reflexivity).
    assert (Hhere : (pre ++ st :: rest) !! Z.to_nat (Z.of_nat (length pre)) = Some st)
      by (rewrite Nat2Z.id; apply list_lookup_middle; reflexivity).
    destruct (finalized st) eqn:Hfin.
    + rewrite Hpre. intros H. apply IH in H; [|rewrite Hall; exact Hacc].
      rewrite Hall in H.
      destruct H as [(-> & -> & Hall')|(-> & Hi & st' & Hl & Hf & Hw)].
      * left. auto.
      * right. split; [reflexivity|]. split; [assumption|]. exists st'.
        repeat split; auto.
        destruct Hw as [Hw|(Hw1 & Hw2 & Hw3)]; [left; exact Hw|right].
        repeat split; auto. constructor; [congruence|assumption].
    + destruct (now <? nextReadyAt st) eqn:Hready; simpl.
      * apply Z.ltb_lt in Hready.
        assert (Hacc' : forall e t, e = Z.of_nat (length pre) -> t = nextReadyAt st ->
                  e = -1 \/ (0 <= e /\ exists st0, ((pre ++ [st]) ++ rest) !! Z.to_nat e = Some st0 /\
                    finalized st0 = false /\ nextReadyAt st0 = t /\ now < t)).
        { intros e t -> ->. right. split; [lia|]. exists st. rewrite Hall. auto. }
        destruct ((eIdx =? -1) || (nextReadyAt st <? eT)) eqn:Hnew; rewrite Hpre; intros H.
        -- apply IH in H; [|apply Hacc'; reflexivity]. rewrite Hall in H.
           destruct H as [(_ & Hbad & _)|(-> & Hi & st' & Hl & Hf & Hw)]; [lia|].
           right. split; [reflexivity|]. split; [assumption|]. exists st'.
           repeat split; auto.
           destruct Hw as [Hw|(Hw1 & Hw2 & Hw3)]; [left; exact Hw|right].
           repeat split; auto.
        -- apply orb_false_iff in Hnew as [Hne _]. apply Z.eqb_neq in Hne.
           apply IH in H; [|rewrite Hall; exact Hacc]. rewrite Hall in H.
           destruct H as [(_ & Hbad & _)|(-> & Hi & st' & Hl & Hf & Hw)]; [lia|].
           right. split; [reflexivity|]. split; [assumption|]. exists st'.
           repeat split; auto.
           destruct Hw as [Hw|(Hw1 & Hw2 & Hw3)]; [left; exact Hw|right].
           repeat split; auto.
      * apply Z.ltb_ge in Hready. intros [= <- <- <-].
        right. split; [reflexivity|]. split; [lia|]. exists st. auto.
Qed.

Lemma pickNext_spec (now : Z) (sts : list accountState) (idx wait : Z) (ok : bool) :
  pickNext now sts = (idx, wait, ok) ->
  (ok = false /\ Forall (fun st => finalized st = true) sts)
  \/ (ok = true /\ exists st, sts !! Z.to_nat idx = Some st /\ finalized st = false /\
        ((wait = 0 /\ nextReadyAt st <= now) \/
         (wait = nextReadyAt st - now /\ now < nextReadyAt st /\
          Forall (fun st' => finalized st' = false -> now < nextReadyAt st') sts))).
Proof.
  unfold pickNext. intros H.
  apply (pickNextFrom_spec now sts [] (-1) 0) in H; [|left; reflexivity].
  simpl in H. destruct H as [(-> & _ & H)|(-> & _ & H)]; [left|right]; auto.
Qed.

(** ** The scheduler: one pass of the loop *)

Section Pass.

Variable world : nat -> AttemptWorld.
Variable giftCode : string.

Lemma iteration_Continue (s s' : loopState) :
  iteration world giftCode s = Continue s' ->
  waits s s' \/ exists i st st' r, attempts world giftCode s s' i st st' r.
Proof.
  unfold iteration. destruct (pickNext (clock s) (states s)) as [[idx wait] ok] eqn:Hp.
  apply pickNext_spec in Hp.
  destruct Hp as [(-> & _)|(-> & st & Hl & Hf & Hw)]; simpl; [discriminate|].
  destruct Hw as [(-> & Hr)|(-> & Hlt & Hall)].
  - simpl. rewrite Hl.
    destruct (settle _ _ _ _ _ _) as [[st' results'] pending'] eqn:Hs.
    intros [= <-]. right. exists (Z.to_nat idx), st, st', (tryOnceNoCooldown (world (length (trace s))) (Account.FID (acc st)) giftCode).
    unfold attempts. simpl. repeat split; auto.
  - assert (E : (0 <? nextReadyAt st - clock s) = true) by (apply Z.ltb_lt; lia).
    rewrite E. intros [= <-]. left. exists (nextReadyAt st - clock s).
    split; [lia|]. split; [reflexivity|]. split; [|assumption].
    exists (Z.to_nat idx), st. repeat split; auto. lia.
Qed.

Lemma iteration_Break (s : loopState) :
  iteration world giftCode s = Break -> Forall (fun st => finalized st = true) (states s).
Proof.
  unfold iteration. destruct (pickNext (clock s) (states s)) as [[idx wait] ok] eqn:Hp.
  apply pickNext_spec in Hp.
  destruct Hp as [(-> & H)|(-> & st & Hl & Hf & Hw)]; simpl; [auto|].
  destruct (0 <? wait); [discriminate|]. rewrite Hl.
  destruct (settle _ _ _ _ _ _) as [[? ?] ?]. discriminate.
Qed.

(** The index operation [states[idx]] never goes out of range. *)
Lemma iteration_no_Panic (s : loopState) : iteration world giftCode s <> Panic.
Proof.
  unfold iteration. destruct (pickNext (clock s) (states s)) as [[idx wait] ok] eqn:Hp.
  apply pickNext_spec in Hp.
  destruct Hp as [(-> & H)|(-> & st & Hl & Hf & Hw)]; simpl; [discriminate|].
  destruct (0 <? wait); [discriminate|]. rewrite Hl.
  destruct (settle _ _ _ _ _ _) as [[? ?] ?]. discriminate.
Qed.

End Pass.

(** ** The scheduler: outcome handling *)

Lemma settle_spec (now : Z) (r : RedeemResult.t) (tmp : BatchRedeemResult.t)
    (st st' : accountState) (results results' : list BatchRedeemResult.t)
    (pending pending' : Z) :
  settle now r tmp st results pending = (st', results', pending') ->
  acc st' = acc st /\
  match verdict (cooldowns st) (attemptsInCycle st) r with
  | Some (c, a) =>
      cooldowns st' = c /\ attemptsInCycle st' = a /\ finalized st' = finalized st /\
      results' = results /\ pending' = pending
  | None =>
      finalized st' = true /\ pending' = pending - 1 /\
      results' = results ++ [if RedeemResult.Success r then succeeded tmp else tmp]
  end.
Proof.
  unfold settle, verdict, cooldown, finalizeWith, shortRetry, bumpAttempts. cbn.
  repeat match goal with
         | |- context [if ?b then _ else _] => destruct b eqn:?; cbn
         end; intros [= <- <- <-]; cbn; repeat split; congruence.
Qed.

Lemma pendingAfter_bounds (h : list RedeemResult.t) (c a : Z) :
  pendingAfter h c a -> 0 <= c < 3.
Proof.
  induction 1 as [|h c a r c' a' _ IH Hv]; [lia|].
  unfold verdict in Hv.
  assert (Hi : incr c = c + 1) by (apply incr_small; lia).
  repeat match type of Hv with
         | context [if ?b then _ else _] => destruct b eqn:?
         end; try discriminate; injection Hv as <- <-; lia.
Qed.

(** A history that leaves an account pending leaves it pending at every
    earlier point. *)
Lemma pendingAfter_prefix (h1 h2 : list RedeemResult.t) (c a : Z) :
  pendingAfter (h1 ++ h2) c a -> exists c1 a1, pendingAfter h1 c1 a1.
Proof.
  revert c a. induction h2 as [|r h2 IH] using rev_ind; intros c a H.
  - rewrite app_nil_r in H. eauto.
  - rewrite app_assoc in H. inversion H as [Hnil|h c0 a0 r0 c' a' Hp Hv Heq].
    + destruct (h1 ++ h2); discriminate.
    + apply app_inj_tail in Heq as [-> ->]. eauto.
Qed.

Lemma pendingAfter_snoc_inv (h : list RedeemResult.t) (r : RedeemResult.t) (c' a' : Z) :
  pendingAfter (h ++ [r]) c' a' ->
  exists c a, pendingAfter h c a /\ verdict c a r = Some (c', a').
Proof.
  intros H. inversion H as [Hnil|h0 c0 a0 r0 c1 a1 Hp Hv Heq].
  - destruct h; discriminate.
  - apply app_inj_tail in Heq as [-> ->]. eauto.
Qed.

Lemma pendingAfter_fun (h : list RedeemResult.t) (c a c' a' : Z) :
  pendingAfter h c a -> pendingAfter h c' a' -> c = c' /\ a = a'.
Proof.
  intros H. revert c' a'. induction H as [|h c a r c1 a1 _ IH Hv]; intros c' a' H'.
  - inversion H' as [|h0 ? ? ? ? ? ? ? Heq]; [auto|]. destruct h0; discriminate.
  - apply pendingAfter_snoc_inv in H' as (c0 & a0 & Hp & Hv').
    apply IH in Hp as [<- <-]. rewrite Hv in Hv'. injection Hv' as <- <-. auto.
Qed.

(** ** The scheduler: the invariant *)

Lemma insert_split {A : Type} (l : list A) (i : nat) (x : A) :
  l !! i = Some x ->
  exists l1 l2, l = l1 ++ x :: l2 /\ (forall y, <[i := y]> l = l1 ++ y :: l2) /\ length l1 = i.
Proof.
  intros H. exists (take i l), (drop (S i) l).
  pose proof (lookup_lt_Some _ _ _ H) as Hlt.
  split; [symmetry; apply take_drop_middle; exact H|].
  split; [intros y; apply insert_take_drop; exact Hlt|].
  rewrite length_take. lia.
Qed.

Lemma lookup_map_Some {A B : Type} (f : A -> B) (l : list A) (i : nat) (y : B) :
  map f l !! i = Some y -> exists x, l !! i = Some x /\ y = f x.
Proof.
  revert i. induction l as [|x l IH]; intros [|i]; simpl; try discriminate.
  - intros [= <-]. eauto.
  - apply IH.
Qed.

Lemma outcomesOf_snoc (j i : nat) (tr : list (nat * RedeemResult.t)) (r : RedeemResult.t) :
  outcomesOf j (tr ++ [(i, r)]) = outcomesOf j tr ++ (if decide (i = j) then [r] else []).
Proof.
  unfold outcomesOf. rewrite filter_app, map_app. f_equal.
  destruct (decide (i = j)) as [->|Hne].
  - rewrite filter_cons_True by reflexivity. reflexivity.
  - rewrite filter_cons_False by (simpl; congruence). reflexivity.
Qed.

Lemma recorded_app (st : accountState) (r : RedeemResult.t)
    (results more : list BatchRedeemResult.t) :
  recorded st r results -> recorded st r (results ++ more).
Proof.
  intros (res & Hin & H). exists res. split; [apply in_or_app; left; exact Hin|exact H].
Qed.

Lemma history_app (h : list RedeemResult.t) (st : accountState)
    (results more : list BatchRedeemResult.t) :
  history h st results -> history h st (results ++ more).
Proof.
  unfold history. destruct (finalized st); [|auto].
  intros (h0 & r & c & a & H1 & H2 & H3 & H4).
  exists h0, r, c, a. repeat split; auto. now apply recorded_app.
Qed.

Section Invariant.

Variable world : nat -> AttemptWorld.
Variable giftCode : string.
Variable accounts : list Account.t.

Lemma Inv_initial (now0 : Z) : Inv world giftCode accounts (initial accounts now0).
Proof.
  assert (Hnone : forall l : list Account.t,
            filter (fun st => finalized st = true) (map (fun a => mkState a 0 0 now0 false) l) = []).
  { induction l as [|a l IH]; [reflexivity|]. simpl.
    rewrite filter_cons_False by (simpl; congruence). exact IH. }
  assert (Hall : forall l : list Account.t,
            filter (fun st => finalized st = false) (map (fun a => mkState a 0 0 now0 false) l)
            = map (fun a => mkState a 0 0 now0 false) l).
  { induction l as [|a l IH]; [reflexivity|]. simpl.
    rewrite filter_cons_True by reflexivity. now rewrite IH. }
  constructor; simpl.
  - rewrite map_map. simpl. apply map_id.
  - rewrite Hall, length_map. reflexivity.
  - rewrite Hnone. constructor.
  - intros i st Hl. apply lookup_map_Some in Hl as (a & _ & ->).
    unfold history. simpl. constructor.
  - intros k i r Hl. destruct k; discriminate.
Qed.

Lemma Inv_pass (s s' : loopState) :
  Inv world giftCode accounts s ->
  iteration world giftCode s = Continue s' ->
  Inv world giftCode accounts s'.
Proof.
  intros [Ha Hp Hr Hh Ht] Hit.
  apply iteration_Continue in Hit as [(wait & _ & -> & _)|(i & st & st' & r & Hatt)].
  { constructor; simpl; auto. }
  destruct Hatt as (Hl & Hfin & _ & Hres & _ & Hset & Hst & Htr & _).
  apply settle_spec in Hset as [Hacc Hv].
  destruct (insert_split (states s) i st Hl) as (l1 & l2 & Hs1 & Hs2 & Hlen).
  rewrite (Hs2 st') in Hst.
  pose proof (Hh i st Hl) as Hhi. unfold history in Hhi. rewrite Hfin in Hhi.
  assert (Hother : forall j stj, j <> i -> states s' !! j = Some stj -> states s !! j = Some stj).
  { intros j stj Hne. rewrite Hst, <- (Hs2 st').
    rewrite list_lookup_insert_ne by congruence. auto. }
  assert (Hself : states s' !! i = Some st').
  { rewrite Hst, <- Hlen. apply list_lookup_middle. reflexivity. }
  assert (Haccs : forall j stj, states s !! j = Some stj ->
            exists stj', states s' !! j = Some stj' /\ acc stj' = acc stj).
  { intros j stj Hj. destruct (decide (j = i)) as [->|Hne].
    - exists st'. split; [exact Hself|]. rewrite Hl in Hj. congruence.
    - exists stj. split; [|reflexivity]. rewrite Hst, <- (Hs2 st').
      rewrite list_lookup_insert_ne by congruence. exact Hj. }
  assert (Hhist_other : forall more j stj, results s' = results s ++ more -> j <> i ->
            states s' !! j = Some stj -> history (outcomesOf j (trace s')) stj (results s')).
  { intros more j stj Hmore Hne Hj. rewrite Htr, outcomesOf_snoc, Hmore.
    destruct (decide (i = j)) as [->|_]; [congruence|]. rewrite app_nil_r.
    apply history_app. apply Hh. now apply Hother. }
  assert (Htrace : forall k j r0, trace s' !! k = Some (j, r0) ->
            exists stj, states s' !! j = Some stj /\
              r0 = tryOnceNoCooldown (world k) (Account.FID (acc stj)) giftCode).
  { intros k j r0. rewrite Htr. intros Hk.
    apply lookup_app_Some in Hk as [Hk|[Hge Hk]].
    - apply Ht in Hk as (stj & Hj & ->).
      apply Haccs in Hj as (stj' & Hj' & Hacc'). exists stj'. rewrite Hacc'. auto.
    - destruct (k - length (trace s))%nat eqn:Hk0; [|destruct n; discriminate].
      simpl in Hk. injection Hk as <- <-.
      assert (k = length (trace s)) as -> by lia.
      exists st'. rewrite Hacc. auto. }
  destruct (verdict (cooldowns st) (attemptsInCycle st) r) as [[c a]|] eqn:Hverdict.
  - destruct Hv as (Hc & Hatt' & Hf' & Hres' & Hpend').
    rewrite Hfin in Hf'.
    constructor; auto.
    + rewrite Hst, <- Ha, Hs1, !map_app. simpl. now rewrite Hacc.
    + rewrite Hpend', Hp, Hst, Hs1, !filter_app.
      rewrite !filter_cons_True by assumption. rewrite !length_app. reflexivity.
    + rewrite Hres', Hst. rewrite Hs1 in Hr. rewrite filter_app in *.
      rewrite filter_cons_False in * by congruence. exact Hr.
    + intros j stj Hj. destruct (decide (j = i)) as [->|Hne].
      * rewrite Hself in Hj. injection Hj as <-.
        rewrite Htr, outcomesOf_snoc. rewrite decide_True by reflexivity.
        unfold history. rewrite Hf', Hc, Hatt'.
        econstructor; eauto.
      * apply (Hhist_other []); auto. now rewrite app_nil_r.
  - destruct Hv as (Hf' & Hpend' & Hres').
    constructor; auto.
    + rewrite Hst, <- Ha, Hs1, !map_app. simpl. now rewrite Hacc.
    + rewrite Hpend', Hp, Hst, Hs1, !filter_app.
      rewrite filter_cons_True by assumption.
      rewrite filter_cons_False by congruence.
      rewrite !length_app. simpl. lia.
    + rewrite Hst, Hres'. rewrite Hs1 in Hr. rewrite filter_app in *.
      rewrite filter_cons_False in Hr by congruence.
      rewrite filter_cons_True by assumption.
      rewrite !map_app in *. simpl.
      rewrite <- Permutation_middle, Permutation_app_comm. simpl.
      assert (Hkey : keyOfResult (if RedeemResult.Success r
                        then succeeded (provisional st r (Z.quot (elapsed (world (length (trace s)))) Second))
                        else provisional st r (Z.quot (elapsed (world (length (trace s)))) Second))
                     = keyOfAccount (acc st'))
        by (rewrite Hacc; destruct (RedeemResult.Success r); reflexivity).
      rewrite Hkey. apply Permutation_cons_app. exact Hr.
    + intros j stj Hj. destruct (decide (j = i)) as [->|Hne].
      * rewrite Hself in Hj. injection Hj as <-.
        rewrite Htr, outcomesOf_snoc. rewrite decide_True by reflexivity.
        unfold history. rewrite Hf'.
        exists (outcomesOf i (trace s)), r, (cooldowns st), (attemptsInCycle st).
        repeat split; auto.
        eexists. split; [rewrite Hres'; apply in_or_app; right; left; reflexivity|].
        rewrite Hacc. destruct (RedeemResult.Success r); repeat split; reflexivity.
      * eapply Hhist_other; eauto.
Qed.

Lemma Inv_passes (n : nat) (s s' : loopState) :
  Inv world giftCode accounts s ->
  passes world giftCode n s = Some s' ->
  Inv world giftCode accounts s'.
Proof.
  revert s. induction n as [|n IH]; simpl; intros s HI.
  - intros [= <-]. exact HI.
  - destruct (pending s <=? 0); [discriminate|].
    destruct (iteration world giftCode s) as [| |s1] eqn:Hit; try discriminate.
    apply IH. eapply Inv_pass; eauto.
Qed.

(** A run that ends has made some number of passes and stopped because no
    account was pending. *)
Lemma loop_passes (fuel : nat) (s sf : loopState) (o : Outcome) :
  loop world giftCode fuel s = Some (o, sf) ->
  o = Returned (results sf) /\
  (exists n, (n <= fuel)%nat /\ passes world giftCode n s = Some sf) /\
  (pending sf <= 0 \/ Forall (fun st => finalized st = true) (states sf)).
Proof.
  revert s. induction fuel as [|fuel IH]; intros s; simpl.
  - destruct (pending s <=? 0) eqn:Hp; [|discriminate].
    intros [= <- <-]. apply Z.leb_le in Hp.
    split; [reflexivity|]. split; [exists O; auto|]. auto.
  - destruct (pending s <=? 0) eqn:Hp.
    + intros [= <- <-]. apply Z.leb_le in Hp.
      split; [reflexivity|]. split; [exists O; split; [lia|reflexivity]|]. auto.
    + destruct (iteration world giftCode s) as [| |s1] eqn:Hit.
      * intros [= <- <-]. split; [reflexivity|].
        split; [exists O; split; [lia|reflexivity]|].
        right. eapply iteration_Break; eauto.
      * exfalso. eapply iteration_no_Panic; eauto.
      * intros H. apply IH in H as (Ho & (n & Hn & Hpass) & Hend).
        split; [exact Ho|]. split; [|exact Hend].
        exists (S n). split; [lia|]. simpl. rewrite Hp, Hit. exact Hpass.
Qed.

End Invariant.

Lemma filter_all_finalized (l : list accountState) :
  Forall (fun st => finalized st = true) l ->
  filter (fun st => finalized st = true) l = l.
Proof.
  induction 1 as [|st l Hst _ IH]; [reflexivity|].
  rewrite filter_cons_True by assumption. now rewrite IH.
Qed.

Lemma none_pending_all_finalized (l : list accountState) :
  length (filter (fun st => finalized st = false) l) = O ->
  Forall (fun st => finalized st = true) l.
Proof.
  induction l as [|st l IH]; [constructor|].
  destruct (finalized st) eqn:Hf.
  - rewrite filter_cons_False by congruence. intros H. constructor; auto.
  - rewrite filter_cons_True by assumption. discriminate.
Qed.

Lemma Inv_exit (world : nat -> AttemptWorld) (giftCode : string)
    (accounts : list Account.t) (s : loopState) :
  Inv world giftCode accounts s ->
  pending s <= 0 \/ Forall (fun st => finalized st = true) (states s) ->
  Forall (fun st => finalized st = true) (states s) /\
  Permutation (map keyOfResult (results s)) (map keyOfAccount accounts).
Proof.
  intros [Ha Hp Hr _ _] Hend.
  assert (Hall : Forall (fun st => finalized st = true) (states s)).
  { destruct Hend as [Hle|H]; [|exact H].
    apply none_pending_all_finalized. lia. }
  split; [exact Hall|].
  rewrite filter_all_finalized in Hr by exact Hall.
  rewrite Hr, <- Ha, map_map. reflexivity.
Qed.

(** ** The scheduler: what a run does *)

Lemma tryOnce_not_success (w : AttemptWorld) (fid giftCode : string) :
  RedeemResult.ErrCode (tryOnceNoCooldown w fid giftCode) <> 20000 ->
  RedeemResult.Success (tryOnceNoCooldown w fid giftCode) = false.
Proof.
  intros Hc. destruct (RedeemResult.Success _) eqn:Hs; [|reflexivity].
  apply tryOnce_success in Hs. contradiction.
Qed.

Lemma tryOnce_not_fatal (w : AttemptWorld) (fid giftCode : string) :
  isFatalError (RedeemResult.ErrCode (tryOnceNoCooldown w fid giftCode)) = false ->
  RedeemResult.IsFatal (tryOnceNoCooldown w fid giftCode) = false.
Proof.
  intros Hc. destruct (RedeemResult.IsFatal _) eqn:Hs; [|reflexivity].
  apply tryOnce_fatal in Hs as [_ Hs]. congruence.
Qed.

Lemma outcomesOf_In (i : nat) (tr : list (nat * RedeemResult.t)) (r : RedeemResult.t) :
  In r (outcomesOf i tr) -> exists k, tr !! k = Some (i, r).
Proof.
  unfold outcomesOf. intros H. apply in_map_iff in H as ([j r'] & Hr & Hin).
  simpl in Hr. subst r'. apply list_elem_of_In in Hin.
  apply list_elem_of_filter in Hin as [Hj Hin]. simpl in Hj. subst j.
  apply list_elem_of_lookup in Hin. exact Hin.
Qed.

(** An outcome after which no account stays pending is the last of its
    account, and the account is finalized with it. *)
Lemma history_final (h pre post : list RedeemResult.t) (x : RedeemResult.t)
    (st : accountState) (results : list BatchRedeemResult.t) :
  history h st results ->
  h = pre ++ x :: post ->
  (forall c a, ~ pendingAfter (pre ++ [x]) c a) ->
  post = [] /\ finalized st = true /\ recorded st x results.
Proof.
  unfold history. intros Hh -> Hno.
  assert (Hsplit : forall l, pre ++ x :: l = (pre ++ [x]) ++ l)
    by (intros l; rewrite <- app_assoc; reflexivity).
  destruct (finalized st).
  - destruct Hh as (h0 & r & c & a & Heq & Hp & _ & Hrec).
    destruct post as [|y post _] using rev_ind.
    + apply app_inj_tail in Heq as [_ <-]. auto.
    + exfalso. rewrite app_comm_cons, app_assoc in Heq.
      apply app_inj_tail in Heq as [<- _].
      rewrite Hsplit in Hp. apply pendingAfter_prefix in Hp as (c1 & a1 & Hp).
      exact (Hno _ _ Hp).
  - exfalso. rewrite Hsplit in Hh. apply pendingAfter_prefix in Hh as (c1 & a1 & Hp).
    exact (Hno _ _ Hp).
Qed.

Lemma verdict_busy (c a : Z) (r : RedeemResult.t) :
  isBusy r -> verdict c a r = if 3 <=? incr c then None else Some (incr c, 0).
Proof. intros (Hs & Hf & Hc). unfold verdict. rewrite Hs, Hf, Hc. reflexivity. Qed.

Lemma three_busy_not_pending (pre : list RedeemResult.t) (b1 b2 b3 : RedeemResult.t) (c a : Z) :
  isBusy b1 -> isBusy b2 -> isBusy b3 ->
  ~ pendingAfter ((pre ++ [b1; b2]) ++ [b3]) c a.
Proof.
  intros H1 H2 H3 Hp.
  apply pendingAfter_snoc_inv in Hp as (c2 & a2 & Hp & Hv3).
  replace (pre ++ [b1; b2]) with ((pre ++ [b1]) ++ [b2]) in Hp
    by (rewrite <- app_assoc; reflexivity).
  apply pendingAfter_snoc_inv in Hp as (c1 & a1 & Hp & Hv2).
  pose proof (pendingAfter_bounds _ _ _ Hp) as Hb1.
  apply pendingAfter_snoc_inv in Hp as (c0 & a0 & Hp & Hv1).
  pose proof (pendingAfter_bounds _ _ _ Hp) as Hb0.
  rewrite verdict_busy in Hv1, Hv2, Hv3 by assumption.
  rewrite (incr_small c0) in Hv1 by lia.
  rewrite (incr_small c1) in Hv2 by lia.
  destruct (3 <=? c0 + 1) eqn:E1; [discriminate|]. injection Hv1 as <- <-.
  destruct (3 <=? c0 + 1 + 1) eqn:E2; [discriminate|]. injection Hv2 as <- <-.
  rewrite incr_small in Hv3 by lia.
  destruct (3 <=? c0 + 1 + 1 + 1) eqn:E3; [discriminate|].
  apply Z.leb_gt in E3. lia.
Qed.

Lemma fatal_code_not_pending (pre : list RedeemResult.t) (r : RedeemResult.t) (c a : Z) :
  RedeemResult.Success r = false ->
  isFatalError (RedeemResult.ErrCode r) = true ->
  ~ pendingAfter (pre ++ [r]) c a.
Proof.
  intros Hs Hf Hp. apply pendingAfter_snoc_inv in Hp as (c0 & a0 & _ & Hv).
  unfold verdict in Hv. rewrite Hs in Hv.
  apply isFatalError_iff in Hf.
  destruct (RedeemResult.IsFatal r); [discriminate|].
  destruct Hf as [Hf | Hf]; rewrite Hf in Hv; discriminate.
Qed.

Section Runs.

Variable world : nat -> AttemptWorld.
Variable giftCode : string.

Lemma pass_attempt (s s' : loopState) (i : nat) (r : RedeemResult.t) :
  iteration world giftCode s = Continue s' ->
  trace s' = trace s ++ [(i, r)] ->
  exists st st', attempts world giftCode s s' i st st' r /\ states s' !! i = Some st'.
Proof.
  intros Hit Htr. apply iteration_Continue in Hit as [(wait & _ & -> & _)|(i0 & st & st' & r0 & Hatt)].
  - simpl in Htr. apply (f_equal length) in Htr. rewrite length_app in Htr. simpl in Htr. lia.
  - pose proof Hatt as (Hl & _ & _ & _ & _ & _ & Hst & Htr' & _).
    rewrite Htr' in Htr. apply app_inj_tail in Htr as [_ [= -> ->]].
    exists st, st'. split; [exact Hatt|].
    rewrite Hst. apply list_lookup_insert_eq. eapply lookup_lt_Some; eauto.
Qed.

(** The outcomes a run records are results of [tryOnceNoCooldown]. *)
Lemma recorded_outcome (accounts : list Account.t) (s : loopState) (i : nat)
    (r : RedeemResult.t) :
  Inv world giftCode accounts s ->
  In r (outcomesOf i (trace s)) ->
  exists w fid, r = tryOnceNoCooldown w fid giftCode.
Proof.
  intros HI Hin. apply outcomesOf_In in Hin as (k & Hk).
  apply (inv_trace _ _ _ _ HI) in Hk as (st & _ & ->). eauto.
Qed.

End Runs.

(** ** The scheduler: the properties of the specification *)

Section Claims.

Variable world : nat -> AttemptWorld.
Variable giftCode : string.

(** What every attempt of a run starts from: a pending account with fewer
    than three cooldowns, and a result of [tryOnceNoCooldown]. *)
Lemma pass_effect (accounts : list Account.t) (s s' : loopState) (i : nat)
    (r : RedeemResult.t) :
  Inv world giftCode accounts s ->
  iteration world giftCode s = Continue s' ->
  trace s' = trace s ++ [(i, r)] ->
  exists st st' q,
    states s !! i = Some st /\ states s' !! i = Some st' /\
    finalized st = false /\ 0 <= cooldowns st < 3 /\
    (exists w, r = tryOnceNoCooldown w (Account.FID (acc st)) giftCode) /\
    settle (clock s') r (provisional st r q) st (results s) (pending s)
      = (st', results s', pending s').
Proof.
  intros HI Hit Htr.
  destruct (pass_attempt _ _ _ _ _ _ Hit Htr) as (st & st' & Hatt & Hl').
  destruct Hatt as (Hl & Hfin & _ & Hr & _ & Hset & _).
  exists st, st', (Z.quot (elapsed (world (length (trace s)))) Second).
  repeat split; auto.
  - pose proof (inv_history _ _ _ _ HI i st Hl) as Hh. unfold history in Hh.
    rewrite Hfin in Hh. apply pendingAfter_bounds in Hh. lia.
  - pose proof (inv_history _ _ _ _ HI i st Hl) as Hh. unfold history in Hh.
    rewrite Hfin in Hh. apply pendingAfter_bounds in Hh. lia.
  - eauto.
Qed.

Lemma retry_code_classified (w : AttemptWorld) (fid : string) (c : Z) :
  RedeemResult.ErrCode (tryOnceNoCooldown w fid giftCode) = c ->
  c = 40100 \/ c = 40101 \/ c = 40102 \/ c = 40103 ->
  RedeemResult.Success (tryOnceNoCooldown w fid giftCode) = false /\
  RedeemResult.IsFatal (tryOnceNoCooldown w fid giftCode) = false.
Proof.
  intros Hc Hcases. split.
  - apply tryOnce_not_success. lia.
  - apply tryOnce_not_fatal. rewrite Hc.
    destruct Hcases as [->|[->|[->| ->]]]; reflexivity.
Qed.

(** C10. When [RedeemBatch] returns, its results are the accounts of the
    batch, each once and none missing: the account identities of the
    results are a permutation of those of the input.  All along the run
    the results are those of the finalized accounts, each once: a result
    is added when, and only when, an account is finalized. *)
Theorem RedeemBatch_one_result_per_account (accounts : list Account.t) (now0 : Z) :
  (forall fuel out,
     RedeemBatch world giftCode fuel accounts now0 = Some out ->
     exists results, out = Returned results /\
       Permutation (map keyOfResult results) (map keyOfAccount accounts)) /\
  (forall n s,
     passes world giftCode n (initial accounts now0) = Some s ->
     Permutation (map keyOfResult (results s))
       (map (fun st => keyOfAccount (acc st))
            (filter (fun st => finalized st = true) (states s))) /\
     map acc (states s) = accounts).
Proof.
  split.
  - intros fuel out. unfold RedeemBatch. intros H.
    destruct (loop world giftCode fuel (initial accounts now0)) as [[o sf]|] eqn:Hloop;
      [|discriminate].
    injection H as <-.
    apply loop_passes in Hloop as (-> & (n & _ & Hpass) & Hend).
    exists (results sf). split; [reflexivity|].
    eapply Inv_exit; [|exact Hend].
    eapply Inv_passes; [apply Inv_initial|exact Hpass].
  - intros n s Hpass.
    assert (HI : Inv world giftCode accounts s)
      by (eapply Inv_passes; [apply Inv_initial|exact Hpass]).
    split; [apply (inv_results _ _ _ _ HI)|apply (inv_accounts _ _ _ _ HI)].
Qed.

(** C3. In a run of [RedeemBatch], an attempt that returns 40101 adds one
    to the cooldowns of its account and resets its attempts in the cycle;
    below three cooldowns the account waits until 60 seconds after the
    attempt, at three it is finalized with a failed result.  Three such
    outcomes in a row for an account are its last outcomes: the account
    is finalized, with a failed result, and is not attempted again. *)
Theorem server_busy_ceiling (accounts : list Account.t) (now0 : Z) (n : nat)
    (s : loopState) :
  passes world giftCode n (initial accounts now0) = Some s ->
  (forall s' i r,
     iteration world giftCode s = Continue s' ->
     trace s' = trace s ++ [(i, r)] ->
     RedeemResult.ErrCode r = 40101 ->
     exists st st',
       states s !! i = Some st /\ states s' !! i = Some st' /\
       cooldowns st' = cooldowns st + 1 /\ attemptsInCycle st' = 0 /\
       if cooldowns st' <? 3
       then finalized st' = false /\ nextReadyAt st' = clock s' + 60 * Second /\
            results s' = results s /\ pending s' = pending s
       else finalized st' = true /\ pending s' = pending s - 1 /\
            exists res, results s' = results s ++ [res] /\
              BatchRedeemResult.Result res = "failed"%string /\
              keyOfResult res = keyOfAccount (acc st))
  /\
  (forall i pre b1 b2 b3 post,
     outcomesOf i (trace s) = pre ++ [b1; b2; b3] ++ post ->
     RedeemResult.ErrCode b1 = 40101 ->
     RedeemResult.ErrCode b2 = 40101 ->
     RedeemResult.ErrCode b3 = 40101 ->
     post = [] /\
     exists st, states s !! i = Some st /\ finalized st = true /\
       exists res, In res (results s) /\
         keyOfResult res = keyOfAccount (acc st) /\
         BatchRedeemResult.Result res = "failed"%string).
Proof.
  intros Hpass.
  assert (HI : Inv world giftCode accounts s)
    by (eapply Inv_passes; [apply Inv_initial|exact Hpass]).
  split.
  - intros s' i r Hit Htr Hcode.
    destruct (pass_effect _ _ _ _ _ HI Hit Htr)
      as (st & st' & q & Hl & Hl' & Hfin & Hc & (w & Hr) & Hset).
    exists st, st'. split; [exact Hl|]. split; [exact Hl'|].
    assert (Hsf : RedeemResult.Success r = false /\ RedeemResult.IsFatal r = false).
    { subst r. eapply retry_code_classified; eauto. }
    destruct Hsf as [Hs Hf].
    unfold settle in Hset. rewrite Hs, Hf, Hcode in Hset. simpl in Hset.
    unfold cooldown, finalizeWith in Hset. cbn in Hset.
    rewrite (incr_small (cooldowns st)) in Hset by lia.
    destruct (3 <=? cooldowns st + 1) eqn:E; injection Hset as <- <- <-; cbn.
    + apply Z.leb_le in E.
      assert (E' : (cooldowns st + 1 <? 3) = false) by (apply Z.ltb_ge; lia).
      rewrite E'. repeat split; auto. eexists. split; [reflexivity|]. split; reflexivity.
    + apply Z.leb_gt in E.
      assert (E' : (cooldowns st + 1 <? 3) = true) by (apply Z.ltb_lt; lia).
      rewrite E'. repeat split; auto.
  - intros i pre b1 b2 b3 post Hh H1 H2 H3.
    assert (Hbusy : forall b, In b [b1; b2; b3] -> RedeemResult.ErrCode b = 40101 -> isBusy b).
    { intros b Hin Hc.
      assert (Hin' : In b (outcomesOf i (trace s))).
      { rewrite Hh. apply in_or_app. right. apply in_or_app. left. exact Hin. }
      destruct (recorded_outcome _ _ _ _ _ _ HI Hin') as (w & fid & ->).
      destruct (retry_code_classified w fid _ Hc) as [Hs Hf]; [auto|].
      split; [exact Hs|]. split; [exact Hf|exact Hc]. }
    assert (Hb1 : isBusy b1) by (apply Hbusy; simpl; auto).
    assert (Hb2 : isBusy b2) by (apply Hbusy; simpl; auto).
    assert (Hb3 : isBusy b3) by (apply Hbusy; simpl; auto).
    assert (Hin : In b3 (outcomesOf i (trace s))).
    { rewrite Hh. apply in_or_app. right. simpl. auto. }
    apply outcomesOf_In in Hin as (k & Hk).
    apply (inv_trace _ _ _ _ HI) in Hk as (st & Hl & _).
    pose proof (inv_history _ _ _ _ HI i st Hl) as Hhist.
    destruct (history_final _ (pre ++ [b1; b2]) post b3 _ _ Hhist) as (Hpost & Hfin & Hrec).
    + rewrite Hh, <- app_assoc. reflexivity.
    + intros c a. now apply three_busy_not_pending.
    + split; [exact Hpost|]. exists st. split; [exact Hl|]. split; [exact Hfin|].
      destruct Hrec as (res & Hres & Hkey & Hresult & _).
      exists res. destruct Hb3 as (Hs3 & _). rewrite Hs3 in Hresult. auto.
Qed.

(** C4. In a run of [RedeemBatch], an attempt that returns 40102 or 40103
    increments the attempts in the cycle of its account.  When the count
    reaches three the outcome is handled as a cooldown, by the code that
    handles 40101: one more cooldown, the count reset, and the account
    finalized as failed at three cooldowns or else made to wait until 60
    seconds after the attempt.  Below three the account is retried from 3
    seconds after the attempt. *)
Theorem captcha_error_retry (accounts : list Account.t) (now0 : Z) (n : nat)
    (s s' : loopState) (i : nat) (r : RedeemResult.t) :
  passes world giftCode n (initial accounts now0) = Some s ->
  iteration world giftCode s = Continue s' ->
  trace s' = trace s ++ [(i, r)] ->
  RedeemResult.ErrCode r = 40102 \/ RedeemResult.ErrCode r = 40103 ->
  exists st st',
    states s !! i = Some st /\ states s' !! i = Some st' /\
    if 3 <=? incr (attemptsInCycle st)
    then
      (exists tmp, (st', results s', pending s')
                   = cooldown (clock s') tmp st (results s) (pending s)) /\
      cooldowns st' = cooldowns st + 1 /\ attemptsInCycle st' = 0 /\
      if cooldowns st' <? 3
      then finalized st' = false /\ nextReadyAt st' = clock s' + 60 * Second /\
           results s' = results s /\ pending s' = pending s
      else finalized st' = true /\ pending s' = pending s - 1 /\
           exists res, results s' = results s ++ [res] /\
             BatchRedeemResult.Result res = "failed"%string /\
             keyOfResult res = keyOfAccount (acc st)
    else
      attemptsInCycle st' = incr (attemptsInCycle st) /\
      cooldowns st' = cooldowns st /\ finalized st' = false /\
      nextReadyAt st' = clock s' + 3 * Second /\
      results s' = results s /\ pending s' = pending s.
Proof.
  intros Hpass Hit Htr Hcode.
  assert (HI : Inv world giftCode accounts s)
    by (eapply Inv_passes; [apply Inv_initial|exact Hpass]).
  destruct (pass_effect _ _ _ _ _ HI Hit Htr)
    as (st & st' & q & Hl & Hl' & Hfin & Hc & (w & Hr) & Hset).
  exists st, st'. split; [exact Hl|]. split; [exact Hl'|].
  assert (Hsf : RedeemResult.Success r = false /\ RedeemResult.IsFatal r = false).
  { subst r. eapply retry_code_classified; [reflexivity|]. lia. }
  destruct Hsf as [Hs Hf].
  assert (Hsw : (RedeemResult.ErrCode r =? 40101) = false
                /\ ((RedeemResult.ErrCode r =? 40102) || (RedeemResult.ErrCode r =? 40103)) = true).
  { destruct Hcode as [-> | ->]; split; reflexivity. }
  destruct Hsw as [Hsw1 Hsw2].
  unfold settle in Hset. rewrite Hs, Hf, Hsw1, Hsw2 in Hset. cbn in Hset.
  destruct (3 <=? incr (attemptsInCycle st)) eqn:Ea.
  - split.
    { eexists. rewrite <- Hset. unfold cooldown. cbn. reflexivity. }
    unfold cooldown, finalizeWith in Hset. cbn in Hset.
    rewrite (incr_small (cooldowns st)) in Hset by lia.
    destruct (3 <=? cooldowns st + 1) eqn:E; injection Hset as <- <- <-; cbn.
    + apply Z.leb_le in E.
      assert (E' : (cooldowns st + 1 <? 3) = false) by (apply Z.ltb_ge; lia).
      rewrite E'. repeat split; auto. eexists. split; [reflexivity|]. split; reflexivity.
    + apply Z.leb_gt in E.
      assert (E' : (cooldowns st + 1 <? 3) = true) by (apply Z.ltb_lt; lia).
      rewrite E'. repeat split; auto.
  - unfold shortRetry, bumpAttempts in Hset. cbn in Hset.
    injection Hset as <- <- <-. cbn. repeat split; auto.
Qed.

(** C5. The fatal codes are 40007 and 40014, and no other.  In a run of
    [RedeemBatch], an outcome with a fatal code is the last outcome of its
    account, whatever came before it: the account is finalized, with a
    failed result that carries the code, and is not attempted again. *)
Theorem fatal_code_finalizes (accounts : list Account.t) (now0 : Z) (n : nat)
    (s : loopState) :
  passes world giftCode n (initial accounts now0) = Some s ->
  (forall c, isFatalError c = true <-> c = 40007 \/ c = 40014) /\
  (forall i pre r post,
     outcomesOf i (trace s) = pre ++ r :: post ->
     RedeemResult.ErrCode r = 40007 \/ RedeemResult.ErrCode r = 40014 ->
     post = [] /\
     exists st, states s !! i = Some st /\ finalized st = true /\
       exists res, In res (results s) /\
         keyOfResult res = keyOfAccount (acc st) /\
         BatchRedeemResult.Result res = "failed"%string /\
         BatchRedeemResult.ErrCode res = RedeemResult.ErrCode r).
Proof.
  intros Hpass.
  assert (HI : Inv world giftCode accounts s)
    by (eapply Inv_passes; [apply Inv_initial|exact Hpass]).
  split; [exact isFatalError_iff|].
  intros i pre r post Hh Hcode.
  assert (Hin : In r (outcomesOf i (trace s))).
  { rewrite Hh. apply in_or_app. right. simpl. auto. }
  assert (Hs : RedeemResult.Success r = false).
  { destruct (recorded_outcome _ _ _ _ _ _ HI Hin) as (w & fid & ->).
    apply tryOnce_not_success. lia. }
  apply outcomesOf_In in Hin as (k & Hk).
  apply (inv_trace _ _ _ _ HI) in Hk as (st & Hl & _).
  pose proof (inv_history _ _ _ _ HI i st Hl) as Hhist.
  destruct (history_final _ pre post r _ _ Hhist Hh) as (Hpost & Hfin & Hrec).
  - intros c a. apply fatal_code_not_pending; [exact Hs|].
    now apply isFatalError_iff.
  - split; [exact Hpost|]. exists st. split; [exact Hl|]. split; [exact Hfin|].
    destruct Hrec as (res & Hres & Hkey & Hresult & Hec).
    exists res. rewrite Hs in Hresult. auto.
Qed.

End Claims.

Import Sample.

Lemma RedeemBatch_one_result_per_account_witness :
  exists out, RedeemBatch mixed "ABC123" 12 [alice; bob] 0 = Some out /\
    exists results, out = Returned results /\
      Permutation (map keyOfResult results) (map keyOfAccount [alice; bob]).
Proof.
  eexists. split; [vm_compute; reflexivity|].
  apply (proj1 (RedeemBatch_one_result_per_account mixed "ABC123" [alice; bob] 0) 12%nat).
  vm_compute. reflexivity.
Defined.

Lemma server_busy_ceiling_witness :
  exists s b, passes alwaysBusy "ABC123" 5 (initial [alice] 0) = Some s /\
    outcomesOf 0 (trace s) = [b; b; b] /\ RedeemResult.ErrCode b = 40101 /\
    exists st, states s !! 0%nat = Some st /\ finalized st = true /\
      exists res, In res (results s) /\
        keyOfResult res = keyOfAccount (acc st) /\
        BatchRedeemResult.Result res = "failed"%string.
Proof.
  eexists. eexists. split; [vm_compute; reflexivity|].
  split; [vm_compute; reflexivity|]. split; [reflexivity|].
  refine (proj2 (proj2 (server_busy_ceiling alwaysBusy "ABC123" [alice] 0 5 _ _)
                   0%nat [] _ _ _ [] _ _ _ _)); vm_compute; reflexivity.
Defined.

Lemma captcha_error_retry_witness :
  exists s' r,
    iteration alwaysWrong "ABC123" (initial [alice] 0) = Continue s' /\
    trace s' = [(0%nat, r)] /\ RedeemResult.ErrCode r = 40103 /\
    exists st st',
      states (initial [alice] 0) !! 0%nat = Some st /\ states s' !! 0%nat = Some st' /\
      attemptsInCycle st' = attemptsInCycle st + 1 /\
      nextReadyAt st' = clock s' + 3 * Second.
Proof.
  eexists. eexists. split; [vm_compute; reflexivity|].
  split; [reflexivity|]. split; [reflexivity|].
  destruct (captcha_error_retry alwaysWrong "ABC123" [alice] 0 0
              (initial [alice] 0) _ 0%nat _ eq_refl eq_refl eq_refl (or_intror eq_refl))
    as (st & st' & Hl & Hl' & H).
  exists st, st'. split; [exact Hl|]. split; [exact Hl'|].
  injection Hl as <-. cbn in H. destruct H as (Ha & _ & _ & Hn & _).
  split; [exact Ha|exact Hn].
Defined.

Lemma fatal_code_finalizes_witness :
  exists s r, passes expired "ABC123" 1 (initial [alice; bob] 0) = Some s /\
    outcomesOf 0 (trace s) = [r] /\ RedeemResult.ErrCode r = 40007 /\
    exists st, states s !! 0%nat = Some st /\ finalized st = true /\
      exists res, In res (results s) /\
        keyOfResult res = keyOfAccount (acc st) /\
        BatchRedeemResult.Result res = "failed"%string /\
        BatchRedeemResult.ErrCode res = RedeemResult.ErrCode r.
Proof.
  eexists. eexists. split; [vm_compute; reflexivity|].
  split; [vm_compute; reflexivity|]. split; [reflexivity|].
  refine (proj2 (proj2 (fatal_code_finalizes expired "ABC123" [alice; bob] 0 1 _ _)
                   0%nat [] _ [] _ _)); [vm_compute; reflexivity..|].
  left. reflexivity.
Defined.

(** ** The scheduler: an account that is always told 40100 *)

Section Starvation.

Variable world : nat -> AttemptWorld.
Variable giftCode : string.

Hypothesis always_40100 :
  forall k fid, RedeemResult.ErrCode (tryOnceNoCooldown (world k) fid giftCode) = 40100.

(** With every attempt answered by 40100 no account is ever finalized. *)
Lemma pass_keeps_pending (s s' : loopState) :
  Forall (fun st => finalized st = false) (states s) ->
  iteration world giftCode s = Continue s' ->
  Forall (fun st => finalized st = false) (states s') /\
  length (states s') = length (states s) /\ pending s' = pending s.
Proof.
  intros Hall Hit.
  apply iteration_Continue in Hit as [(wait & _ & -> & _)|(i & st & st' & r & Hatt)].
  { simpl. auto. }
  destruct Hatt as (Hl & Hfin & _ & Hr & _ & Hset & Hst & _).
  assert (Hc : RedeemResult.ErrCode r = 40100) by (subst r; apply always_40100).
  assert (Hsf : RedeemResult.Success r = false /\ RedeemResult.IsFatal r = false).
  { subst r. eapply retry_code_classified; [reflexivity|]. rewrite always_40100. lia. }
  destruct Hsf as [Hs Hf].
  unfold settle in Hset. rewrite Hs, Hf, Hc in Hset. cbn in Hset.
  injection Hset as <- _ <-.
  rewrite Hst. split; [|split; [apply length_insert|reflexivity]].
  apply Forall_insert; [exact Hall|]. exact Hfin.
Qed.

Lemma loop_never_returns (fuel : nat) (s : loopState) :
  0 < pending s -> states s <> [] ->
  Forall (fun st => finalized st = false) (states s) ->
  loop world giftCode fuel s = None.
Proof.
  revert s. induction fuel as [|fuel IH]; intros s Hp Hne Hall; simpl.
  - assert (E : (pending s <=? 0) = false) by (apply Z.leb_gt; lia). now rewrite E.
  - assert (E : (pending s <=? 0) = false) by (apply Z.leb_gt; lia). rewrite E.
    destruct (iteration world giftCode s) as [| |s'] eqn:Hit.
    + apply iteration_Break in Hit. destruct (states s) as [|st l]; [contradiction|].
      inversion Hit; inversion Hall; congruence.
    + exfalso. eapply iteration_no_Panic; eauto.
    + destruct (pass_keeps_pending _ _ Hall Hit) as (Hall' & Hlen & Hp').
      apply IH; [lia| |exact Hall'].
      intros E'. rewrite E' in Hlen. destruct (states s); [contradiction|discriminate].
Qed.

Lemma RedeemBatch_never_returns (fuel : nat) (accounts : list Account.t) (now0 : Z) :
  accounts <> [] -> RedeemBatch world giftCode fuel accounts now0 = None.
Proof.
  intros Hne. unfold RedeemBatch. rewrite loop_never_returns; [reflexivity| | |].
  - simpl. destruct accounts; [contradiction|]. simpl. lia.
  - simpl. destruct accounts; [contradiction|discriminate].
  - simpl. induction accounts as [|a l IH]; constructor; auto.
    destruct l; [constructor|]. apply IH. discriminate.
Qed.

End Starvation.

(** C2, on the code.  With the captcha request of every attempt turned
    down by 40100, the loop of [RedeemBatch] over one account is still
    running after any number of passes: the account is never finalized. *)
Theorem captcha_quota_starvation (fuel : nat) :
  RedeemBatch tooOften "ABC123" fuel [alice] 0 = None.
Proof.
  apply RedeemBatch_never_returns; [|discriminate].
  intros k fid. reflexivity.
Qed.

(** ** The client: transport and parse failures *)

Section Failures.

Import GameClient.

Lemma exchange_parseFailure (h : HttpOutcome) (k : GameResponse -> GameResult) :
  parseFailure h -> exchange h k = inl busy.
Proof.
  destruct h as [e|e|st|st d]; simpl; try contradiction; [reflexivity|].
  intros [Hst| ->].
  - apply Z.eqb_neq in Hst. now rewrite Hst.
  - now destruct (st =? StatusOK).
Qed.

(** X4. A response that cannot be read, has a status other than 200 or has
    a body that does not decode is reported as 40101 by the three calls. *)
Lemma parse_failures_are_busy (h : HttpOutcome) (currentTime : string) :
  parseFailure h ->
  Login h currentTime = inl busy /\ GetCaptcha h = inl busy /\ RedeemCode h = inl busy /\
  ErrCode busy = 40101 /\ Success busy = false.
Proof.
  intros H. unfold Login, GetCaptcha, RedeemCode.
  rewrite !exchange_parseFailure by exact H. repeat split; reflexivity.
Qed.

End Failures.

(** C6, on the code.  A network error of the HTTP round trip is reported
    by [Login], [GetCaptcha] and [RedeemCode] as a failure with the error
    code 0, not 40101; an attempt that meets it at login returns the code
    0, and [RedeemBatch] finalizes the account as failed after that one
    attempt. *)
Theorem transport_error_is_not_busy (e currentTime : string) :
  GameClient.Login (GameClient.TransportError e) currentTime
    = inl (GameClient.mkGameResult false [] e 0 false) /\
  GameClient.GetCaptcha (GameClient.TransportError e)
    = inl (GameClient.mkGameResult false [] e 0 false) /\
  GameClient.RedeemCode (GameClient.TransportError e)
    = inl (GameClient.mkGameResult false [] e 0 false) /\
  (let w := Automation.mkWorld (GameClient.TransportError e) currentTime
              Sample.okCaptcha (inl "ab1d"%string) (Sample.coded 20000) Second in
   RedeemResult.ErrCode (Automation.tryOnceNoCooldown w "fid-1" "ABC123") = 0 /\
   Automation.RedeemBatch (fun _ => w) "ABC123" 1 [Sample.alice] 0
     = Some (Automation.Returned
               [BatchRedeemResult.mk 1 "fid-1" "failed" e "" 1 0 false false])).
Proof. repeat split. Qed.

(** ** The job queue: retry with backoff *)

Section Backoff.

Import JobQueue.

Lemma backoff_in_range (retries : Z) :
  0 <= retries <= 33 ->
  backoff retries = Some (Z.min (2 ^ retries * Second) (60 * Second)).
Proof.
  intros Hr. unfold backoff, shl64.
  assert (E1 : (retries <? 0) = false) by (apply Z.ltb_ge; lia).
  assert (E2 : (64 <=? retries) = false) by (apply Z.leb_gt; lia).
  rewrite E1, E2.
  assert (Hpow : 1 <= 2 ^ retries <= 2 ^ 33).
  { split; [apply (Z.pow_le_mono_r 2 0 retries); lia|apply Z.pow_le_mono_r; lia]. }
  rewrite (wrap64_small (1 * 2 ^ retries)) by (change (2 ^ 33) with 8589934592 in Hpow; lia).
  rewrite wrap64_small
    by (unfold Second, Millisecond; change (2 ^ 33) with 8589934592 in Hpow; lia).
  rewrite Z.mul_1_l. f_equal.
  destruct (60 * Second <? 2 ^ retries * Second) eqn:E.
  - apply Z.ltb_lt in E. lia.
  - apply Z.ltb_ge in E. lia.
Qed.

(** X5. For retry counts from 0 to 33 the delay does not decrease with the
    count. *)
Lemma backoff_monotone (k k' d d' : Z) :
  0 <= k <= k' -> k' <= 33 ->
  backoff k = Some d -> backoff k' = Some d' -> d <= d'.
Proof.
  intros Hk Hk'. rewrite !backoff_in_range by lia. intros [= <-] [= <-].
  assert (2 ^ k <= 2 ^ k') by (apply Z.pow_le_mono_r; lia).
  unfold Second, Millisecond. lia.
Qed.


End Backoff.

Section RetryRows.

Import JobQueue.

Lemma backoff_nondecreasing (k k' : Z) :
  0 <= k <= k' -> k' <= 33 ->
  Z.min (2 ^ k * Second) (60 * Second) <= Z.min (2 ^ k' * Second) (60 * Second).
Proof.
  intros Hk Hk'.
  assert (2 ^ k <= 2 ^ k') by (apply Z.pow_le_mono_r; lia).
  unfold Second, Millisecond. lia.
Qed.

End RetryRows.

(** C7, as the code has it.  The retry count of a job is never negative,
    and the jobs this program submits have [max_retries] 2 or 3
    ([submitted_jobs_stay_small] below); the statement is for every job
    with [max_retries] up to 34.  When its retries are below
    [max_retries], [RetryJob] computes the delay [min (2 ^ retries s) 60
    s] and binds [now + delay] to the update of the row, which adds one to
    [retries], makes the row pending, stores the message as given, and
    keeps of [now + delay] what the [TIMESTAMP] column keeps.  When its
    retries have reached [max_retries], the row is marked failed, with
    the message after a fixed prefix, and neither [retries] nor
    [next_run_at] changes.  Every other row is left alone, and a failing
    statement changes nothing.  The delay does not decrease with the retry
    count and stays at 60 seconds once it has reached them. *)
Theorem RetryJob_backs_off_in_range (db : JobQueue.Db) (now : Z)
    (jobs : list JobQueue.Row) (job : JobQueue.Job) (msg : string) :
  0 <= JobQueue.Retries job -> JobQueue.MaxRetries job <= 34 ->
  (JobQueue.Retries job < JobQueue.MaxRetries job ->
     let delay := Z.min (2 ^ JobQueue.Retries job * Second) (60 * Second) in
     JobQueue.backoff (JobQueue.Retries job) = Some delay /\
     JobQueue.RetryJob db now jobs job msg
       = Some (JobQueue.IncrementJobRetries db jobs (JobQueue.ID job) (now + delay) msg) /\
     JobQueue.RetryJob db now jobs job msg
       = Some (match JobQueue.execError db with
               | Some e => (jobs, Some e)
               | None =>
                   (map (fun r =>
                           if JobQueue.id r =? JobQueue.ID job
                           then JobQueue.mkRow (JobQueue.id r) (JobQueue.type r)
                                  (JobQueue.payload r) "pending" (JobQueue.retries r + 1)
                                  (JobQueue.max_retries r)
                                  (JobQueue.asTimestamp db (now + delay)) (Some msg)
                                  (JobQueue.created_at r) (JobQueue.dbNow db)
                           else r) jobs,
                    None)
               end)) /\
  (JobQueue.MaxRetries job <= JobQueue.Retries job ->
     JobQueue.RetryJob db now jobs job msg
       = Some (match JobQueue.execError db with
               | Some e => (jobs, Some e)
               | None =>
                   (map (fun r =>
                           if JobQueue.id r =? JobQueue.ID job
                           then JobQueue.mkRow (JobQueue.id r) (JobQueue.type r)
                                  (JobQueue.payload r) "failed" (JobQueue.retries r)
                                  (JobQueue.max_retries r) (JobQueue.next_run_at r)
                                  (Some ("达到最大重试次数: " +:+ msg))
                                  (JobQueue.created_at r) (JobQueue.dbNow db)
                           else r) jobs,
                    None)
               end)) /\
  (forall k k', 0 <= k <= k' -> k' <= 33 ->
     exists d d', JobQueue.backoff k = Some d /\ JobQueue.backoff k' = Some d' /\
                  d <= d' <= 60 * Second /\ (d = 60 * Second -> d' = 60 * Second)).
Proof.
  intros Hr Hm. split; [|split].
  - intros Hlt. cbv zeta.
    assert (Hb := backoff_in_range (JobQueue.Retries job) ltac:(lia)).
    split; [exact Hb|].
    assert (Hcall : JobQueue.RetryJob db now jobs job msg
              = Some (JobQueue.IncrementJobRetries db jobs (JobQueue.ID job)
                        (now + Z.min (2 ^ JobQueue.Retries job * Second) (60 * Second)) msg)).
    { unfold JobQueue.RetryJob.
      replace (JobQueue.MaxRetries job <=? JobQueue.Retries job) with false
        by (symmetry; apply Z.leb_gt; lia).
      rewrite Hb. reflexivity. }
    split; [exact Hcall|]. rewrite Hcall. unfold JobQueue.IncrementJobRetries.
    destruct (JobQueue.execError db); reflexivity.
  - intros Hge. unfold JobQueue.RetryJob.
    replace (JobQueue.MaxRetries job <=? JobQueue.Retries job) with true
      by (symmetry; apply Z.leb_le; lia).
    unfold JobQueue.MarkJobFailed, JobQueue.UpdateJobStatus.
    destruct (JobQueue.execError db); reflexivity.
  - intros k k' Hk Hk'. rewrite !backoff_in_range by lia.
    eexists. eexists. split; [reflexivity|]. split; [reflexivity|].
    pose proof (backoff_nondecreasing k k' Hk Hk'). split; lia.
Qed.

Lemma RetryJob_backs_off_in_range_witness :
  let db := JobQueue.mkDb 7000 None JobQueue.roundToSecond in
  JobQueue.RetryJob db 3000000000 [JobQueue.mkRow 7 "redeem" "{}" "processing" 2 3 0 None 0 0]
      (JobQueue.mkJob 7 "redeem" "{}" 2 3) "boom"
    = Some ([JobQueue.mkRow 7 "redeem" "{}" "pending" 3 3 (7 * Second)
               (Some "boom"%string) 0 7000], None).
Proof.
  intros db.
  destruct (RetryJob_backs_off_in_range db 3000000000
              [JobQueue.mkRow 7 "redeem" "{}" "processing" 2 3 0 None 0 0]
              (JobQueue.mkJob 7 "redeem" "{}" 2 3) "boom")
    as (H & _); [simpl; lia|simpl; lia|].
  destruct H as (_ & _ & H); [simpl; lia|]. rewrite H. reflexivity.
Defined.

(** C7 as stated fails on jobs this program runs, each time by design.
    A job whose retries have reached [max_retries] is stored with the
    message after a fixed prefix, not with the message given.  And the
    column keeps the time of the next run to the second: here [now] is
    1000 nanoseconds and the time kept is 4 seconds, not 4 seconds and
    1000 nanoseconds.  The bound on [max_retries] is needed as well,
    though not for the jobs of this program: the shift and the
    multiplication by [time.Second] wrap at 64 bits, and for 34 retries
    out of 35 the delay is negative instead of 60 seconds. *)
Lemma RetryJob_outside_the_claim :
  let db := JobQueue.mkDb 1000 None JobQueue.roundToSecond in
  (exists r,
     JobQueue.RetryJob db 1000 [JobQueue.mkRow 7 "redeem" "{}" "processing" 3 3 0 None 0 0]
         (JobQueue.mkJob 7 "redeem" "{}" 3 3) "boom" = Some ([r], None) /\
     JobQueue.status r = "failed"%string /\
     JobQueue.error_message r = Some "达到最大重试次数: boom"%string /\
     JobQueue.error_message r <> Some "boom"%string) /\
  (exists r,
     JobQueue.RetryJob db 1000 [JobQueue.mkRow 7 "redeem" "{}" "processing" 2 3 0 None 0 0]
         (JobQueue.mkJob 7 "redeem" "{}" 2 3) "boom" = Some ([r], None) /\
     JobQueue.next_run_at r = 4 * Second /\
     JobQueue.next_run_at r <> 1000 + 4 * Second) /\
  (JobQueue.backoff 34 = Some (-1266874889709551616) /\
   Z.min (2 ^ 34 * Second) (60 * Second) = 60 * Second /\
   exists r,
     JobQueue.RetryJob db 1000 [JobQueue.mkRow 7 "redeem" "{}" "processing" 34 35 0 None 0 0]
         (JobQueue.mkJob 7 "redeem" "{}" 34 35) "boom" = Some ([r], None) /\
     JobQueue.status r = "pending"%string /\ JobQueue.next_run_at r < 0).
Proof.
  intros db. split; [|split].
  - eexists. split; [reflexivity|]. split; [reflexivity|]. split; [reflexivity|discriminate].
  - eexists. split; [reflexivity|]. split; [reflexivity|discriminate].
  - split; [reflexivity|]. split; [reflexivity|].
    eexists. split; [reflexivity|]. split; reflexivity.
Qed.

(** ** The log repository: replacing the outcome of a pair *)

Section Replace.

Import LogRepo.

Lemma samePair_logOf (db : Db) (newID c a : Z) (o : Outcome) :
  samePair c a (logOf db newID c a o) = true.
Proof. unfold samePair, logOf. simpl. now rewrite !Z.eqb_refl. Qed.

Lemma filter_filter_none (c a : Z) (l : list RedeemLog) :
  filter (fun r => samePair c a r = true) (filter (fun r => samePair c a r = false) l) = [].
Proof.
  induction l as [|r l IH]; [reflexivity|].
  destruct (samePair c a r) eqn:E.
  - rewrite (filter_cons_False _ r l) by congruence. exact IH.
  - rewrite (filter_cons_True _ r l) by assumption.
    rewrite filter_cons_False by congruence. exact IH.
Qed.

(** A call either leaves the table as it was or replaces the rows of the
    pair by one new row; it returns an id only in the second case. *)
Lemma ReplaceRedeemLog_cases (db : Db) (t t' : Table) (c a : Z) (o : Outcome)
    (ret : Z + string) :
  ReplaceRedeemLog db t c a o = (t', ret) ->
  (t' = t /\ exists e, ret = inr e)
  \/ (rows t' = filter (fun r => samePair c a r = false) (rows t)
                  ++ [logOf db (nextID t) c a o] /\
      nextID t' = nextID t + 1 /\
      (ret = inl (nextID t) \/ exists e, ret = inr e /\ lastInsertIdError db = Some e)).
Proof.
  unfold ReplaceRedeemLog.
  destruct (beginError db) as [e|]; [intros [= <- <-]; left; eauto|].
  destruct (deleteError db) as [e|]; [intros [= <- <-]; left; eauto|].
  destruct (insertError db) as [e|]; [intros [= <- <-]; left; eauto|].
  destruct (commitError db) as [e|]; [intros [= <- <-]; left; eauto|].
  destruct (lastInsertIdError db) as [e|] eqn:E; intros [= <- <-]; right; simpl;
    repeat split; eauto.
Qed.

End Replace.

Section ReplaceColumns.

Import LogRepo.

Lemma samePair_columns (c a : Z) (r : RedeemLog) :
  samePair c a r = true <-> redeem_code_id r = c /\ game_account_id r = a.
Proof. unfold samePair. rewrite andb_true_iff, !Z.eqb_eq. tauto. Qed.

Lemma samePair_not_columns (c a : Z) (r : RedeemLog) :
  samePair c a r = false <-> ~ (redeem_code_id r = c /\ game_account_id r = a).
Proof. rewrite <- samePair_columns. destruct (samePair c a r); split; congruence. Qed.

Lemma logOf_columns (db : Db) (newID c a : Z) (o : Outcome) :
  logOf db newID c a o
  = mkLog newID c a (o_fid o) (o_code o) (o_result o) (o_error_message o)
      (o_success_message o) (o_captcha_recognized o) (o_processing_time o) (o_err_code o)
      (dbNow db).
Proof. reflexivity. Qed.

End ReplaceColumns.

(** C9. After two calls of [ReplaceRedeemLog] in succession for one pair of
    redeem code and account, the second returning without error, the table
    holds exactly one row for the pair, and the row has in every column
    what the second call was given: the pair, the fid, the code, the
    result, the two messages, the captcha, the processing time and the
    error code, under the id the call returns and the time of the
    insertion.  A call that returns without error leaves the rows of
    other pairs in place, deletes every earlier row of the pair and adds
    one row; a call either does all of this or leaves the table as it
    was. *)
Theorem ReplaceRedeemLog_leaves_one_row (db1 db2 : LogRepo.Db) (t t1 t2 : LogRepo.Table)
    (c a : Z) (o1 o2 : LogRepo.Outcome) (ret1 : Z + string) (id2 : Z) :
  LogRepo.ReplaceRedeemLog db1 t c a o1 = (t1, ret1) ->
  LogRepo.ReplaceRedeemLog db2 t1 c a o2 = (t2, inl id2) ->
  let second :=
    LogRepo.mkLog id2 c a (LogRepo.o_fid o2) (LogRepo.o_code o2) (LogRepo.o_result o2)
      (LogRepo.o_error_message o2) (LogRepo.o_success_message o2)
      (LogRepo.o_captcha_recognized o2) (LogRepo.o_processing_time o2)
      (LogRepo.o_err_code o2) (LogRepo.dbNow db2) in
  filter (fun r => LogRepo.redeem_code_id r = c /\ LogRepo.game_account_id r = a)
         (LogRepo.rows t2) = [second] /\
  LogRepo.rows t2
    = filter (fun r => ~ (LogRepo.redeem_code_id r = c /\ LogRepo.game_account_id r = a))
             (LogRepo.rows t1) ++ [second] /\
  id2 = LogRepo.nextID t1 /\
  (t1 = t \/
   exists id1, LogRepo.rows t1
     = filter (fun r => ~ (LogRepo.redeem_code_id r = c /\ LogRepo.game_account_id r = a))
              (LogRepo.rows t)
       ++ [LogRepo.mkLog id1 c a (LogRepo.o_fid o1) (LogRepo.o_code o1) (LogRepo.o_result o1)
             (LogRepo.o_error_message o1) (LogRepo.o_success_message o1)
             (LogRepo.o_captcha_recognized o1) (LogRepo.o_processing_time o1)
             (LogRepo.o_err_code o1) (LogRepo.dbNow db1)]).
Proof.
  intros H1 H2. cbv zeta.
  apply ReplaceRedeemLog_cases in H2 as [(_ & e & He)|(Hrows & _ & [Hret|(e & He & _)])];
    try discriminate.
  injection Hret as ->.
  rewrite <- !logOf_columns.
  rewrite (list_filter_iff _ (fun r => LogRepo.samePair c a r = true) (LogRepo.rows t2))
    by (intros r; symmetry; apply samePair_columns).
  rewrite (list_filter_iff _ (fun r => LogRepo.samePair c a r = false) (LogRepo.rows t1))
    by (intros r; symmetry; apply samePair_not_columns).
  split; [|split; [exact Hrows|split; [reflexivity|]]].
  - rewrite Hrows, filter_app, filter_filter_none. simpl.
    rewrite filter_cons_True by apply samePair_logOf. reflexivity.
  - apply ReplaceRedeemLog_cases in H1 as [(-> & _)|(Hrows1 & _)]; [left; reflexivity|].
    right. exists (LogRepo.nextID t). rewrite <- logOf_columns.
    rewrite (list_filter_iff _ (fun r => LogRepo.samePair c a r = false) (LogRepo.rows t))
      by (intros r; symmetry; apply samePair_not_columns).
    exact Hrows1.
Qed.

Lemma ReplaceRedeemLog_leaves_one_row_witness :
  let db := LogRepo.mkDb None None None None None 50 in
  let o1 := LogRepo.mkOutcome "fid-1" "ABC123" "failed" (Some "服务器繁忙"%string) None None None (Some 40101) in
  let o2 := LogRepo.mkOutcome "fid-1" "ABC123" "success" None (Some "ok"%string) (Some "AB1D"%string) (Some 2) None in
  let t := LogRepo.mkTable
             [LogRepo.logOf db 1 9 1 o1; LogRepo.logOf db 2 9 2 o1; LogRepo.logOf db 3 9 1 o1] 4 in
  exists t1 ret1 t2,
    LogRepo.ReplaceRedeemLog db t 9 1 o1 = (t1, ret1) /\
    LogRepo.ReplaceRedeemLog db t1 9 1 o2 = (t2, inl 5) /\
    LogRepo.rows t2
      = [LogRepo.mkLog 2 9 2 "fid-1" "ABC123" "failed" (Some "服务器繁忙"%string) None None None
           (Some 40101) 50;
         LogRepo.mkLog 5 9 1 "fid-1" "ABC123" "success" None (Some "ok"%string)
           (Some "AB1D"%string) (Some 2) None 50] /\
    filter (fun r => LogRepo.redeem_code_id r = 9 /\ LogRepo.game_account_id r = 1)
           (LogRepo.rows t2)
      = [LogRepo.mkLog 5 9 1 "fid-1" "ABC123" "success" None (Some "ok"%string)
           (Some "AB1D"%string) (Some 2) None 50].
Proof.
  intros db o1 o2 t.
  eexists. eexists. eexists. split; [reflexivity|]. split; [reflexivity|].
  split; [reflexivity|].
  refine (proj1 (ReplaceRedeemLog_leaves_one_row db db t _ _ 9 1 o1 o2 _ 5 eq_refl eq_refl)).
Defined.

(** ** The OCR key manager *)

Section Keys.

Import OCR.

Variable rnd : Q -> Q.
Variable lowerUnicode : string -> string.



Lemma toInt64_small (z : Z) : - 2 ^ 63 <= z < 2 ^ 63 -> toInt64 z = z.
Proof.
  intros Hz. unfold toInt64.
  replace (- 2 ^ 63 <=? z) with true by (symmetry; apply Z.leb_le; lia).
  replace (z <? 2 ^ 63) with true by (symmetry; apply Z.ltb_lt; lia).
  reflexivity.
Qed.

(** In the range of [int] the conversion is the integral part. *)
Lemma toInt_nonneg (x : Q) (b : Z) :
  (0 <= x)%Q -> (x <= inject_Z b)%Q -> b < 2 ^ 63 -> toInt x = Qfloor x.
Proof.
  intros Hx Hb Hrange. unfold toInt, truncate.
  destruct (Qlt_le_dec x 0) as [Hlt|_]; [exfalso; eapply Qlt_not_le; eauto|].
  apply toInt64_small.
  assert (0 <= Qfloor x).
  { rewrite <- (Qfloor_Z 0). apply Qfloor_resp_le. exact Hx. }
  assert (Qfloor x <= b).
  { rewrite <- (Qfloor_Z b). apply Qfloor_resp_le. exact Hb. }
  lia.
Qed.

Hypothesis rounding : roundsToNearest rnd.


















Lemma accumulate_spec (ks : list weightedKey) (i : nat) (best : option (nat * Z))
    (ks' : list weightedKey) (final : option (nat * Z)) :
  accumulate ks i best = (ks', final) ->
  ks' = map bump ks /\
  match best, final with
  | _, None => best = None /\ ks = []
  | None, Some (b, cur) => (i <= b)%nat /\ chosenIn (map bump ks) (b - i) cur
  | Some (b0, cur0), Some (b, cur) =>
      (b = b0 /\ cur = cur0 /\ forall j wk, map bump ks !! j = Some wk -> current wk <= cur0)
      \/ ((i <= b)%nat /\ cur0 < cur /\ chosenIn (map bump ks) (b - i) cur)
  end.
Proof.
  revert i best ks' final. induction ks as [|wk rest IH]; intros i best ks' final; simpl.
  - intros [= <- <-]. split; [reflexivity|]. destruct best as [[b0 cur0]|]; [|auto].
    left. repeat split; auto. intros j wk Hj. destruct j; discriminate.
  - set (cur := wrap64 (current wk + Weight (key wk))).
    set (best' := match best with
                  | Some (_, bestCur) => if bestCur <? cur then Some (i, cur) else best
                  | None => Some (i, cur)
                  end).
    destruct (accumulate rest (S i) best') as [rest' final'] eqn:Hacc.
    intros [= <- <-]. apply IH in Hacc as [-> Hfinal].
    split; [reflexivity|].
    assert (Hhead : forall c, cur <= c ->
              (forall j wk0, map bump rest !! j = Some wk0 -> current wk0 <= c) ->
              forall j wk0, (bump wk :: map bump rest) !! j = Some wk0 -> current wk0 <= c).
    { intros c Hc Hall [|j] wk0; simpl; [intros [= <-]; exact Hc|apply Hall]. }
    assert (Hshift : forall b c, (S i <= b)%nat -> cur < c ->
              chosenIn (map bump rest) (b - S i) c ->
              chosenIn (bump wk :: map bump rest) (b - i) c).
    { intros b c Hb Hc ((wk0 & Hl & Hcur) & Hmax & Hfirst).
      replace (b - i)%nat with (S (b - S i)) by lia.
      split; [exists wk0; auto|]. split.
      - apply Hhead; [lia|exact Hmax].
      - intros [|j] wk1 Hj; simpl; [intros [= <-]; exact Hc|].
        apply Hfirst. lia. }
    assert (Hhere : (forall j wk0, map bump rest !! j = Some wk0 -> current wk0 <= cur) ->
              chosenIn (bump wk :: map bump rest) (i - i) cur).
    { intros Hall. rewrite Nat.sub_diag. split; [exists (bump wk); auto|]. split.
      - apply Hhead; [lia|exact Hall].
      - intros j wk0 Hj. lia. }
    change (map bump (wk :: rest)) with (bump wk :: map bump rest).
    destruct best as [[b0 cur0]|]; subst best'; cbn in Hfinal.
    + destruct (cur0 <? cur) eqn:E.
      * apply Z.ltb_lt in E. destruct final' as [[b c]|]; [|destruct Hfinal; discriminate].
        destruct Hfinal as [(-> & -> & Hall)|(Hb & Hc & Hch)].
        -- right. split; [lia|]. split; [exact E|]. now apply Hhere.
        -- right. split; [lia|]. split; [lia|]. now apply Hshift.
      * apply Z.ltb_ge in E. destruct final' as [[b c]|]; [|destruct Hfinal; discriminate].
        destruct Hfinal as [(-> & -> & Hall)|(Hb & Hc & Hch)].
        -- left. split; [reflexivity|]. split; [reflexivity|]. apply Hhead; [lia|exact Hall].
        -- right. split; [lia|]. split; [exact Hc|]. apply Hshift; [exact Hb|lia|exact Hch].
    + destruct final' as [[b c]|]; [|destruct Hfinal; discriminate].
      destruct Hfinal as [(-> & -> & Hall)|(Hb & Hc & Hch)].
      * split; [lia|]. now apply Hhere.
      * split; [lia|]. now apply Hshift.
Qed.

Lemma map_key_bump (ks : list weightedKey) : map key (map bump ks) = map key ks.
Proof. rewrite map_map. reflexivity. Qed.

(** What [pick] does on a non-empty set: every key accumulates its weight,
    the first key with the highest accumulator is chosen, and [total] is
    taken from the accumulator of that key alone. *)
Lemma pick_spec (m : OCRKeyManager) :
  keys m <> [] ->
  exists b wk,
    map bump (keys m) !! b = Some wk /\
    chosenIn (map bump (keys m)) b (current wk) /\
    let chosen := mkWeighted (key wk) (recognizer wk) (wrap64 (current wk - total m)) in
    pick m = (Some chosen, mkManager (<[b := chosen]> (map bump (keys m))) (total m)).
Proof.
  intros Hne. unfold pick.
  destruct (accumulate (keys m) 0 None) as [ks final] eqn:Hacc.
  apply accumulate_spec in Hacc as [-> Hfinal].
  destruct (keys m) as [|wk0 rest] eqn:Hk; [contradiction|].
  destruct final as [[b cur]|]; [|destruct Hfinal; discriminate].
  destruct Hfinal as [_ Hch]. rewrite Nat.sub_0_r in Hch.
  pose proof Hch as ((wk & Hl & Hcur) & _).
  exists b, wk. subst cur. split; [exact Hl|]. split; [exact Hch|].
  simpl. simpl in Hl. rewrite Hl. reflexivity.
Qed.




End Keys.

Lemma exact_roundsToNearest : OCR.roundsToNearest OCR.exact.
Proof. split; [intros x y H; exact H|intros z _; apply Qeq_refl]. Qed.

(** With exact arithmetic the effective weight is the base weight times one
    plus the remaining fraction of the monthly quota, the fraction capped
    at one, rounded down. *)
Lemma effectiveWeight_exact (k : OCR.OCRKey) :
  0 < OCR.Weight k < 2 ^ 62 -> 0 < OCR.MonthlyQuota k -> 0 <= OCR.RemainingQuota k ->
  OCR.effectiveWeight OCR.exact k
  = OCR.Weight k * (OCR.MonthlyQuota k + Z.min (OCR.RemainingQuota k) (OCR.MonthlyQuota k))
      / OCR.MonthlyQuota k.
Proof.
  intros [Hw Hw2] Hm Hr. unfold OCR.effectiveWeight.
  assert (Hq : ((0 <? OCR.MonthlyQuota k) && (0 <=? OCR.RemainingQuota k)) = true).
  { apply andb_true_iff. split; [apply Z.ltb_lt|apply Z.leb_le]; assumption. }
  rewrite Hq. unfold OCR.fadd, OCR.fdiv, OCR.fmul, OCR.ofInt, OCR.exact.
  set (w := OCR.Weight k) in *. set (m := OCR.MonthlyQuota k) in *.
  set (r := OCR.RemainingQuota k) in *.
  assert (HmQ : ~ (inject_Z m == 0)%Q).
  { intros H. unfold Qeq in H. simpl in H. lia. }
  assert (Hcmp : (2 < 1 + inject_Z r / inject_Z m)%Q <-> m < r).
  { clearbody m r. destruct m as [|p|p]; try lia.
    unfold Qlt, Qplus, Qdiv, Qmult, Qinv, inject_Z. simpl.
    rewrite ?Pos2Z.inj_mul. simpl. lia. }
  assert (Hval : (inject_Z w *
                   (if Qlt_le_dec 2 (1 + inject_Z r / inject_Z m) then 2
                    else 1 + inject_Z r / inject_Z m)
                  == inject_Z (w * (m + Z.min r m)) / inject_Z m)%Q).
  { destruct (Qlt_le_dec 2 (1 + inject_Z r / inject_Z m)) as [Hgt|Hle].
    - apply Hcmp in Hgt. rewrite Z.min_r by lia.
      rewrite !inject_Z_mult, inject_Z_plus. field. exact HmQ.
    - assert (r <= m).
      { destruct (Z_lt_le_dec m r) as [Hlt|]; [|assumption].
        apply Hcmp in Hlt. exfalso. eapply Qlt_not_le; eauto. }
      rewrite Z.min_l by assumption.
      rewrite !inject_Z_mult, inject_Z_plus. field. exact HmQ. }
  assert (Hlow : w <= w * (m + Z.min r m) / m) by (apply Z.div_le_lower_bound; nia).
  assert (Hnn : (0 <= inject_Z w *
                   (if Qlt_le_dec 2 (1 + inject_Z r / inject_Z m) then 2
                    else 1 + inject_Z r / inject_Z m))%Q).
  { rewrite Hval. apply Qle_shift_div_l.
    - change 0%Q with (inject_Z 0). rewrite <- Zlt_Qlt. exact Hm.
    - rewrite Qmult_0_l. change 0%Q with (inject_Z 0). rewrite <- Zle_Qle. nia. }
  assert (Hup : (inject_Z w *
                   (if Qlt_le_dec 2 (1 + inject_Z r / inject_Z m) then 2
                    else 1 + inject_Z r / inject_Z m) <= inject_Z (2 * w))%Q).
  { rewrite Hval. apply Qle_shift_div_r.
    - change 0%Q with (inject_Z 0). rewrite <- Zlt_Qlt. exact Hm.
    - rewrite <- inject_Z_mult, <- Zle_Qle. nia. }
  rewrite (toInt_nonneg _ (2 * w) Hnn Hup)
    by (change (2 ^ 62) with 4611686018427387904 in Hw2;
        change (2 ^ 63) with 9223372036854775808; lia).
  rewrite (Qfloor_comp _ _ Hval), <- Zdiv_Qdiv.
  destruct (w * (m + Z.min r m) / m <? 1) eqn:E; [|reflexivity].
  apply Z.ltb_lt in E. lia.
Qed.




(** The accumulator of a key grows by its base weight, while [total] sums
    the effective weights: a single key of weight 1 with its whole quota
    left has effective weight 2, and after one selection its accumulator
    is [0 + 1 - 2]. *)
Example pick_accumulates_base_weight :
  let k := OCR.mkKey 1 "baidu" "main" "ak" "sk" true true 1000 1000 1 in
  let m := OCR.Reload OCR.exact OCR.unusedPath OCR.builtin [k] in
  OCR.effectiveWeight OCR.exact k = 2 /\ OCR.total m = 2 /\
  OCR.pick m = (Some (OCR.mkWeighted k "baidu" (-1)),
                OCR.mkManager [OCR.mkWeighted k "baidu" (-1)] 2).
Proof. repeat split. Qed.

(** ** The redemption gate *)

Section Exclusion.

Import Gate.

Lemma mid_inFlight (t : Thread) : singlePhase t -> inFlight t = true -> mid t = true.
Proof.
  unfold inFlight, mid. intros [(Hp & _)|[(c1 & c2 & Hp & Ht)|(Ht & _)]] H.
  - rewrite Hp in H. discriminate.
  - rewrite Hp, Ht. destruct c2; reflexivity.
  - rewrite Ht in H. simpl in H. rewrite andb_false_r in H. discriminate.
Qed.

Lemma gateInv_start (flows : list (list ApiCall)) :
  gateInv (start (map RedeemSingle flows)).
Proof.
  unfold gateInv, start. simpl.
  induction flows as [|calls flows (IH1 & IH2 & _)]; simpl.
  - repeat split; auto.
  - split; [|split; [|lia]].
    + constructor; [|exact IH1]. left. simpl. eauto.
    + rewrite filter_cons_False by (simpl; discriminate). exact IH2.
Qed.

Lemma gateInv_step (sys sys' : System) (i : nat) :
  gateInv sys -> step sys i = Some sys' -> gateInv sys'.
Proof.
  intros (Hph & Hg & Hle). unfold step.
  destruct (threads sys !! i) as [[p [|op rest]]|] eqn:Hl; try discriminate.
  destruct (insert_split (threads sys) i _ Hl) as (l1 & l2 & Hs & Hs' & _).
  assert (Hphase : singlePhase (mkThread p (op :: rest))).
  { rewrite Forall_forall in Hph. apply Hph. apply list_elem_of_lookup. eauto. }
  assert (Hrest : Forall singlePhase l1 /\ Forall singlePhase l2).
  { rewrite Hs in Hph. apply Forall_app in Hph as [H1 H2]. inversion H2; auto. }
  destruct Hrest as [Hl1 Hl2].
  assert (Hcount : forall t', length (filter (fun t => mid t = true) (l1 ++ t' :: l2))
            = (length (filter (fun t => mid t = true) l1)
               + (if mid t' then 1 else 0)
               + length (filter (fun t => mid t = true) l2))%nat).
  { intros t'. rewrite filter_app, length_app. destruct (mid t') eqn:E.
    - rewrite filter_cons_True by assumption. simpl. lia.
    - rewrite filter_cons_False by congruence. lia. }
  rewrite Hs, Hcount in Hg.
  assert (Hnew : forall g t', singlePhase t' ->
            g = (length (filter (fun t => mid t = true) l1)
                 + (if mid t' then 1 else 0)
                 + length (filter (fun t => mid t = true) l2))%nat ->
            (g <= 1)%nat ->
            gateInv (mkSystem g (l1 ++ t' :: l2))).
  { intros g t' Hp' Hg' Hle'. split; [|split; [|exact Hle']].
    - simpl. apply Forall_app. split; [exact Hl1|]. constructor; assumption.
    - simpl. rewrite Hcount. exact Hg'. }
  destruct Hphase as [(Hp & calls & Ht)|[(c1 & c2 & Hp & Ht)|(Ht & Hp)]];
    simpl in Hp, Ht; [| |discriminate].
  - (* before the gate: the next operation is the acquire *)
    subst p. unfold RedeemSingle in Ht. injection Ht as -> ->.
    unfold mid in Hg. simpl in Hg.
    destruct (gate sys <? 1)%nat eqn:E; [|discriminate].
    apply Nat.ltb_lt in E. intros [= <-]. rewrite Hs'. apply Hnew.
    + right. left. exists [], calls. auto.
    + unfold mid. simpl. destruct calls; simpl; lia.
    + lia.
  - (* inside the gate *)
    subst p. unfold mid in Hg. simpl in Hg.
    destruct c2 as [|c c2]; simpl in Ht; injection Ht as -> ->.
    + (* the release *)
      intros [= <-]. rewrite Hs'. apply Hnew.
      * right. right. simpl. split; [reflexivity|discriminate].
      * unfold mid. simpl. lia.
      * lia.
    + (* an API call *)
      intros [= <-]. rewrite Hs'. apply Hnew.
      * right. left. exists (c1 ++ [c]), c2. simpl. rewrite map_app. auto.
      * unfold mid. simpl. destruct (map Api c2 ++ [Release]) eqn:E2.
        -- destruct (map Api c2); discriminate.
        -- lia.
      * lia.
Qed.

Lemma gateInv_run (schedule : list nat) (sys sys' : System) :
  gateInv sys -> run schedule sys = Some sys' -> gateInv sys'.
Proof.
  revert sys. induction schedule as [|i rest IH]; intros sys HI; simpl.
  - intros [= <-]. exact HI.
  - destruct (step sys i) as [sys1|] eqn:Hst; [|discriminate].
    apply IH. eapply gateInv_step; eauto.
Qed.

(** X2. Among flows that all enter through [RedeemSingle], at most one is
    in flight, under every interleaving. *)
Lemma single_flows_exclusive (flows : list (list ApiCall)) (schedule : list nat)
    (sys : System) :
  run schedule (start (map RedeemSingle flows)) = Some sys ->
  (flying sys <= 1)%nat.
Proof.
  intros Hrun. apply gateInv_run in Hrun; [|apply gateInv_start].
  destruct Hrun as (Hph & Hg & Hle). unfold flying.
  assert (H : forall l, Forall singlePhase l ->
            (length (filter (fun t => inFlight t = true) l)
             <= length (filter (fun t => mid t = true) l))%nat).
  { induction 1 as [|t l Ht _ IH]; [reflexivity|].
    destruct (inFlight t) eqn:E.
    - rewrite filter_cons_True by assumption.
      rewrite (filter_cons_True (fun t => mid t = true)) by (apply mid_inFlight; assumption).
      simpl. lia.
    - rewrite filter_cons_False by congruence.
      destruct (mid t) eqn:E'.
      + rewrite (filter_cons_True (fun t => mid t = true)) by assumption. simpl. lia.
      + rewrite (filter_cons_False (fun t => mid t = true)) by congruence. exact IH. }
  specialize (H _ Hph). lia.
Qed.

End Exclusion.

(** C1, on the code.  [RedeemBatch] performs no operation on the gate, so a
    batch flow runs while a single-account flow holds the gate: after the
    single flow has acquired the gate and logged in, the batch flow logs
    in, and both are in flight.  Nothing in [RedeemBatch] keeps two batch
    flows apart either; that is left to the worker pool, which runs one
    job at a time. *)
Theorem batch_flow_bypasses_gate :
  (exists sys,
     Gate.run [0; 0; 1]%nat
       (Gate.start [Gate.RedeemSingle Gate.sampleCalls; Gate.RedeemBatch Gate.sampleCalls])
       = Some sys /\
     Gate.gate sys = 1%nat /\ Gate.flying sys = 2%nat) /\
  (exists sys,
     Gate.run [0; 1]%nat
       (Gate.start [Gate.RedeemBatch Gate.sampleCalls; Gate.RedeemBatch Gate.sampleCalls])
       = Some sys /\
     Gate.flying sys = 2%nat).
Proof.
  split; eexists; (split; [vm_compute; reflexivity|]); repeat split.
Qed.

(** ** The scheduler: termination when no attempt is answered with 40100 *)

Section Termination.

Variable world : nat -> AttemptWorld.
Variable giftCode : string.

Hypothesis never_40100 :
  forall k fid, RedeemResult.ErrCode (tryOnceNoCooldown (world k) fid giftCode) <> 40100.

Lemma remaining_middle (l1 l2 : list accountState) (st : accountState) :
  remaining (l1 ++ st :: l2) = (remaining l1 + budget st + remaining l2)%nat.
Proof.
  unfold remaining. rewrite map_app, list_sum_app. simpl. lia.
Qed.

Lemma budget_pending (st : accountState) :
  healthy st -> finalized st = false -> (1 <= budget st)%nat.
Proof.
  intros [Hf|(Hc & Ha)] Hp; [congruence|]. unfold budget. rewrite Hp. lia.
Qed.

(** Every outcome other than 40100 uses up some of the budget. *)
Lemma settle_uses_budget (now : Z) (r : RedeemResult.t) (tmp : BatchRedeemResult.t)
    (st st' : accountState) (results results' : list BatchRedeemResult.t)
    (pending pending' : Z) :
  healthy st -> finalized st = false ->
  RedeemResult.ErrCode r <> 40100 ->
  settle now r tmp st results pending = (st', results', pending') ->
  healthy st' /\ (budget st' < budget st)%nat.
Proof.
  intros [Hf|(Hc & Ha)] Hp Hcode; [congruence|].
  assert (Hic : incr (cooldowns st) = cooldowns st + 1) by (apply incr_small; lia).
  assert (Hia : incr (attemptsInCycle st) = attemptsInCycle st + 1) by (apply incr_small; lia).
  assert (Hb : budget st = Z.to_nat (9 - 3 * cooldowns st - attemptsInCycle st))
    by (unfold budget; now rewrite Hp).
  unfold settle, cooldown, finalizeWith, shortRetry, bumpAttempts. cbn.
  rewrite Hic, Hia, Hb.
  repeat match goal with
         | |- context [if ?b then _ else _] => destruct b eqn:?; cbn
         end;
    intros [= <- <- <-]; unfold healthy, budget; cbn; rewrite ?Hp;
    repeat match goal with
           | H : (_ <=? _) = true |- _ => apply Z.leb_le in H
           | H : (_ <=? _) = false |- _ => apply Z.leb_gt in H
           | H : (_ =? _) = true |- _ => apply Z.eqb_eq in H
           | H : (_ =? _) = false |- _ => apply Z.eqb_neq in H
           end;
    try (split; [left; reflexivity|lia]);
    try (split; [right; lia|lia]);
    try contradiction.
Qed.

Lemma attempt_uses_budget (s s' : loopState) (i : nat) (st st' : accountState)
    (r : RedeemResult.t) :
  Forall healthy (states s) ->
  attempts world giftCode s s' i st st' r ->
  Forall healthy (states s') /\ (remaining (states s') < remaining (states s))%nat.
Proof.
  intros Hall (Hl & Hfin & _ & Hr & _ & Hset & Hst & _).
  assert (Hst_h : healthy st).
  { rewrite Forall_forall in Hall. apply Hall. apply list_elem_of_lookup. eauto. }
  assert (Hcode : RedeemResult.ErrCode r <> 40100) by (subst r; apply never_40100).
  destruct (settle_uses_budget _ _ _ _ _ _ _ _ _ Hst_h Hfin Hcode Hset) as [Hh' Hlt].
  destruct (insert_split (states s) i st Hl) as (l1 & l2 & Hs1 & Hs2 & _).
  rewrite Hst, (Hs2 st'). split.
  - rewrite Hs1 in Hall. apply Forall_app in Hall as [H1 H2]. inversion H2; subst.
    apply Forall_app. split; [exact H1|]. constructor; assumption.
  - rewrite Hs1. rewrite !remaining_middle. lia.
Qed.

(** With an account ready, the pass is an attempt. *)
Lemma iteration_ready (s : loopState) (i : nat) (st : accountState) :
  states s !! i = Some st -> finalized st = false -> nextReadyAt st <= clock s ->
  exists s' j stj stj' r,
    iteration world giftCode s = Continue s' /\ attempts world giftCode s s' j stj stj' r.
Proof.
  intros Hl Hfin Hready.
  assert (Hin : st ∈ states s) by (apply list_elem_of_lookup; eauto).
  destruct (iteration world giftCode s) as [| |s'] eqn:Hit.
  - apply iteration_Break in Hit. rewrite Forall_forall in Hit.
    specialize (Hit st Hin). congruence.
  - exfalso. eapply iteration_no_Panic; eauto.
  - apply iteration_Continue in Hit as [(wait & _ & _ & _ & Hall)|(j & stj & stj' & r & Hatt)].
    + rewrite Forall_forall in Hall. specialize (Hall st Hin Hfin). lia.
    + exists s', j, stj, stj', r. auto.
Qed.

Lemma loop_terminates (m : nat) :
  forall (s : loopState) (fuel : nat),
    Forall healthy (states s) -> (remaining (states s) <= m)%nat ->
    (2 * m + 1 <= fuel)%nat ->
    exists sf, loop world giftCode fuel s = Some (Returned (results sf), sf).
Proof.
  induction m as [|m IH]; intros s fuel Hall Hrem Hfuel.
  - destruct fuel as [|fuel]; [lia|]. simpl.
    destruct (pending s <=? 0); [eauto|].
    destruct (iteration world giftCode s) as [| |s'] eqn:Hit; [eauto| |].
    + exfalso. eapply iteration_no_Panic; eauto.
    + exfalso.
      apply iteration_Continue in Hit as [(wait & _ & -> & (i & st & Hl & Hfin & Hn) & _)
                                         |(j & stj & stj' & r & Hatt)].
      * assert (Hst : healthy st).
        { rewrite Forall_forall in Hall. apply Hall. apply list_elem_of_lookup. eauto. }
        pose proof (budget_pending _ Hst Hfin) as Hb.
        destruct (insert_split (states s) i st Hl) as (l1 & l2 & Hs1 & _).
        rewrite Hs1, remaining_middle in Hrem. lia.
      * destruct (attempt_uses_budget _ _ _ _ _ _ Hall Hatt) as [_ Hlt]. lia.
  - destruct fuel as [|fuel]; [lia|]. simpl.
    destruct (pending s <=? 0) eqn:Hp; [eauto|].
    destruct (iteration world giftCode s) as [| |s'] eqn:Hit; [eauto| |].
    + exfalso. eapply iteration_no_Panic; eauto.
    + apply iteration_Continue in Hit as [(wait & Hw & -> & (i & st & Hl & Hfin & Hn) & _)
                                         |(j & stj & stj' & r & Hatt)].
      * (* a wait: the next pass is an attempt *)
        destruct fuel as [|fuel]; [lia|]. simpl. rewrite Hp.
        destruct (iteration_ready
                    (mkLoop (states s) (results s) (pending s) (lastSwitchAt s)
                       (clock s + wait) (trace s)) i st Hl Hfin)
          as (s'' & j & stj & stj' & r & Hit' & Hatt); [simpl; lia|].
        rewrite Hit'.
        destruct (attempt_uses_budget
                    (mkLoop (states s) (results s) (pending s) (lastSwitchAt s)
                       (clock s + wait) (trace s)) _ _ _ _ _ Hall Hatt) as [Hall' Hlt].
        apply IH; [exact Hall'|simpl in Hlt; lia|lia].
      * destruct (attempt_uses_budget _ _ _ _ _ _ Hall Hatt) as [Hall' Hlt].
        apply IH; [exact Hall'|lia|lia].
Qed.

Lemma initial_healthy (accounts : list Account.t) (now0 : Z) :
  Forall healthy (states (initial accounts now0)) /\
  remaining (states (initial accounts now0)) = (9 * length accounts)%nat.
Proof.
  simpl. induction accounts as [|a l [IH1 IH2]]; simpl; [split; [constructor|reflexivity]|].
  split.
  - constructor; [|exact IH1]. right. simpl. lia.
  - unfold remaining in *. simpl. rewrite IH2. lia.
Qed.

End Termination.

(** X1. When no attempt is ever answered with 40100, [RedeemBatch] over [n]
    accounts returns within [18 n + 1] passes of its loop, with one result
    for each account. *)
Theorem RedeemBatch_terminates_without_40100 (world : nat -> AttemptWorld)
    (giftCode : string) (accounts : list Account.t) (now0 : Z) :
  (forall k fid, RedeemResult.ErrCode (tryOnceNoCooldown (world k) fid giftCode) <> 40100) ->
  exists results,
    RedeemBatch world giftCode (18 * length accounts + 1) accounts now0
      = Some (Returned results) /\
    Permutation (map keyOfResult results) (map keyOfAccount accounts).
Proof.
  intros Hno.
  destruct (initial_healthy accounts now0) as [Hh Hr].
  destruct (loop_terminates world giftCode Hno (9 * length accounts)
              (initial accounts now0) (18 * length accounts + 1) Hh) as (sf & Hloop);
    [lia|lia|].
  exists (results sf). unfold RedeemBatch. rewrite Hloop. split; [reflexivity|].
  apply loop_passes in Hloop as (_ & (n & _ & Hpass) & Hend).
  eapply Inv_exit; [|exact Hend].
  eapply Inv_passes; [apply Inv_initial|exact Hpass].
Qed.

Lemma RedeemBatch_terminates_without_40100_witness :
  exists results,
    RedeemBatch alwaysBusy "ABC123" 37 [alice; bob] 0 = Some (Returned results) /\
    Permutation (map keyOfResult results) (map keyOfAccount [alice; bob]).
Proof.
  apply (RedeemBatch_terminates_without_40100 alwaysBusy "ABC123" [alice; bob] 0).
  intros k fid. vm_compute. discriminate.
Defined.

Lemma single_flows_exclusive_witness :
  exists sys,
    Gate.run [0; 0; 0; 0; 0; 1; 1]%nat
      (Gate.start (map Gate.RedeemSingle [Gate.sampleCalls; Gate.sampleCalls])) = Some sys /\
    Gate.gate sys = 1%nat /\ (Gate.flying sys <= 1)%nat.
Proof.
  eexists. split; [vm_compute; reflexivity|]. split; [reflexivity|].
  apply (single_flows_exclusive [Gate.sampleCalls; Gate.sampleCalls]
           [0; 0; 0; 0; 0; 1; 1]%nat).
  vm_compute. reflexivity.
Defined.


Lemma parse_failures_are_busy_witness :
  GameClient.Login (GameClient.Response 503 None) "1700000000000" = inl GameClient.busy /\
  GameClient.GetCaptcha (GameClient.Response 503 None) = inl GameClient.busy /\
  GameClient.RedeemCode (GameClient.Response 503 None) = inl GameClient.busy /\
  GameClient.ErrCode GameClient.busy = 40101 /\ GameClient.Success GameClient.busy = false.
Proof.
  apply (parse_failures_are_busy (GameClient.Response 503 None) "1700000000000").
  left. discriminate.
Defined.

Lemma backoff_monotone_witness :
  exists d d', JobQueue.backoff 3 = Some d /\ JobQueue.backoff 7 = Some d' /\
    d = 8 * Second /\ d' = 60 * Second /\ d <= d'.
Proof.
  eexists. eexists. split; [reflexivity|]. split; [reflexivity|].
  split; [reflexivity|]. split; [reflexivity|].
  apply (backoff_monotone 3 7); [lia|lia|reflexivity|reflexivity].
Defined.

(** ** Sample runs *)

Example Atoi_samples :
  Atoi "40101" = Some 40101 /\ Atoi "-7" = Some (-7) /\ Atoi "" = None /\
  Atoi "4o101" = None /\ Atoi "9223372036854775808" = None.
Proof. repeat split. Qed.

Example parseErrCode_samples :
  GameClient.parseErrCode (GameClient.JString "40014") = 40014 /\
  GameClient.parseErrCode (GameClient.JNumber 40007) = 40007 /\
  GameClient.parseErrCode GameClient.JNull = 0 /\
  GameClient.parseErrCode (GameClient.JString "busy") = 0 /\
  GameClient.parseErrCode (GameClient.JNumber (2 ^ 63)) = - 2 ^ 63.
Proof. repeat split. Qed.

Example normalize_sample :
  string_of_list_ascii (normalize "a-b 1#d9" []) = "AB1D"%string /\
  length (normalize "a-b" []) = 2%nat.
Proof. split; reflexivity. Qed.

Example backoff_samples :
  map JobQueue.backoff [0; 1; 2; 5; 6; 33; 55; 64; -1]
  = [Some Second; Some (2 * Second); Some (4 * Second); Some (32 * Second);
     Some (60 * Second); Some (60 * Second); Some 0; Some 0; None].
Proof. reflexivity. Qed.

Example providerOf_samples :
  OCR.providerOf OCR.unusedPath (OCR.mkKey 1 "  BaiDu " "" "" "" true true 0 0 1) = "baidu"%string /\
  OCR.providerOf OCR.unusedPath (OCR.mkKey 1 "   " "" "" "" true true 0 0 1) = "baidu"%string /\
  OCR.getOCRProvider OCR.unusedPath OCR.builtin "aliyun" = false /\
  OCR.TrimSpace (String (ascii_of_N 194) (String (ascii_of_N 160)
                   ("baidu" +:+ String (ascii_of_N 227) (String (ascii_of_N 128)
                                  (String (ascii_of_N 128) " "))))) = "baidu"%string /\
  forall lowerUnicode, OCR.ToLower lowerUnicode "BaiDu" = "baidu"%string.
Proof. repeat split. Qed.

(** Two keys of weights 3 and 1, without a monthly quota: four selections
    choose the first key three times and the second once, and bring the
    accumulators back to 0. *)
Example pick_three_to_one :
  let a := OCR.mkKey 1 "baidu" "a" "" "" true true 0 0 3 in
  let b := OCR.mkKey 2 "baidu" "b" "" "" true true 0 0 1 in
  let m0 := OCR.Reload OCR.exact OCR.unusedPath OCR.builtin [a; b] in
  let '(k1, m1) := OCR.pick m0 in
  let '(k2, m2) := OCR.pick m1 in
  let '(k3, m3) := OCR.pick m2 in
  let '(k4, m4) := OCR.pick m3 in
  map (fun k => OCR.ID (OCR.key k)) (omap id [k1; k2; k3; k4]) = [1; 1; 2; 1] /\
  m4 = m0.
Proof. split; reflexivity. Qed.

(** The scenario of the specification: the first account succeeds at
    once, the second meets a wrong captcha twice and then succeeds. *)
Example two_accounts_scenario :
  let w (n : nat) :=
    match n with
    | 1%nat | 2%nat => claimAnswered 40103
    | _ => claimAnswered 20000
    end in
  exists r1 r2,
    RedeemBatch w "ABC123" 10 [alice; bob] 0 = Some (Returned [r1; r2]) /\
    keyOfResult r1 = keyOfAccount alice /\ keyOfResult r2 = keyOfAccount bob /\
    BatchRedeemResult.Result r1 = "success"%string /\
    BatchRedeemResult.Result r2 = "success"%string.
Proof. eexists. eexists. split; [vm_compute; reflexivity|]. repeat split. Qed.

(** * Properties of the further parts *)

(** ** The client: error codes and error texts *)

Lemma digitVal_pretty_N_char (r : N) :
  (r < 10)%N -> digitVal (pretty_N_char r) = Some (Z.of_N r).
Proof.
  intros H.
  assert (r = 0 \/ r = 1 \/ r = 2 \/ r = 3 \/ r = 4 \/ r = 5 \/ r = 6 \/ r = 7
          \/ r = 8 \/ r = 9)%N as Hr by lia.
  repeat (destruct Hr as [->|Hr]; [reflexivity|]). subst r. reflexivity.
Qed.

(** The digits [pretty] writes are read back by [parseDigits]. *)
Lemma parseDigits_pretty_N_go (x : N) :
  (0 < x)%N ->
  exists k : Z, 0 <= k /\ forall s acc,
    parseDigits (pretty_N_go x s) acc = parseDigits s (acc * 10 ^ k + Z.of_N x).
Proof.
  induction (N.lt_wf_0 x) as [x _ IH]. intros Hpos.
  assert (Hmod : (x mod 10 < 10)%N) by (apply N.mod_lt; lia).
  assert (Hx : x = (10 * (x / 10) + x mod 10)%N) by (apply N.div_mod; lia).
  destruct (N.eq_dec (x / 10)%N 0%N) as [Hq|Hq].
  - exists 1. split; [lia|]. intros s acc.
    rewrite pretty_N_go_step by exact Hpos. rewrite Hq, pretty_N_go_0. simpl.
    rewrite digitVal_pretty_N_char by exact Hmod. f_equal. lia.
  - destruct (IH (x / 10)%N) as (k & Hk & Hrec).
    + apply N.div_lt; lia.
    + lia.
    + exists (k + 1). split; [lia|]. intros s acc.
      rewrite pretty_N_go_step by exact Hpos. rewrite Hrec. simpl.
      rewrite digitVal_pretty_N_char by exact Hmod. f_equal.
      rewrite Z.pow_add_r by lia. rewrite Hx at 3. lia.
Qed.

Lemma parseUnsigned_pretty_pos (p : positive) :
  parseUnsigned (pretty (Npos p)) = Some (Zpos p).
Proof.
  destruct (parseDigits_pretty_N_go (Npos p)) as (k & _ & H); [lia|].
  unfold pretty, pretty_N. destruct (decide (N.pos p = 0%N)) as [E|_]; [discriminate|].
  unfold parseUnsigned.
  destruct (pretty_N_go (N.pos p) "") eqn:E.
  - exfalso. specialize (H EmptyString 0). rewrite E in H. simpl in H. discriminate.
  - rewrite <- E, H. simpl. reflexivity.
Qed.

Lemma pretty_pos_head (p : positive) (c : ascii) (rest : string) :
  pretty (Npos p) = String c rest -> c <> "-"%char /\ c <> "+"%char.
Proof.
  intros E.
  assert (H : parseUnsigned (String c rest) = Some (Zpos p))
    by (rewrite <- E; apply parseUnsigned_pretty_pos).
  simpl in H. split; intros ->; simpl in H; discriminate.
Qed.

Lemma Atoi_minus (s : string) :
  Atoi (String "-" s) =
  match Z.opp <$> parseUnsigned s with
  | Some n => if (- 2 ^ 63 <=? n) && (n <? 2 ^ 63) then Some n else None
  | None => None
  end.
Proof. reflexivity. Qed.

Lemma Atoi_pretty (n : Z) : - 2 ^ 63 <= n < 2 ^ 63 -> Atoi (pretty n) = Some n.
Proof.
  intros Hn. destruct n as [|p|p].
  - reflexivity.
  - change (pretty (Z.pos p)) with (pretty (Npos p)).
    pose proof (parseUnsigned_pretty_pos p) as H.
    unfold Atoi. destruct (pretty (N.pos p)) as [|c rest] eqn:E; [discriminate|].
    destruct (pretty_pos_head p c rest E) as [H1 H2].
    assert (Hs : match String c rest with
                 | String "-"%char rest0 => Z.opp <$> parseUnsigned rest0
                 | String "+"%char rest0 => parseUnsigned rest0
                 | _ => parseUnsigned (String c rest)
                 end = parseUnsigned (String c rest)).
    { destruct c as [[] [] [] [] [] [] [] []]; try reflexivity; congruence. }
    rewrite Hs, H.
    assert (Hb : (- 2 ^ 63 <=? Z.pos p) && (Z.pos p <? 2 ^ 63) = true)
      by (apply andb_true_iff; split; [apply Z.leb_le|apply Z.ltb_lt]; lia).
    rewrite Hb. reflexivity.
  - change (pretty (Z.neg p)) with (String "-" (pretty (Npos p))).
    rewrite Atoi_minus, parseUnsigned_pretty_pos.
    change (Z.opp <$> Some (Z.pos p)) with (Some (Z.neg p)).
    assert (Hb : (- 2 ^ 63 <=? Z.neg p) && (Z.neg p <? 2 ^ 63) = true)
      by (apply andb_true_iff; split; [apply Z.leb_le|apply Z.ltb_lt]; lia).
    cbv beta iota. rewrite Hb. reflexivity.
Qed.

Lemma pretty_Z_nonempty (n : Z) : pretty n <> ""%string.
Proof.
  intros E. assert (H : pretty n = pretty n) by reflexivity.
  destruct n as [|p|p]; try discriminate.
  change (pretty (Z.pos p)) with (pretty (Npos p)) in E.
  pose proof (parseUnsigned_pretty_pos p) as Hp. rewrite E in Hp. discriminate.
Qed.

(** [truncate] does not tell two representations of a rational apart. *)
Lemma truncate_comp (x y : Q) : (x == y)%Q -> OCR.truncate x = OCR.truncate y.
Proof.
  intros H. unfold OCR.truncate.
  destruct (Qlt_le_dec x 0) as [Hx|Hx], (Qlt_le_dec y 0) as [Hy|Hy].
  - apply Qceiling_comp, H.
  - exfalso. rewrite H in Hx. exact (Qlt_not_le _ _ Hx Hy).
  - exfalso. rewrite H in Hx. exact (Qlt_not_le _ _ Hy Hx).
  - apply Qfloor_comp, H.
Qed.

Lemma truncate_Z (n : Z) : OCR.truncate (inject_Z n) = n.
Proof.
  unfold OCR.truncate.
  destruct (Qlt_le_dec (inject_Z n) 0); [apply Qceiling_Z|apply Qfloor_Z].
Qed.

(** The decoder keeps an integer literal of magnitude up to [2 ^ 53]. *)
Lemma numberLiteral_exact (rnd : Q -> Q) (n : Z) :
  OCR.roundsToNearest rnd -> - 2 ^ 53 <= n <= 2 ^ 53 ->
  Decode.numberLiteral rnd n = JNumber n.
Proof.
  intros [_ Hexact] Hn. unfold Decode.numberLiteral.
  rewrite (truncate_comp _ _ (Hexact n Hn)), truncate_Z. reflexivity.
Qed.

(** X6. An error code of magnitude up to [2 ^ 53] that the game API sends
    as a JSON string of decimal digits is read as the same number as when
    it is sent as a JSON number, which the decoder turns into a [float64]:
    both give the code itself. *)
Theorem parseErrCode_string_is_number (rnd : Q -> Q) (n : Z) :
  OCR.roundsToNearest rnd ->
  - 2 ^ 53 <= n <= 2 ^ 53 ->
  parseErrCode (JString (pretty n)) = n /\
  parseErrCode (Decode.numberLiteral rnd n) = n.
Proof.
  intros Hrnd Hn. split.
  - simpl. destruct (String.eqb (pretty n) "") eqn:E.
    + apply String.eqb_eq in E. exfalso. exact (pretty_Z_nonempty n E).
    + rewrite Atoi_pretty by lia. reflexivity.
  - rewrite (numberLiteral_exact rnd n Hrnd Hn). simpl.
    unfold toInt64.
    destruct (- 2 ^ 63 <=? n) eqn:E1; [|apply Z.leb_gt in E1; lia].
    destruct (n <? 2 ^ 63) eqn:E2; [reflexivity|apply Z.ltb_ge in E2; lia].
Qed.

Lemma parseErrCode_string_is_number_witness :
  parseErrCode (JString "40101") = 40101 /\
  parseErrCode (Decode.numberLiteral OCR.exact 40101) = 40101.
Proof.
  apply (parseErrCode_string_is_number OCR.exact 40101 exact_roundsToNearest). lia.
Defined.

Lemma lookupCode_In (c : Z) (m : list (Z * string)) (msg : string) :
  lookupCode c m = Some msg -> In msg (map snd m).
Proof.
  induction m as [|[k v] m IH]; simpl; [discriminate|].
  destruct (k =? c); [intros [= ->]; auto|auto].
Qed.

(** Every code has a text: the one of [errorMap], or the one that quotes
    the code. *)
Lemma getErrorMessage_nonempty (c : Z) : getErrorMessage c <> ""%string.
Proof.
  unfold getErrorMessage. destruct (lookupCode c errorMap) as [msg|] eqn:E.
  - apply lookupCode_In in E. simpl in E.
    repeat (destruct E as [<-|E]; [discriminate|]). destruct E.
  - discriminate.
Qed.

Lemma orElse_nonempty (s fallback : string) : s <> ""%string -> orElse s fallback = s.
Proof.
  intros H. unfold orElse. destruct (String.eqb s "") eqn:E; [|reflexivity].
  apply String.eqb_eq in E. contradiction.
Qed.

(** X7. When the game API turns down a login or a captcha request, the
    error text of the result is the text [getErrorMessage] has for the
    code: the [msg] of the response and the fixed fallback text are never
    used, and the text is never empty. *)
Theorem refusal_text_comes_from_the_code (resp : GameResponse) (currentTime : string)
    (r : GameResult) :
  Code resp <> 0 ->
  Login (Response StatusOK (Some resp)) currentTime = inl r
  \/ GetCaptcha (Response StatusOK (Some resp)) = inl r ->
  Success r = false /\
  ErrCode r = parseErrCode (RespErrCode resp) /\
  Error r = getErrorMessage (ErrCode r) /\
  Error r <> ""%string.
Proof.
  intros Hc H.
  assert (Hcode : (Code resp =? 0) = false) by (apply Z.eqb_neq; exact Hc).
  assert (Hr : r = mkGameResult false []
                     (getErrorMessage (parseErrCode (RespErrCode resp)))
                     (parseErrCode (RespErrCode resp)) false).
  { destruct H as [H|H]; unfold Login, GetCaptcha, exchange in H; simpl in H;
      rewrite Hcode in H; injection H as <-;
      rewrite (orElse_nonempty (getErrorMessage _)) by apply getErrorMessage_nonempty;
      rewrite (orElse_nonempty (getErrorMessage _)) by apply getErrorMessage_nonempty;
      reflexivity. }
  subst r. simpl. repeat split. apply getErrorMessage_nonempty.
Qed.

Lemma refusal_text_comes_from_the_code_witness :
  exists r,
    GetCaptcha (Response StatusOK
      (Some (mkGameResponse 1 (JString "40100") (JString "CAPTCHA GET TOO FREQUENT.") [])))
      = inl r /\
    Error r = getErrorMessage 40100.
Proof.
  eexists. split; [reflexivity|].
  apply (refusal_text_comes_from_the_code
           (mkGameResponse 1 (JString "40100") (JString "CAPTCHA GET TOO FREQUENT.") [])
           ""%string).
  - simpl. lia.
  - right. reflexivity.
Defined.

(** X8. [RedeemCode] reports success exactly when the response is read
    with status 200 and its error code is 20000, whatever its [code]
    member says; it flags the result fatal exactly for the codes 40007 and
    40014; and a result is never both. *)
Theorem RedeemCode_success_and_fatal (h : HttpOutcome) (r : GameResult) :
  RedeemCode h = inl r ->
  (Success r = true <->
     exists resp, h = Response StatusOK (Some resp) /\
                  parseErrCode (RespErrCode resp) = 20000) /\
  (IsFatal r = true <->
     exists resp, h = Response StatusOK (Some resp) /\
                  (parseErrCode (RespErrCode resp) = 40007
                   \/ parseErrCode (RespErrCode resp) = 40014)) /\
  (Success r = true -> IsFatal r = false).
Proof.
  unfold RedeemCode, exchange. intros H.
  destruct h as [e|e|st|st [resp|]]; try discriminate.
  - injection H as <-. simpl. repeat split; try discriminate; intros (resp & [=] & _).
  - injection H as <-. simpl. repeat split; try discriminate; intros (resp & [=] & _).
  - destruct (st =? StatusOK) eqn:Est; simpl in H.
    + apply Z.eqb_eq in Est. subst st. injection H as <-.
      destruct (isSuccess (parseErrCode (RespErrCode resp))) eqn:E; simpl.
      * unfold isSuccess in E. apply Z.eqb_eq in E. repeat split; try discriminate; eauto.
        intros (resp' & [= <-] & [Hc|Hc]); lia.
      * unfold isSuccess in E. apply Z.eqb_neq in E. repeat split; try discriminate.
        -- intros (resp' & [= <-] & Hc). contradiction.
        -- intros Hf. apply isFatalError_iff in Hf. eauto.
        -- intros (resp' & [= <-] & Hc). apply isFatalError_iff. exact Hc.
    + apply Z.eqb_neq in Est. injection H as <-. simpl.
      repeat split; try discriminate; intros (resp' & [= -> _] & _); contradiction.
  - assert (r = busy) as -> by (destruct (st =? StatusOK); simpl in H; congruence).
    simpl. repeat split; try discriminate; intros (resp' & [=] & _).
Qed.

Lemma RedeemCode_success_and_fatal_witness :
  exists r, RedeemCode (coded 40014) = inl r /\ IsFatal r = true /\ Success r = false.
Proof.
  eexists. split; [reflexivity|].
  destruct (RedeemCode_success_and_fatal (coded 40014) _ eq_refl) as (_ & Hf & _).
  split; [|reflexivity]. apply Hf. eexists. split; [reflexivity|]. right. reflexivity.
Defined.

(** ** Captcha text: the normalisation loop *)

Section Normalisation.

Import Captcha.

Lemma normalize_closed (s : string) (norm : list ascii) :
  normalize s norm
  = norm ++ take (4 - length norm)
              (map toUpper (List.filter alnum (list_ascii_of_string s))).
Proof.
  revert norm. induction s as [|r rest IH]; intros norm; simpl.
  - rewrite take_nil, app_nil_r. reflexivity.
  - destruct (4 <=? Z.of_nat (length norm)) eqn:E.
    + apply Z.leb_le in E. replace (4 - length norm)%nat with 0%nat by lia.
      rewrite take_0, app_nil_r. reflexivity.
    + apply Z.leb_gt in E. fold (code r). fold (alnum r).
      destruct (alnum r) eqn:Ea.
      * rewrite IH, length_app. simpl. rewrite <- app_assoc. f_equal.
        replace (4 - length norm)%nat with (S (4 - (length norm + 1)))%nat by lia.
        reflexivity.
      * apply IH.
Qed.

Lemma captchaChar_toUpper (c : ascii) : alnum c = true -> captchaChar (toUpper c) = true.
Proof.
  unfold alnum, captchaChar, toUpper, isAlnum, upper, code.
  assert (Hc : 0 <= Z.of_N (N_of_ascii c) < 256).
  { pose proof (N_ascii_bounded c). lia. }
  set (n := Z.of_N (N_of_ascii c)) in *. intros H.
  assert (Hcase : (48 <= n <= 57) \/ (97 <= n <= 122) \/ (65 <= n <= 90)) by lia.
  assert (Hround : forall m, 0 <= m < 256 ->
            Z.of_N (N_of_ascii (ascii_of_N (Z.to_N m))) = m).
  { intros m Hm. rewrite N_ascii_embedding by lia. lia. }
  destruct ((97 <=? n) && (n <=? 122)) eqn:E.
  - rewrite Hround by lia. lia.
  - rewrite Hround by lia. lia.
Qed.

Lemma toUpper_fixes_captchaChar (c : ascii) : captchaChar c = true -> toUpper c = c.
Proof.
  unfold captchaChar, toUpper, upper, code. intros H.
  set (n := Z.of_N (N_of_ascii c)) in *.
  assert (E : (97 <=? n) && (n <=? 122) = false) by lia.
  rewrite E. unfold n. rewrite N2Z.id. apply ascii_N_embedding.
Qed.

Lemma captchaChar_alnum (c : ascii) : captchaChar c = true -> alnum c = true.
Proof. unfold captchaChar, alnum, isAlnum. lia. Qed.

Lemma normalize_chars (s : string) :
  Forall (fun c => captchaChar c = true) (normalize s []).
Proof.
  rewrite normalize_closed. simpl. apply Forall_take.
  apply Forall_forall. intros c Hin. apply list_elem_of_In in Hin.
  apply in_map_iff in Hin as (c0 & <- & Hin). apply filter_In in Hin as [_ Ha].
  apply captchaChar_toUpper. exact Ha.
Qed.

Lemma normalize_length (s : string) : (length (normalize s []) <= 4)%nat.
Proof. rewrite normalize_closed. simpl. rewrite length_take. lia. Qed.

Lemma filter_all {A : Type} (f : A -> bool) (l : list A) :
  Forall (fun x => f x = true) l -> List.filter f l = l.
Proof.
  induction 1 as [|x l Hx _ IH]; simpl; [reflexivity|]. rewrite Hx, IH. reflexivity.
Qed.

Lemma map_fixed {A : Type} (f : A -> A) (l : list A) :
  Forall (fun x => f x = x) l -> map f l = l.
Proof.
  induction 1 as [|x l Hx _ IH]; simpl; [reflexivity|]. rewrite Hx, IH. reflexivity.
Qed.

End Normalisation.

(** X9. [normalizeTo4] (the loop [tryOnceNoCooldown] and [RedeemSingle]
    run on the recognised text) keeps the first four letters or digits of
    the text, in upper case: the result has at most four characters, each
    a digit or an upper-case letter, and normalising it again changes
    nothing. *)
Theorem normalizeTo4_keeps_first_four (s : string) :
  list_ascii_of_string (Captcha.normalizeTo4 s)
    = take 4 (map Captcha.toUpper (List.filter Captcha.alnum (list_ascii_of_string s))) /\
  (length (list_ascii_of_string (Captcha.normalizeTo4 s)) <= 4)%nat /\
  Forall (fun c => Captcha.captchaChar c = true)
         (list_ascii_of_string (Captcha.normalizeTo4 s)) /\
  Captcha.normalizeTo4 (Captcha.normalizeTo4 s) = Captcha.normalizeTo4 s.
Proof.
  unfold Captcha.normalizeTo4. rewrite !list_ascii_of_string_of_list_ascii.
  split; [apply normalize_closed|]. split; [apply normalize_length|].
  split; [apply normalize_chars|].
  f_equal. rewrite (normalize_closed (string_of_list_ascii _)).
  rewrite list_ascii_of_string_of_list_ascii. simpl.
  pose proof (normalize_chars s) as Hc. pose proof (normalize_length s) as Hl.
  rewrite filter_all.
  - rewrite map_fixed.
    + apply take_ge. exact Hl.
    + eapply Forall_impl; [exact Hc|]. intros c. apply toUpper_fixes_captchaChar.
  - eapply Forall_impl; [exact Hc|]. intros c. apply captchaChar_alnum.
Qed.

(** X10. The captcha text an attempt records is empty (the attempt ended
    before the text was recognised) or is exactly four characters, each a
    digit or an upper-case letter; a successful attempt always has such a
    text. *)
Theorem attempt_captcha_is_well_formed (w : AttemptWorld) (fid giftCode : string) :
  let r := tryOnceNoCooldown w fid giftCode in
  (RedeemResult.CaptchaRecognized r = ""%string
   \/ Captcha.wellFormed (RedeemResult.CaptchaRecognized r)) /\
  (RedeemResult.Success r = true -> Captcha.wellFormed (RedeemResult.CaptchaRecognized r)).
Proof.
  unfold tryOnceNoCooldown.
  assert (Hwf : (Z.of_nat (length (normalize match ocr w with inl v => v | inr _ => "" end []))
                 =? 4) = true ->
                Captcha.wellFormed
                  (string_of_list_ascii
                     (normalize match ocr w with inl v => v | inr _ => "" end []))).
  { intros E. apply Z.eqb_eq in E. split.
    - rewrite list_ascii_of_string_of_list_ascii. lia.
    - rewrite list_ascii_of_string_of_list_ascii. apply normalize_chars. }
  repeat match goal with
         | |- context [match ?x with _ => _ end] => destruct x eqn:?
         end; simpl; (split; [auto|try discriminate]);
    try (right; apply Hwf; apply negb_false_iff; assumption);
    try (intros _; apply Hwf; apply negb_false_iff; assumption).
Qed.

(** ** The scheduler: pacing *)

Section Pacing.

Import Pacing.

Variable world : nat -> AttemptWorld.
Variable giftCode : string.

Hypothesis elapsed_nonneg : forall k, 0 <= elapsed (world k).

Lemma throttle_ge (s : loopState) : clock s <= throttle s.
Proof.
  unfold throttle. destruct (lastSwitchAt s) as [t|]; [|lia].
  destruct (clock s - t <? minSwitchDelay) eqn:E; [|lia].
  apply Z.ltb_lt in E. lia.
Qed.

(** Time does not go back. *)
Lemma pass_clock (s s' : loopState) :
  iteration world giftCode s = Continue s' -> clock s <= clock s'.
Proof.
  intros H. apply iteration_Continue in H as [(wait & Hw & -> & _)|(i & st & st' & r & Hatt)].
  - simpl. lia.
  - destruct Hatt as (_ & _ & _ & _ & Hc & _). rewrite Hc.
    pose proof (throttle_ge s). pose proof (elapsed_nonneg (length (trace s))). lia.
Qed.

(** When an attempt leaves its account pending, the account is ready
    again three seconds after the attempt, or sixty when the attempt used
    up a cooldown. *)
Lemma settle_nextReadyAt (now : Z) (r : RedeemResult.t) (tmp : BatchRedeemResult.t)
    (st st' : accountState) (results results' : list BatchRedeemResult.t)
    (pending pending' : Z) :
  settle now r tmp st results pending = (st', results', pending') ->
  finalized st = false -> finalized st' = false ->
  (nextReadyAt st' = now + 3 * Second \/ nextReadyAt st' = now + 60 * Second) /\
  (RedeemResult.ErrCode r = 40101 -> nextReadyAt st' = now + 60 * Second).
Proof.
  unfold settle, cooldown, finalizeWith, shortRetry, bumpAttempts. cbn.
  repeat match goal with
         | |- context [if ?b then _ else _] => destruct b eqn:?; cbn
         end; intros [= <- <- <-]; cbn; intros Hf Hf'; try discriminate;
    (split; [auto|intros Hc; try reflexivity; try lia]).
Qed.

Lemma heldUntil_pass (i : nat) (ready : Z) (s s' : loopState) :
  heldUntil i ready s -> iteration world giftCode s = Continue s' -> heldUntil i ready s'.
Proof.
  intros Hh Hit. pose proof (pass_clock _ _ Hit) as Hclk.
  apply iteration_Continue in Hit as [(wait & Hw & -> & _)|(j & st & st' & r & Hatt)].
  - intros st Hl. simpl in *. destruct (Hh st Hl); [auto|right; lia].
  - destruct Hatt as (Hl & _ & Hready & _ & _ & _ & Hst & _).
    intros sti Hli. rewrite Hst in Hli.
    destruct (decide (j = i)) as [->|Hne].
    + right. destruct (Hh st Hl) as [E|E]; lia.
    + rewrite list_lookup_insert_ne in Hli by exact Hne.
      destruct (Hh sti Hli); [auto|right; lia].
Qed.

Lemma heldUntil_passes (i : nat) (ready : Z) (m : nat) (s s' : loopState) :
  heldUntil i ready s -> passes world giftCode m s = Some s' ->
  heldUntil i ready s' /\ clock s <= clock s'.
Proof.
  revert s. induction m as [|m IH]; intros s Hh Hp; simpl in Hp.
  - injection Hp as <-. split; [exact Hh|lia].
  - destruct (pending s <=? 0); [discriminate|].
    destruct (iteration world giftCode s) as [| |s1] eqn:Hit; try discriminate.
    destruct (IH s1 (heldUntil_pass _ _ _ _ Hh Hit) Hp) as [H1 H2].
    split; [exact H1|]. pose proof (pass_clock _ _ Hit). lia.
Qed.

Lemma retry_delays (s1 s1' s2 s2' : loopState) (i : nat) (r1 r2 : RedeemResult.t)
    (st1' : accountState) (m : nat) :
  iteration world giftCode s1 = Continue s1' -> trace s1' = trace s1 ++ [(i, r1)] ->
  states s1' !! i = Some st1' -> finalized st1' = false ->
  passes world giftCode m s1' = Some s2 ->
  iteration world giftCode s2 = Continue s2' -> trace s2' = trace s2 ++ [(i, r2)] ->
  clock s1' + 3 * Second <= throttle s2 /\
  (RedeemResult.ErrCode r1 = 40101 -> clock s1' + 60 * Second <= throttle s2).
Proof.
  intros Hit1 Htr1 Hl1 Hfin1 Hp Hit2 Htr2.
  destruct (pass_attempt _ _ _ _ _ _ Hit1 Htr1) as (st1 & st1x & Hatt1 & Hl1x).
  rewrite Hl1 in Hl1x. injection Hl1x as <-.
  destruct Hatt1 as (_ & Hf1 & _ & _ & _ & Hset1 & _).
  destruct (settle_nextReadyAt _ _ _ _ _ _ _ _ _ Hset1 Hf1 Hfin1) as [Hany Hbusy].
  assert (Hh : heldUntil i (nextReadyAt st1') s1').
  { intros st Hl. rewrite Hl1 in Hl. injection Hl as <-. left. reflexivity. }
  destruct (heldUntil_passes _ _ _ _ _ Hh Hp) as [Hh2 Hclk].
  destruct (pass_attempt _ _ _ _ _ _ Hit2 Htr2) as (st2 & st2' & Hatt2 & _).
  destruct Hatt2 as (Hl2 & _ & Hready2 & _).
  pose proof (throttle_ge s2) as Hthr.
  assert (Hge : nextReadyAt st1' <= throttle s2) by (destruct (Hh2 st2 Hl2); lia).
  split.
  - unfold Second, Millisecond in *. destruct Hany; lia.
  - intros Hc. rewrite (Hbusy Hc) in Hge. exact Hge.
Qed.

End Pacing.

(** X11. In a batch, an account that an attempt leaves pending is not
    attempted again before its delay has passed: every later attempt on
    it starts at least 3 seconds after that attempt ended, and at least 60
    seconds after when that attempt was answered with 40101. *)
Theorem retry_delays_are_respected (world : nat -> AttemptWorld) (giftCode : string)
    (s1 s1' s2 s2' : loopState) (i : nat) (r1 r2 : RedeemResult.t)
    (st1' : accountState) (m : nat) :
  (forall k, 0 <= elapsed (world k)) ->
  iteration world giftCode s1 = Continue s1' -> trace s1' = trace s1 ++ [(i, r1)] ->
  states s1' !! i = Some st1' -> finalized st1' = false ->
  passes world giftCode m s1' = Some s2 ->
  iteration world giftCode s2 = Continue s2' -> trace s2' = trace s2 ++ [(i, r2)] ->
  clock s1' + 3 * Second <= throttle s2 /\
  (RedeemResult.ErrCode r1 = 40101 -> clock s1' + 60 * Second <= throttle s2).
Proof. intros H. exact (retry_delays world giftCode H s1 s1' s2 s2' i r1 r2 st1' m). Qed.

Lemma retry_delays_are_respected_witness :
  exists s1' s2 s2' r1 r2 st1',
    iteration alwaysBusy "ABC123" (initial [alice] 0) = Continue s1' /\
    trace s1' = trace (initial [alice] 0) ++ [(0%nat, r1)] /\
    states s1' !! 0%nat = Some st1' /\ finalized st1' = false /\
    passes alwaysBusy "ABC123" 1 s1' = Some s2 /\
    iteration alwaysBusy "ABC123" s2 = Continue s2' /\
    trace s2' = trace s2 ++ [(0%nat, r2)] /\
    RedeemResult.ErrCode r1 = 40101 /\
    clock s1' + 60 * Second <= throttle s2.
Proof.
  do 6 eexists.
  assert (He : forall k, 0 <= elapsed (alwaysBusy k)) by (intros k; vm_compute; discriminate).
  split; [vm_compute; reflexivity|].
  split; [vm_compute; reflexivity|].
  split; [vm_compute; reflexivity|].
  split; [vm_compute; reflexivity|].
  split; [vm_compute; reflexivity|].
  split; [vm_compute; reflexivity|].
  split; [vm_compute; reflexivity|].
  split; [vm_compute; reflexivity|].
  refine (proj2 (retry_delays_are_respected alwaysBusy "ABC123"
                   (initial [alice] 0) _ _ _ 0%nat _ _ _ 1%nat He _ _ _ _ _ _ _) _);
    vm_compute; reflexivity.
Defined.

(** ** The scheduler: how often an account is attempted *)

Section Attempts.

Variable world : nat -> AttemptWorld.
Variable giftCode : string.

Hypothesis never_40100 :
  forall k fid, RedeemResult.ErrCode (tryOnceNoCooldown (world k) fid giftCode) <> 40100.

(** Without 40100, every outcome that leaves the account pending moves
    the pair of counters forward. *)
Lemma pendingAfter_length (h : list RedeemResult.t) (c a : Z) :
  pendingAfter h c a ->
  (forall r, In r h -> RedeemResult.ErrCode r <> 40100) ->
  0 <= c < 3 /\ 0 <= a < 3 /\ Z.of_nat (length h) <= 3 * c + a.
Proof.
  induction 1 as [|h c a r c' a' _ IH Hv]; intros Hno; [simpl; lia|].
  destruct IH as (Hc & Ha & Hlen).
  { intros r0 Hin. apply Hno. apply in_or_app. left. exact Hin. }
  assert (Hr : RedeemResult.ErrCode r <> 40100)
    by (apply Hno; apply in_or_app; right; left; reflexivity).
  rewrite length_app. simpl.
  unfold verdict in Hv.
  assert (Hic : incr c = c + 1) by (apply incr_small; lia).
  assert (Hia : incr a = a + 1) by (apply incr_small; lia).
  rewrite Hic, Hia in Hv.
  repeat match type of Hv with
         | context [if ?b then _ else _] => destruct b eqn:?
         end; try discriminate; injection Hv as <- <-; lia.
Qed.

Lemma attempts_bounded (accounts : list Account.t) (s : loopState) (i : nat) :
  Inv world giftCode accounts s ->
  (length (outcomesOf i (trace s)) <= 9)%nat.
Proof.
  intros HI.
  assert (Hno : forall r, In r (outcomesOf i (trace s)) -> RedeemResult.ErrCode r <> 40100).
  { intros r Hin. apply outcomesOf_In in Hin as (k & Hk).
    apply (inv_trace _ _ _ _ HI) in Hk as (st & _ & ->). apply never_40100. }
  destruct (states s !! i) as [st|] eqn:Hl.
  - pose proof (inv_history _ _ _ _ HI i st Hl) as Hh. unfold history in Hh.
    destruct (finalized st).
    + destruct Hh as (h0 & r & c & a & Heq & Hp & _ & _).
      rewrite Heq in *. rewrite length_app. simpl.
      apply pendingAfter_length in Hp as (Hc & Ha & Hlen); [lia|].
      intros r0 Hin. apply Hno. apply in_or_app. left. exact Hin.
    + apply pendingAfter_length in Hh as (Hc & Ha & Hlen); [lia|exact Hno].
  - destruct (outcomesOf i (trace s)) as [|r rest] eqn:E; [simpl; lia|].
    exfalso. assert (Hin : In r (outcomesOf i (trace s))) by (rewrite E; left; reflexivity).
    apply outcomesOf_In in Hin as (k & Hk).
    apply (inv_trace _ _ _ _ HI) in Hk as (st & Hst & _). congruence.
Qed.

End Attempts.

(** X12. When no attempt is answered with 40100, a batch attempts each
    account at most nine times. *)
Theorem at_most_nine_attempts_per_account (world : nat -> AttemptWorld)
    (giftCode : string) (accounts : list Account.t) (now0 : Z) (n : nat)
    (s : loopState) (i : nat) :
  (forall k fid, RedeemResult.ErrCode (tryOnceNoCooldown (world k) fid giftCode) <> 40100) ->
  passes world giftCode n (initial accounts now0) = Some s ->
  (length (outcomesOf i (trace s)) <= 9)%nat.
Proof.
  intros Hno Hp. apply (attempts_bounded world giftCode Hno accounts).
  eapply Inv_passes; [apply Inv_initial|exact Hp].
Qed.

(** The bound is reached: nine wrong captchas in a row. *)
Lemma at_most_nine_attempts_per_account_witness :
  exists s,
    passes alwaysWrong "ABC123" 17 (initial [alice] 0) = Some s /\
    length (outcomesOf 0 (trace s)) = 9%nat /\
    (length (outcomesOf 0 (trace s)) <= 9)%nat.
Proof.
  eexists. split; [vm_compute; reflexivity|]. split; [vm_compute; reflexivity|].
  apply (at_most_nine_attempts_per_account alwaysWrong "ABC123" [alice] 0 17%nat).
  - intros k fid. vm_compute. discriminate.
  - vm_compute. reflexivity.
Defined.

(** ** The scheduler: the results *)

Section Results.

Import Pacing.

Variable world : nat -> AttemptWorld.
Variable giftCode : string.

Lemma consistent_pass (s s' : loopState) :
  Forall consistent (results s) -> iteration world giftCode s = Continue s' ->
  Forall consistent (results s').
Proof.
  intros Hall Hit.
  apply iteration_Continue in Hit as [(wait & _ & -> & _)|(i & st & st' & r & Hatt)];
    [exact Hall|].
  destruct Hatt as (_ & _ & _ & Hr & _ & Hset & _).
  apply settle_spec in Hset as [_ Hset].
  destruct (verdict (cooldowns st) (attemptsInCycle st) r) as [[c a]|].
  - destruct Hset as (_ & _ & _ & -> & _). exact Hall.
  - destruct Hset as (_ & _ & ->). apply Forall_app. split; [exact Hall|].
    constructor; [|constructor].
    destruct (RedeemResult.Success r) eqn:Hs.
    + left. simpl. rewrite Hs. repeat split.
      rewrite Hr in Hs |- *. apply tryOnce_success. exact Hs.
    + right. simpl. rewrite Hs. split; reflexivity.
Qed.

Lemma consistent_passes (n : nat) (s s' : loopState) :
  Forall consistent (results s) -> passes world giftCode n s = Some s' ->
  Forall consistent (results s').
Proof.
  revert s. induction n as [|n IH]; simpl; intros s Hall.
  - intros [= <-]. exact Hall.
  - destruct (pending s <=? 0); [discriminate|].
    destruct (iteration world giftCode s) as [| |s1] eqn:Hit; try discriminate.
    apply IH. eapply consistent_pass; eauto.
Qed.

End Results.

(** X13. Every result [RedeemBatch] returns is consistent: a result with
    [Success] set has the result text [success], no error text and the
    code 20000, and every other result has the result text [failed]. *)
Theorem batch_results_are_consistent (world : nat -> AttemptWorld) (giftCode : string)
    (accounts : list Account.t) (now0 : Z) (fuel : nat)
    (results : list BatchRedeemResult.t) :
  RedeemBatch world giftCode fuel accounts now0 = Some (Returned results) ->
  Forall Pacing.consistent results.
Proof.
  unfold RedeemBatch. intros H.
  destruct (loop world giftCode fuel (initial accounts now0)) as [[o sf]|] eqn:Hloop;
    [|discriminate].
  injection H as ->.
  apply loop_passes in Hloop as (Ho & (n & _ & Hpass) & _).
  injection Ho as ->.
  eapply consistent_passes; [|exact Hpass]. constructor.
Qed.

Lemma batch_results_are_consistent_witness :
  exists results,
    RedeemBatch mixed "ABC123" 12 [alice; bob] 0 = Some (Returned results) /\
    Forall Pacing.consistent results.
Proof.
  eexists. split; [vm_compute; reflexivity|].
  apply (batch_results_are_consistent mixed "ABC123" [alice; bob] 0 12%nat).
  vm_compute. reflexivity.
Defined.

(** ** The key manager: recognition over the keys *)

Section Recognition.

Import OCR Dispatch.

Variable recognize : nat -> weightedKey -> Answer.
Variable cb : Callbacks.

Lemma map_insert_same {A B : Type} (f : A -> B) (l : list A) (i : nat) (x y : A) :
  l !! i = Some x -> f y = f x -> map f (<[i := y]> l) = map f l.
Proof.
  intros Hl Hf. destruct (insert_split l i x Hl) as (l1 & l2 & Hs & Hins & _).
  rewrite (Hins y). rewrite Hs. rewrite !map_app. simpl. rewrite Hf. reflexivity.
Qed.

(** [pick] on a manager with keys chooses one of them, and changes
    accumulators only. *)
Lemma pick_keeps_keys (m : OCRKeyManager) :
  keys m <> [] ->
  exists chosen m',
    pick m = (Some chosen, m') /\
    map key (keys m') = map key (keys m) /\
    map recognizer (keys m') = map recognizer (keys m) /\
    total m' = total m /\
    In (key chosen) (map key (keys m)).
Proof.
  intros Hne. destruct (pick_spec m Hne) as (b & wk & Hl & _ & Hp). cbv zeta in Hp.
  eexists. eexists. split; [exact Hp|]. simpl.
  split; [|split; [|split; [reflexivity|]]].
  - rewrite (map_insert_same key _ b wk _ Hl) by reflexivity. apply map_key_bump.
  - rewrite (map_insert_same recognizer _ b wk _ Hl) by reflexivity.
    rewrite map_map. reflexivity.
  - rewrite <- (map_key_bump (keys m)). apply in_map.
    apply list_elem_of_In. apply list_elem_of_lookup. eauto.
Qed.

Lemma asked_app (l1 l2 : list Event) : asked (l1 ++ l2) = asked l1 ++ asked l2.
Proof.
  induction l1 as [|[id a|id ok e|id c msg] l1 IH]; simpl; [reflexivity| |exact IH|exact IH].
  rewrite IH. reflexivity.
Qed.

Lemma usages_app (l1 l2 : list Event) : usages (l1 ++ l2) = usages l1 ++ usages l2.
Proof.
  induction l1 as [|[id a|id ok e|id c msg] l1 IH]; simpl; [reflexivity|exact IH| |exact IH].
  rewrite IH. reflexivity.
Qed.

Lemma asked_usage (wk : weightedKey) (ok : bool) (e : option string) (m : OCRKeyManager) :
  asked (snd (usage cb wk ok e m)) = [].
Proof. unfold usage. destruct (onUsage cb); reflexivity. Qed.

Lemma asked_exhausted (wk : weightedKey) (e : option RecognizeError) (m : OCRKeyManager) :
  asked (snd (exhausted cb wk e m)) = [].
Proof.
  unfold exhausted. destruct (reportedCode e) as [[c msg]|]; [|reflexivity].
  destruct (onKeyExhausted cb); reflexivity.
Qed.

Lemma usages_exhausted (wk : weightedKey) (e : option RecognizeError) (m : OCRKeyManager) :
  usages (snd (exhausted cb wk e m)) = [].
Proof.
  unfold exhausted. destruct (reportedCode e) as [[c msg]|]; [|reflexivity].
  destruct (onKeyExhausted cb); reflexivity.
Qed.

Lemma usages_usage (wk : weightedKey) (ok : bool) (e : option string) (m : OCRKeyManager)
    (f : Z -> bool -> option string -> OCRKeyManager -> OCRKeyManager) :
  onUsage cb = Some f -> usages (snd (usage cb wk ok e m)) = [(ID (key wk), ok)].
Proof. unfold usage. intros ->. reflexivity. Qed.

(** A quiet callback leaves the manager as it is. *)
Lemma usage_quiet (wk : weightedKey) (ok : bool) (e : option string) (m : OCRKeyManager) :
  quietUsage cb -> fst (usage cb wk ok e m) = m.
Proof.
  intros Hq. unfold usage. destruct (onUsage cb) as [f|] eqn:E; [|reflexivity].
  simpl. apply (Hq f E).
Qed.

Lemma exhausted_quiet (wk : weightedKey) (e : RecognizeError) (m : OCRKeyManager) :
  fires cb e = false \/ quietExhausted cb -> fst (exhausted cb wk (Some e) m) = m.
Proof.
  unfold fires, exhausted.
  destruct (reportedCode (Some e)) as [[c msg]|]; [|reflexivity].
  destruct (onKeyExhausted cb) as [f|] eqn:E; [|reflexivity].
  intros [H|Hq]; [discriminate|]. simpl. apply (Hq f E).
Qed.

Lemma ids_of_keys (ks ks' : list weightedKey) :
  map key ks' = map key ks -> Rotation.ids ks' = Rotation.ids ks.
Proof.
  intros H. unfold Rotation.ids.
  change (fun wk : weightedKey => ID (key wk)) with (fun wk => ID (key wk)).
  rewrite <- (map_map key ID ks'), <- (map_map key ID ks), H. reflexivity.
Qed.

(** The loop, whatever the callbacks do: at most [left] calls, the first
    usable answer is returned, and without one the error is that of the
    last call. *)
Lemma attempt_spec (left : nat) :
  forall (n : nat) (m : OCRKeyManager) (lastErr : option RecognizeError)
         (log0 : list Event) (res : string + RecognizeError) (m' : OCRKeyManager)
         (log : list Event),
    attempt recognize cb left n m lastErr log0 = (res, m', log) ->
    exists new,
      log = log0 ++ new /\
      (length (asked new) <= left)%nat /\
      (left <> O -> keys m <> [] -> asked new <> []) /\
      (forall f, onUsage cb = Some f ->
       usages new = map (fun p => (fst p, usableAnswer (snd p))) (asked new)) /\
      match res with
      | inl t =>
          exists pre id a,
            asked new = pre ++ [(id, a)] /\ usableAnswer a = true /\ text a = t /\
            Forall (fun p => usableAnswer (snd p) = false) pre
      | inr e =>
          Forall (fun p => usableAnswer (snd p) = false) (asked new) /\
          ((asked new = [] /\ e = orAllFailed lastErr)
           \/ exists pre id a, asked new = pre ++ [(id, a)] /\ e = orAllFailed (err a))
      end.
Proof.
  induction left as [|left IH]; intros n m lastErr log0 res m' log; simpl.
  - intros [= <- <- <-]. exists []. rewrite app_nil_r. simpl.
    split; [reflexivity|]. split; [lia|]. split; [intros H; contradiction|].
    split; [reflexivity|]. split; [constructor|]. left. split; reflexivity.
  - destruct (pick m) as [[wk|] m1] eqn:Hp.
    2:{ intros [= <- <- <-]. exists []. rewrite app_nil_r. simpl.
        split; [reflexivity|]. split; [lia|]. split.
        { intros _ Hne. destruct (pick_keeps_keys m Hne) as (c & m2 & Hp2 & _).
          rewrite Hp in Hp2. discriminate. }
        split; [reflexivity|]. split; [constructor|]. left. split; reflexivity. }
    set (a := recognize n wk).
    destruct (err a) as [e0|] eqn:Herr.
    + pose proof (asked_usage wk false (Some (ErrorText e0)) m1) as Hau.
      pose proof (usages_usage wk false (Some (ErrorText e0)) m1) as Huu.
      destruct (usage cb wk false (Some (ErrorText e0)) m1) as [m2 used].
      pose proof (asked_exhausted wk (Some e0) m2) as Hax.
      pose proof (usages_exhausted wk (Some e0) m2) as Hux.
      destruct (exhausted cb wk (Some e0) m2) as [m3 told]. simpl in Hau, Huu, Hax, Hux.
      intros H. apply IH in H as (new & -> & Hlen & _ & Hus & Hres).
      exists ([Asked (ID (key wk)) a] ++ (used ++ told) ++ new).
      assert (Hasked : asked ([Asked (ID (key wk)) a] ++ (used ++ told) ++ new)
                       = (ID (key wk), a) :: asked new).
      { rewrite !asked_app, Hau, Hax. reflexivity. }
      assert (Hbad : usableAnswer a = false) by (unfold usableAnswer; rewrite Herr; reflexivity).
      rewrite Hasked. split; [rewrite <- !app_assoc; reflexivity|].
      split; [simpl; lia|]. split; [discriminate|]. split.
      { intros f Hon. rewrite !usages_app, (Huu f Hon), Hux, (Hus f Hon).
        simpl. rewrite Hbad. reflexivity. }
      destruct res as [t|e].
      * destruct Hres as (pre & id & a1 & Heq & Hok & Ht & Hpre).
        exists ((ID (key wk), a) :: pre), id, a1.
        rewrite Heq. repeat split; auto.
      * destruct Hres as (Hall & Hlast).
        split; [constructor; auto|]. right.
        destruct Hlast as [(Hnil & ->)|(pre & id & a1 & Heq & ->)].
        -- exists [], (ID (key wk)), a. rewrite Hnil, Herr. split; reflexivity.
        -- exists ((ID (key wk), a) :: pre), id, a1. rewrite Heq. split; reflexivity.
    + destruct (negb (String.eqb (text a) "")) eqn:Htext.
      * pose proof (asked_usage wk true None m1) as Hau.
        pose proof (usages_usage wk true None m1) as Huu.
        destruct (usage cb wk true None m1) as [m2 used]. simpl in Hau, Huu.
        intros [= <- <- <-].
        exists ([Asked (ID (key wk)) a] ++ used).
        assert (Hasked : asked ([Asked (ID (key wk)) a] ++ used) = [(ID (key wk), a)]).
        { rewrite asked_app, Hau. reflexivity. }
        assert (Hgood : usableAnswer a = true)
          by (unfold usableAnswer; rewrite Herr; exact Htext).
        rewrite Hasked. split; [rewrite <- app_assoc; reflexivity|].
        split; [simpl; lia|]. split; [discriminate|]. split.
        { intros f Hon. rewrite usages_app, (Huu f Hon). simpl.
          rewrite Hgood. reflexivity. }
        exists [], (ID (key wk)), a. repeat split; auto.
      * pose proof (asked_usage wk false None m1) as Hau.
        pose proof (usages_usage wk false None m1) as Huu.
        destruct (usage cb wk false None m1) as [m2 used]. simpl in Hau, Huu.
        intros H. apply IH in H as (new & -> & Hlen & _ & Hus & Hres).
        exists ([Asked (ID (key wk)) a] ++ used ++ new).
        assert (Hasked : asked ([Asked (ID (key wk)) a] ++ used ++ new)
                         = (ID (key wk), a) :: asked new).
        { rewrite !asked_app, Hau. reflexivity. }
        assert (Hbad : usableAnswer a = false)
          by (unfold usableAnswer; rewrite Herr; exact Htext).
        rewrite Hasked. split; [rewrite <- !app_assoc; reflexivity|].
        split; [simpl; lia|]. split; [discriminate|]. split.
        { intros f Hon. rewrite !usages_app, (Huu f Hon), (Hus f Hon).
          simpl. rewrite Hbad. reflexivity. }
        destruct res as [t|e].
        -- destruct Hres as (pre & id & a1 & Heq & Hok & Ht & Hpre).
           exists ((ID (key wk), a) :: pre), id, a1.
           rewrite Heq. repeat split; auto.
        -- destruct Hres as (Hall & Hlast).
           split; [constructor; auto|]. right.
           destruct Hlast as [(Hnil & ->)|(pre & id & a1 & Heq & ->)].
           ++ exists [], (ID (key wk)), a. rewrite Hnil, Herr. split; reflexivity.
           ++ exists ((ID (key wk), a) :: pre), id, a1. rewrite Heq. split; reflexivity.
Qed.

(** The loop when the callbacks leave the manager as it is: the keys
    stay, every call goes to one of them, and without a usable answer
    the loop makes all its calls. *)
Lemma attempt_quiet (left : nat) :
  quietUsage cb -> quietExhausted cb ->
  forall (n : nat) (m : OCRKeyManager) (lastErr : option RecognizeError)
         (log0 : list Event) (res : string + RecognizeError) (m' : OCRKeyManager)
         (log : list Event),
    keys m <> [] ->
    attempt recognize cb left n m lastErr log0 = (res, m', log) ->
    exists new,
      log = log0 ++ new /\
      map key (keys m') = map key (keys m) /\
      Forall (fun p => In (fst p) (Rotation.ids (keys m))) (asked new) /\
      (forall e, res = inr e -> length (asked new) = left).
Proof.
  intros Hqu Hqx.
  induction left as [|left IH]; intros n m lastErr log0 res m' log Hne; simpl.
  - intros [= <- <- <-]. exists []. rewrite app_nil_r. simpl.
    repeat split; auto.
  - destruct (pick_keeps_keys m Hne) as (wk & m1 & Hp & Hk & _ & _ & Hin).
    rewrite Hp.
    assert (Hne1 : keys m1 <> []).
    { intros E. rewrite E in Hk. simpl in Hk. destruct (keys m); [contradiction|discriminate]. }
    assert (Hid : In (ID (key wk)) (Rotation.ids (keys m))).
    { unfold Rotation.ids. rewrite <- (map_map key ID). apply in_map. exact Hin. }
    set (a := recognize n wk).
    destruct (err a) as [e0|] eqn:Herr.
    + pose proof (asked_usage wk false (Some (ErrorText e0)) m1) as Hau.
      pose proof (usage_quiet wk false (Some (ErrorText e0)) m1 Hqu) as Hmu.
      destruct (usage cb wk false (Some (ErrorText e0)) m1) as [m2 used].
      simpl in Hau, Hmu. subst m2.
      pose proof (asked_exhausted wk (Some e0) m1) as Hax.
      pose proof (exhausted_quiet wk e0 m1 (or_intror Hqx)) as Hmx.
      destruct (exhausted cb wk (Some e0) m1) as [m3 told]. simpl in Hax, Hmx. subst m3.
      intros H. apply IH in H as (new & -> & Hk' & Hids & Hlen); [|exact Hne1].
      exists ([Asked (ID (key wk)) a] ++ (used ++ told) ++ new).
      assert (Hasked : asked ([Asked (ID (key wk)) a] ++ (used ++ told) ++ new)
                       = (ID (key wk), a) :: asked new).
      { rewrite !asked_app, Hau, Hax. reflexivity. }
      rewrite Hasked. split; [rewrite <- !app_assoc; reflexivity|].
      split; [congruence|]. split.
      { constructor; [exact Hid|]. rewrite <- (ids_of_keys _ _ Hk). exact Hids. }
      intros e He. simpl. rewrite (Hlen e He). reflexivity.
    + destruct (negb (String.eqb (text a) "")) eqn:Htext.
      * pose proof (asked_usage wk true None m1) as Hau.
        pose proof (usage_quiet wk true None m1 Hqu) as Hmu.
        destruct (usage cb wk true None m1) as [m2 used]. simpl in Hau, Hmu. subst m2.
        intros [= <- <- <-].
        exists ([Asked (ID (key wk)) a] ++ used).
        assert (Hasked : asked ([Asked (ID (key wk)) a] ++ used) = [(ID (key wk), a)]).
        { rewrite asked_app, Hau. reflexivity. }
        rewrite Hasked. split; [rewrite <- app_assoc; reflexivity|].
        split; [exact Hk|]. split; [constructor; [exact Hid|constructor]|].
        intros e He. discriminate.
      * pose proof (asked_usage wk false None m1) as Hau.
        pose proof (usage_quiet wk false None m1 Hqu) as Hmu.
        destruct (usage cb wk false None m1) as [m2 used]. simpl in Hau, Hmu. subst m2.
        intros H. apply IH in H as (new & -> & Hk' & Hids & Hlen); [|exact Hne1].
        exists ([Asked (ID (key wk)) a] ++ used ++ new).
        assert (Hasked : asked ([Asked (ID (key wk)) a] ++ used ++ new)
                         = (ID (key wk), a) :: asked new).
        { rewrite !asked_app, Hau. reflexivity. }
        rewrite Hasked. split; [rewrite <- !app_assoc; reflexivity|].
        split; [congruence|]. split.
        { constructor; [exact Hid|]. rewrite <- (ids_of_keys _ _ Hk). exact Hids. }
        intros e He. simpl. rewrite (Hlen e He). reflexivity.
Qed.

End Recognition.

(** X14. [RecognizeCaptcha] of the key manager asks recognizers at most
    as many times as the manager has keys when the call starts, and
    returns the first answer that has a text and no error.  When no call
    gives such an answer it returns an error: that of the last call, or
    the fixed [all ocr keys failed] when the last call returned an empty
    text without error; with no key it returns [no usable OCR keys]
    without asking.  When the usage callback is set it is called once for
    each call, with the success of that call.  The callbacks run inside
    the loop and may load other keys into the manager; when they leave
    the manager as it is, the keys of the manager stay the same, every
    call goes to one of them, and a call that fails has asked as many
    times as there are keys. *)
Theorem RecognizeCaptcha_returns_first_usable_answer
    (recognize : nat -> OCR.weightedKey -> Dispatch.Answer) (cb : Dispatch.Callbacks)
    (m m' : OCR.OCRKeyManager) (res : string + Dispatch.RecognizeError)
    (log : list Dispatch.Event) :
  Dispatch.RecognizeCaptcha recognize cb m = (res, m', log) ->
  (length (Dispatch.asked log) <= length (OCR.keys m))%nat /\
  (forall f, Dispatch.onUsage cb = Some f ->
   Dispatch.usages log
   = map (fun p => (fst p, Dispatch.usableAnswer (snd p))) (Dispatch.asked log)) /\
  match res with
  | inl t =>
      exists pre id a,
        Dispatch.asked log = pre ++ [(id, a)] /\
        Dispatch.usableAnswer a = true /\ Dispatch.text a = t /\
        Forall (fun p => Dispatch.usableAnswer (snd p) = false) pre
  | inr e =>
      Forall (fun p => Dispatch.usableAnswer (snd p) = false) (Dispatch.asked log) /\
      (OCR.keys m = [] ->
       e = Dispatch.OtherError "no usable OCR keys" /\ log = []) /\
      (OCR.keys m <> [] ->
       exists pre id a,
         Dispatch.asked log = pre ++ [(id, a)] /\
         e = Dispatch.orAllFailed (Dispatch.err a))
  end /\
  (Dispatch.quietUsage cb -> Dispatch.quietExhausted cb ->
   map OCR.key (OCR.keys m') = map OCR.key (OCR.keys m) /\
   Forall (fun p => In (fst p) (Rotation.ids (OCR.keys m))) (Dispatch.asked log) /\
   (forall e, res = inr e -> OCR.keys m <> [] ->
      length (Dispatch.asked log) = length (OCR.keys m))).
Proof.
  unfold Dispatch.RecognizeCaptcha.
  destruct (OCR.keys m) as [|k0 ks] eqn:Hk.
  - simpl. intros [= <- <- <-]. simpl. rewrite Hk.
    split; [lia|]. split; [reflexivity|]. split.
    + split; [constructor|]. split; [split; reflexivity|]. intros H. contradiction.
    + intros _ _. split; [reflexivity|]. split; [constructor|].
      intros e _ H. contradiction.
  - change (length (k0 :: ks) =? 0)%nat with false. cbv iota. intros H.
    assert (Hne : OCR.keys m <> []) by (rewrite Hk; discriminate).
    pose proof H as Hq.
    apply attempt_spec in H as (new & -> & Hlen & Hsome & Hus & Hres).
    simpl app in *.
    split; [exact Hlen|]. split; [exact Hus|]. split.
    + destruct res as [t|e]; [exact Hres|].
      destruct Hres as (Hall & Hlast).
      split; [exact Hall|]. split; [intros E; discriminate|]. intros _.
      destruct Hlast as [(Hnil & _)|Hl]; [|exact Hl].
      exfalso. apply Hsome; [discriminate|exact Hne|exact Hnil].
    + intros Hqu Hqx.
      apply (attempt_quiet recognize cb _ Hqu Hqx) in Hq as (new' & Heq & Hk' & Hids & Hl);
        [|exact Hne].
      simpl in Heq. subst new'. rewrite Hk in Hk', Hids.
      split; [exact Hk'|]. split; [exact Hids|]. intros e He _. exact (Hl e He).
Qed.

(** ** The key manager: the rotation of [pick] *)

Section Sums.

Import Rotation.

Lemma sumZ_cons (x : Z) (l : list Z) : sumZ (x :: l) = x + sumZ l.
Proof. reflexivity. Qed.

Lemma sumZ_app (l1 l2 : list Z) : sumZ (l1 ++ l2) = sumZ l1 + sumZ l2.
Proof. induction l1 as [|x l1 IH]; simpl; [reflexivity|]. rewrite IH. lia. Qed.

Lemma sumZ_lower (lo : Z) (l : list Z) :
  Forall (fun x => lo <= x) l -> lo * Z.of_nat (length l) <= sumZ l.
Proof. induction 1 as [|x l Hx _ IH]; simpl length; simpl sumZ; [lia|]. nia. Qed.

Lemma sumZ_upper (hi : Z) (l : list Z) :
  Forall (fun x => x <= hi) l -> sumZ l <= hi * Z.of_nat (length l).
Proof. induction 1 as [|x l Hx _ IH]; simpl length; simpl sumZ; [lia|]. nia. Qed.

Lemma sumZ_insert (l : list Z) (b : nat) (x y : Z) :
  l !! b = Some x -> sumZ (<[b := y]> l) = sumZ l - x + y.
Proof.
  intros Hl. destruct (insert_split l b x Hl) as (l1 & l2 & Hs & Hins & _).
  rewrite (Hins y), Hs, !sumZ_app. simpl. lia.
Qed.

Lemma sumZ_zero_all (l : list Z) :
  Forall (fun x => 0 <= x) l -> sumZ l = 0 -> Forall (fun x => x = 0) l.
Proof.
  induction 1 as [|x l Hx Hl IH]; simpl; intros Hs; [constructor|].
  pose proof (sumZ_lower 0 l Hl) as Hlo.
  constructor; [lia|]. apply IH. lia.
Qed.

(** A member of a list of sum zero whose members are above [- W]. *)
Lemma sumZ_member_upper (W : Z) (l : list Z) (j : nat) (x : Z) :
  0 < W -> sumZ l = 0 -> Forall (fun y => - W < y) l -> l !! j = Some x ->
  x <= (Z.of_nat (length l) - 1) * W.
Proof.
  intros HW Hs Hall Hl. destruct (insert_split l j x Hl) as (l1 & l2 & Heq & _ & _).
  rewrite Heq in Hs, Hall |- *. rewrite sumZ_app in Hs. simpl in Hs.
  apply Forall_app in Hall as [H1 H2]. apply Forall_cons in H2 as [_ H2].
  assert (L1 : (- W) * Z.of_nat (length l1) <= sumZ l1).
  { apply sumZ_lower. eapply Forall_impl; [exact H1|]. intros; simpl in *; lia. }
  assert (L2 : (- W) * Z.of_nat (length l2) <= sumZ l2).
  { apply sumZ_lower. eapply Forall_impl; [exact H2|]. intros; simpl in *; lia. }
  rewrite length_app. simpl length. nia.
Qed.

Lemma sumZ_member_le (l : list Z) (j : nat) (x : Z) :
  Forall (fun y => 0 < y) l -> l !! j = Some x -> x <= sumZ l.
Proof.
  intros Hall Hl. destruct (insert_split l j x Hl) as (l1 & l2 & Heq & _ & _).
  rewrite Heq in Hall |- *. rewrite sumZ_app. simpl.
  apply Forall_app in Hall as [H1 H2]. apply Forall_cons in H2 as [_ H2].
  assert (L1 : 0 * Z.of_nat (length l1) <= sumZ l1).
  { apply sumZ_lower. eapply Forall_impl; [exact H1|]. intros; simpl in *; lia. }
  assert (L2 : 0 * Z.of_nat (length l2) <= sumZ l2).
  { apply sumZ_lower. eapply Forall_impl; [exact H2|]. intros; simpl in *; lia. }
  lia.
Qed.

Lemma lookup_map_fwd {A B : Type} (f : A -> B) (l : list A) (i : nat) (x : A) :
  l !! i = Some x -> map f l !! i = Some (f x).
Proof.
  revert i. induction l as [|y l IH]; intros [|i]; simpl; try discriminate.
  - intros [= ->]. reflexivity.
  - apply IH.
Qed.

Lemma map_insert {A B : Type} (f : A -> B) (l : list A) (i : nat) (y : A) :
  map f (<[i := y]> l) = <[i := f y]> (map f l).
Proof.
  revert i. induction l as [|x l IH]; intros [|i]; simpl; try reflexivity.
  rewrite IH. reflexivity.
Qed.

Lemma Forall_lookup_of {A : Type} (P : A -> Prop) (l : list A) :
  (forall j x, l !! j = Some x -> P x) -> Forall P l.
Proof.
  intros H. apply Forall_forall. intros x Hin.
  apply list_elem_of_lookup in Hin as (j & Hj). eauto.
Qed.

End Sums.

Section Cycle.

Import OCR Rotation.

Variable ks0 : list weightedKey.
Variable W : Z.

Hypothesis ids_distinct : NoDup (ids ks0).
Hypothesis weights_positive : Forall (fun wk => 0 < Weight (key wk)) ks0.
Hypothesis total_is_sum : W = sumZ (weights ks0).
Hypothesis no_overflow : (Z.of_nat (length ks0) + 1) * W < 2 ^ 63.
Hypothesis some_key : ks0 <> [].

Lemma W_positive : 0 < W.
Proof.
  rewrite total_is_sum. destruct ks0 as [|wk rest]; [contradiction|].
  apply Forall_cons in weights_positive as [H1 H2]. unfold weights. simpl.
  assert (L : 0 * Z.of_nat (length (map (fun wk => Weight (key wk)) rest))
              <= sumZ (map (fun wk => Weight (key wk)) rest)).
  { apply sumZ_lower. apply Forall_forall. intros x Hin. apply list_elem_of_In in Hin.
    apply in_map_iff in Hin as (wk0 & <- & Hin0).
    rewrite Forall_forall in H2. apply list_elem_of_In in Hin0.
    specialize (H2 _ Hin0). simpl in H2. lia. }
  lia.
Qed.

Lemma same_keys_weights (ks : list weightedKey) :
  map key ks = map key ks0 -> weights ks = weights ks0 /\ ids ks = ids ks0 /\
  length ks = length ks0.
Proof.
  intros H. unfold weights, ids.
  rewrite <- (map_map key Weight ks), <- (map_map key Weight ks0).
  rewrite <- (map_map key ID ks), <- (map_map key ID ks0). rewrite H.
  repeat split. rewrite <- (length_map key ks), H, length_map. reflexivity.
Qed.

Lemma weight_bounds (ks : list weightedKey) (j : nat) (wk : weightedKey) :
  map key ks = map key ks0 -> ks !! j = Some wk -> 0 < Weight (key wk) <= W.
Proof.
  intros Hk Hl. destruct (same_keys_weights ks Hk) as (Hw & _ & _).
  assert (Hall : Forall (fun y => 0 < y) (weights ks)).
  { rewrite Hw. unfold weights. apply Forall_forall. intros x Hin.
    apply list_elem_of_In in Hin. apply in_map_iff in Hin as (wk0 & <- & Hin0).
    rewrite Forall_forall in weights_positive. apply weights_positive.
    apply list_elem_of_In. exact Hin0. }
  assert (Hlw : weights ks !! j = Some (Weight (key wk)))
    by (apply (lookup_map_fwd (fun wk => Weight (key wk))); exact Hl).
  split.
  - rewrite Forall_forall in Hall. apply Hall. apply list_elem_of_lookup. eauto.
  - rewrite total_is_sum, <- Hw. eapply sumZ_member_le; eauto.
Qed.

Lemma inCycle_ext (t : Z) (cnt cnt' : Z -> Z) (m : OCRKeyManager) :
  (forall id, cnt id = cnt' id) -> inCycle ks0 W t cnt m -> inCycle ks0 W t cnt' m.
Proof.
  intros He (H1 & H2 & H3 & H4 & H5). repeat split; auto.
  - rewrite <- He. apply (H5 j wk H).
  - apply (H5 j wk H).
Qed.

(** The accumulators stay within [(- W, n W)], so no addition wraps. *)
Lemma inCycle_bounds (t : Z) (cnt : Z -> Z) (m : OCRKeyManager) (j : nat)
    (wk : weightedKey) :
  inCycle ks0 W t cnt m -> keys m !! j = Some wk ->
  - W < current wk <= (Z.of_nat (length ks0) - 1) * W.
Proof.
  intros (_ & Hk & _ & Hs & Hj) Hl. split; [apply (Hj j wk Hl)|].
  destruct (same_keys_weights _ Hk) as (_ & _ & Hlen). rewrite <- Hlen.
  rewrite <- (length_map current (keys m)).
  apply (sumZ_member_upper W (currents (keys m)) j); [apply W_positive|exact Hs| |].
  - apply Forall_forall. intros x Hin. apply list_elem_of_In in Hin.
    apply in_map_iff in Hin as (wk0 & <- & Hin0). apply list_elem_of_In in Hin0.
    apply list_elem_of_lookup in Hin0 as (j0 & Hj0). apply (Hj j0 wk0 Hj0).
  - apply lookup_map_fwd. exact Hl.
Qed.

Lemma bump_current (t : Z) (cnt : Z -> Z) (m : OCRKeyManager) (j : nat)
    (wk : weightedKey) :
  inCycle ks0 W t cnt m -> keys m !! j = Some wk ->
  current (bump wk) = current wk + Weight (key wk).
Proof.
  intros HI Hl. pose proof (inCycle_bounds _ _ _ _ _ HI Hl) as Hb.
  destruct HI as (_ & Hk & _). pose proof (weight_bounds _ _ _ Hk Hl) as Hw.
  pose proof W_positive as HW.
  unfold bump. simpl. apply wrap64_small. nia.
Qed.

Lemma bumped_sum (t : Z) (cnt : Z -> Z) (m : OCRKeyManager) :
  inCycle ks0 W t cnt m -> sumZ (currents (map bump (keys m))) = W.
Proof.
  intros HI.
  assert (H : forall ks, (forall j wk, ks !! j = Some wk ->
                current (bump wk) = current wk + Weight (key wk)) ->
              sumZ (currents (map bump ks)) = sumZ (currents ks) + sumZ (weights ks)).
  { induction ks as [|wk ks IH]; intros Hb; [reflexivity|].
    unfold currents, weights in *. rewrite !map_cons, !sumZ_cons.
    rewrite (Hb 0%nat wk eq_refl), IH; [lia|].
    intros j wk0 Hj. apply (Hb (S j) wk0 Hj). }
  rewrite H by (intros j wk Hl; eapply bump_current; eauto).
  destruct HI as (_ & Hk & _ & Hs & _).
  destruct (same_keys_weights _ Hk) as (Hw & _ & _). rewrite Hs, Hw. lia.
Qed.

(** One call of [pick] in the cycle. *)
Lemma inCycle_pick (t : Z) (cnt : Z -> Z) (m : OCRKeyManager) :
  inCycle ks0 W t cnt m ->
  exists chosen m',
    pick m = (Some chosen, m') /\
    inCycle ks0 W (t + 1)
      (fun id => cnt id + (if ID (key chosen) =? id then 1 else 0)) m'.
Proof.
  intros HI. pose proof HI as (Ht & Hk & Hr & Hs & Hj).
  pose proof W_positive as HW.
  assert (Hne : keys m <> []).
  { intros E. rewrite E in Hk. destruct ks0; [contradiction|discriminate]. }
  destruct (pick_spec m Hne) as (b & wkb & Hlb & Hch & Hp). cbv zeta in Hp.
  destruct (lookup_map_Some bump (keys m) b wkb Hlb) as (wk0 & Hl0 & ->).
  pose proof (bump_current _ _ _ _ _ HI Hl0) as Hcur.
  pose proof (inCycle_bounds _ _ _ _ _ HI Hl0) as Hb0.
  pose proof (weight_bounds _ _ _ Hk Hl0) as Hw0.
  destruct (same_keys_weights _ Hk) as (_ & Hids & Hlen).
  (* the highest accumulator is positive *)
  assert (Hmax : 1 <= current (bump wk0)).
  { destruct Hch as (_ & Hall & _).
    assert (Hup : sumZ (currents (map bump (keys m)))
                  <= current (bump wk0) * Z.of_nat (length (currents (map bump (keys m))))).
    { apply sumZ_upper. apply Forall_forall. intros x Hin. apply list_elem_of_In in Hin.
      apply in_map_iff in Hin as (wk1 & <- & Hin1). apply list_elem_of_In in Hin1.
      apply list_elem_of_lookup in Hin1 as (j1 & Hj1). apply (Hall j1 wk1 Hj1). }
    rewrite (bumped_sum _ _ _ HI) in Hup. nia. }
  assert (Hsub : wrap64 (current (bump wk0) - total m) = current (bump wk0) - W).
  { rewrite Ht. apply wrap64_small. nia. }
  eexists. eexists. split; [exact Hp|].
  rewrite Hsub. unfold inCycle. cbn [keys total key recognizer current].
  split; [exact Ht|]. split.
  { rewrite (map_insert_same key _ b (bump wk0) _ Hlb) by reflexivity.
    rewrite map_key_bump. exact Hk. }
  split.
  { rewrite (map_insert_same recognizer _ b (bump wk0) _ Hlb) by reflexivity.
    rewrite map_map. exact Hr. }
  split.
  { unfold currents. rewrite map_insert.
    rewrite (sumZ_insert _ b (current (bump wk0))) by (apply lookup_map_fwd; exact Hlb).
    simpl. fold (currents (map bump (keys m))). rewrite (bumped_sum _ _ _ HI). lia. }
  intros j wk Hl.
  destruct (decide (j = b)) as [->|Hjb].
  - rewrite list_lookup_insert_eq in Hl by (eapply lookup_lt_Some; eauto).
    injection Hl as <-. cbn [key current recognizer].
    change (key (bump wk0)) with (key wk0). rewrite Z.eqb_refl.
    change (wrap64 (current wk0 + Weight (key wk0))) with (current (bump wk0)).
    destruct (Hj b wk0 Hl0) as [Hc _]. rewrite Hcur, Hc. split; lia.
  - rewrite list_lookup_insert_ne in Hl by congruence.
    destruct (lookup_map_Some bump (keys m) j wk Hl) as (wk1 & Hl1 & ->).
    rewrite (bump_current _ _ _ _ _ HI Hl1).
    change (key (bump wk1)) with (key wk1). change (key (bump wk0)) with (key wk0).
    destruct (Hj j wk1 Hl1) as [Hc Hlow].
    pose proof (weight_bounds _ _ _ Hk Hl1) as Hw1.
    assert (Hid : (ID (key wk0) =? ID (key wk1)) = false).
    { apply Z.eqb_neq. intros E. apply Hjb.
      assert (Hn : NoDup (ids (keys m))) by (rewrite Hids; exact ids_distinct).
      apply (NoDup_lookup _ j b (ID (key wk1)) Hn).
      - apply (lookup_map_fwd (fun wk => ID (key wk))). exact Hl1.
      - rewrite <- E. apply (lookup_map_fwd (fun wk => ID (key wk))). exact Hl0. }
    rewrite Hid, Hc. split; lia.
Qed.

Lemma timesChosen_cons (id x : Z) (l : list Z) :
  timesChosen id (x :: l) = (if x =? id then 1 else 0) + timesChosen id l.
Proof.
  unfold timesChosen. simpl. destruct (Z.eq_dec x id) as [->|Hne].
  - rewrite Z.eqb_refl. lia.
  - apply Z.eqb_neq in Hne. rewrite Hne. lia.
Qed.

Lemma inCycle_picks (n : nat) :
  forall (m m' : OCRKeyManager) (t : Z) (cnt : Z -> Z) (chosen : list Z),
    inCycle ks0 W t cnt m -> picks n m = (chosen, m') ->
    inCycle ks0 W (t + Z.of_nat n) (fun id => cnt id + timesChosen id chosen) m'.
Proof.
  induction n as [|n IH]; intros m m' t cnt chosen HI; simpl picks.
  - intros [= <- <-]. replace (t + Z.of_nat 0) with t by lia.
    eapply inCycle_ext; [|exact HI]. intros id. unfold timesChosen. simpl. lia.
  - destruct (inCycle_pick _ _ _ HI) as (wk & m1 & Hp & HI1). rewrite Hp.
    destruct (picks n m1) as [chosen1 m2] eqn:Hps. intros [= <- <-].
    pose proof (IH _ _ _ _ _ HI1 Hps) as HI2.
    replace (t + Z.of_nat (S n)) with (t + 1 + Z.of_nat n) by lia.
    eapply inCycle_ext; [|exact HI2]. intros id. simpl.
    rewrite timesChosen_cons. lia.
Qed.

Lemma keys_determined (l l' : list weightedKey) :
  map key l = map key l' -> map recognizer l = map recognizer l' ->
  map current l = map current l' -> l = l'.
Proof.
  revert l'. induction l as [|[k r c] l IH]; intros [|[k' r' c'] l']; simpl;
    try discriminate; [reflexivity|].
  intros [= -> Hk] [= -> Hr] [= -> Hc]. f_equal. apply IH; assumption.
Qed.

(** After [W] calls every key has been chosen as many times as its weight,
    and the accumulators are back at zero. *)
Lemma full_cycle (m m' : OCRKeyManager) (chosen : list Z) :
  keys m = ks0 -> total m = W ->
  Forall (fun wk => current wk = 0) ks0 ->
  picks (Z.to_nat W) m = (chosen, m') ->
  m' = m /\
  forall wk, In wk ks0 -> timesChosen (ID (key wk)) chosen = Weight (key wk).
Proof.
  intros Hk Ht Hzero Hp. pose proof W_positive as HW.
  assert (HI0 : inCycle ks0 W 0 (fun _ => 0) m).
  { split; [exact Ht|]. rewrite Hk. split; [reflexivity|]. split; [reflexivity|]. split.
    - unfold currents. clear -Hzero. induction Hzero as [|wk l H _ IH]; simpl; [reflexivity|].
      rewrite H. exact IH.
    - intros j wk Hl. rewrite Forall_forall in Hzero.
      rewrite (Hzero wk) by (apply list_elem_of_lookup; eauto). lia. }
  pose proof (inCycle_picks _ _ _ _ _ _ HI0 Hp) as HI.
  rewrite Z2Nat.id in HI by lia. simpl in HI.
  destruct HI as (Ht' & Hk' & Hr' & Hs' & Hj').
  (* every accumulator is a non-negative multiple of W, and their sum is 0 *)
  assert (Hnonneg : Forall (fun x => 0 <= x) (currents (keys m'))).
  { apply Forall_forall. intros x Hin. apply list_elem_of_In in Hin.
    apply in_map_iff in Hin as (wk & <- & Hin). apply list_elem_of_In in Hin.
    apply list_elem_of_lookup in Hin as (j & Hl).
    destruct (Hj' j wk Hl) as [Hc Hlow].
    set (d := Weight (key wk) - (0 + timesChosen (ID (key wk)) chosen)) in *.
    assert (Hd : current wk = W * d) by (unfold d; lia).
    assert (0 <= d) by nia. nia. }
  pose proof (sumZ_zero_all _ Hnonneg Hs') as Hall0.
  assert (Hcur0 : forall j wk, keys m' !! j = Some wk -> current wk = 0).
  { intros j wk Hl. rewrite Forall_forall in Hall0. apply Hall0.
    apply list_elem_of_lookup. exists j. apply lookup_map_fwd. exact Hl. }
  split.
  - assert (Hkeys : keys m' = keys m).
    { rewrite Hk. apply keys_determined; [exact Hk'|exact Hr'|].
      transitivity (map (fun _ : weightedKey => 0) (keys m')).
      - apply map_ext_in. intros wk Hin. apply list_elem_of_In in Hin.
        apply list_elem_of_lookup in Hin as (j & Hl). eauto.
      - transitivity (map (fun _ : weightedKey => 0) ks0).
        + rewrite <- (map_map key (fun _ => 0) (keys m')),
                  <- (map_map key (fun _ => 0) ks0), Hk'. reflexivity.
        + symmetry. apply map_ext_in. intros wk Hin. rewrite Forall_forall in Hzero.
          apply Hzero. apply list_elem_of_In. exact Hin. }
    destruct m as [km tm], m' as [km' tm']. simpl in *. congruence.
  - intros wk Hin. apply list_elem_of_In in Hin.
    apply list_elem_of_lookup in Hin as (j & Hl).
    assert (Hlk : map key (keys m') !! j = Some (key wk))
      by (rewrite Hk'; apply lookup_map_fwd; exact Hl).
    apply lookup_map_Some in Hlk as (wk' & Hl' & Hkey).
    destruct (Hj' j wk' Hl') as [Hc _]. rewrite (Hcur0 j wk' Hl') in Hc.
    rewrite <- Hkey in Hc.
    assert (Hd : W * (Weight (key wk) - timesChosen (ID (key wk)) chosen) = 0) by lia.
    apply Z.mul_eq_0 in Hd. lia.
Qed.

End Cycle.

(** X15. Smooth weighted round-robin.  On a manager whose accumulators are
    zero, whose weights are positive and whose [total] is the sum of the
    weights (what [Reload] builds when no key has a monthly quota), as
    many calls of [pick] as [total] choose every key exactly as many
    times as its weight, and leave the manager as it was. *)
Theorem pick_serves_each_key_its_weight (m m' : OCR.OCRKeyManager) (chosen : list Z) :
  NoDup (Rotation.ids (OCR.keys m)) ->
  Rotation.balanced m ->
  (Z.of_nat (length (OCR.keys m)) + 1) * OCR.total m < 2 ^ 63 ->
  Rotation.picks (Z.to_nat (OCR.total m)) m = (chosen, m') ->
  m' = m /\
  forall wk, In wk (OCR.keys m) ->
    Rotation.timesChosen (OCR.ID (OCR.key wk)) chosen = OCR.Weight (OCR.key wk).
Proof.
  intros Hnd [Hall Htot] Hbig Hp.
  destruct (OCR.keys m) as [|wk0 rest] eqn:Hk.
  - unfold Rotation.weights in Htot. simpl in Htot. rewrite Htot in Hp. simpl in Hp.
    injection Hp as <- <-. split; [reflexivity|]. intros wk [].
  - rewrite <- Hk in *.
    apply (full_cycle (OCR.keys m) (OCR.total m)); auto.
    + eapply Forall_impl; [exact Hall|]. intros wk [_ H]. exact H.
    + rewrite Hk. discriminate.
    + eapply Forall_impl; [exact Hall|]. intros wk [H _]. exact H.
Qed.

Lemma pick_serves_each_key_its_weight_witness :
  Rotation.picks 4 SampleKeys.unevenKeys = ([1; 1; 2; 1], SampleKeys.unevenKeys) /\
  Rotation.timesChosen 1 [1; 1; 2; 1] = 3 /\ Rotation.timesChosen 2 [1; 1; 2; 1] = 1.
Proof.
  assert (Hp : Rotation.picks (Z.to_nat (OCR.total SampleKeys.unevenKeys)) SampleKeys.unevenKeys
               = ([1; 1; 2; 1], SampleKeys.unevenKeys)) by (vm_compute; reflexivity).
  assert (Hnd : NoDup (Rotation.ids (OCR.keys SampleKeys.unevenKeys))).
  { vm_compute. repeat constructor; rewrite ?list_elem_of_In; simpl; intuition discriminate. }
  assert (Hbal : Rotation.balanced SampleKeys.unevenKeys).
  { split; [|vm_compute; reflexivity]. vm_compute. repeat constructor. }
  assert (Hbig : (Z.of_nat (length (OCR.keys SampleKeys.unevenKeys)) + 1)
                 * OCR.total SampleKeys.unevenKeys < 2 ^ 63) by (vm_compute; reflexivity).
  destruct (pick_serves_each_key_its_weight _ _ _ Hnd Hbal Hbig Hp) as [_ Hall].
  split; [exact Hp|]. split.
  - apply (Hall (OCR.mkWeighted (SampleKeys.keyOf 1 3) "baidu" 0)). vm_compute. auto.
  - apply (Hall (OCR.mkWeighted (SampleKeys.keyOf 2 1) "baidu" 0)). vm_compute. auto.
Defined.

Lemma RecognizeCaptcha_returns_first_usable_answer_witness :
  exists m' log,
    Dispatch.RecognizeCaptcha SampleKeys.firstKeyExhausted SampleKeys.reloading
      SampleKeys.evenKeys = (inl "AB12"%string, m', log) /\
    map fst (Dispatch.asked log) = [1; 2] /\
    Dispatch.usages log = [(1, false); (2, true)] /\
    Rotation.ids (OCR.keys m') = [2] /\
    (length (Dispatch.asked log) <= length (OCR.keys SampleKeys.evenKeys))%nat.
Proof.
  eexists. eexists. split; [vm_compute; reflexivity|].
  split; [vm_compute; reflexivity|]. split; [vm_compute; reflexivity|].
  split; [vm_compute; reflexivity|].
  refine (proj1 (RecognizeCaptcha_returns_first_usable_answer
                   SampleKeys.firstKeyExhausted SampleKeys.reloading
                   SampleKeys.evenKeys _ (inl "AB12"%string) _ _)).
  vm_compute. reflexivity.
Defined.



(** ** The log repository: deleting, counting and listing *)

Section Logs.

Import LogRepo LogQueries.

Lemma filter_filter_neg {A : Type} (p : A -> bool) (l : list A) :
  List.filter p (List.filter (fun x => negb (p x)) l) = [].
Proof.
  induction l as [|x l IH]; simpl; [reflexivity|].
  destruct (p x) eqn:E; simpl; [exact IH|]. rewrite E. exact IH.
Qed.

Lemma filter_filter_other {A : Type} (p q : A -> bool) (l : list A) :
  (forall x, q x = true -> p x = false) ->
  List.filter q (List.filter (fun x => negb (p x)) l) = List.filter q l.
Proof.
  intros H. induction l as [|x l IH]; simpl; [reflexivity|].
  destruct (p x) eqn:E; simpl.
  - destruct (q x) eqn:Eq; [|exact IH]. apply H in Eq. congruence.
  - destruct (q x); [f_equal|]; exact IH.
Qed.

Lemma ofCode_other (c c' : Z) (r : RedeemLog) :
  c' <> c -> ofCode c' r = true -> ofCode c r = false.
Proof. unfold ofCode. intros Hne H. apply Z.eqb_eq in H. apply Z.eqb_neq. congruence. Qed.

End Logs.

(** X17. [DeleteLogsByRedeemCodeID] returns the number of logs the code
    had (the total [GetLogStats] reported).  Afterwards the code has no
    log: its statistics are all zero and no account has taken part; the
    logs of every other code are as before. *)
Theorem DeleteLogsByRedeemCodeID_clears_the_code (t : LogRepo.Table) (c : Z) :
  let t' := fst (LogQueries.DeleteLogsByRedeemCodeID LogQueries.ok t c) in
  (exists total s f,
     LogQueries.GetLogStats LogQueries.ok t c = inl (total, s, f) /\
     snd (LogQueries.DeleteLogsByRedeemCodeID LogQueries.ok t c) = inl total) /\
  LogQueries.GetLogStats LogQueries.ok t' c = inl (0, 0, 0) /\
  LogQueries.GetParticipatedAccountIDs LogQueries.ok t' c = inl [] /\
  forall c', c' <> c ->
    LogQueries.GetLogStats LogQueries.ok t' c' = LogQueries.GetLogStats LogQueries.ok t c' /\
    LogQueries.GetParticipatedAccountIDs LogQueries.ok t' c'
      = LogQueries.GetParticipatedAccountIDs LogQueries.ok t c'.
Proof.
  unfold LogQueries.DeleteLogsByRedeemCodeID, LogQueries.GetLogStats,
    LogQueries.GetParticipatedAccountIDs, LogQueries.count. simpl.
  split; [eauto|].
  rewrite (filter_filter_neg (LogQueries.ofCode c)). simpl.
  split; [reflexivity|]. split; [reflexivity|].
  intros c' Hne.
  rewrite (filter_filter_other (LogQueries.ofCode c) (LogQueries.ofCode c'))
    by (intros r; apply ofCode_other; exact Hne).
  split; reflexivity.
Qed.

Section OnePerPair.

Import LogRepo LogQueries.

Lemma remove_dups_NoDup (l : list Z) : NoDup l -> remove_dups l = l.
Proof.
  induction 1 as [|x l Hx _ IH]; simpl; [reflexivity|].
  destruct (decide_rel elem_of x l) as [Hin|_]; [contradiction|]. rewrite IH. reflexivity.
Qed.

Lemma NoDup_map_filter {A B : Type} (f : A -> B) (P : A -> Prop)
    `{forall x, Decision (P x)} (l : list A) :
  NoDup (map f l) -> NoDup (map f (filter P l)).
Proof.
  induction l as [|x l IH]; simpl; intros Hnd; [constructor|].
  apply NoDup_cons in Hnd as [Hx Hnd].
  destruct (decide (P x)) as [Hp|Hp].
  - rewrite filter_cons_True by exact Hp. simpl. apply NoDup_cons. split; [|auto].
    intros Hin. apply Hx. apply list_elem_of_In in Hin. apply list_elem_of_In.
    apply in_map_iff in Hin as (y & Hy & Hin). apply in_map_iff. exists y.
    split; [exact Hy|]. apply list_elem_of_In in Hin. apply list_elem_of_filter in Hin as [_ Hin].
    apply list_elem_of_In. exact Hin.
  - rewrite filter_cons_False by exact Hp. auto.
Qed.

Lemma accounts_of_code_NoDup (l : list RedeemLog) (c : Z) :
  NoDup (map pairOf l) -> NoDup (map game_account_id (List.filter (ofCode c) l)).
Proof.
  induction l as [|r l IH]; simpl; intros Hnd; [constructor|].
  apply NoDup_cons in Hnd as [Hr Hnd].
  destruct (ofCode c r) eqn:E; [|auto]. simpl. apply NoDup_cons. split; [|auto].
  intros Hin. apply Hr. apply list_elem_of_In in Hin. apply list_elem_of_In.
  apply in_map_iff in Hin as (r' & Ha & Hin). apply filter_In in Hin as [Hin Hc].
  apply in_map_iff. exists r'. split; [|exact Hin].
  unfold ofCode in *. apply Z.eqb_eq in E, Hc. unfold pairOf. congruence.
Qed.

Lemma onePerPair_replace (db : Db) (t t' : Table) (c a : Z) (o : Outcome)
    (ret : Z + string) :
  onePerPair t -> ReplaceRedeemLog db t c a o = (t', ret) -> onePerPair t'.
Proof.
  unfold onePerPair. intros Hnd H.
  apply ReplaceRedeemLog_cases in H as [(-> & _)|(Hrows & _)]; [exact Hnd|].
  rewrite Hrows, map_app. apply NoDup_app. split; [|split].
  - apply NoDup_map_filter. exact Hnd.
  - intros p Hin Hin'. simpl in Hin'. apply list_elem_of_In in Hin'.
    destruct Hin' as [<-|[]]. apply list_elem_of_In in Hin.
    apply in_map_iff in Hin as (r & Hp & Hin). apply list_elem_of_In in Hin.
    apply list_elem_of_filter in Hin as [Hs _].
    unfold samePair in Hs. unfold pairOf, logOf in Hp. simpl in Hp.
    injection Hp as Hc Ha. rewrite Hc, Ha, !Z.eqb_refl in Hs. discriminate.
  - simpl. apply NoDup_cons. split; [apply not_elem_of_nil|constructor].
Qed.

End OnePerPair.

(** X18. [ReplaceRedeemLog] keeps the table at one log for each pair of
    redeem code and account.  After a call that returns an id, the account
    is among those [GetParticipatedAccountIDs] lists for the code; and on
    such a table the total of [GetLogStats] for a code is the number of
    accounts listed for it. *)
Theorem ReplaceRedeemLog_keeps_one_log_per_pair (db : LogRepo.Db) (t t' : LogRepo.Table)
    (c a : Z) (o : LogRepo.Outcome) (ret : Z + string) :
  LogQueries.onePerPair t ->
  LogRepo.ReplaceRedeemLog db t c a o = (t', ret) ->
  LogQueries.onePerPair t' /\
  (forall newID, ret = inl newID ->
     exists ids, LogQueries.GetParticipatedAccountIDs LogQueries.ok t' c = inl ids /\
                 In a ids) /\
  (forall c0, exists ids total s f,
     LogQueries.GetParticipatedAccountIDs LogQueries.ok t' c0 = inl ids /\
     LogQueries.GetLogStats LogQueries.ok t' c0 = inl (total, s, f) /\
     total = Z.of_nat (length ids)).
Proof.
  intros Hone H. pose proof (onePerPair_replace _ _ _ _ _ _ _ Hone H) as Hone'.
  split; [exact Hone'|]. split.
  - intros newID ->.
    apply ReplaceRedeemLog_cases in H as [(_ & e & He)|(Hrows & _)]; [discriminate|].
    unfold LogQueries.GetParticipatedAccountIDs. simpl. eexists. split; [reflexivity|].
    apply list_elem_of_In. apply elem_of_remove_dups. apply list_elem_of_In.
    apply in_map_iff. exists (LogRepo.logOf db (LogRepo.nextID t) c a o).
    split; [reflexivity|]. apply filter_In. split.
    + rewrite Hrows. apply in_or_app. right. left. reflexivity.
    + unfold LogQueries.ofCode. simpl. apply Z.eqb_refl.
  - intros c0. unfold LogQueries.GetParticipatedAccountIDs, LogQueries.GetLogStats. simpl.
    do 4 eexists. split; [reflexivity|]. split; [reflexivity|].
    unfold LogQueries.readRows. cbn [LogQueries.rowsErr LogQueries.ok].
    rewrite remove_dups_NoDup by (apply accounts_of_code_NoDup; exact Hone').
    rewrite length_map. reflexivity.
Qed.

Lemma ReplaceRedeemLog_keeps_one_log_per_pair_witness :
  let db := LogRepo.mkDb None None None None None 50 in
  let o := LogRepo.mkOutcome "fid-1" "ABC123" "success" None (Some "ok"%string)
             (Some "AB1D"%string) (Some 2) None in
  let t := LogRepo.mkTable [LogRepo.logOf db 1 9 1 o; LogRepo.logOf db 2 9 2 o] 3 in
  exists t',
    LogRepo.ReplaceRedeemLog db t 9 1 o = (t', inl 3) /\
    LogQueries.GetParticipatedAccountIDs LogQueries.ok t' 9 = inl [2; 1] /\
    LogQueries.onePerPair t'.
Proof.
  intros db o t. eexists. split; [reflexivity|]. split; [reflexivity|].
  refine (proj1 (ReplaceRedeemLog_keeps_one_log_per_pair db t _ 9 1 o (inl 3) _ eq_refl)).
  unfold LogQueries.onePerPair. simpl.
  apply NoDup_cons. split; [|apply NoDup_cons; split; [apply not_elem_of_nil|constructor]].
  intros Hin. apply list_elem_of_In in Hin. simpl in Hin. destruct Hin as [[=]|[]].
Defined.

(** ** The job queue: loading, retrying and the life of a job *)

Section Loading.

Import JobQueue Queue.

Lemma insertByCreated_perm (r : Row) (l : list Row) :
  Permutation (insertByCreated r l) (r :: l).
Proof.
  induction l as [|x l IH]; simpl; [reflexivity|].
  destruct (created_at r <=? created_at x); [reflexivity|].
  rewrite IH. apply perm_swap.
Qed.

Lemma orderByCreated_perm (l : list Row) : Permutation (orderByCreated l) l.
Proof.
  induction l as [|x l IH]; simpl; [reflexivity|].
  rewrite insertByCreated_perm. constructor. exact IH.
Qed.

Lemma insertByCreated_sorted (r : Row) (l : list Row) :
  StronglySorted (fun x y => created_at x <= created_at y) l ->
  StronglySorted (fun x y => created_at x <= created_at y) (insertByCreated r l).
Proof.
  induction 1 as [|x l Hs IH Hx]; simpl; [repeat constructor|].
  destruct (created_at r <=? created_at x) eqn:E.
  - apply Z.leb_le in E. constructor; [constructor; assumption|].
    constructor; [exact E|]. eapply Forall_impl; [exact Hx|]. intros y Hy. simpl in *. lia.
  - apply Z.leb_gt in E. constructor; [exact IH|].
    apply Forall_forall. intros y Hy. apply list_elem_of_In in Hy.
    apply (Permutation_in _ (insertByCreated_perm r l)) in Hy as [<-|Hy]; [lia|].
    rewrite Forall_forall in Hx. apply Hx. apply list_elem_of_In. exact Hy.
Qed.

Lemma orderByCreated_sorted (l : list Row) :
  StronglySorted (fun x y => created_at x <= created_at y) (orderByCreated l).
Proof.
  induction l as [|x l IH]; simpl; [constructor|]. apply insertByCreated_sorted. exact IH.
Qed.

(** Within the space that was free, every send of [loadBatch] goes in. *)
Lemma loadRows_fits (parses : string -> bool) (jobs : list Row) (q : JobQueue) :
  Z.of_nat (length (queue q)) + Z.of_nat (length jobs) <= maxCapacity q ->
  loadRows parses jobs q
  = mkQueue (queue q ++ map toJob (List.filter (fun r => parses (payload r)) jobs))
            (maxCapacity q).
Proof.
  revert q. induction jobs as [|r jobs IH]; intros q Hfit; simpl.
  - rewrite app_nil_r. destruct q; reflexivity.
  - simpl length in Hfit. destruct (parses (payload r)).
    + unfold trySend.
      assert (E : (Z.of_nat (length (queue q)) <? maxCapacity q) = true)
        by (apply Z.ltb_lt; lia).
      rewrite E. simpl fst. rewrite IH.
      * simpl. rewrite <- app_assoc. reflexivity.
      * simpl. rewrite length_app. simpl. lia.
    + apply IH. lia.
Qed.

Lemma loadBatch_closed (parses : string -> bool) (now : Z) (t : JobTable) (q : JobQueue) :
  Z.of_nat (length (queue q)) <= maxCapacity q ->
  loadBatch None parses now t q
  = mkQueue (queue q ++ map toJob
               (List.filter (fun r => parses (payload r))
                  (take (Z.to_nat (maxCapacity q - Z.of_nat (length (queue q))))
                        (orderByCreated (List.filter (due now) (rows t))))))
            (maxCapacity q).
Proof.
  intros Hcap. unfold loadBatch, GetPendingJobs.
  destruct (maxCapacity q - Z.of_nat (length (queue q)) <=? 0) eqn:E.
  - apply Z.leb_le in E.
    replace (Z.to_nat (maxCapacity q - Z.of_nat (length (queue q)))) with 0%nat by lia.
    rewrite take_0. simpl. rewrite app_nil_r. destruct q; reflexivity.
  - apply Z.leb_gt in E.
    assert (E' : (maxCapacity q - Z.of_nat (length (queue q)) <? 0) = false)
      by (apply Z.ltb_ge; lia).
    rewrite E'. apply loadRows_fits. rewrite length_take. lia.
Qed.

End Loading.

(** X19. [loadBatch] appends to the queue the pending jobs that are due,
    oldest first, as many as the queue has room for, leaving out those
    whose payload does not parse: none of the jobs it fetched is dropped
    for lack of room, and the queue never holds more than its capacity.
    A failure of the query leaves the queue as it was. *)
Theorem loadBatch_appends_the_oldest_due_jobs (parses : string -> bool) (now : Z)
    (t : Queue.JobTable) (q : Queue.JobQueue) :
  Z.of_nat (length (Queue.queue q)) <= Queue.maxCapacity q ->
  let room := Z.to_nat (Queue.maxCapacity q - Z.of_nat (length (Queue.queue q))) in
  let sorted := Queue.orderByCreated (List.filter (Queue.due now) (Queue.rows t)) in
  Queue.queue (Queue.loadBatch None parses now t q)
    = Queue.queue q
      ++ map Queue.toJob (List.filter (fun r => parses (JobQueue.payload r)) (take room sorted)) /\
  Permutation sorted (List.filter (Queue.due now) (Queue.rows t)) /\
  StronglySorted (fun x y => JobQueue.created_at x <= JobQueue.created_at y) sorted /\
  Z.of_nat (length (Queue.queue (Queue.loadBatch None parses now t q)))
    <= Queue.maxCapacity (Queue.loadBatch None parses now t q) /\
  forall e, Queue.loadBatch (Some e) parses now t q = q.
Proof.
  intros Hcap room sorted. rewrite loadBatch_closed by exact Hcap. simpl.
  split; [reflexivity|]. split; [apply orderByCreated_perm|].
  split; [apply orderByCreated_sorted|]. split.
  - rewrite length_app, length_map.
    pose proof (filter_length_le (fun r => parses (JobQueue.payload r)) (take room sorted)) as H1.
    pose proof (length_take sorted room) as H2.
    fold room. fold sorted. unfold room in *. lia.
  - intros e. unfold Queue.loadBatch. simpl.
    destruct (Queue.maxCapacity q - Z.of_nat (length (Queue.queue q)) <=? 0); reflexivity.
Qed.

Lemma loadBatch_appends_the_oldest_due_jobs_witness :
  Queue.queue (Queue.loadBatch None SampleJobs.anyPayload 200 SampleJobs.threeJobs
                 SampleJobs.emptyQueue)
  = [JobQueue.mkJob 3 "supplement_redeem" "{}" 1 2; JobQueue.mkJob 1 "redeem" "{}" 0 3].
Proof.
  rewrite (proj1 (loadBatch_appends_the_oldest_due_jobs SampleJobs.anyPayload 200
                    SampleJobs.threeJobs SampleJobs.emptyQueue ltac:(vm_compute; discriminate))).
  vm_compute. reflexivity.
Defined.

Section Waiting.

Import JobQueue Queue.

Lemma occurrences_app (jobID : Z) (l1 l2 : list Job) (cap : Z) :
  occurrences jobID (mkQueue (l1 ++ l2) cap)
  = (occurrences jobID (mkQueue l1 cap) + occurrences jobID (mkQueue l2 cap))%nat.
Proof. unfold occurrences. simpl. rewrite List.filter_app, length_app. reflexivity. Qed.

Lemma occurrences_In (jobID : Z) (l : list Job) (cap : Z) (j : Job) :
  In j l -> ID j = jobID -> (1 <= occurrences jobID (mkQueue l cap))%nat.
Proof.
  intros Hin Hid. unfold occurrences. simpl.
  assert (H : In j (List.filter (fun j0 => ID j0 =? jobID) l))
    by (apply filter_In; split; [exact Hin|apply Z.eqb_eq; exact Hid]).
  destruct (List.filter _ l); [destruct H|simpl; lia].
Qed.

End Waiting.

(** X20. [loadBatch] does not look at what the queue holds.  A job that
    [Enqueue] has put in the queue, and that no worker has taken yet, is
    still pending in the table; the next [loadBatch] with room for the
    due jobs puts it in the queue a second time. *)
Theorem waiting_job_is_queued_again (db : JobQueue.Db) (t t' : Queue.JobTable)
    (q q' : Queue.JobQueue) (jobType payloadJSON : string) (maxRetries jobID now : Z)
    (parses : string -> bool) :
  Queue.Enqueue db None t q jobType payloadJSON maxRetries = (t', q', inl jobID) ->
  Z.of_nat (length (Queue.queue q)) < Queue.maxCapacity q ->
  parses payloadJSON = true ->
  JobQueue.dbNow db <= now ->
  Z.of_nat (length (Queue.queue q'))
    + Z.of_nat (length (List.filter (Queue.due now) (Queue.rows t')))
    <= Queue.maxCapacity q' ->
  (2 <= Queue.occurrences jobID (Queue.loadBatch None parses now t' q'))%nat.
Proof.
  unfold Queue.Enqueue, Queue.CreateJob.
  destruct (JobQueue.execError db) as [e|]; [intros [=]|].
  intros [= <- <- <-] Hroom Hparse Hnow Hfit.
  unfold Queue.trySend in *.
  assert (E : (Z.of_nat (length (Queue.queue q)) <? Queue.maxCapacity q) = true)
    by (apply Z.ltb_lt; exact Hroom).
  rewrite E in *. simpl fst in *. simpl Queue.rows in *.
  set (row := JobQueue.mkRow (Queue.nextID t) jobType payloadJSON "pending" 0 maxRetries
                (JobQueue.dbNow db) None (JobQueue.dbNow db) (JobQueue.dbNow db)) in *.
  set (job := JobQueue.mkJob (Queue.nextID t) jobType payloadJSON 0 maxRetries) in *.
  rewrite loadBatch_closed by (simpl in *; lia).
  simpl Queue.queue in *. simpl Queue.maxCapacity in *.
  rewrite !occurrences_app. cbn [Queue.rows].
  assert (H1 : (1 <= Queue.occurrences (Queue.nextID t)
                     (Queue.mkQueue [job] (Queue.maxCapacity q)))%nat).
  { apply (occurrences_In _ _ _ job); [left; reflexivity|reflexivity]. }
  assert (Hdue : Queue.due now row = true).
  { unfold Queue.due. simpl. apply Z.leb_le. exact Hnow. }
  assert (H2 : (1 <= Queue.occurrences (Queue.nextID t)
                     (Queue.mkQueue
                        (map Queue.toJob
                           (List.filter (fun r => parses (JobQueue.payload r))
                              (take (Z.to_nat (Queue.maxCapacity q
                                               - Z.of_nat (length (Queue.queue q ++ [job]))))
                                 (Queue.orderByCreated
                                    (List.filter (Queue.due now) (Queue.rows t ++ [row]))))))
                        (Queue.maxCapacity q)))%nat).
  { apply (occurrences_In _ _ _ (Queue.toJob row)); [|reflexivity].
    apply in_map. apply filter_In. split; [|exact Hparse].
    rewrite take_ge.
    - apply (Permutation_in _ (Permutation_sym (orderByCreated_perm _))).
      apply filter_In. split; [apply in_or_app; right; left; reflexivity|exact Hdue].
    - rewrite (Permutation_length (orderByCreated_perm _)). lia. }
  lia.
Qed.

Lemma waiting_job_is_queued_again_witness :
  exists t' q',
    Queue.Enqueue (Queue.healthyDb 200) None SampleJobs.threeJobs SampleJobs.emptyQueue
      "redeem" "{}" 3 = (t', q', inl 4) /\
    Queue.occurrences 4 q' = 1%nat /\
    (2 <= Queue.occurrences 4 (Queue.loadBatch None SampleJobs.anyPayload 200 t' q'))%nat.
Proof.
  eexists. eexists. split; [reflexivity|]. split; [reflexivity|].
  apply (waiting_job_is_queued_again (Queue.healthyDb 200) SampleJobs.threeJobs _
           SampleJobs.emptyQueue _ "redeem" "{}" 3 4 200 SampleJobs.anyPayload).
  - reflexivity.
  - vm_compute. reflexivity.
  - reflexivity.
  - vm_compute. discriminate.
  - vm_compute. discriminate.
Defined.

Section Due.

Import JobQueue Queue.

Lemma In_take {A : Type} (x : A) (n : nat) (l : list A) : In x (take n l) -> In x l.
Proof.
  revert n. induction l as [|y l IH]; intros [|n]; simpl; try tauto.
  intros [->|H]; [auto|right; eapply IH; eauto].
Qed.

Lemma GetPendingJobs_due (now : Z) (t : JobTable) (limit : Z) (rs : list Row) (r : Row) :
  GetPendingJobs None now t limit = inl rs -> In r rs ->
  In r (rows t) /\ due now r = true.
Proof.
  unfold GetPendingJobs. destruct (limit <? 0); [discriminate|]. intros [= <-] Hin.
  apply In_take in Hin. apply (Permutation_in _ (orderByCreated_perm _)) in Hin.
  apply filter_In in Hin. exact Hin.
Qed.

End Due.

Section Seconds.

Import JobQueue Queue.

(** Rounding to the second is one of the ways a column keeps a time to
    the second. *)
Lemma roundToSecond_whole (now : Z) : wholeSeconds (healthyDb now).
Proof.
  intros t. unfold healthyDb. cbn [asTimestamp]. unfold roundToSecond.
  assert (HS : Second = 1000000000) by reflexivity.
  assert (Hh : Second / 2 = 500000000) by reflexivity.
  rewrite Hh, HS.
  pose proof (Z.div_mod (t + 500000000) 1000000000 ltac:(lia)) as Hd.
  pose proof (Z.mod_pos_bound (t + 500000000) 1000000000 ltac:(lia)) as Hm.
  lia.
Qed.

End Seconds.

(** X21. A job that [RetryJob] sends back for a retry (retry counts from 0
    to 33) is pending, and the time of its next run is what the column
    keeps of the time of the call plus [min (2 ^ retries s) 60 s]: less
    than a second from it.  Up to a second before that time
    [GetPendingJobs] does not return the job, and from a second after it
    the job is due. *)
Theorem retried_job_waits_for_its_backoff (db : JobQueue.Db) (now : Z)
    (jobs jobs' : list JobQueue.Row) (job : JobQueue.Job) (msg : string) :
  JobQueue.wholeSeconds db ->
  0 <= JobQueue.Retries job <= 33 ->
  JobQueue.Retries job < JobQueue.MaxRetries job ->
  JobQueue.RetryJob db now jobs job msg = Some (jobs', None) ->
  let ready := now + Z.min (2 ^ JobQueue.Retries job * Second) (60 * Second) in
  (forall r, In r jobs' -> JobQueue.id r = JobQueue.ID job ->
     JobQueue.status r = "pending"%string /\
     JobQueue.next_run_at r = JobQueue.asTimestamp db ready /\
     ready - Second < JobQueue.next_run_at r < ready + Second) /\
  (forall r later, In r jobs' -> JobQueue.id r = JobQueue.ID job ->
     ready + Second <= later -> Queue.due later r = true) /\
  (forall t later limit rs,
     Queue.rows t = jobs' -> later <= ready - Second ->
     Queue.GetPendingJobs None later t limit = inl rs ->
     Forall (fun r => JobQueue.id r <> JobQueue.ID job) rs).
Proof.
  intros Hwhole Hr Hmax H ready. unfold JobQueue.RetryJob in H.
  assert (E : (JobQueue.MaxRetries job <=? JobQueue.Retries job) = false)
    by (apply Z.leb_gt; exact Hmax).
  rewrite E, backoff_in_range in H by exact Hr.
  unfold JobQueue.IncrementJobRetries in H.
  destruct (JobQueue.execError db) as [e|]; [discriminate|].
  injection H as <-. fold ready.
  assert (Hrow : forall r, In r
            (map (fun r0 => if JobQueue.id r0 =? JobQueue.ID job
                            then JobQueue.mkRow (JobQueue.id r0) (JobQueue.type r0)
                                   (JobQueue.payload r0) "pending" (JobQueue.retries r0 + 1)
                                   (JobQueue.max_retries r0) (JobQueue.asTimestamp db ready)
                                   (Some msg) (JobQueue.created_at r0) (JobQueue.dbNow db)
                            else r0) jobs) ->
            JobQueue.id r = JobQueue.ID job ->
            JobQueue.status r = "pending"%string /\
            JobQueue.next_run_at r = JobQueue.asTimestamp db ready /\
            ready - Second < JobQueue.next_run_at r < ready + Second).
  { intros r Hin Hid. apply in_map_iff in Hin as (r0 & <- & _).
    destruct (JobQueue.id r0 =? JobQueue.ID job) eqn:E0.
    - simpl. split; [reflexivity|]. split; [reflexivity|]. apply Hwhole.
    - apply Z.eqb_neq in E0. contradiction. }
  split; [exact Hrow|]. split.
  - intros r later Hin Hid Hlater. destruct (Hrow r Hin Hid) as (Hst & _ & Hnear).
    unfold Queue.due. rewrite Hst. simpl. apply Z.leb_le. lia.
  - intros t later limit rs Hrows Hlater Hget.
    apply Forall_forall. intros r Hin Hid. apply list_elem_of_In in Hin.
    destruct (GetPendingJobs_due _ _ _ _ _ Hget Hin) as [Hin' Hd].
    rewrite Hrows in Hin'. destruct (Hrow r Hin' Hid) as (_ & _ & Hnear).
    unfold Queue.due in Hd. apply andb_true_iff in Hd as [_ Hd].
    apply Z.leb_le in Hd. lia.
Qed.

Lemma retried_job_waits_for_its_backoff_witness :
  let jobs := [JobQueue.mkRow 7 "redeem" "{}" "processing" 2 3 0 None 0 0] in
  exists jobs',
    JobQueue.RetryJob (Queue.healthyDb 1000) 1000 jobs (JobQueue.mkJob 7 "redeem" "{}" 2 3)
      "boom" = Some (jobs', None) /\
    Queue.GetPendingJobs None (1000 + 4 * Second - Second) (Queue.mkJobTable jobs' 8) 10
      = inl [] /\
    Forall (fun r => JobQueue.id r <> 7) [].
Proof.
  intros jobs. eexists. split; [reflexivity|]. split; [vm_compute; reflexivity|].
  refine (proj2 (proj2 (retried_job_waits_for_its_backoff (Queue.healthyDb 1000) 1000 jobs _
                          (JobQueue.mkJob 7 "redeem" "{}" 2 3) "boom"
                          (roundToSecond_whole 1000) _ _ eq_refl))
            (Queue.mkJobTable _ 8) (1000 + 4 * Second - Second) 10 [] eq_refl _ _).
  - simpl. lia.
  - simpl. lia.
  - vm_compute. discriminate.
  - vm_compute. reflexivity.
Defined.

Section Life.

Import JobQueue Queue.

Lemma findRow_map (jobID : Z) (f : Row -> Row) (l : list Row) :
  (forall x, id (f x) = id x) -> findRow jobID (map f l) = f <$> findRow jobID l.
Proof.
  intros Hf. induction l as [|x l IH]; simpl; [reflexivity|].
  rewrite Hf. destruct (id x =? jobID); [reflexivity|exact IH].
Qed.

Lemma findRow_id (jobID : Z) (l : list Row) (r : Row) :
  findRow jobID l = Some r -> id r = jobID.
Proof.
  induction l as [|x l IH]; simpl; [discriminate|].
  destruct (id x =? jobID) eqn:E; [|exact IH]. intros [= <-]. apply Z.eqb_eq. exact E.
Qed.

Lemma backoff_defined (k : Z) : 0 <= k -> exists d, backoff k = Some d.
Proof.
  intros Hk. unfold backoff, shl64.
  assert (E : (k <? 0) = false) by (apply Z.ltb_ge; exact Hk). rewrite E.
  destruct (64 <=? k); eauto.
Qed.

(** One run of a copy of a job whose handler fails: what it does to the
    row depends on the retries of the copy, not on those of the row. *)
Lemma failing_run (w : JobWorld) (jobs : list Row) (job : Job) (r : Row) :
  failing w -> findRow (ID job) jobs = Some r -> 0 <= Retries job ->
  exists jobs' r',
    processJob w jobs job = Some jobs' /\ findRow (ID job) jobs' = Some r' /\
    max_retries r' = max_retries r /\
    if MaxRetries job <=? Retries job
    then status r' = "failed"%string /\ retries r' = retries r
    else status r' = "pending"%string /\ retries r' = retries r + 1.
Proof.
  intros (Hmark & Hretry & Hlim & e & He) Hfind Hk.
  pose proof (findRow_id _ _ _ Hfind) as Hid.
  unfold processJob, MarkJobProcessing, UpdateJobStatus. rewrite Hmark, Hlim.
  set (err := if knownType (Type_ job) then handlerError w
              else Some ("未知任务类型: " +:+ Type_ job)).
  assert (Herr : exists e', err = Some e').
  { unfold err. destruct (knownType _); [rewrite He|]; eauto. }
  destruct Herr as (e' & ->).
  unfold RetryJob.
  destruct (MaxRetries job <=? Retries job) eqn:E.
  - unfold MarkJobFailed, UpdateJobStatus. rewrite Hretry.
    eexists. eexists. split; [reflexivity|].
    rewrite !findRow_map by (intros x; destruct (id x =? ID job); reflexivity).
    rewrite Hfind. simpl. rewrite Hid, Z.eqb_refl. simpl.
    rewrite Z.eqb_refl. split; [reflexivity|]. simpl. auto.
  - destruct (backoff_defined (Retries job) Hk) as (d & Hd). rewrite Hd.
    unfold IncrementJobRetries. rewrite Hretry.
    eexists. eexists. split; [reflexivity|].
    rewrite !findRow_map by (intros x; destruct (id x =? ID job); reflexivity).
    rewrite Hfind. simpl. rewrite Hid, Z.eqb_refl. simpl.
    rewrite Z.eqb_refl. split; [reflexivity|]. simpl. auto.
Qed.

(** The copies of a job that wait in the channel, each with retries
    below its [max_retries], are all run, and each adds a retry to the
    row. *)
Lemma failing_copies (w : nat -> JobWorld) (jobID : Z) (copies : list Job) :
  (forall k, failing (w k)) ->
  Forall (fun j => ID j = jobID /\ 0 <= Retries j < MaxRetries j) copies ->
  forall (n : nat) (jobs : list Row) (r : Row),
    findRow jobID jobs = Some r ->
    exists jobs' r',
      runCopies w n copies jobs = Some jobs' /\ findRow jobID jobs' = Some r' /\
      max_retries r' = max_retries r /\
      retries r' = retries r + Z.of_nat (length copies) /\
      (copies <> [] -> status r' = "pending"%string).
Proof.
  intros Hw Hall. induction Hall as [|job copies (Hid & Hret) _ IH]; intros n jobs r Hfind.
  - exists jobs, r. simpl. repeat split; auto; [lia|intros H; contradiction].
  - subst jobID.
    destruct (failing_run (w n) jobs job r (Hw n) Hfind ltac:(lia))
      as (jobs1 & r1 & Hrun & Hfind1 & Hm1 & Hcase).
    assert (E : (MaxRetries job <=? Retries job) = false) by (apply Z.leb_gt; lia).
    rewrite E in Hcase. destruct Hcase as [Hst1 Hr1].
    destruct (IH (S n) jobs1 r1 Hfind1) as (jobs2 & r2 & Hrun2 & Hfind2 & Hm2 & Hr2 & Hst2).
    exists jobs2, r2. simpl runCopies. rewrite Hrun.
    split; [exact Hrun2|]. split; [exact Hfind2|]. split; [congruence|]. split.
    + rewrite Hr2, Hr1. simpl length. lia.
    + intros _. destruct copies as [|j rest].
      * simpl in Hrun2. injection Hrun2 as <-. rewrite Hfind1 in Hfind2.
        injection Hfind2 as <-. exact Hst1.
      * apply Hst2. discriminate.
Qed.

Lemma smallRow_update (db : Db) (jobs : list Row) (jobID : Z) (st : string)
    (msg : option string) :
  Forall smallRow jobs -> Forall smallRow (fst (UpdateJobStatus db jobs jobID st msg)).
Proof.
  intros H. unfold UpdateJobStatus. destruct (execError db); [exact H|]. simpl.
  apply Forall_forall. intros r Hin. apply list_elem_of_In in Hin.
  apply in_map_iff in Hin as (r0 & <- & Hin0).
  rewrite Forall_forall in H. apply list_elem_of_In in Hin0. specialize (H r0 Hin0).
  destruct (id r0 =? jobID); [exact H|exact H].
Qed.

Lemma smallRow_increment (db : Db) (jobs : list Row) (jobID next : Z) (msg : string) :
  Forall smallRow jobs -> Forall smallRow (fst (IncrementJobRetries db jobs jobID next msg)).
Proof.
  intros H. unfold IncrementJobRetries. destruct (execError db); [exact H|]. simpl.
  apply Forall_forall. intros r Hin. apply list_elem_of_In in Hin.
  apply in_map_iff in Hin as (r0 & <- & Hin0).
  rewrite Forall_forall in H. apply list_elem_of_In in Hin0. specialize (H r0 Hin0).
  destruct (id r0 =? jobID); [|exact H]. destruct H as [H1 H2]. split; simpl; [lia|exact H2].
Qed.

Lemma smallRow_processJob (w : JobWorld) (jobs jobs' : list Row) (job : Job) :
  Forall smallRow jobs -> processJob w jobs job = Some jobs' -> Forall smallRow jobs'.
Proof.
  intros H. unfold processJob, MarkJobProcessing, MarkJobCompleted.
  pose proof (smallRow_update (markDb w) jobs (ID job) "processing" None H) as H1.
  destruct (UpdateJobStatus (markDb w) jobs (ID job) "processing" None) as [jobs1 [e|]];
    simpl in H1; [intros [= <-]; exact H|].
  destruct (limiterError w); [intros [= <-]; exact H1|].
  destruct (if knownType (Type_ job) then handlerError w
            else Some ("未知任务类型: " +:+ Type_ job)) as [e|].
  - unfold RetryJob. destruct (MaxRetries job <=? Retries job).
    + unfold MarkJobFailed.
      pose proof (smallRow_update (retryDb w) jobs1 (ID job) "failed"
                    (Some ("达到最大重试次数: " +:+ e)) H1) as H2.
      destruct (UpdateJobStatus (retryDb w) jobs1 (ID job) "failed" _) as [jobs2 x].
      intros [= <-]. exact H2.
    + destruct (backoff (Retries job)) as [d|]; [|discriminate].
      pose proof (smallRow_increment (retryDb w) jobs1 (ID job) (retryNow w + d) e H1) as H2.
      destruct (IncrementJobRetries (retryDb w) jobs1 (ID job) (retryNow w + d) e)
        as [jobs2 x].
      intros [= <-]. exact H2.
  - intros [= <-]. apply smallRow_update. exact H1.
Qed.

Lemma small_Enqueue (db : Db) (lastInsertIdError : option string) (t t' : JobTable)
    (q q' : JobQueue) (jobType payloadJSON : string) (maxRetries : Z) (ret : Z + string) :
  maxRetries <= 3 -> small t q ->
  Enqueue db lastInsertIdError t q jobType payloadJSON maxRetries = (t', q', ret) ->
  small t' q'.
Proof.
  intros Hm [Hrows Hq]. unfold Enqueue, CreateJob.
  destruct (execError db) as [e|]; [intros [= <- <- <-]; split; assumption|].
  assert (Hrows' : Forall smallRow
            (rows t ++ [mkRow (nextID t) jobType payloadJSON "pending" 0 maxRetries
                          (dbNow db) None (dbNow db) (dbNow db)])).
  { apply Forall_app. split; [exact Hrows|]. constructor; [|constructor].
    split; simpl; lia. }
  destruct lastInsertIdError as [e|]; intros [= <- <- <-]; [split; assumption|].
  split; [exact Hrows'|]. unfold trySend.
  destruct (Z.of_nat (length (queue q)) <? maxCapacity q); simpl; [|exact Hq].
  apply Forall_app. split; [exact Hq|]. constructor; [|constructor].
  split; simpl; lia.
Qed.

Lemma small_loadRows (parses : string -> bool) (jobs : list Row) (q : JobQueue) :
  Forall smallRow jobs -> Forall smallJob (queue q) ->
  Forall smallJob (queue (loadRows parses jobs q)).
Proof.
  intros Hjobs. revert q. induction Hjobs as [|r jobs Hr _ IH]; intros q Hq; simpl;
    [exact Hq|].
  destruct (parses (payload r)); [|apply IH; exact Hq].
  apply IH. unfold trySend.
  destruct (Z.of_nat (length (queue q)) <? maxCapacity q); simpl; [|exact Hq].
  apply Forall_app. split; [exact Hq|]. constructor; [exact Hr|constructor].
Qed.

(** The jobs this program submits have [max_retries] 2 or 3, and nothing
    changes the [max_retries] of a row or makes its retries negative:
    every row of the table and every job in the channel keeps its
    retries at 0 or more and its [max_retries] at 3 or less, through the
    three ways of submitting a job, through the loader and through the
    worker.  These are the jobs [RetryJob] is called with. *)
Lemma submitted_jobs_stay_small (db : Db) (lastInsertIdError : option string)
    (t : JobTable) (q : JobQueue) (payloadJSON : string) :
  small t q ->
  (forall t' q' ret,
     Manager.SubmitRedeemTask db lastInsertIdError t q payloadJSON = (t', q', ret) ->
     small t' q') /\
  (forall t' q' ret,
     Manager.SubmitRetryTask db lastInsertIdError t q payloadJSON = (t', q', ret) ->
     small t' q') /\
  (forall t' q' ret,
     Manager.SubmitSupplementTask db lastInsertIdError t q payloadJSON = (t', q', ret) ->
     small t' q') /\
  (forall queryError parses now, small t (loadBatch queryError parses now t q)) /\
  (forall w job jobs',
     processJob w (rows t) job = Some jobs' -> small (mkJobTable jobs' (nextID t)) q).
Proof.
  intros Hs. split; [|split; [|split; [|split]]].
  - intros t' q' ret H. eapply small_Enqueue; [|exact Hs|exact H]. lia.
  - intros t' q' ret H. eapply small_Enqueue; [|exact Hs|exact H]. lia.
  - intros t' q' ret H. eapply small_Enqueue; [|exact Hs|exact H]. lia.
  - intros queryError parses now. destruct Hs as [Hrows Hq]. split; [exact Hrows|].
    unfold loadBatch.
    destruct (maxCapacity q - Z.of_nat (length (queue q)) <=? 0); [exact Hq|].
    destruct (GetPendingJobs queryError now t _) as [jobs|e] eqn:Hget; [|exact Hq].
    apply small_loadRows; [|exact Hq].
    unfold GetPendingJobs in Hget. destruct queryError; [discriminate|].
    destruct (_ <? 0); [discriminate|]. injection Hget as <-.
    apply Forall_forall. intros r Hin. apply list_elem_of_In in Hin.
    apply In_take in Hin. apply (Permutation_in _ (orderByCreated_perm _)) in Hin.
    apply filter_In in Hin as [Hin _].
    rewrite Forall_forall in Hrows. apply Hrows. apply list_elem_of_In. exact Hin.
  - intros w job jobs' H. destruct Hs as [Hrows Hq]. split; [|exact Hq].
    simpl. eapply smallRow_processJob; eauto.
Qed.

End Life.

(** X22. The worker runs each job as it stands in the channel, with the
    retries the job had when it was put there, and does not read the row
    again.  When the handler keeps failing (or the type is unknown), a
    copy whose retries are below its [max_retries] adds one retry to the
    row and leaves it pending, whatever the row holds: after the copies
    of a job that wait in the channel have run, one after the other, the
    retries of the row are those it had plus the number of copies, so
    [max_retries] does not bound them.  A copy whose retries have reached its [max_retries]
    marks the row failed and leaves its retries as they are. *)
Theorem stale_copies_outrun_max_retries (w : nat -> Queue.JobWorld) (n : nat)
    (copies : list JobQueue.Job) (jobs : list JobQueue.Row) (jobID : Z) (r : JobQueue.Row) :
  (forall k, Queue.failing (w k)) ->
  Queue.findRow jobID jobs = Some r ->
  Forall (fun j => JobQueue.ID j = jobID /\
                   0 <= JobQueue.Retries j < JobQueue.MaxRetries j) copies ->
  (exists jobs' r',
     Queue.runCopies w n copies jobs = Some jobs' /\
     Queue.findRow jobID jobs' = Some r' /\
     JobQueue.max_retries r' = JobQueue.max_retries r /\
     JobQueue.retries r' = JobQueue.retries r + Z.of_nat (length copies) /\
     (copies <> [] -> JobQueue.status r' = "pending"%string)) /\
  (forall job, JobQueue.ID job = jobID ->
     0 <= JobQueue.Retries job -> JobQueue.MaxRetries job <= JobQueue.Retries job ->
     exists jobs' r',
       Queue.processJob (w n) jobs job = Some jobs' /\
       Queue.findRow jobID jobs' = Some r' /\
       JobQueue.status r' = "failed"%string /\
       JobQueue.retries r' = JobQueue.retries r /\
       JobQueue.max_retries r' = JobQueue.max_retries r).
Proof.
  intros Hw Hfind Hall. split.
  - exact (failing_copies w jobID copies Hw Hall n jobs r Hfind).
  - intros job Hid Hk Hmax. subst jobID.
    destruct (failing_run (w n) jobs job r (Hw n) Hfind Hk)
      as (jobs' & r' & Hrun & Hfind' & Hm & Hcase).
    assert (E : (JobQueue.MaxRetries job <=? JobQueue.Retries job) = true)
      by (apply Z.leb_le; exact Hmax).
    rewrite E in Hcase. destruct Hcase as [Hst Hr].
    exists jobs', r'. repeat split; assumption.
Qed.

Lemma stale_copies_outrun_max_retries_witness :
  exists jobs' r',
    Queue.runCopies SampleJobs.alwaysFailing 0
      [JobQueue.mkJob 7 "supplement_redeem" "{}" 0 2;
       JobQueue.mkJob 7 "supplement_redeem" "{}" 0 2;
       JobQueue.mkJob 7 "supplement_redeem" "{}" 1 2]
      [JobQueue.mkRow 7 "supplement_redeem" "{}" "pending" 0 2 0 None 0 0] = Some jobs' /\
    Queue.findRow 7 jobs' = Some r' /\
    JobQueue.max_retries r' = 2 /\
    JobQueue.retries r' = 3 /\
    JobQueue.status r' = "pending"%string.
Proof.
  destruct (stale_copies_outrun_max_retries SampleJobs.alwaysFailing 0
              [JobQueue.mkJob 7 "supplement_redeem" "{}" 0 2;
               JobQueue.mkJob 7 "supplement_redeem" "{}" 0 2;
               JobQueue.mkJob 7 "supplement_redeem" "{}" 1 2]
              [JobQueue.mkRow 7 "supplement_redeem" "{}" "pending" 0 2 0 None 0 0] 7
              (JobQueue.mkRow 7 "supplement_redeem" "{}" "pending" 0 2 0 None 0 0))
    as [(jobs' & r' & H1 & H2 & H3 & H4 & H5) _].
  - intros k. repeat split. exists "boom"%string. reflexivity.
  - reflexivity.
  - repeat constructor; simpl; lia.
  - exists jobs', r'. split; [exact H1|]. split; [exact H2|]. split; [exact H3|].
    split; [exact H4|]. apply H5. discriminate.
Defined.

(** ** The single-account flow *)

Section SingleFlow.

Import Single.

Lemma ops_app (l1 l2 : list Event) : ops (l1 ++ l2) = ops l1 ++ ops l2.
Proof.
  induction l1 as [|[op| |d] l1 IH]; simpl; [reflexivity| |exact IH|exact IH].
  rewrite IH. reflexivity.
Qed.

Lemma slept_app (l1 l2 : list Event) : slept (l1 ++ l2) = slept l1 + slept l2.
Proof.
  induction l1 as [|[op| |d] l1 IH]; simpl; [reflexivity|exact IH|exact IH|].
  rewrite IH. lia.
Qed.

Lemma calls_app (c : Gate.ApiCall) (l1 l2 : list Event) :
  calls c (l1 ++ l2) = calls c l1 + calls c l2.
Proof. unfold calls. rewrite List.filter_app, length_app. lia. Qed.

Lemma calls_nonneg (c : Gate.ApiCall) (l : list Event) : 0 <= calls c l.
Proof. unfold calls. lia. Qed.

(** Events without gate operations are API calls, as far as [Gate] sees. *)
Lemma ops_without_gate (l : list Event) :
  List.filter isGateOp l = [] -> exists cs, ops l = map Gate.Api cs.
Proof.
  induction l as [|[[| |c]| |d] l IH]; simpl; try discriminate.
  - exists []. reflexivity.
  - intros H. destruct (IH H) as (cs & ->). exists (c :: cs). reflexivity.
  - exact IH.
  - exact IH.
Qed.

Variable world : nat -> Reply.
Variable jitter : nat -> Z.
Variable fid giftCode : string.

Lemma jitter_bounds (n : nat) :
  200 * Millisecond
  <= wrap64 (wrap64 (200 + jitter n mod 600) * Millisecond)
  <= 799 * Millisecond.
Proof.
  pose proof (Z.mod_pos_bound (jitter n) 600 ltac:(lia)) as H.
  rewrite (wrap64_small (200 + jitter n mod 600)) by lia.
  unfold Millisecond. rewrite wrap64_small by lia. lia.
Qed.

Ltac split_matches :=
  repeat match goal with
         | |- context [match ?x with _ => _ end] => destruct x eqn:?
         end.

(** What one round of the loop adds to the events. *)
Lemma body_events (start attempt : Z) (lc le : string) (s s' : Run) (flow : Flow)
    (lc' le' : string) :
  body world jitter fid giftCode start attempt lc le s = (flow, lc', le', s') ->
  exists new, events s' = events s ++ new /\
              roundOf (if attempt =? maxRetries then 2 else 1) new.
Proof.
  unfold body, badCaptcha, getCaptcha, login, redeemCode, recognize, jitterSleep, sleep,
    called.
  pose proof (jitter_bounds (draws s)) as Hj.
  set (d := wrap64 (wrap64 (200 + jitter (draws s) mod 600) * Millisecond)) in *.
  clearbody d. cbn [fst snd step draws clock events].
  split_matches; intros [= <- <- <- <-]; cbn [events];
    (eexists; split; [rewrite <- ?app_assoc; reflexivity|]);
    unfold roundOf, calls, Second, Millisecond in *; cbn; repeat split; lia.
Qed.

Lemma wellFormed_normalize (t : string) :
  negb (Z.of_nat (length (normalize t [])) =? 4) = false ->
  Captcha.wellFormed (string_of_list_ascii (normalize t [])).
Proof.
  intros E. apply negb_false_iff in E. apply Z.eqb_eq in E.
  split; rewrite list_ascii_of_string_of_list_ascii; [lia|apply normalize_chars].
Qed.

Lemma RedeemCode_fatal_code (h : HttpOutcome) (r : GameResult) :
  RedeemCode h = inl r -> IsFatal r = true -> isFatalError (ErrCode r) = true.
Proof.
  intros H Hf. apply RedeemCode_fatal in H as [H|[H _]]; congruence.
Qed.

(** What a round returns when it ends the flow with a result. *)
Lemma body_result (start attempt : Z) (lc le : string) (s s' : Run) (r : RedeemResult.t)
    (lc' le' : string) :
  body world jitter fid giftCode start attempt lc le s = (Return r, lc', le', s') ->
  RedeemResult.FID r = fid /\ RedeemResult.GiftCode r = giftCode /\
  (RedeemResult.Success r = true ->
     RedeemResult.Stage r = "completed"%string /\ RedeemResult.ErrCode r = 20000 /\
     RedeemResult.Attempts r = attempt /\ RedeemResult.IsFatal r = false /\
     Captcha.wellFormed (RedeemResult.CaptchaRecognized r)) /\
  (RedeemResult.IsFatal r = true ->
     RedeemResult.Success r = false /\ RedeemResult.Stage r = "redeem"%string /\
     isFatalError (RedeemResult.ErrCode r) = true /\
     RedeemResult.Attempts r = attempt).
Proof.
  unfold body, badCaptcha, getCaptcha, login, redeemCode, recognize, failed.
  cbn [fst snd].
  split_matches; intros [= <- <- <- <-]; cbn;
    (split; [reflexivity|]); (split; [reflexivity|]);
    (split; [try discriminate|try discriminate]);
    intros _; repeat split; try reflexivity; try congruence;
    try (eapply RedeemCode_success; eassumption);
    try (apply wellFormed_normalize; assumption);
    try (eapply RedeemCode_fatal_code; eassumption).
Qed.

Lemma sound_exhausted (start : Z) (lc le : string) (s : Run) :
  sound fid giftCode (exhausted fid giftCode start lc le s).
Proof. unfold sound. simpl. repeat split; discriminate. Qed.

Lemma sound_body (start attempt : Z) (lc le : string) (s s' : Run) (r : RedeemResult.t)
    (lc' le' : string) :
  1 <= attempt <= 3 ->
  body world jitter fid giftCode start attempt lc le s = (Return r, lc', le', s') ->
  sound fid giftCode r.
Proof.
  intros Ha Hbody.
  destruct (body_result _ _ _ _ _ _ _ _ _ Hbody) as (Hf & Hg & Hsucc & Hfat).
  split; [exact Hf|]. split; [exact Hg|]. split.
  - intros H. destruct (Hsucc H) as (H1 & H2 & H3 & H4 & H5).
    split; [exact H1|]. split; [exact H2|]. split; [lia|]. split; [exact H4|exact H5].
  - intros H. destruct (Hfat H) as (H1 & H2 & H3 & H4).
    split; [exact H1|]. split; [exact H2|]. split; [exact H3|lia].
Qed.

(** The loop ends within three rounds. *)
Lemma loop_spec (start : Z) (fuel : nat) :
  forall (attempt : Z) (lc le : string) (s : Run),
    1 <= attempt <= 4 -> 4 - attempt <= Z.of_nat fuel ->
    exists res s' new,
      loop world jitter fid giftCode start fuel attempt lc le s = Some (res, s') /\
      events s' = events s ++ new /\
      List.filter isGateOp new = [] /\
      calls Gate.CallCaptcha new <= 4 - attempt /\
      calls Gate.CallRedeem new <= 4 - attempt /\
      calls Gate.CallLogin new <= (4 - attempt) + (if attempt <=? 3 then 1 else 0) /\
      0 <= slept new <= (4 - attempt) * (60 * Second + 799 * Millisecond) /\
      forall r, res = inl r -> sound fid giftCode r.
Proof.
  assert (Hidle : forall lc le s,
            exists res s' new,
              Some (inl (exhausted fid giftCode start lc le s) : RedeemResult.t + string, s)
                = Some (res, s') /\
              events s' = events s ++ new /\
              List.filter isGateOp new = [] /\
              calls Gate.CallCaptcha new <= 4 - 4 /\
              calls Gate.CallRedeem new <= 4 - 4 /\
              calls Gate.CallLogin new <= (4 - 4) + (if 4 <=? 3 then 1 else 0) /\
              0 <= slept new <= (4 - 4) * (60 * Second + 799 * Millisecond) /\
              forall r, res = inl r -> sound fid giftCode r).
  { intros lc le s. eexists. exists s, []. split; [reflexivity|].
    rewrite app_nil_r. unfold calls. simpl.
    do 6 (split; [try reflexivity; lia|]). intros r [= <-]. apply sound_exhausted. }
  induction fuel as [|fuel IH]; intros attempt lc le s Ha Hfuel.
  - assert (attempt = 4) as -> by lia. simpl. apply Hidle.
  - simpl loop. unfold maxRetries.
    destruct (attempt <=? 3) eqn:Ea; simpl negb; cbv iota.
    + apply Z.leb_le in Ea.
      destruct (body world jitter fid giftCode start attempt lc le s)
        as [[[flow lc1] le1] s1] eqn:Hbody.
      destruct (body_events _ _ _ _ _ _ _ _ _ Hbody)
        as (new1 & Hev1 & Hg1 & Hc1 & Hr1 & Hl1 & Hs1).
      assert (Hone : forall res : RedeemResult.t + string,
                (forall r, res = inl r -> sound fid giftCode r) ->
                exists res0 s' new,
                  Some (res, s1) = Some (res0, s') /\
                  events s' = events s ++ new /\
                  List.filter isGateOp new = [] /\
                  calls Gate.CallCaptcha new <= 4 - attempt /\
                  calls Gate.CallRedeem new <= 4 - attempt /\
                  calls Gate.CallLogin new <= 4 - attempt + 1 /\
                  0 <= slept new <= (4 - attempt) * (60 * Second + 799 * Millisecond) /\
                  forall r, res0 = inl r -> sound fid giftCode r).
      { intros res Hres. exists res, s1, new1. split; [reflexivity|]. split; [exact Hev1|].
        split; [exact Hg1|]. unfold maxRetries, Second, Millisecond in *.
        destruct (attempt =? 3) eqn:E3; rewrite ?E3 in Hl1;
          [apply Z.eqb_eq in E3|apply Z.eqb_neq in E3];
          (do 4 (split; [lia|])); exact Hres. }
      destruct flow as [r|err| |].
      * apply Hone. intros r0 [= <-]. eapply sound_body; [|exact Hbody]. lia.
      * apply Hone. intros r0 [=].
      * assert (Hincr : incr attempt = attempt + 1) by (apply incr_small; lia).
        rewrite Hincr.
        destruct (IH (attempt + 1) lc1 le1 s1) as
          (res & s' & new & Hloop & Hev & Hg & Hc & Hr & Hl & Hs & Hres); [lia|lia|].
        exists res, s', (new1 ++ new). split; [exact Hloop|].
        split; [rewrite Hev, Hev1, app_assoc; reflexivity|].
        split; [rewrite List.filter_app, Hg1, Hg; reflexivity|].
        rewrite !calls_app, slept_app. unfold maxRetries, Second, Millisecond in *.
        destruct (attempt =? 3) eqn:E3; rewrite ?E3 in Hl1;
          [apply Z.eqb_eq in E3|apply Z.eqb_neq in E3].
        -- subst attempt. change (3 + 1 <=? 3) with false in Hl. cbv iota in Hl.
           (do 4 (split; [lia|])); exact Hres.
        -- assert (E4 : (attempt + 1 <=? 3) = true) by (apply Z.leb_le; lia).
           rewrite E4 in Hl. (do 4 (split; [lia|])); exact Hres.
      * apply Hone. intros r0 [= <-]. apply sound_exhausted.
    + apply Z.leb_gt in Ea. assert (attempt = 4) as -> by lia. apply Hidle.
Qed.

Lemma loop_mono (start : Z) (fuel : nat) :
  forall (fuel' : nat) (attempt : Z) (lc le : string) (s : Run)
         (out : (RedeemResult.t + string) * Run),
    (fuel <= fuel')%nat ->
    loop world jitter fid giftCode start fuel attempt lc le s = Some out ->
    loop world jitter fid giftCode start fuel' attempt lc le s = Some out.
Proof.
  induction fuel as [|fuel IH]; intros fuel' attempt lc le s out Hle.
  - simpl. destruct (negb (attempt <=? maxRetries)) eqn:E; [|discriminate].
    intros H. destruct fuel'; simpl; rewrite E; exact H.
  - destruct fuel' as [|fuel']; [lia|]. simpl.
    destruct (negb (attempt <=? maxRetries)); [auto|].
    destruct (body world jitter fid giftCode start attempt lc le s)
      as [[[[r|err| |] lc1] le1] s1]; auto.
    apply IH. lia.
Qed.

Lemma RedeemSingle_mono (fuel fuel' : nat) (now : Z)
    (out : (RedeemResult.t + string) * Run) :
  (fuel <= fuel')%nat ->
  RedeemSingle world jitter fid giftCode fuel now = Some out ->
  RedeemSingle world jitter fid giftCode fuel' now = Some out.
Proof.
  unfold RedeemSingle. intros Hle. cbv zeta. cbn [clock].
  destruct (login world _) as [[loginResult|err] s1]; [|auto].
  destruct (negb (Success loginResult)); [auto|].
  destruct (loop world jitter fid giftCode now fuel 1 "" "" s1) as [o|] eqn:E;
    [|simpl; discriminate].
  rewrite (loop_mono _ _ fuel' _ _ _ _ _ Hle E). auto.
Qed.

(** The flow as a whole. *)
Lemma RedeemSingle_spec (fuel : nat) (now : Z) :
  (3 <= fuel)%nat ->
  exists res s,
    RedeemSingle world jitter fid giftCode fuel now = Some (res, s) /\
    (exists cs, ops (events s) = Gate.RedeemSingle (Gate.CallLogin :: cs)) /\
    calls Gate.CallCaptcha (events s) <= 3 /\
    calls Gate.CallRedeem (events s) <= 3 /\
    calls Gate.CallLogin (events s) <= 5 /\
    0 <= slept (events s) <= 3 * (60 * Second + 799 * Millisecond) /\
    forall r, res = inl r -> sound fid giftCode r.
Proof.
  intros Hfuel. unfold RedeemSingle. cbv zeta. unfold login. cbn [fst snd clock step].
  set (s1 := called world (Did (Gate.Api Gate.CallLogin)) (mkRun 0 0 now [Did Gate.Acquire])).
  assert (Hfail : forall r : RedeemResult.t,
            RedeemResult.Success r = false -> RedeemResult.IsFatal r = false ->
            RedeemResult.FID r = fid -> RedeemResult.GiftCode r = giftCode ->
            exists res s,
              Some (inl r : RedeemResult.t + string,
                    mkRun (step s1) (draws s1) (clock s1) (events s1 ++ [Did Gate.Release]))
                = Some (res, s) /\
              (exists cs, ops (events s) = Gate.RedeemSingle (Gate.CallLogin :: cs)) /\
              calls Gate.CallCaptcha (events s) <= 3 /\
              calls Gate.CallRedeem (events s) <= 3 /\
              calls Gate.CallLogin (events s) <= 5 /\
              0 <= slept (events s) <= 3 * (60 * Second + 799 * Millisecond) /\
              forall r0, res = inl r0 -> sound fid giftCode r0).
  { intros r Hs Hf Hfid Hcode. eexists. eexists. split; [reflexivity|].
    split; [exists []; reflexivity|]. unfold calls, Second, Millisecond. simpl.
    do 4 (split; [lia|]). intros r0 [= <-]. unfold sound.
    rewrite Hs, Hf. split; [exact Hfid|]. split; [exact Hcode|].
    split; discriminate. }
  destruct (Login (http (world 0%nat)) (stamp (world 0%nat))) as [loginResult|err].
  - destruct (negb (Success loginResult)).
    + apply Hfail; reflexivity.
    + destruct (loop_spec now fuel 1 "" "" s1) as
        (res & s' & new & Hloop & Hev & Hg & Hc & Hr & Hl & Hs & Hres); [lia|lia|].
      rewrite Hloop. simpl fmap. exists res. eexists. split; [reflexivity|].
      cbn [events fst snd]. rewrite Hev.
      change (events s1) with [Did Gate.Acquire; Did (Gate.Api Gate.CallLogin)].
      destruct (ops_without_gate new Hg) as (cs & Hcs).
      split.
      { exists cs. rewrite !ops_app, Hcs. reflexivity. }
      rewrite !calls_app, !slept_app.
      change (calls Gate.CallCaptcha [Did Gate.Acquire; Did (Gate.Api Gate.CallLogin)]) with 0.
      change (calls Gate.CallRedeem [Did Gate.Acquire; Did (Gate.Api Gate.CallLogin)]) with 0.
      change (calls Gate.CallLogin [Did Gate.Acquire; Did (Gate.Api Gate.CallLogin)]) with 1.
      change (calls Gate.CallCaptcha [Did Gate.Release]) with 0.
      change (calls Gate.CallRedeem [Did Gate.Release]) with 0.
      change (calls Gate.CallLogin [Did Gate.Release]) with 0.
      change (slept [Did Gate.Acquire; Did (Gate.Api Gate.CallLogin)]) with 0.
      change (slept [Did Gate.Release]) with 0.
      change (1 <=? 3) with true in Hl. unfold Second, Millisecond in *.
      do 4 (split; [lia|]). exact Hres.
  - apply Hfail; reflexivity.
Qed.

End SingleFlow.

(** X23. [RedeemSingle] always returns, within three rounds of its retry
    loop: a call makes at most three captcha requests, three claims and
    five logins, and sleeps less than 182.4 seconds in all. *)
Theorem RedeemSingle_returns_within_three_rounds (world : nat -> Single.Reply)
    (jitter : nat -> Z) (fid giftCode : string) (fuel : nat) (now : Z) :
  (3 <= fuel)%nat ->
  exists res s,
    Single.RedeemSingle world jitter fid giftCode fuel now = Some (res, s) /\
    Single.calls Gate.CallCaptcha (Single.events s) <= 3 /\
    Single.calls Gate.CallRedeem (Single.events s) <= 3 /\
    Single.calls Gate.CallLogin (Single.events s) <= 5 /\
    0 <= Single.slept (Single.events s) <= 3 * (60 * Second + 799 * Millisecond).
Proof.
  intros Hfuel.
  destruct (RedeemSingle_spec world jitter fid giftCode fuel now Hfuel)
    as (res & s & H & _ & H1 & H2 & H3 & H4 & _).
  exists res, s. auto.
Qed.

Lemma RedeemSingle_returns_within_three_rounds_witness :
  exists res s,
    Single.RedeemSingle SampleRuns.turnedDown SampleRuns.noJitter "fid-1" "ABC123" 3 0
      = Some (res, s) /\
    Single.calls Gate.CallCaptcha (Single.events s) <= 3 /\
    Single.calls Gate.CallRedeem (Single.events s) <= 3 /\
    Single.calls Gate.CallLogin (Single.events s) <= 5 /\
    0 <= Single.slept (Single.events s) <= 3 * (60 * Second + 799 * Millisecond).
Proof.
  apply (RedeemSingle_returns_within_three_rounds SampleRuns.turnedDown SampleRuns.noJitter
           "fid-1" "ABC123" 3 0). lia.
Defined.

(** X24. Every call of [RedeemSingle] passes the gate: what it does is to
    acquire the gate, log in, make its other API calls, and release the
    gate, in this order; it is a flow [Gate.RedeemSingle] in the sense of
    the gate. *)
Theorem RedeemSingle_passes_the_gate (world : nat -> Single.Reply) (jitter : nat -> Z)
    (fid giftCode : string) (fuel : nat) (now : Z)
    (res : RedeemResult.t + string) (s : Single.Run) :
  Single.RedeemSingle world jitter fid giftCode fuel now = Some (res, s) ->
  exists cs, Single.ops (Single.events s) = Gate.RedeemSingle (Gate.CallLogin :: cs).
Proof.
  intros H.
  apply (RedeemSingle_mono world jitter fid giftCode fuel (fuel + 3)) in H; [|lia].
  destruct (RedeemSingle_spec world jitter fid giftCode (fuel + 3) now ltac:(lia))
    as (res' & s' & H' & Hops & _).
  rewrite H in H'. injection H' as <- <-. exact Hops.
Qed.

Lemma RedeemSingle_passes_the_gate_witness :
  exists res s,
    Single.RedeemSingle SampleRuns.smooth SampleRuns.noJitter "fid-1" "ABC123" 3 0
      = Some (res, s) /\
    Single.ops (Single.events s) = Gate.RedeemSingle Gate.sampleCalls /\
    exists cs, Single.ops (Single.events s) = Gate.RedeemSingle (Gate.CallLogin :: cs).
Proof.
  eexists. eexists. split; [vm_compute; reflexivity|]. split; [vm_compute; reflexivity|].
  eapply (RedeemSingle_passes_the_gate SampleRuns.smooth SampleRuns.noJitter
            "fid-1" "ABC123" 3 0).
  vm_compute. reflexivity.
Defined.

(** X25. The result of [RedeemSingle] is sound: it reports success only
    for a claim answered with 20000, in one of the three rounds, with a
    captcha of four characters; it flags the result fatal only for a claim
    answered with 40007 or 40014; and never both.  A login or a captcha
    request that fails with one of these codes does not make the result
    fatal. *)
Theorem RedeemSingle_result_is_sound (world : nat -> Single.Reply) (jitter : nat -> Z)
    (fid giftCode : string) (fuel : nat) (now : Z) (r : RedeemResult.t) (s : Single.Run) :
  Single.RedeemSingle world jitter fid giftCode fuel now = Some (inl r, s) ->
  Single.sound fid giftCode r.
Proof.
  intros H.
  apply (RedeemSingle_mono world jitter fid giftCode fuel (fuel + 3)) in H; [|lia].
  destruct (RedeemSingle_spec world jitter fid giftCode (fuel + 3) now ltac:(lia))
    as (res' & s' & H' & _ & _ & _ & _ & _ & Hres).
  rewrite H in H'. injection H' as <- <-. apply Hres. reflexivity.
Qed.

Lemma RedeemSingle_result_is_sound_witness :
  exists r s,
    Single.RedeemSingle SampleRuns.smooth SampleRuns.noJitter "fid-1" "ABC123" 3 0
      = Some (inl r, s) /\
    RedeemResult.Success r = true /\
    Single.sound "fid-1" "ABC123" r.
Proof.
  eexists. eexists. split; [vm_compute; reflexivity|]. split; [reflexivity|].
  eapply (RedeemSingle_result_is_sound SampleRuns.smooth SampleRuns.noJitter
            "fid-1" "ABC123" 3 0).
  vm_compute. reflexivity.
Defined.

(** ** The worker: redeem jobs *)

Section WorkerQueries.

Import LogRepo LogQueries.

Lemma insertByCreatedDesc_perm (a : Model.Account.t) (l : list Model.Account.t) :
  Permutation (Worker.insertByCreatedDesc a l) (a :: l).
Proof.
  induction l as [|x l IH]; simpl; [reflexivity|].
  destruct (Model.Account.CreatedAt x <=? Model.Account.CreatedAt a); [reflexivity|].
  rewrite IH. apply perm_swap.
Qed.

Lemma byCreatedDesc_perm (l : list Model.Account.t) :
  Permutation (fold_right Worker.insertByCreatedDesc [] l) l.
Proof.
  induction l as [|x l IH]; simpl; [reflexivity|].
  rewrite insertByCreatedDesc_perm, IH. reflexivity.
Qed.

Lemma readRows_In {A : Type} (st : Stmt) (found : list A) (x : A) :
  In x (readRows st found) -> In x found.
Proof. unfold readRows. destruct (rowsErr st); [apply In_take|auto]. Qed.

Lemma readRows_whole {A : Type} (st : Stmt) (found : list A) :
  rowsErr st = None -> readRows st found = found.
Proof. unfold readRows. intros ->. reflexivity. Qed.

Lemma readRows_length {A : Type} (st : Stmt) (found : list A) :
  (length (readRows st found) <= length found)%nat.
Proof. unfold readRows. destruct (rowsErr st); [rewrite length_take|]; lia. Qed.

Lemma GetActive_read (st : Stmt) (table l : list Model.Account.t) :
  Worker.GetActive st table = inl l ->
  l = readRows st (fold_right Worker.insertByCreatedDesc []
                     (List.filter Model.Account.IsActive table)).
Proof.
  unfold Worker.GetActive. destruct (execError st); [discriminate|]. cbv zeta.
  destruct (resultError st); destruct (readRows st _); congruence.
Qed.

(** [GetActive] lists active accounts of the table: all of them when the
    rows are read to the end. *)
Lemma GetActive_In (st : Stmt) (table l : list Model.Account.t) :
  Worker.GetActive st table = inl l ->
  forall a, In a l -> In a table /\ Model.Account.IsActive a = true.
Proof.
  intros H a Hin. apply GetActive_read in H. subst l. apply readRows_In in Hin.
  apply filter_In. eapply Permutation_in; [apply byCreatedDesc_perm|exact Hin].
Qed.

Lemma GetActive_whole (st : Stmt) (table l : list Model.Account.t) :
  rowsErr st = None -> Worker.GetActive st table = inl l ->
  forall a, In a table -> Model.Account.IsActive a = true -> In a l.
Proof.
  intros Hrows H a Hin Hact. apply GetActive_read in H. subst l.
  rewrite readRows_whole by exact Hrows.
  eapply Permutation_in; [symmetry; apply byCreatedDesc_perm|].
  apply filter_In. auto.
Qed.

Lemma GetActive_length (st : Stmt) (table l : list Model.Account.t) :
  Worker.GetActive st table = inl l -> (length l <= length table)%nat.
Proof.
  intros H. apply GetActive_read in H. subst l.
  pose proof (readRows_length st (fold_right Worker.insertByCreatedDesc []
                                    (List.filter Model.Account.IsActive table))) as H1.
  rewrite (Permutation_length (byCreatedDesc_perm _)) in H1.
  pose proof (List.filter_length_le Model.Account.IsActive table). lia.
Qed.

Lemma named_spec (w : Worker.World) (table : list Model.Account.t) (ids : list Z) :
  forall (k : nat) (acc sel : list Model.Account.t),
    Worker.named w table ids k acc = inl sel ->
    exists more,
      sel = acc ++ more /\ (length more <= length ids)%nat /\
      (forall a, In a more ->
         In a table /\ Model.Account.IsActive a = true /\ In (Model.Account.ID a) ids) /\
      (Worker.wholeAccounts w ->
       forall a, In a table -> Model.Account.IsActive a = true ->
         In (Model.Account.ID a) ids ->
         exists a', In a' more /\ Model.Account.ID a' = Model.Account.ID a).
Proof.
  induction ids as [|accountID rest IH]; intros k acc sel H; simpl in H.
  - injection H as <-. exists []. rewrite app_nil_r. simpl.
    split; [reflexivity|]. split; [lia|]. split; intros a; [intros []|intros _ _ _ []].
  - destruct (Worker.GetActive (Worker.getActive w k) table) as [allAccounts|e] eqn:Hget;
      [|discriminate].
    pose proof (GetActive_In _ _ _ Hget) as Hact.
    destruct (find (fun acc0 => Model.Account.ID acc0 =? accountID) allAccounts)
      as [hit|] eqn:Hfind;
      apply IH in H as (more & -> & Hlen & Hin & Hall).
    + apply find_some in Hfind as [Hhit Hid]. apply Z.eqb_eq in Hid.
      apply Hact in Hhit as [Hhit Hactive].
      exists (hit :: more). rewrite <- app_assoc. simpl.
      split; [reflexivity|]. split; [lia|]. split.
      * intros a [<-|Ha]; [auto|]. apply Hin in Ha as (? & ? & ?). auto.
      * intros Hwhole a Ha Hactive' [Heq|Hrest].
        -- exists hit. split; [now left|]. congruence.
        -- destruct (Hall Hwhole a Ha Hactive' Hrest) as (a' & Ha' & Hid').
           exists a'. split; [now right|exact Hid'].
    + exists more. split; [reflexivity|]. simpl. split; [lia|]. split.
      * intros a Ha. apply Hin in Ha as (? & ? & ?). auto.
      * intros Hwhole a Ha Hactive' [Heq|Hrest]; [|auto].
        exfalso.
        assert (Hina : In a allAccounts)
          by (apply (GetActive_whole _ _ _ (Hwhole k) Hget); auto).
        apply (find_none _ _ Hfind) in Hina. simpl in Hina.
        apply Z.eqb_neq in Hina. congruence.
Qed.

Lemma len_nil {A : Type} (l : list A) : (0 <? Worker.len l) = false <-> l = [].
Proof.
  unfold Worker.len. destruct l; simpl; split; intros H; try reflexivity; try discriminate.
Qed.

(** The accounts of a redeem job. *)
Lemma selectAccounts_spec (w : Worker.World) (table : list Model.Account.t) (ids : list Z)
    (sel : list Model.Account.t) :
  Worker.selectAccounts w table ids = inl sel ->
  (forall a, In a sel -> In a table /\ Model.Account.IsActive a = true) /\
  (ids = [] ->
   (forall a, In a sel -> Model.Account.IsVerified a = true) /\
   (LogQueries.rowsErr (Worker.getActive w 0) = None ->
    forall a, In a table -> Model.Account.IsActive a = true ->
      Model.Account.IsVerified a = true -> In a sel)) /\
  (ids <> [] ->
   (length sel <= length ids)%nat /\
   (forall a, In a sel -> In (Model.Account.ID a) ids) /\
   (Worker.wholeAccounts w ->
    forall a, In a table -> Model.Account.IsActive a = true ->
      In (Model.Account.ID a) ids ->
      exists a', In a' sel /\ Model.Account.ID a' = Model.Account.ID a)).
Proof.
  unfold Worker.selectAccounts. destruct (0 <? Worker.len ids) eqn:E.
  - intros H. apply named_spec in H as (more & -> & Hlen & Hin & Hall). simpl.
    assert (Hne : ids <> []) by (intros ->; discriminate).
    split; [intros a Ha; apply Hin in Ha as (? & ? & ?); auto|].
    split; [contradiction|]. intros _.
    split; [exact Hlen|]. split; [|exact Hall].
    intros a Ha. apply Hin in Ha as (? & ? & ?). auto.
  - apply len_nil in E. subst ids.
    destruct (Worker.GetActive (Worker.getActive w 0) table) as [allAccounts|e] eqn:Hget;
      [|discriminate].
    intros [= <-]. pose proof (GetActive_In _ _ _ Hget) as Hact.
    split; [intros a Ha; apply filter_In in Ha as [Ha _]; apply Hact; exact Ha|].
    split; [|contradiction]. intros _. split.
    + intros a Ha. apply filter_In in Ha as [_ Hv]. exact Hv.
    + intros Hwhole a Ha Hactive Hv. apply filter_In. split; [|exact Hv].
      apply (GetActive_whole _ _ _ Hwhole Hget); assumption.
Qed.

Lemma selectAccounts_length (w : Worker.World) (table : list Model.Account.t) (ids : list Z)
    (sel : list Model.Account.t) :
  Worker.selectAccounts w table ids = inl sel ->
  (length sel <= Nat.max (length table) (length ids))%nat.
Proof.
  intros H. destruct ids as [|i ids].
  - unfold Worker.selectAccounts in H. simpl in H.
    destruct (Worker.GetActive (Worker.getActive w 0) table) as [allAccounts|e] eqn:Hget;
      [|discriminate].
    injection H as <-. apply GetActive_length in Hget.
    pose proof (List.filter_length_le Model.Account.IsVerified allAccounts). lia.
  - apply selectAccounts_spec in H as (_ & _ & H).
    destruct H as (Hlen & _); [discriminate|]. lia.
Qed.

End WorkerQueries.

Section WorkerLogs.

Import LogRepo LogQueries.

Lemma filter_true_bool {A : Type} (p : A -> bool) (l : list A) :
  filter (fun x => p x = true) l = List.filter p l.
Proof.
  induction l as [|x l IH]; [reflexivity|]. simpl. destruct (p x) eqn:E.
  - rewrite filter_cons_True by assumption. now rewrite IH.
  - rewrite filter_cons_False by congruence. exact IH.
Qed.

Lemma filter_false_bool {A : Type} (p : A -> bool) (l : list A) :
  filter (fun x => p x = false) l = List.filter (fun x => negb (p x)) l.
Proof.
  induction l as [|x l IH]; [reflexivity|]. simpl. destruct (p x) eqn:E; simpl.
  - rewrite filter_cons_False by congruence. exact IH.
  - rewrite filter_cons_True by assumption. now rewrite IH.
Qed.

(** What a call does to the rows: nothing, or the replacement. *)
Lemma Replace_rows (db : Db) (t : Table) (c a : Z) (o : Outcome) :
  fst (ReplaceRedeemLog db t c a o) = t \/
  rows (fst (ReplaceRedeemLog db t c a o))
    = List.filter (fun r => negb (samePair c a r)) (rows t) ++ [logOf db (nextID t) c a o].
Proof.
  destruct (ReplaceRedeemLog db t c a o) as [t' ret] eqn:E.
  apply ReplaceRedeemLog_cases in E as [[-> _]|[Hrows _]]; simpl; [now left|].
  right. rewrite Hrows, filter_false_bool. reflexivity.
Qed.

Lemma Replace_rows_healthy (db : Db) (t : Table) (c a : Z) (o : Outcome) :
  Worker.healthy db ->
  rows (fst (ReplaceRedeemLog db t c a o))
    = List.filter (fun r => negb (samePair c a r)) (rows t) ++ [logOf db (nextID t) c a o].
Proof.
  intros (Hb & Hd & Hi & Hc). unfold ReplaceRedeemLog. rewrite Hb, Hd, Hi, Hc.
  destruct (lastInsertIdError db); simpl; rewrite filter_false_bool; reflexivity.
Qed.

Lemma samePair_other (c a a' : Z) (r : RedeemLog) :
  a' <> a -> samePair c a' r = true -> samePair c a r = false.
Proof.
  unfold samePair. intros Hne H. apply andb_prop in H as [_ H]. apply Z.eqb_eq in H.
  apply andb_false_iff. right. apply Z.eqb_neq. congruence.
Qed.

Lemma samePair_logOf_other (db : Db) (newID c a a' : Z) (o : Outcome) :
  a' <> a -> samePair c a' (logOf db newID c a o) = false.
Proof.
  intros Hne. unfold samePair, logOf. simpl. apply andb_false_iff. right.
  apply Z.eqb_neq. congruence.
Qed.

Lemma samePair_ofCode (c c' a : Z) (r : RedeemLog) :
  c' <> c -> ofCode c' r = true -> samePair c a r = false.
Proof.
  unfold samePair, ofCode. intros Hne H. apply Z.eqb_eq in H.
  apply andb_false_iff. left. apply Z.eqb_neq. congruence.
Qed.

Lemma Replace_other_account (db : Db) (t : Table) (c a a' : Z) (o : Outcome) :
  a' <> a ->
  Worker.logsOf (fst (ReplaceRedeemLog db t c a o)) c a' = Worker.logsOf t c a'.
Proof.
  intros Hne. unfold Worker.logsOf.
  destruct (Replace_rows db t c a o) as [-> | ->]; [reflexivity|].
  rewrite List.filter_app. simpl. rewrite samePair_logOf_other by exact Hne.
  rewrite app_nil_r. apply filter_filter_other. intros r. apply samePair_other. exact Hne.
Qed.

Lemma Replace_other_code (db : Db) (t : Table) (c c' a : Z) (o : Outcome) :
  c' <> c ->
  List.filter (ofCode c') (rows (fst (ReplaceRedeemLog db t c a o)))
    = List.filter (ofCode c') (rows t).
Proof.
  intros Hne. destruct (Replace_rows db t c a o) as [-> | ->]; [reflexivity|].
  rewrite List.filter_app. simpl.
  replace (ofCode c' (logOf db (nextID t) c a o)) with false
    by (symmetry; unfold ofCode, logOf; simpl; apply Z.eqb_neq; congruence).
  rewrite app_nil_r. apply filter_filter_other. intros r. apply samePair_ofCode. exact Hne.
Qed.

Lemma Replace_this_account (db : Db) (t : Table) (c a : Z) (o : Outcome) :
  Worker.healthy db ->
  Worker.logsOf (fst (ReplaceRedeemLog db t c a o)) c a = [logOf db (nextID t) c a o].
Proof.
  intros H. unfold Worker.logsOf. rewrite Replace_rows_healthy by exact H.
  rewrite List.filter_app, filter_filter_neg. simpl. now rewrite samePair_logOf.
Qed.

Variable w : Worker.World.
Variable message : string -> string.
Variable redeemCode : Model.RedeemCode.t.

Lemma writeLogs_other_account (a : Z) (results : list BatchRedeemResult.t) :
  forall (k : nat) (t : Table) (sc fc : Z),
    ~ In a (map BatchRedeemResult.AccountID results) ->
    Worker.logsOf (Worker.writeLogs w message redeemCode results k t sc fc).1.1
      (Model.RedeemCode.ID redeemCode) a
      = Worker.logsOf t (Model.RedeemCode.ID redeemCode) a.
Proof.
  induction results as [|res rest IH]; intros k t sc fc Hnot; [reflexivity|].
  simpl in Hnot. simpl.
  destruct (BatchRedeemResult.Success res); rewrite IH by tauto;
    apply Replace_other_account; intros ->; tauto.
Qed.

Lemma writeLogs_other_code (c' : Z) (results : list BatchRedeemResult.t) :
  forall (k : nat) (t : Table) (sc fc : Z),
    c' <> Model.RedeemCode.ID redeemCode ->
    List.filter (ofCode c') (rows (Worker.writeLogs w message redeemCode results k t sc fc).1.1)
      = List.filter (ofCode c') (rows t).
Proof.
  induction results as [|res rest IH]; intros k t sc fc Hne; [reflexivity|].
  simpl. destruct (BatchRedeemResult.Success res); rewrite IH by exact Hne;
    apply Replace_other_code; exact Hne.
Qed.

Lemma writeLogs_this_account (Hw : Worker.healthyLogs w) (a : Z)
    (results : list BatchRedeemResult.t) :
  forall (k : nat) (t : Table) (sc fc : Z),
    In a (map BatchRedeemResult.AccountID results) ->
    exists row res,
      Worker.logsOf (Worker.writeLogs w message redeemCode results k t sc fc).1.1
      (Model.RedeemCode.ID redeemCode) a = [row] /\
      In res results /\ BatchRedeemResult.AccountID res = a /\
      fid row = BatchRedeemResult.FID res /\
      code row = Model.RedeemCode.Code redeemCode /\
      result row = (if BatchRedeemResult.Success res then "success" else "failed")%string.
Proof.
  induction results as [|res rest IH]; intros k t sc fc Hin; [destruct Hin|].
  destruct (in_dec Z.eq_dec a (map BatchRedeemResult.AccountID rest)) as [Hrest|Hrest].
  - simpl. destruct (BatchRedeemResult.Success res) eqn:Es;
      edestruct (IH (S k)) as (row & res' & Hl & Hres & Hrow); try exact Hrest;
      exists row, res'; (split; [exact Hl|]); (split; [now right|exact Hrow]).
  - destruct Hin as [Ha|Hin]; [|contradiction].
    eexists. exists res. simpl.
    split.
    { destruct (BatchRedeemResult.Success res);
        rewrite writeLogs_other_account by exact Hrest;
        rewrite <- Ha; apply Replace_this_account; apply Hw. }
    split; [now left|]. split; [exact Ha|]. simpl. auto.
Qed.

Lemma writeLogs_counts (results : list BatchRedeemResult.t) :
  forall (k : nat) (t : Table) (sc fc : Z),
    0 <= sc -> 0 <= fc -> sc + fc + Worker.len results < 2 ^ 63 ->
    let out := Worker.writeLogs w message redeemCode results k t sc fc in
    0 <= out.1.2 /\ 0 <= out.2 /\ out.1.2 + out.2 = sc + fc + Worker.len results.
Proof.
  unfold Worker.len. cbv zeta.
  induction results as [|res rest IH]; intros k t sc fc Hs Hf Hb; [simpl; lia|].
  change (length (res :: rest)) with (S (length rest)) in *.
  simpl. destruct (BatchRedeemResult.Success res).
  - rewrite (incr_small sc) by lia.
    match goal with
    | |- context [Worker.writeLogs _ _ _ rest ?k' ?t' ?s' ?f'] =>
        destruct (IH k' t' s' f') as (H1 & H2 & H3); [lia|lia|lia|]
    end.
    split; [exact H1|]. split; [exact H2|]. rewrite H3. lia.
  - rewrite (incr_small fc) by lia.
    match goal with
    | |- context [Worker.writeLogs _ _ _ rest ?k' ?t' ?s' ?f'] =>
        destruct (IH k' t' s' f') as (H1 & H2 & H3); [lia|lia|lia|]
    end.
    split; [exact H1|]. split; [exact H2|]. rewrite H3. lia.
Qed.

Lemma Replace_wellFormed (db : Db) (t : Table) (a : Z) (res : BatchRedeemResult.t) :
  wellFormed t ->
  wellFormed (fst (ReplaceRedeemLog db t (Model.RedeemCode.ID redeemCode) a
                     (Worker.outcomeOf message redeemCode res))).
Proof.
  unfold wellFormed. intros H.
  destruct (Replace_rows db t (Model.RedeemCode.ID redeemCode) a
              (Worker.outcomeOf message redeemCode res)) as [-> | ->];
    [exact H|].
  apply Forall_app. split.
  - rewrite List.Forall_forall in *. intros r Hr. apply filter_In in Hr as [Hr _]. auto.
  - constructor; [|constructor]. simpl.
    destruct (BatchRedeemResult.Success res); auto.
Qed.

Lemma writeLogs_wellFormed (results : list BatchRedeemResult.t) :
  forall (k : nat) (t : Table) (sc fc : Z),
    wellFormed t ->
    wellFormed (Worker.writeLogs w message redeemCode results k t sc fc).1.1.
Proof.
  induction results as [|res rest IH]; intros k t sc fc H; [exact H|].
  simpl. destruct (BatchRedeemResult.Success res); apply IH; apply Replace_wellFormed; exact H.
Qed.

End WorkerLogs.

(** A batch that returns has one result for each account. *)
Lemma RedeemBatch_results (world : nat -> AttemptWorld) (giftCode : string) (fuel : nat)
    (accounts : list Account.t) (now0 : Z) (out : Outcome) :
  RedeemBatch world giftCode fuel accounts now0 = Some out ->
  exists results, out = Returned results /\
    Permutation (map keyOfResult results) (map keyOfAccount accounts).
Proof.
  unfold RedeemBatch. intros H.
  destruct (loop world giftCode fuel (initial accounts now0)) as [[o sf]|] eqn:Hloop;
    [|discriminate].
  injection H as <-.
  apply loop_passes in Hloop as (-> & (n & _ & Hpass) & Hend).
  exists (results sf). split; [reflexivity|].
  eapply Inv_exit; [|exact Hend].
  eapply Inv_passes; [apply Inv_initial|exact Hpass].
Qed.

Lemma results_of_selected (results : list BatchRedeemResult.t) (sel : list Model.Account.t) :
  Permutation (map keyOfResult results) (map keyOfAccount (map Worker.toClient sel)) ->
  Permutation (map BatchRedeemResult.AccountID results) (map Model.Account.ID sel) /\
  Worker.len results = Worker.len sel.
Proof.
  intros H. split.
  - apply (Permutation_map fst) in H. rewrite !map_map in H. exact H.
  - apply Permutation_length in H. rewrite !length_map in H. unfold Worker.len. lia.
Qed.

Section WorkerJobs.

Import LogRepo LogQueries.

Lemma codeRow_update (f : Model.RedeemCode.t -> Model.RedeemCode.t)
    (codes : list Model.RedeemCode.t) (id : Z) :
  (forall c, Model.RedeemCode.ID (f c) = Model.RedeemCode.ID c) ->
  Worker.codeRow (map (fun c => if Model.RedeemCode.ID c =? id then f c else c) codes) id
    = f <$> Worker.codeRow codes id.
Proof.
  intros Hf. unfold Worker.codeRow.
  induction codes as [|c codes IH]; [reflexivity|]. simpl.
  destruct (Model.RedeemCode.ID c =? id) eqn:E.
  - rewrite Hf, E. reflexivity.
  - rewrite E. exact IH.
Qed.

Lemma FindRedeemCodeByID_codeRow (st : Stmt) (codes : list Model.RedeemCode.t) (id : Z)
    (redeemCode : Model.RedeemCode.t) :
  Worker.FindRedeemCodeByID st codes id = inl (Some redeemCode) ->
  Worker.codeRow codes id = Some redeemCode /\ Model.RedeemCode.ID redeemCode = id.
Proof.
  unfold Worker.FindRedeemCodeByID, Worker.codeRow.
  destruct (execError st); [discriminate|].
  destruct (find _ codes) as [c|] eqn:Hfind; [|discriminate].
  destruct (resultError st); [discriminate|]. intros [= ->].
  split; [reflexivity|]. apply find_some in Hfind as [_ H]. now apply Z.eqb_eq in H.
Qed.

(** The steps of a call of [processRedeemJob] that returns [nil]. *)
Lemma processRedeemJob_nil (w : Worker.World) (fuel : nat) (s s' : Worker.Store)
    (payload : Model.JobPayload.t) :
  Worker.processRedeemJob w fuel s payload = Some (None, s') ->
  exists redeemCode sel results,
    Worker.codeRow (Worker.codes s) (Model.JobPayload.RedeemCodeID payload) = Some redeemCode /\
    Model.RedeemCode.ID redeemCode = Model.JobPayload.RedeemCodeID payload /\
    Worker.selectAccounts w (Worker.accounts s) (Model.JobPayload.AccountIDs payload)
      = inl sel /\
    0 < Worker.len sel /\
    Permutation (map BatchRedeemResult.AccountID results) (map Model.Account.ID sel) /\
    Worker.len results = Worker.len sel /\
    let out := Worker.writeLogs w Worker.redeemMessage redeemCode results 0 (Worker.logs s) 0 0 in
    s' = Worker.mkStore (Worker.accounts s)
           (fst (Worker.UpdateRedeemCodeStatus None
                   (fst (Worker.UpdateRedeemCodeStats (Worker.updateStats w)
                           (fst (Worker.UpdateRedeemCodeStatus None (Worker.codes s)
                                   (Model.RedeemCode.ID redeemCode) "processing"
                                   (Worker.len sel)))
                           (Model.RedeemCode.ID redeemCode) out.1.2 out.2 (Worker.len sel)))
                   (Model.RedeemCode.ID redeemCode) "completed" (Worker.len sel)))
           out.1.1.
Proof.
  unfold Worker.processRedeemJob.
  destruct (Worker.FindRedeemCodeByID _ _ _) as [[redeemCode|]|e] eqn:Hfind; try discriminate.
  apply FindRedeemCodeByID_codeRow in Hfind as [Hrow Hid].
  destruct (Worker.selectAccounts _ _ _) as [sel|e] eqn:Hsel; [|discriminate].
  destruct (Worker.len sel =? 0) eqn:Hlen; [discriminate|].
  destruct (Worker.markProcessing w) as [e|]; [discriminate|]. cbn [Worker.UpdateRedeemCodeStatus].
  destruct (RedeemBatch _ _ _ _ _) as [out|] eqn:Hbatch; [|discriminate].
  apply RedeemBatch_results in Hbatch as (results & -> & Hperm).
  apply results_of_selected in Hperm as [Hperm Hlenr].
  destruct (Worker.writeLogs w Worker.redeemMessage redeemCode results 0 (Worker.logs s) 0 0)
    as [[logs' successCount] failedCount] eqn:Hwrite.
  destruct (Worker.markCompleted w) as [e|]; [discriminate|].
  intros [= <-]. exists redeemCode, sel, results.
  split; [exact Hrow|]. split; [exact Hid|]. split; [reflexivity|].
  split; [apply Z.eqb_neq in Hlen; unfold Worker.len in *; lia|].
  split; [exact Hperm|]. split; [exact Hlenr|]. cbv zeta. rewrite Hwrite. reflexivity.
Qed.

Lemma selected_bound (w : Worker.World) (table : list Model.Account.t) (ids : list Z)
    (sel : list Model.Account.t) :
  Worker.len table < 2 ^ 63 -> Worker.len ids < 2 ^ 63 ->
  Worker.selectAccounts w table ids = inl sel -> Worker.len sel < 2 ^ 63.
Proof.
  unfold Worker.len. intros Ht Hi H. apply selectAccounts_length in H. lia.
Qed.

Lemma participated_read (st : Stmt) (t : Table) (c : Z) (ids : list Z) :
  GetParticipatedAccountIDs st t c = inl ids ->
  ids = readRows st (remove_dups (map game_account_id (List.filter (ofCode c) (rows t)))).
Proof.
  unfold GetParticipatedAccountIDs. destruct (execError st); [discriminate|]. cbv zeta.
  destruct (resultError st); destruct (readRows st _); congruence.
Qed.

Lemma participants_iff (t : Table) (c a : Z) :
  In a (remove_dups (map game_account_id (List.filter (ofCode c) (rows t)))) <->
  Worker.logsOf t c a <> [].
Proof.
  unfold Worker.logsOf.
  rewrite <- list_elem_of_In, elem_of_remove_dups, list_elem_of_In, in_map_iff. split.
  - intros (r & Ha & Hr). apply filter_In in Hr as [Hr Hc].
    assert (Hin : In r (List.filter (samePair c a) (rows t))).
    { apply filter_In. split; [exact Hr|]. unfold samePair. unfold ofCode in Hc.
      rewrite Hc, Ha, Z.eqb_refl. reflexivity. }
    intros Hnil. rewrite Hnil in Hin. destruct Hin.
  - intros Hne. destruct (List.filter (samePair c a) (rows t)) as [|r l] eqn:E; [congruence|].
    assert (Hin : In r (List.filter (samePair c a) (rows t))) by (rewrite E; now left).
    apply filter_In in Hin as [Hr Hs]. unfold samePair in Hs.
    apply andb_prop in Hs as [Hc Ha]. apply Z.eqb_eq in Ha.
    exists r. split; [exact Ha|]. apply filter_In. split; [exact Hr|exact Hc].
Qed.

(** The accounts listed for a code have a log for it; when the rows are
    read to the end, every account with a log is listed. *)
Lemma participated_In (st : Stmt) (t : Table) (c : Z) (ids : list Z) :
  GetParticipatedAccountIDs st t c = inl ids ->
  forall a, In a ids -> Worker.logsOf t c a <> [].
Proof.
  intros H a Hin. apply participated_read in H. subst ids.
  apply readRows_In in Hin. apply participants_iff. exact Hin.
Qed.

Lemma participated_whole (st : Stmt) (t : Table) (c : Z) (ids : list Z) :
  rowsErr st = None -> GetParticipatedAccountIDs st t c = inl ids ->
  forall a, Worker.logsOf t c a <> [] -> In a ids.
Proof.
  intros Hrows H a Hne. apply participated_read in H. subst ids.
  rewrite readRows_whole by exact Hrows. apply participants_iff. exact Hne.
Qed.

Lemma newcomers_In (ids : list Z) (allAccounts : list Model.Account.t) (a : Model.Account.t) :
  In a (Worker.newcomers ids allAccounts) <->
  In a allAccounts /\ Model.Account.IsVerified a = true /\ ~ In (Model.Account.ID a) ids.
Proof.
  unfold Worker.newcomers. rewrite filter_In, andb_true_iff, negb_true_iff.
  assert (H : existsb (Z.eqb (Model.Account.ID a)) ids = false <-> ~ In (Model.Account.ID a) ids).
  { rewrite <- not_true_iff_false, existsb_exists. split; intros H Hin; apply H.
    - exists (Model.Account.ID a). split; [exact Hin|apply Z.eqb_refl].
    - destruct Hin as (x & Hx & Heq). apply Z.eqb_eq in Heq. now subst. }
  rewrite H. tauto.
Qed.

(** The steps of a call of [processSupplementRedeemJob] that returns
    [nil]: there was no newcomer and nothing has changed, or the newcomers
    were redeemed. *)
Lemma processSupplementRedeemJob_nil (w : Worker.World) (fuel : nat) (s s' : Worker.Store)
    (payload : Model.JobPayload.t) :
  Worker.processSupplementRedeemJob w fuel s payload = Some (None, s') ->
  exists redeemCode new results,
    Worker.codeRow (Worker.codes s) (Model.JobPayload.RedeemCodeID payload) = Some redeemCode /\
    Model.RedeemCode.ID redeemCode = Model.JobPayload.RedeemCodeID payload /\
    (forall a, In a new ->
       In a (Worker.accounts s) /\ Model.Account.IsActive a = true /\
       Model.Account.IsVerified a = true) /\
    (rowsErr (Worker.participated w) = None ->
     forall a, In a new ->
       Worker.logsOf (Worker.logs s) (Model.JobPayload.RedeemCodeID payload)
         (Model.Account.ID a) = []) /\
    (rowsErr (Worker.getActive w 0) = None ->
     forall a, In a (Worker.accounts s) -> Model.Account.IsActive a = true ->
       Model.Account.IsVerified a = true ->
       Worker.logsOf (Worker.logs s) (Model.JobPayload.RedeemCodeID payload)
         (Model.Account.ID a) = [] -> In a new) /\
    ((new = [] /\ s' = s) \/
     (new <> [] /\
      Permutation (map BatchRedeemResult.AccountID results) (map Model.Account.ID new) /\
      let logs' :=
        (Worker.writeLogs w Worker.supplementMessage redeemCode results 0
           (Worker.logs s) 0 0).1.1 in
      s' = Worker.mkStore (Worker.accounts s)
             match GetLogStats (Worker.logStats w) logs' (Model.RedeemCode.ID redeemCode) with
             | inr _ => Worker.codes s
             | inl (total, success, failed) =>
                 fst (Worker.UpdateRedeemCodeStats (Worker.updateStats w) (Worker.codes s)
                        (Model.RedeemCode.ID redeemCode) success failed total)
             end
             logs')).
Proof.
  unfold Worker.processSupplementRedeemJob.
  destruct (Worker.FindRedeemCodeByID _ _ _) as [[redeemCode|]|e] eqn:Hfind; try discriminate.
  apply FindRedeemCodeByID_codeRow in Hfind as [Hrow Hid].
  destruct (GetParticipatedAccountIDs _ _ _) as [ids|e] eqn:Hids; [|discriminate].
  destruct (Worker.GetActive _ _) as [allAccounts|e] eqn:Hget; [|discriminate].
  pose proof (GetActive_In _ _ _ Hget) as Hact. cbv zeta.
  set (new := Worker.newcomers ids allAccounts).
  assert (Hnew1 : forall a, In a new ->
            In a (Worker.accounts s) /\ Model.Account.IsActive a = true /\
            Model.Account.IsVerified a = true).
  { intros a Ha. apply newcomers_In in Ha as (Hin & Hv & _).
    apply Hact in Hin as [Hin Hactive]. auto. }
  assert (Hnew2 : rowsErr (Worker.participated w) = None ->
            forall a, In a new ->
              Worker.logsOf (Worker.logs s) (Model.JobPayload.RedeemCodeID payload)
                (Model.Account.ID a) = []).
  { intros Hwhole a Ha. apply newcomers_In in Ha as (_ & _ & Hn).
    destruct (Worker.logsOf (Worker.logs s) (Model.JobPayload.RedeemCodeID payload)
                (Model.Account.ID a)) eqn:E; [reflexivity|].
    exfalso. apply Hn. apply (participated_whole _ _ _ _ Hwhole Hids).
    rewrite E. discriminate. }
  assert (Hnew3 : rowsErr (Worker.getActive w 0) = None ->
            forall a, In a (Worker.accounts s) -> Model.Account.IsActive a = true ->
              Model.Account.IsVerified a = true ->
              Worker.logsOf (Worker.logs s) (Model.JobPayload.RedeemCodeID payload)
                (Model.Account.ID a) = [] -> In a new).
  { intros Hwhole a Hin Hactive Hv Hnil. apply newcomers_In.
    split; [apply (GetActive_whole _ _ _ Hwhole Hget); assumption|].
    split; [exact Hv|]. intros Hp. apply (participated_In _ _ _ _ Hids) in Hp.
    contradiction. }
  destruct (Worker.len new =? 0) eqn:Hlen.
  - intros [= <-]. exists redeemCode, new, []. split; [exact Hrow|]. split; [exact Hid|].
    split; [exact Hnew1|]. split; [exact Hnew2|]. split; [exact Hnew3|].
    left. split; [|reflexivity].
    apply Z.eqb_eq in Hlen. unfold Worker.len in Hlen. destruct new; [reflexivity|].
    simpl in Hlen. lia.
  - destruct (RedeemBatch _ _ _ _ _) as [out|] eqn:Hbatch; [|discriminate].
    apply RedeemBatch_results in Hbatch as (results & -> & Hperm).
    apply results_of_selected in Hperm as [Hperm _].
    destruct (Worker.writeLogs w Worker.supplementMessage redeemCode results 0
                (Worker.logs s) 0 0) as [[logs' successCount] failedCount] eqn:Hwrite.
    intros [= <-]. exists redeemCode, new, results.
    split; [exact Hrow|]. split; [exact Hid|].
    split; [exact Hnew1|]. split; [exact Hnew2|]. split; [exact Hnew3|].
    right. split; [intros Hnil; rewrite Hnil in Hlen; discriminate|].
    split; [exact Hperm|]. cbv zeta. rewrite Hwrite. reflexivity.
Qed.

Lemma stats_add_up (l : list RedeemLog) :
  Forall (fun r => result r = "success"%string \/ result r = "failed"%string) l ->
  count (fun r => String.eqb (result r) "success") l
    + count (fun r => String.eqb (result r) "failed") l = Z.of_nat (length l).
Proof.
  unfold count. induction 1 as [|r l Hr _ IH]; [reflexivity|]. simpl.
  destruct Hr as [-> | ->]; simpl; lia.
Qed.

End WorkerJobs.

Section WorkerCodes.

Lemma codeRow_UpdateRedeemCodeStatus (codes : list Model.RedeemCode.t) (id : Z)
    (status : string) (total : Z) :
  Worker.codeRow (fst (Worker.UpdateRedeemCodeStatus None codes id status total)) id
    = (fun c => Model.RedeemCode.mk (Model.RedeemCode.ID c) (Model.RedeemCode.Code c)
                  status (Model.RedeemCode.IsLong c) total
                  (Model.RedeemCode.SuccessCount c) (Model.RedeemCode.FailedCount c)
                  (Model.RedeemCode.CreatedAt c)) <$> Worker.codeRow codes id.
Proof.
  apply (codeRow_update
           (fun c => Model.RedeemCode.mk (Model.RedeemCode.ID c) (Model.RedeemCode.Code c)
                       status (Model.RedeemCode.IsLong c) total
                       (Model.RedeemCode.SuccessCount c) (Model.RedeemCode.FailedCount c)
                       (Model.RedeemCode.CreatedAt c))).
  reflexivity.
Qed.

Lemma codeRow_UpdateRedeemCodeStats (codes : list Model.RedeemCode.t)
    (id successCount failedCount total : Z) :
  Worker.codeRow
    (fst (Worker.UpdateRedeemCodeStats None codes id successCount failedCount total)) id
    = (fun c => Model.RedeemCode.mk (Model.RedeemCode.ID c) (Model.RedeemCode.Code c)
                  (Model.RedeemCode.Status c) (Model.RedeemCode.IsLong c) total
                  successCount failedCount (Model.RedeemCode.CreatedAt c))
        <$> Worker.codeRow codes id.
Proof.
  apply (codeRow_update
           (fun c => Model.RedeemCode.mk (Model.RedeemCode.ID c) (Model.RedeemCode.Code c)
                       (Model.RedeemCode.Status c) (Model.RedeemCode.IsLong c) total
                       successCount failedCount (Model.RedeemCode.CreatedAt c))).
  reflexivity.
Qed.

Lemma UpdateRedeemCodeStats_status (err : option string) (codes : list Model.RedeemCode.t)
    (id successCount failedCount total : Z) :
  map Model.RedeemCode.Status
      (fst (Worker.UpdateRedeemCodeStats err codes id successCount failedCount total))
    = map Model.RedeemCode.Status codes.
Proof.
  destruct err; [reflexivity|]. simpl. rewrite map_map. apply map_ext.
  intros c. destruct (Model.RedeemCode.ID c =? id); reflexivity.
Qed.

End WorkerCodes.

(** X26. The accounts of a redeem job are active accounts of the table.
    For a payload without [AccountIDs] they are verified, and when the
    query reads its rows to the end they are all the active accounts that
    are verified.  For a payload with [AccountIDs] they are named by it,
    at most one for each id it lists, with no look at whether they are
    verified: when the queries read their rows to the end, an active
    account that the payload names is taken whether it is verified or
    not.  An id without an active account is passed over.  (The loops
    over the rows do not look at the error of the iteration: a query that
    breaks off gives the accounts read so far.) *)
Theorem named_accounts_skip_the_verified_check (w : Worker.World)
    (table : list Model.Account.t) (ids : list Z) (sel : list Model.Account.t) :
  Worker.selectAccounts w table ids = inl sel ->
  (forall a, In a sel -> In a table /\ Model.Account.IsActive a = true) /\
  (ids = [] ->
   (forall a, In a sel -> Model.Account.IsVerified a = true) /\
   (LogQueries.rowsErr (Worker.getActive w 0) = None ->
    forall a, In a table -> Model.Account.IsActive a = true ->
      Model.Account.IsVerified a = true -> In a sel)) /\
  (ids <> [] ->
   (length sel <= length ids)%nat /\
   (forall a, In a sel -> In (Model.Account.ID a) ids) /\
   (Worker.wholeAccounts w ->
    forall a, In a table -> Model.Account.IsActive a = true ->
      In (Model.Account.ID a) ids ->
      exists a', In a' sel /\ Model.Account.ID a' = Model.Account.ID a)).
Proof. apply selectAccounts_spec. Qed.

Lemma named_accounts_skip_the_verified_check_witness :
  let sel := [Model.Account.mk 2 "fid-2" true false 20] in
  Worker.selectAccounts SampleWorker.smooth SampleWorker.table [2; 3; 4] = inl sel /\
  (forall a, In a sel -> In a SampleWorker.table /\ Model.Account.IsActive a = true) /\
  (forall a, In a sel -> In (Model.Account.ID a) [2; 3; 4]) /\
  (forall a, In a SampleWorker.table -> Model.Account.IsActive a = true ->
     In (Model.Account.ID a) [2; 3; 4] ->
     exists a', In a' sel /\ Model.Account.ID a' = Model.Account.ID a).
Proof.
  intros sel. split; [reflexivity|].
  destruct (named_accounts_skip_the_verified_check SampleWorker.smooth SampleWorker.table
              [2; 3; 4] sel eq_refl) as (Hact & _ & Hnamed).
  destruct Hnamed as (_ & Hids & Hall); [discriminate|].
  split; [exact Hact|]. split; [exact Hids|]. apply Hall. intros k. reflexivity.
Defined.

(** X27. When [processRedeemJob] returns [nil] and the statement that
    writes the statistics did not fail, the row of the code is
    [completed], its total is the number of accounts of the job, which is
    not zero, and its success and failure counts add up to the total. *)
Theorem processRedeemJob_counts_add_up (w : Worker.World) (fuel : nat)
    (s s' : Worker.Store) (payload : Model.JobPayload.t) :
  Worker.len (Worker.accounts s) < 2 ^ 63 ->
  Worker.len (Model.JobPayload.AccountIDs payload) < 2 ^ 63 ->
  Worker.updateStats w = None ->
  Worker.processRedeemJob w fuel s payload = Some (None, s') ->
  exists sel c,
    Worker.selectAccounts w (Worker.accounts s) (Model.JobPayload.AccountIDs payload)
      = inl sel /\
    Worker.codeRow (Worker.codes s') (Model.JobPayload.RedeemCodeID payload) = Some c /\
    Model.RedeemCode.Status c = "completed"%string /\
    Model.RedeemCode.TotalAccounts c = Worker.len sel /\
    0 < Worker.len sel /\
    0 <= Model.RedeemCode.SuccessCount c /\
    0 <= Model.RedeemCode.FailedCount c /\
    Model.RedeemCode.SuccessCount c + Model.RedeemCode.FailedCount c = Worker.len sel.
Proof.
  intros Ht Hi Hstats H.
  apply processRedeemJob_nil in H
    as (redeemCode & sel & results & Hrow & Hid & Hsel & Hpos & _ & Hlen & Hs').
  cbv zeta in Hs'. subst s'. cbn [Worker.codes]. rewrite Hstats, Hid.
  rewrite codeRow_UpdateRedeemCodeStatus, codeRow_UpdateRedeemCodeStats,
    codeRow_UpdateRedeemCodeStatus, Hrow.
  pose proof (selected_bound _ _ _ _ Ht Hi Hsel) as Hb.
  destruct (writeLogs_counts w Worker.redeemMessage redeemCode results 0 (Worker.logs s) 0 0)
    as (H1 & H2 & H3); [lia|lia|lia|].
  exists sel. eexists. split; [exact Hsel|]. split; [reflexivity|]. simpl.
  split; [reflexivity|]. split; [reflexivity|]. split; [exact Hpos|].
  split; [exact H1|]. split; [exact H2|]. lia.
Qed.

Lemma processRedeemJob_counts_add_up_witness :
  exists s',
    Worker.processRedeemJob SampleWorker.smooth 5 SampleWorker.store SampleWorker.toSecond
      = Some (None, s') /\
    exists sel c,
      Worker.selectAccounts SampleWorker.smooth (Worker.accounts SampleWorker.store)
        (Model.JobPayload.AccountIDs SampleWorker.toSecond) = inl sel /\
      Worker.codeRow (Worker.codes s') (Model.JobPayload.RedeemCodeID SampleWorker.toSecond)
        = Some c /\
      Model.RedeemCode.Status c = "completed"%string /\
      Model.RedeemCode.TotalAccounts c = Worker.len sel /\
      0 < Worker.len sel /\
      0 <= Model.RedeemCode.SuccessCount c /\
      0 <= Model.RedeemCode.FailedCount c /\
      Model.RedeemCode.SuccessCount c + Model.RedeemCode.FailedCount c = Worker.len sel.
Proof.
  eexists. split; [vm_compute; reflexivity|].
  apply (processRedeemJob_counts_add_up SampleWorker.smooth 5 SampleWorker.store _
           SampleWorker.toSecond); vm_compute; reflexivity.
Defined.

(** X28. When [processRedeemJob] returns [nil] and every log was written,
    each account of the job has exactly one log for the code, with the
    text of the code and the result [success] or [failed].  Whether the
    logs were written or not, the logs of the code for other accounts and
    the logs of other codes are as before. *)
Theorem processRedeemJob_logs_every_account (w : Worker.World) (fuel : nat)
    (s s' : Worker.Store) (payload : Model.JobPayload.t) :
  Worker.processRedeemJob w fuel s payload = Some (None, s') ->
  exists sel redeemCode,
    Worker.selectAccounts w (Worker.accounts s) (Model.JobPayload.AccountIDs payload)
      = inl sel /\
    Worker.codeRow (Worker.codes s) (Model.JobPayload.RedeemCodeID payload)
      = Some redeemCode /\
    (Worker.healthyLogs w ->
     forall a, In a sel ->
       exists row,
         Worker.logsOf (Worker.logs s') (Model.JobPayload.RedeemCodeID payload)
           (Model.Account.ID a) = [row] /\
         LogRepo.code row = Model.RedeemCode.Code redeemCode /\
         (LogRepo.result row = "success"%string \/ LogRepo.result row = "failed"%string)) /\
    (forall a, ~ In a (map Model.Account.ID sel) ->
       Worker.logsOf (Worker.logs s') (Model.JobPayload.RedeemCodeID payload) a
         = Worker.logsOf (Worker.logs s) (Model.JobPayload.RedeemCodeID payload) a) /\
    (forall c', c' <> Model.JobPayload.RedeemCodeID payload ->
       List.filter (LogQueries.ofCode c') (LogRepo.rows (Worker.logs s'))
         = List.filter (LogQueries.ofCode c') (LogRepo.rows (Worker.logs s))).
Proof.
  intros H.
  apply processRedeemJob_nil in H
    as (redeemCode & sel & results & Hrow & Hid & Hsel & _ & Hperm & _ & Hs').
  cbv zeta in Hs'. subst s'. cbn [Worker.logs]. rewrite <- Hid.
  exists sel, redeemCode. split; [exact Hsel|]. split; [rewrite Hid; exact Hrow|].
  split; [|split].
  - intros Hw a Ha.
    assert (Hin : In (Model.Account.ID a) (map BatchRedeemResult.AccountID results)).
    { eapply Permutation_in; [symmetry; exact Hperm|]. apply in_map. exact Ha. }
    destruct (writeLogs_this_account w Worker.redeemMessage redeemCode Hw _ results 0
                (Worker.logs s) 0 0 Hin) as (row & res & Hl & _ & _ & _ & Hcode & Hres).
    exists row. split; [exact Hl|]. split; [exact Hcode|].
    rewrite Hres. destruct (BatchRedeemResult.Success res); auto.
  - intros a Ha. apply writeLogs_other_account. intros Hin. apply Ha.
    eapply Permutation_in; [exact Hperm|exact Hin].
  - intros c' Hne. apply writeLogs_other_code. exact Hne.
Qed.

Lemma processRedeemJob_logs_every_account_witness :
  exists s',
    Worker.processRedeemJob SampleWorker.smooth 5 SampleWorker.store SampleWorker.toAll
      = Some (None, s') /\
    exists sel redeemCode,
      Worker.selectAccounts SampleWorker.smooth (Worker.accounts SampleWorker.store)
        (Model.JobPayload.AccountIDs SampleWorker.toAll) = inl sel /\
      Worker.codeRow (Worker.codes SampleWorker.store)
        (Model.JobPayload.RedeemCodeID SampleWorker.toAll) = Some redeemCode /\
      (Worker.healthyLogs SampleWorker.smooth ->
       forall a, In a sel ->
         exists row,
           Worker.logsOf (Worker.logs s') (Model.JobPayload.RedeemCodeID SampleWorker.toAll)
             (Model.Account.ID a) = [row] /\
           LogRepo.code row = Model.RedeemCode.Code redeemCode /\
           (LogRepo.result row = "success"%string \/ LogRepo.result row = "failed"%string)) /\
      (forall a, ~ In a (map Model.Account.ID sel) ->
         Worker.logsOf (Worker.logs s') (Model.JobPayload.RedeemCodeID SampleWorker.toAll) a
           = Worker.logsOf (Worker.logs SampleWorker.store)
               (Model.JobPayload.RedeemCodeID SampleWorker.toAll) a) /\
      (forall c', c' <> Model.JobPayload.RedeemCodeID SampleWorker.toAll ->
         List.filter (LogQueries.ofCode c') (LogRepo.rows (Worker.logs s'))
           = List.filter (LogQueries.ofCode c')
               (LogRepo.rows (Worker.logs SampleWorker.store))).
Proof.
  eexists. split; [vm_compute; reflexivity|].
  apply (processRedeemJob_logs_every_account SampleWorker.smooth 5 SampleWorker.store _
           SampleWorker.toAll); vm_compute; reflexivity.
Defined.

(** X29. When [processSupplementRedeemJob] returns [nil], the status of
    every code is as before.  When the list of the accounts that took
    part was read to the end, an account that had a log for the code
    keeps its logs as they were, so that it is not redeemed again, and
    when every active and verified account had a log for the code,
    nothing has changed at all.  When the list of the active accounts was
    read to the end and every log was written, every active and verified
    account has a log for the code afterwards.  (The loops over the rows
    do not look at the error of the iteration: a query that breaks off
    gives the rows read so far.) *)
Theorem supplement_covers_every_verified_account (w : Worker.World) (fuel : nat)
    (s s' : Worker.Store) (payload : Model.JobPayload.t) :
  Worker.processSupplementRedeemJob w fuel s payload = Some (None, s') ->
  map Model.RedeemCode.Status (Worker.codes s')
    = map Model.RedeemCode.Status (Worker.codes s) /\
  (LogQueries.rowsErr (Worker.participated w) = None ->
   (forall a, Worker.logsOf (Worker.logs s) (Model.JobPayload.RedeemCodeID payload) a <> [] ->
      Worker.logsOf (Worker.logs s') (Model.JobPayload.RedeemCodeID payload) a
        = Worker.logsOf (Worker.logs s) (Model.JobPayload.RedeemCodeID payload) a) /\
   ((forall a, In a (Worker.accounts s) -> Model.Account.IsActive a = true ->
       Model.Account.IsVerified a = true ->
       Worker.logsOf (Worker.logs s) (Model.JobPayload.RedeemCodeID payload)
         (Model.Account.ID a) <> []) ->
    s' = s)) /\
  (LogQueries.rowsErr (Worker.getActive w 0) = None ->
   Worker.healthyLogs w ->
   forall a, In a (Worker.accounts s) -> Model.Account.IsActive a = true ->
     Model.Account.IsVerified a = true ->
     Worker.logsOf (Worker.logs s') (Model.JobPayload.RedeemCodeID payload)
       (Model.Account.ID a) <> []).
Proof.
  intros H.
  apply processSupplementRedeemJob_nil in H
    as (redeemCode & new & results & Hrow & Hid & Hnew1 & Hnew2 & Hnew3
        & [[Hnil ->]|(Hsome & Hperm & Hs')]).
  - split; [reflexivity|]. split; [intros _; split; reflexivity|].
    intros Hwhole _ a Ha Hact Hv Hlogs.
    assert (Hin : In a new) by (apply Hnew3; assumption).
    rewrite Hnil in Hin. destruct Hin.
  - cbv zeta in Hs'. split; [|split].
    + subst s'. cbn [Worker.codes].
      destruct (LogQueries.GetLogStats _ _ _) as [[[total success] failed]|e];
        [apply UpdateRedeemCodeStats_status|reflexivity].
    + intros Hwhole. split.
      * intros a Hne. subst s'. cbn [Worker.logs]. rewrite <- Hid.
        apply writeLogs_other_account. intros Hin.
        apply (Permutation_in _ Hperm) in Hin.
        apply in_map_iff in Hin as (acc & <- & Hacc).
        apply (Hnew2 Hwhole) in Hacc. contradiction.
      * intros Hall. exfalso. apply Hsome.
        destruct new as [|a new']; [reflexivity|]. exfalso.
        destruct (Hnew1 a) as (Ha & Hact & Hv); [now left|].
        apply (Hall a Ha Hact Hv). apply (Hnew2 Hwhole). now left.
    + intros Hwhole Hw a Ha Hact Hv. subst s'. cbn [Worker.logs]. rewrite <- Hid.
      destruct (in_dec Z.eq_dec (Model.Account.ID a)
                  (map BatchRedeemResult.AccountID results)) as [Hin|Hnot].
      * destruct (writeLogs_this_account w Worker.supplementMessage redeemCode Hw _ results 0
                    (Worker.logs s) 0 0 Hin) as (row & _ & -> & _). discriminate.
      * rewrite writeLogs_other_account by exact Hnot. rewrite Hid. intros Hlogs.
        apply Hnot. eapply Permutation_in; [symmetry; exact Hperm|].
        apply in_map. apply Hnew3; assumption.
Qed.

Lemma supplement_covers_every_verified_account_witness :
  exists s',
    Worker.processSupplementRedeemJob SampleWorker.smooth 5 SampleWorker.store
      SampleWorker.toAll = Some (None, s') /\
    map Model.RedeemCode.Status (Worker.codes s')
      = map Model.RedeemCode.Status (Worker.codes SampleWorker.store) /\
    (forall a,
       Worker.logsOf (Worker.logs SampleWorker.store)
         (Model.JobPayload.RedeemCodeID SampleWorker.toAll) a <> [] ->
       Worker.logsOf (Worker.logs s') (Model.JobPayload.RedeemCodeID SampleWorker.toAll) a
         = Worker.logsOf (Worker.logs SampleWorker.store)
             (Model.JobPayload.RedeemCodeID SampleWorker.toAll) a) /\
    (Worker.healthyLogs SampleWorker.smooth ->
     forall a, In a (Worker.accounts SampleWorker.store) ->
       Model.Account.IsActive a = true -> Model.Account.IsVerified a = true ->
       Worker.logsOf (Worker.logs s') (Model.JobPayload.RedeemCodeID SampleWorker.toAll)
         (Model.Account.ID a) <> []).
Proof.
  eexists.
  assert (Hrun : Worker.processSupplementRedeemJob SampleWorker.smooth 5 SampleWorker.store
                   SampleWorker.toAll = Some (None, _)) by (vm_compute; reflexivity).
  split; [exact Hrun|].
  destruct (supplement_covers_every_verified_account SampleWorker.smooth 5 SampleWorker.store
              _ SampleWorker.toAll Hrun) as (Hst & Hpart & Hcover).
  split; [exact Hst|]. split.
  - apply Hpart. reflexivity.
  - apply Hcover. reflexivity.
Defined.

(** X30. When [processSupplementRedeemJob] returns [nil] after redeeming
    newcomers, and the statements of the statistics did not fail, the row
    of the code carries the counts of the logs of the code as they are
    after the job: their number, and the numbers of those with the result
    [success] and [failed].  On a table where every log has one of these
    two results the success and failure counts add up to the total. *)
Theorem supplement_stats_match_the_logs (w : Worker.World) (fuel : nat)
    (s s' : Worker.Store) (payload : Model.JobPayload.t) :
  LogQueries.execError (Worker.logStats w) = None ->
  LogQueries.resultError (Worker.logStats w) = None ->
  Worker.updateStats w = None ->
  Worker.processSupplementRedeemJob w fuel s payload = Some (None, s') ->
  s' = s \/
  exists c,
    Worker.codeRow (Worker.codes s') (Model.JobPayload.RedeemCodeID payload) = Some c /\
    Model.RedeemCode.TotalAccounts c
      = Worker.len (List.filter (LogQueries.ofCode (Model.JobPayload.RedeemCodeID payload))
                      (LogRepo.rows (Worker.logs s'))) /\
    Model.RedeemCode.SuccessCount c
      = LogQueries.count (fun r => String.eqb (LogRepo.result r) "success")
          (List.filter (LogQueries.ofCode (Model.JobPayload.RedeemCodeID payload))
             (LogRepo.rows (Worker.logs s'))) /\
    Model.RedeemCode.FailedCount c
      = LogQueries.count (fun r => String.eqb (LogRepo.result r) "failed")
          (List.filter (LogQueries.ofCode (Model.JobPayload.RedeemCodeID payload))
             (LogRepo.rows (Worker.logs s'))) /\
    (LogQueries.wellFormed (Worker.logs s) ->
     Model.RedeemCode.SuccessCount c + Model.RedeemCode.FailedCount c
       = Model.RedeemCode.TotalAccounts c).
Proof.
  intros He Hr Hstats H.
  apply processSupplementRedeemJob_nil in H
    as (redeemCode & new & results & Hrow & Hid & _ & _ & _ & [[_ ->]|(_ & _ & Hs')]);
    [now left|right].
  cbv zeta in Hs'. subst s'. cbn [Worker.codes Worker.logs].
  unfold LogQueries.GetLogStats. rewrite He, Hr, Hstats, Hid.
  rewrite codeRow_UpdateRedeemCodeStats, Hrow.
  eexists. split; [reflexivity|]. simpl.
  split; [reflexivity|]. split; [reflexivity|]. split; [reflexivity|].
  intros Hwf. apply stats_add_up.
  apply (writeLogs_wellFormed w Worker.supplementMessage redeemCode results 0 _ 0 0) in Hwf.
  unfold LogQueries.wellFormed in Hwf. rewrite List.Forall_forall in *.
  intros r Hin. apply filter_In in Hin as [Hin _]. auto.
Qed.

Lemma supplement_stats_match_the_logs_witness :
  exists s',
    Worker.processSupplementRedeemJob SampleWorker.smooth 5 SampleWorker.store
      SampleWorker.toAll = Some (None, s') /\
    (s' = SampleWorker.store \/
     exists c,
       Worker.codeRow (Worker.codes s') (Model.JobPayload.RedeemCodeID SampleWorker.toAll)
         = Some c /\
       Model.RedeemCode.TotalAccounts c
         = Worker.len (List.filter
                         (LogQueries.ofCode (Model.JobPayload.RedeemCodeID SampleWorker.toAll))
                         (LogRepo.rows (Worker.logs s'))) /\
       Model.RedeemCode.SuccessCount c
         = LogQueries.count (fun r => String.eqb (LogRepo.result r) "success")
             (List.filter
                (LogQueries.ofCode (Model.JobPayload.RedeemCodeID SampleWorker.toAll))
                (LogRepo.rows (Worker.logs s'))) /\
       Model.RedeemCode.FailedCount c
         = LogQueries.count (fun r => String.eqb (LogRepo.result r) "failed")
             (List.filter
                (LogQueries.ofCode (Model.JobPayload.RedeemCodeID SampleWorker.toAll))
                (LogRepo.rows (Worker.logs s'))) /\
       (LogQueries.wellFormed (Worker.logs SampleWorker.store) ->
        Model.RedeemCode.SuccessCount c + Model.RedeemCode.FailedCount c
          = Model.RedeemCode.TotalAccounts c)).
Proof.
  eexists. split; [vm_compute; reflexivity|].
  apply (supplement_stats_match_the_logs SampleWorker.smooth 5 SampleWorker.store _
           SampleWorker.toAll); vm_compute; reflexivity.
Defined.
